(** * HSerial: the access-arbitration core

    A shallow embedding of the controller/access machinery of the HSerial
    library (HSerialController.cpp, HSerialAccess.cpp, HSerial.cpp) and
    the properties of its transition protocol.

    Conventions.
    - A controller object is identified by its address, a [nat]; a
      possibly-NULL pointer is an [option ctrl].
    - C++ [int] and [size_t] counters are [Z] and [N]; the traversal depth
      [degree] never comes near the range of [int], so its overflow is not
      written out.
    - Code that may throw returns a [result]; recursion that follows the
      delegate pointers takes a [fuel] argument and answers [OutOfFuel]
      when it is exhausted. *)

From Stdlib Require Import List ZArith NArith Lia Bool String Arith PeanoNat.
From Stdlib Require Import Wellfounded DecimalString HexString RelationClasses.
Import ListNotations.

Local Open Scope string_scope.
Local Open Scope list_scope.
Local Open Scope nat_scope.

(** ** Common vocabulary *)

Definition ctrl := nat.
Definition thread := nat.

(** The exception classes the library throws (HSerialExceptions.hpp and
    <stdexcept>); [driver_error] stands for whatever the wrapped
    [serial::Serial] object or a controller's own code throws. *)
Inductive exn : Type :=
| ControllerRefuses (refusingController : ctrl) (description : string)
| NotActiveController (description : string)
| logic_error (what : string)
| invalid_argument (what : string)
| driver_error (what : string).

(** How a call ends.  [Blocked]: the calling thread waits on a mutex or a
    condition variable that nothing on this thread will release.
    [Terminate]: an exception left a [noexcept] function. *)
Inductive result (A : Type) : Type :=
| Ok (a : A)
| Throw (e : exn)
| Blocked
| Terminate
| OutOfFuel.

Arguments Ok {A} a.
Arguments Throw {A} e.
Arguments Blocked {A}.
Arguments Terminate {A}.
Arguments OutOfFuel {A}.

(** ** The delegation graph (HSerialController.cpp, "Delegation") *)

Module Delegation.

(** The [delegates] vector of every controller object. *)
Definition graph := ctrl -> list ctrl.

Definition no_delegates : graph := fun _ => [].

Definition push_back (g : graph) (this delegate : ctrl) : graph :=
  fun x => if Nat.eqb x this then g x ++ [delegate] else g x.

Definition hasAsFirstDegreeDelegate (g : graph) (this : ctrl)
    (otherController : option ctrl) : bool :=
  match otherController with
  | None => false
  | Some o => existsb (Nat.eqb o) (g this)
  end.

(** The range-for over [delegates] in [hasAsDelegateOrSubdelegate], with
    the recursive call abstracted as [rec]. *)
Fixpoint scan_delegates (rec : ctrl -> option bool) (o : ctrl)
    (xs : list ctrl) : option bool :=
  match xs with
  | [] => Some false
  | x :: xs' =>
      if Nat.eqb x o then Some true
      else match rec x with
           | None => None
           | Some true => Some true
           | Some false => scan_delegates rec o xs'
           end
  end.

Fixpoint hasAsDelegateOrSubdelegate (fuel : nat) (g : graph) (this : ctrl)
    (otherController : option ctrl) : option bool :=
  match fuel with
  | 0 => None
  | S fuel' =>
      match otherController with
      | None => Some false
      | Some o =>
          scan_delegates
            (fun x => hasAsDelegateOrSubdelegate fuel' g x otherController)
            o (g this)
      end
  end.

Definition registerDelegate (fuel : nat) (g : graph) (this : ctrl)
    (delegate : option ctrl) : result graph :=
  match delegate with
  | None => Throw (invalid_argument "A delegate must be a non-NULL controller.")
  | Some d =>
      if Nat.eqb this d then
        Throw (invalid_argument "A controller cannot delegate to itself.")
      else if hasAsFirstDegreeDelegate g this delegate then
        Throw (invalid_argument
                 "Cannot add a delegate more than once to the same controller.")
      else match hasAsDelegateOrSubdelegate fuel g d (Some this) with
           | None => OutOfFuel
           | Some true =>
               Throw (invalid_argument "Delegation cycles are not allowed.")
           | Some false => Ok (push_back g this d)
           end
  end.

(** [appendDelegatesOfDegree] for [degree >= 0]; the recursion is on the
    degree, which the source decrements before descending. *)
Fixpoint appendDelegatesOfDegree_from (g : graph) (degree : nat)
    (this : ctrl) (lst : list ctrl) : list ctrl * N :=
  match degree with
  | 0 => (lst ++ [this], 1%N)
  | S degree' =>
      fold_left
        (fun (acc : list ctrl * N) (x : ctrl) =>
           let r := appendDelegatesOfDegree_from g degree' x (fst acc) in
           (fst r, (snd acc + snd r)%N))
        (g this) (lst, 0%N)
  end.

Definition appendDelegatesOfDegree (g : graph) (this : ctrl)
    (lst : list ctrl) (degree : Z) : list ctrl * N :=
  if (degree <? 0)%Z then (lst, 0%N)
  else appendDelegatesOfDegree_from g (Z.to_nat degree) this lst.

(** The do-while loop of [getControllersList]. *)
Fixpoint getControllersList_loop (fuel : nat) (g : graph) (this : ctrl)
    (lst : list ctrl) (degree : Z) : option (list ctrl) :=
  match fuel with
  | 0 => None
  | S fuel' =>
      let r := appendDelegatesOfDegree g this lst degree in
      if (0 <? snd r)%N
      then getControllersList_loop fuel' g this (fst r) (degree + 1)%Z
      else Some (fst r)
  end.

Definition getControllersList (fuel : nat) (g : graph) (this : ctrl)
    : option (list ctrl) :=
  getControllersList_loop fuel g this [this] 1%Z.

(** Graphs that arise from construction: every edge was added by a
    [registerDelegate] call that returned normally. *)
Inductive registered : graph -> Prop :=
| registered_none : registered no_delegates
| registered_step g fuel this delegate g' :
    registered g ->
    registerDelegate fuel g this delegate = Ok g' ->
    registered g'.

(** [x] is a delegate of [y]. *)
Definition delegate_of (g : graph) (x y : ctrl) : Prop := In x (g y).

(** Well-foundedness of the delegate relation: no infinite descent
    through delegates, hence no cycle. *)
Definition acyclic (g : graph) : Prop := forall c, Acc (delegate_of g) c.

End Delegation.

(** ** Controllers and their callbacks *)

(** The transition callbacks of HSerialController (virtual functions). *)
Inductive Callback : Type :=
| WillRemove | DidCancelRemove | DidRemove | DidAdd
| WillMakeInactive | DidCancelMakeInactive | DidMakeInactive
| WillMakeActive | DidMakeActive.

(** Callbacks declared [noexcept] in HSerialController.hpp. *)
Definition is_noexcept (cb : Callback) : bool :=
  match cb with
  | WillRemove | WillMakeInactive | DidMakeActive => false
  | _ => true
  end.

(** The access functions HSerialAccess forwards to [serial::Serial]
    (overloads share one name, as they share [__func__]). *)
Inductive AccessFunction : Type :=
| f_open | f_ensureOpen | f_isOpen | f_close | f_available
| f_waitReadable | f_waitByteTimes | f_read | f_readline | f_readlines
| f_write | f_setBaudrate | f_getBaudrate | f_setTimeout | f_getTimeout
| f_setBytesize | f_getBytesize | f_setParity | f_getParity
| f_setStopbits | f_getStopbits | f_setFlowcontrol | f_getFlowcontrol
| f_setSettings | f_flush | f_flushInput | f_flushOutput
| f_sendBreak | f_setBreak | f_setRTS | f_setDTR | f_waitForChange
| f_getCTS | f_getDSR | f_getRI | f_getCD.

Definition funcName (f : AccessFunction) : string :=
  match f with
  | f_open => "open" | f_ensureOpen => "ensureOpen" | f_isOpen => "isOpen"
  | f_close => "close" | f_available => "available"
  | f_waitReadable => "waitReadable" | f_waitByteTimes => "waitByteTimes"
  | f_read => "read" | f_readline => "readline" | f_readlines => "readlines"
  | f_write => "write" | f_setBaudrate => "setBaudrate"
  | f_getBaudrate => "getBaudrate" | f_setTimeout => "setTimeout"
  | f_getTimeout => "getTimeout" | f_setBytesize => "setBytesize"
  | f_getBytesize => "getBytesize" | f_setParity => "setParity"
  | f_getParity => "getParity" | f_setStopbits => "setStopbits"
  | f_getStopbits => "getStopbits" | f_setFlowcontrol => "setFlowcontrol"
  | f_getFlowcontrol => "getFlowcontrol" | f_setSettings => "setSettings"
  | f_flush => "flush" | f_flushInput => "flushInput"
  | f_flushOutput => "flushOutput" | f_sendBreak => "sendBreak"
  | f_setBreak => "setBreak" | f_setRTS => "setRTS" | f_setDTR => "setDTR"
  | f_waitForChange => "waitForChange" | f_getCTS => "getCTS"
  | f_getDSR => "getDSR" | f_getRI => "getRI" | f_getCD => "getCD"
  end.

(** What the code of an overridden callback can ask of the library: the
    protected transition utilities (on itself), and the access-management
    and access functions of itself or of a controller it holds. *)
Inductive Call : Type :=
| call_blockAccessCalls
| call_unblockAccessCalls
| call_waitForAllAccessCallsToReturn (timeout : Z)
| call_isActive (c : ctrl)
| call_makeActive (c : ctrl)
| call_makeInactive (c : ctrl)
| call_removeFromAccess (c : ctrl)
| call_makeLockedActive (c : ctrl)
| call_unlockActive (c : ctrl)
| call_isLockedActive (c : ctrl)
| call_access (c : ctrl) (f : AccessFunction).

Inductive Answer : Type :=
| Returned (b : bool)
| Threw (e : exn).

(** The body of an overridden callback: it returns, throws, or makes a
    library call and continues according to how that call ended. *)
Inductive Prog : Type :=
| Return
| Raise (e : exn)
| Do (c : Call) (k : Answer -> Prog).

(** The callbacks a subclass overrides; [None] inherits
    HSerialController's implementation. *)
Record Callbacks : Type := {
  on_willRemove : option Prog;
  on_didCancelRemove : option Prog;
  on_didRemove : option Prog;
  on_didAdd : option Prog;
  on_willMakeInactive : option Prog;
  on_didCancelMakeInactive : option Prog;
  on_didMakeInactive : option Prog;
  on_willMakeActive : option Prog;
  on_didMakeActive : option Prog
}.

Definition override (o : Callbacks) (cb : Callback) : option Prog :=
  match cb with
  | WillRemove => on_willRemove o
  | DidCancelRemove => on_didCancelRemove o
  | DidRemove => on_didRemove o
  | DidAdd => on_didAdd o
  | WillMakeInactive => on_willMakeInactive o
  | DidCancelMakeInactive => on_didCancelMakeInactive o
  | DidMakeInactive => on_didMakeInactive o
  | WillMakeActive => on_willMakeActive o
  | DidMakeActive => on_didMakeActive o
  end.

Definition no_overrides : Callbacks :=
  {| on_willRemove := None; on_didCancelRemove := None; on_didRemove := None;
     on_didAdd := None; on_willMakeInactive := None;
     on_didCancelMakeInactive := None; on_didMakeInactive := None;
     on_willMakeActive := None; on_didMakeActive := None |}.

(** The dynamic type of a controller object: the lockable HSerial
    controller, or some other subclass of HSerialController. *)
Inductive Class : Type :=
| Subclass (controllerType : string) (overrides : Callbacks)
| HSerial.

(** What is fixed while the access object is in use: the controller
    objects with their frozen delegate lists, the thread that runs the
    modelled calls, and the surroundings -- when the access calls that
    other threads have in flight will have returned ([None]: not within
    any timeout), and which driver calls throw. *)
Record Config : Type := {
  class_of : ctrl -> Class;
  delegates : Delegation.graph;
  deviceName : string;
  this_thread : thread;
  drain_at : option Z;
  serial_throws : list AccessFunction -> AccessFunction -> option string
}.

(** ** State *)

(** The [state_] and [tb_] members of HSerialAccess, and whether
    [stateMutex] is held. *)
Record AccessState : Type := {
  state_currentController : option ctrl;
  state_activeController : option ctrl;
  state_numUnreturnedAccessCalls : Z;
  state_accessIsUnblocked : bool;
  state_transitionInProgress : bool;
  state_concurrentActiveControllerChangeAllowed : bool;
  state_transitionThread : thread;
  tb_readyNumber : Z;
  tb_nextNumber : Z;
  stateMutex_locked : bool
}.

(** The members HSerial adds to HSerialController. *)
Record HSerialState : Type := {
  isLocked : bool;
  _isLockedActive : bool;
  setIsLockedActive : bool;
  am_callInProgress : bool;
  am_callThread : thread;
  am_serializingMutex_locked : bool;
  isLockedMutex_locked : bool
}.

(** A record of one write to [state_activeController]: the value
    written and the call counter and blocking flag at that instant. *)
Record ActiveStore : Type := {
  stored_active : option ctrl;
  calls_at_store : Z;
  unblocked_at_store : bool
}.

Record World : Type := {
  access : AccessState;
  hserial : ctrl -> HSerialState;
  clock : Z;                                  (* milliseconds *)
  serial_calls : list AccessFunction;         (* driver calls made so far *)
  callback_log : list (ctrl * Callback);      (* callbacks made so far *)
  store_log : list ActiveStore
}.

Definition with_access (f : AccessState -> AccessState) (w : World) : World :=
  {| access := f (access w); hserial := hserial w; clock := clock w;
     serial_calls := serial_calls w; callback_log := callback_log w;
     store_log := store_log w |}.

Definition with_hserial (c : ctrl) (f : HSerialState -> HSerialState)
    (w : World) : World :=
  {| access := access w;
     hserial := fun x => if Nat.eqb x c then f (hserial w x) else hserial w x;
     clock := clock w; serial_calls := serial_calls w;
     callback_log := callback_log w; store_log := store_log w |}.

Definition set_currentController v (a : AccessState) : AccessState :=
  {| state_currentController := v;
     state_activeController := state_activeController a;
     state_numUnreturnedAccessCalls := state_numUnreturnedAccessCalls a;
     state_accessIsUnblocked := state_accessIsUnblocked a;
     state_transitionInProgress := state_transitionInProgress a;
     state_concurrentActiveControllerChangeAllowed :=
       state_concurrentActiveControllerChangeAllowed a;
     state_transitionThread := state_transitionThread a;
     tb_readyNumber := tb_readyNumber a; tb_nextNumber := tb_nextNumber a;
     stateMutex_locked := stateMutex_locked a |}.

Definition set_activeController v (a : AccessState) : AccessState :=
  {| state_currentController := state_currentController a;
     state_activeController := v;
     state_numUnreturnedAccessCalls := state_numUnreturnedAccessCalls a;
     state_accessIsUnblocked := state_accessIsUnblocked a;
     state_transitionInProgress := state_transitionInProgress a;
     state_concurrentActiveControllerChangeAllowed :=
       state_concurrentActiveControllerChangeAllowed a;
     state_transitionThread := state_transitionThread a;
     tb_readyNumber := tb_readyNumber a; tb_nextNumber := tb_nextNumber a;
     stateMutex_locked := stateMutex_locked a |}.

Definition set_numUnreturnedAccessCalls v (a : AccessState) : AccessState :=
  {| state_currentController := state_currentController a;
     state_activeController := state_activeController a;
     state_numUnreturnedAccessCalls := v;
     state_accessIsUnblocked := state_accessIsUnblocked a;
     state_transitionInProgress := state_transitionInProgress a;
     state_concurrentActiveControllerChangeAllowed :=
       state_concurrentActiveControllerChangeAllowed a;
     state_transitionThread := state_transitionThread a;
     tb_readyNumber := tb_readyNumber a; tb_nextNumber := tb_nextNumber a;
     stateMutex_locked := stateMutex_locked a |}.

Definition set_accessIsUnblocked v (a : AccessState) : AccessState :=
  {| state_currentController := state_currentController a;
     state_activeController := state_activeController a;
     state_numUnreturnedAccessCalls := state_numUnreturnedAccessCalls a;
     state_accessIsUnblocked := v;
     state_transitionInProgress := state_transitionInProgress a;
     state_concurrentActiveControllerChangeAllowed :=
       state_concurrentActiveControllerChangeAllowed a;
     state_transitionThread := state_transitionThread a;
     tb_readyNumber := tb_readyNumber a; tb_nextNumber := tb_nextNumber a;
     stateMutex_locked := stateMutex_locked a |}.

Definition set_transitionInProgress v (a : AccessState) : AccessState :=
  {| state_currentController := state_currentController a;
     state_activeController := state_activeController a;
     state_numUnreturnedAccessCalls := state_numUnreturnedAccessCalls a;
     state_accessIsUnblocked := state_accessIsUnblocked a;
     state_transitionInProgress := v;
     state_concurrentActiveControllerChangeAllowed :=
       state_concurrentActiveControllerChangeAllowed a;
     state_transitionThread := state_transitionThread a;
     tb_readyNumber := tb_readyNumber a; tb_nextNumber := tb_nextNumber a;
     stateMutex_locked := stateMutex_locked a |}.

Definition set_concurrentActiveControllerChangeAllowed v (a : AccessState)
    : AccessState :=
  {| state_currentController := state_currentController a;
     state_activeController := state_activeController a;
     state_numUnreturnedAccessCalls := state_numUnreturnedAccessCalls a;
     state_accessIsUnblocked := state_accessIsUnblocked a;
     state_transitionInProgress := state_transitionInProgress a;
     state_concurrentActiveControllerChangeAllowed := v;
     state_transitionThread := state_transitionThread a;
     tb_readyNumber := tb_readyNumber a; tb_nextNumber := tb_nextNumber a;
     stateMutex_locked := stateMutex_locked a |}.

Definition set_transitionThread v (a : AccessState) : AccessState :=
  {| state_currentController := state_currentController a;
     state_activeController := state_activeController a;
     state_numUnreturnedAccessCalls := state_numUnreturnedAccessCalls a;
     state_accessIsUnblocked := state_accessIsUnblocked a;
     state_transitionInProgress := state_transitionInProgress a;
     state_concurrentActiveControllerChangeAllowed :=
       state_concurrentActiveControllerChangeAllowed a;
     state_transitionThread := v;
     tb_readyNumber := tb_readyNumber a; tb_nextNumber := tb_nextNumber a;
     stateMutex_locked := stateMutex_locked a |}.

Definition set_readyNumber v (a : AccessState) : AccessState :=
  {| state_currentController := state_currentController a;
     state_activeController := state_activeController a;
     state_numUnreturnedAccessCalls := state_numUnreturnedAccessCalls a;
     state_accessIsUnblocked := state_accessIsUnblocked a;
     state_transitionInProgress := state_transitionInProgress a;
     state_concurrentActiveControllerChangeAllowed :=
       state_concurrentActiveControllerChangeAllowed a;
     state_transitionThread := state_transitionThread a;
     tb_readyNumber := v; tb_nextNumber := tb_nextNumber a;
     stateMutex_locked := stateMutex_locked a |}.

Definition set_nextNumber v (a : AccessState) : AccessState :=
  {| state_currentController := state_currentController a;
     state_activeController := state_activeController a;
     state_numUnreturnedAccessCalls := state_numUnreturnedAccessCalls a;
     state_accessIsUnblocked := state_accessIsUnblocked a;
     state_transitionInProgress := state_transitionInProgress a;
     state_concurrentActiveControllerChangeAllowed :=
       state_concurrentActiveControllerChangeAllowed a;
     state_transitionThread := state_transitionThread a;
     tb_readyNumber := tb_readyNumber a; tb_nextNumber := v;
     stateMutex_locked := stateMutex_locked a |}.

Definition set_stateMutex_locked v (a : AccessState) : AccessState :=
  {| state_currentController := state_currentController a;
     state_activeController := state_activeController a;
     state_numUnreturnedAccessCalls := state_numUnreturnedAccessCalls a;
     state_accessIsUnblocked := state_accessIsUnblocked a;
     state_transitionInProgress := state_transitionInProgress a;
     state_concurrentActiveControllerChangeAllowed :=
       state_concurrentActiveControllerChangeAllowed a;
     state_transitionThread := state_transitionThread a;
     tb_readyNumber := tb_readyNumber a; tb_nextNumber := tb_nextNumber a;
     stateMutex_locked := v |}.

Definition set_isLocked v (h : HSerialState) : HSerialState :=
  {| isLocked := v; _isLockedActive := _isLockedActive h;
     setIsLockedActive := setIsLockedActive h;
     am_callInProgress := am_callInProgress h; am_callThread := am_callThread h;
     am_serializingMutex_locked := am_serializingMutex_locked h;
     isLockedMutex_locked := isLockedMutex_locked h |}.

Definition set__isLockedActive v (h : HSerialState) : HSerialState :=
  {| isLocked := isLocked h; _isLockedActive := v;
     setIsLockedActive := setIsLockedActive h;
     am_callInProgress := am_callInProgress h; am_callThread := am_callThread h;
     am_serializingMutex_locked := am_serializingMutex_locked h;
     isLockedMutex_locked := isLockedMutex_locked h |}.

Definition set_setIsLockedActive v (h : HSerialState) : HSerialState :=
  {| isLocked := isLocked h; _isLockedActive := _isLockedActive h;
     setIsLockedActive := v;
     am_callInProgress := am_callInProgress h; am_callThread := am_callThread h;
     am_serializingMutex_locked := am_serializingMutex_locked h;
     isLockedMutex_locked := isLockedMutex_locked h |}.

Definition set_am_call (inProgress : bool) (t : thread) (h : HSerialState)
    : HSerialState :=
  {| isLocked := isLocked h; _isLockedActive := _isLockedActive h;
     setIsLockedActive := setIsLockedActive h;
     am_callInProgress := inProgress; am_callThread := t;
     am_serializingMutex_locked := am_serializingMutex_locked h;
     isLockedMutex_locked := isLockedMutex_locked h |}.

Definition set_am_serializingMutex_locked v (h : HSerialState) : HSerialState :=
  {| isLocked := isLocked h; _isLockedActive := _isLockedActive h;
     setIsLockedActive := setIsLockedActive h;
     am_callInProgress := am_callInProgress h; am_callThread := am_callThread h;
     am_serializingMutex_locked := v;
     isLockedMutex_locked := isLockedMutex_locked h |}.

Definition set_isLockedMutex_locked v (h : HSerialState) : HSerialState :=
  {| isLocked := isLocked h; _isLockedActive := _isLockedActive h;
     setIsLockedActive := setIsLockedActive h;
     am_callInProgress := am_callInProgress h; am_callThread := am_callThread h;
     am_serializingMutex_locked := am_serializingMutex_locked h;
     isLockedMutex_locked := v |}.

(** ** The monad of library code: state, exceptions, blocking *)

Definition M (A : Type) : Type := World -> result A * World.

Definition ret {A} (a : A) : M A := fun w => (Ok a, w).

Definition stop {A B} (r : result A) : result B :=
  match r with
  | Ok _ => OutOfFuel
  | Throw e => Throw e
  | Blocked => Blocked
  | Terminate => Terminate
  | OutOfFuel => OutOfFuel
  end.

Definition bind {A B} (m : M A) (k : A -> M B) : M B :=
  fun w => match m w with
           | (Ok a, w') => k a w'
           | (r, w') => (stop r, w')
           end.

Declare Scope hs_scope.
Delimit Scope hs_scope with hs.
Notation "x <- m ;; k" := (bind m (fun x => k))
  (at level 61, m at next level, right associativity) : hs_scope.
Notation "m ;; k" := (bind m (fun _ => k))
  (at level 61, right associativity) : hs_scope.
Local Open Scope hs_scope.

Definition throw {A} (e : exn) : M A := fun w => (Throw e, w).
Definition block {A} : M A := fun w => (Blocked, w).
Definition out_of_fuel {A} : M A := fun w => (OutOfFuel, w).
Definition gets {A} (f : World -> A) : M A := fun w => (Ok (f w), w).
Definition modify (f : World -> World) : M unit := fun w => (Ok tt, f w).

Definition when (b : bool) (m : M unit) : M unit := if b then m else ret tt.

(** [catch (...) { handler; throw; }] *)
Definition catch_rethrow {A} (m : M A) (handler : M unit) : M A :=
  fun w => match m w with
           | (Throw e, w') =>
               match handler w' with
               | (Ok _, w'') => (Throw e, w'')
               | (r, w'') => (stop r, w'')
               end
           | rw => rw
           end.

(** A scope-based object whose constructor has run: [body] is the rest of
    the scope, [dtor] the destructor, run on normal and exceptional exit. *)
Definition scope_exit {A} (dtor : M unit) (body : M A) : M A :=
  fun w => match body w with
           | (Ok a, w') =>
               match dtor w' with
               | (Ok _, w'') => (Ok a, w'')
               | (r, w'') => (stop r, w'')
               end
           | (Throw e, w') =>
               match dtor w' with
               | (Ok _, w'') => (Throw e, w'')
               | (r, w'') => (stop r, w'')
               end
           | rw => rw
           end.

(** An exception leaving a [noexcept] function ends the program. *)
Definition noexcept {A} (m : M A) : M A :=
  fun w => match m w with
           | (Throw _, w') => (Terminate, w')
           | rw => rw
           end.

Fixpoint for_each {X} (xs : list X) (f : X -> M unit) : M unit :=
  match xs with
  | [] => ret tt
  | x :: xs' => f x ;; for_each xs' f
  end.

Definition opt_eqb (a b : option ctrl) : bool :=
  match a, b with
  | Some x, Some y => Nat.eqb x y
  | None, None => true
  | _, _ => false
  end.

Definition uint32 (z : Z) : Z := (z mod 4294967296)%Z.

Definition string_of_Z (z : Z) : string :=
  DecimalString.NilZero.string_of_int (Z.to_int z).

(** ** HSerialAccess (HSerialAccess.cpp) and HSerial (HSerial.cpp)

    The functions below call controllers' callbacks, and callbacks call
    back into these functions.  [invoke c cb] stands for the virtual call
    of callback [cb] on controller [c]; the knot is tied in [dispatch]. *)

Section Library.

Variable cfg : Config.
Variable fuel : nat.
Variable invoke : ctrl -> Callback -> M unit.

Definition getControllerType (c : ctrl) : string :=
  match class_of cfg c with
  | Subclass controllerType _ => controllerType
  | HSerial => "HSerial"
  end.

Definition getDescription (c : ctrl) : string :=
  getControllerType c ++ " for '" ++ deviceName cfg ++ "' ("
    ++ HexString.of_nat c ++ ")".

Definition getControllersList (c : ctrl) : M (list ctrl) :=
  match Delegation.getControllersList fuel (delegates cfg) c with
  | Some l => ret l
  | None => out_of_fuel
  end.

Definition hasAsDelegateOrSubdelegate (c : ctrl) (other : option ctrl)
    : M bool :=
  match Delegation.hasAsDelegateOrSubdelegate fuel (delegates cfg) c other with
  | Some b => ret b
  | None => out_of_fuel
  end.

(** A callback as the access object makes it: the call is recorded, and
    an exception from a [noexcept] callback is fatal. *)
Definition callback (c : ctrl) (cb : Callback) : M unit :=
  modify (fun w =>
    {| access := access w; hserial := hserial w; clock := clock w;
       serial_calls := serial_calls w;
       callback_log := callback_log w ++ [(c, cb)];
       store_log := store_log w |}) ;;
  if is_noexcept cb then noexcept (invoke c cb) else invoke c cb.

(** *** Mutexes *)

Definition lock_stateMutex : M unit :=
  fun w => if stateMutex_locked (access w) then (Blocked, w)
           else (Ok tt, with_access (set_stateMutex_locked true) w).

Definition unlock_stateMutex : M unit :=
  modify (with_access (set_stateMutex_locked false)).

(** A [lock_guard] or [unique_lock] on [stateMutex] that lives to the end
    of [body]. *)
Definition with_stateMutex {A} (body : M A) : M A :=
  lock_stateMutex ;; scope_exit unlock_stateMutex body.

Definition lock_isLockedMutex (this : ctrl) : M unit :=
  fun w => if isLockedMutex_locked (hserial w this) then (Blocked, w)
           else (Ok tt, with_hserial this (set_isLockedMutex_locked true) w).

Definition unlock_isLockedMutex (this : ctrl) : M unit :=
  modify (with_hserial this (set_isLockedMutex_locked false)).

Definition with_isLockedMutex {A} (this : ctrl) (body : M A) : M A :=
  lock_isLockedMutex this ;; scope_exit (unlock_isLockedMutex this) body.

(** *** Other Internal Stuff *)

Definition throwIfNotActiveController (controller : ctrl)
    (funcName : string) : M unit :=
  active <- gets (fun w => state_activeController (access w)) ;;
  if negb (opt_eqb (Some controller) active) then
    throw (logic_error
             ("The controller must be active to call " ++ funcName
                ++ ". Inactive controller: " ++ getDescription controller
                ++ "."))
  else ret tt.

Definition throwIfNotTransitionCorrect (controller : ctrl)
    (funcName : string) : M unit :=
  a <- gets access ;;
  if negb (state_transitionInProgress a)
     || negb (Nat.eqb (this_thread cfg) (state_transitionThread a)) then
    throw (logic_error
             ("Calling " ++ funcName
                ++ " is allowed only from a transition callback or subcall. Controller: "
                ++ getDescription controller ++ "."))
  else ret tt.

(** *** TransitionBlocker *)

Definition TransitionBlocker_ctor : M unit :=
  number <- gets (fun w => tb_nextNumber (access w)) ;;
  modify (with_access (set_nextNumber (uint32 (number + 1)))) ;;
  ready <- gets (fun w => tb_readyNumber (access w)) ;;
  (if Z.eqb number ready then ret tt else block) ;;
  with_stateMutex
    (modify (with_access (set_transitionInProgress true)) ;;
     modify (with_access (set_concurrentActiveControllerChangeAllowed false)) ;;
     modify (with_access (set_transitionThread (this_thread cfg)))).

Definition TransitionBlocker_dtor : M unit :=
  with_stateMutex (modify (with_access (set_transitionInProgress false))) ;;
  ready <- gets (fun w => tb_readyNumber (access w)) ;;
  modify (with_access (set_readyNumber (uint32 (ready + 1)))).

(** *** AccessUnblocker *)

Definition AccessUnblocker_dtor : M unit :=
  with_stateMutex
    (unblocked <- gets (fun w => state_accessIsUnblocked (access w)) ;;
     when (negb unblocked)
       (modify (with_access (set_accessIsUnblocked true)))).

(** *** AccessGuard *)

(** The predicate of the wait on [accessUnblockedCondition]. *)
Definition accessCallMayProceed (a : AccessState) : bool :=
  if state_transitionInProgress a then
    if Nat.eqb (this_thread cfg) (state_transitionThread a) then true
    else state_accessIsUnblocked a
  else true.

Definition AccessGuard_ctor (controller : ctrl) (funcName : string) : M unit :=
  with_stateMutex
    (a <- gets access ;;
     (if accessCallMayProceed a then ret tt else block) ;;
     throwIfNotActiveController controller funcName ;;
     modify (with_access (fun a =>
       set_numUnreturnedAccessCalls (state_numUnreturnedAccessCalls a + 1) a))).

Definition AccessGuard_dtor : M unit :=
  with_stateMutex
    (modify (with_access (fun a =>
       set_numUnreturnedAccessCalls (state_numUnreturnedAccessCalls a - 1) a))).

(** The driver call inside an access function.  The driver is not part
    of the library: what is kept of a call is that it was made, one entry
    for the access function whatever number of driver functions it uses,
    and whether it throws; the value the driver returns is not modelled. *)
Definition serial_call (f : AccessFunction) : M bool :=
  history <- gets serial_calls ;;
  modify (fun w =>
    {| access := access w; hserial := hserial w; clock := clock w;
       serial_calls := serial_calls w ++ [f];
       callback_log := callback_log w; store_log := store_log w |}) ;;
  match serial_throws cfg history f with
  | Some what => throw (driver_error what)
  | None => ret true
  end.

(** Every access function: an AccessGuard for the calling controller,
    named after the function, then the driver call. *)
Definition accessFunction (controller : ctrl) (f : AccessFunction) : M bool :=
  AccessGuard_ctor controller (funcName f) ;;
  scope_exit AccessGuard_dtor (serial_call f).

(** *** Controller Access Blocking *)

Definition blockAccessCalls (controller : ctrl) : M unit :=
  with_stateMutex
    (throwIfNotTransitionCorrect controller "blockAccessCalls" ;;
     throwIfNotActiveController controller "blockAccessCalls" ;;
     modify (with_access (set_accessIsUnblocked false))).

Definition unblockAccessCalls (controller : ctrl) : M unit :=
  with_stateMutex
    (throwIfNotTransitionCorrect controller "unblockAccessCalls" ;;
     throwIfNotActiveController controller "unblockAccessCalls" ;;
     modify (with_access (set_accessIsUnblocked true))).

(** [wait_for] on [allAccessCallsReturnedCondition]: returns at once if
    no call is in flight, otherwise when the calls in flight have
    returned or the timeout has passed, whichever comes first.  A timeout
    that is not positive has passed at once. *)
Definition wait_allAccessCallsReturned (timeout : Z) : M bool :=
  fun w =>
    if Z.eqb (state_numUnreturnedAccessCalls (access w)) 0 then (Ok true, w)
    else
      let returned_in_time :=
        match drain_at cfg with
        | Some t => Z.leb t (clock w + Z.max 0 timeout)
        | None => false
        end in
      if returned_in_time then
        (Ok true,
         {| access := set_numUnreturnedAccessCalls 0 (access w);
            hserial := hserial w;
            clock := Z.max (clock w)
                       (match drain_at cfg with Some t => t | None => 0%Z end);
            serial_calls := serial_calls w;
            callback_log := callback_log w; store_log := store_log w |})
      else
        (Ok false,
         {| access := access w; hserial := hserial w;
            clock := (clock w + Z.max 0 timeout)%Z;
            serial_calls := serial_calls w;
            callback_log := callback_log w; store_log := store_log w |}).

Definition waitForAllAccessCallsToReturn (controller : ctrl) (timeout : Z)
    : M bool :=
  with_stateMutex
    (throwIfNotTransitionCorrect controller "waitForAllAccessCallsToReturn" ;;
     throwIfNotActiveController controller "waitForAllAccessCallsToReturn" ;;
     wait_allAccessCallsReturned timeout).

(** *** Internal Stuff Used for Access Management *)

Definition isInAccessList (controller : ctrl) : M bool :=
  cc <- gets (fun w => state_currentController (access w)) ;;
  match cc with
  | None => ret false
  | Some cur =>
      if Nat.eqb cur controller then ret true
      else hasAsDelegateOrSubdelegate cur (Some controller)
  end.

Definition shouldPerformConcurrentActiveControllerChange (controller : ctrl)
    : M bool :=
  with_stateMutex
    (a <- gets access ;;
     if state_transitionInProgress a
        && state_concurrentActiveControllerChangeAllowed a
        && Nat.eqb (state_transitionThread a) (this_thread cfg)
     then isInAccessList controller
     else ret false).

(** The two stores at the end of the locked block of
    [performTransition]. *)
Definition store_controllers (newController : option ctrl)
    (alsoSetAsCurrentController : bool) : M unit :=
  modify (fun w =>
    {| access := set_activeController newController (access w);
       hserial := hserial w; clock := clock w;
       serial_calls := serial_calls w; callback_log := callback_log w;
       store_log := store_log w ++
         [{| stored_active := newController;
             calls_at_store := state_numUnreturnedAccessCalls (access w);
             unblocked_at_store := state_accessIsUnblocked (access w) |}] |}) ;;
  when alsoSetAsCurrentController
    (modify (with_access (set_currentController newController))).

Definition call_if_present (c : option ctrl) (cb : Callback) : M unit :=
  match c with
  | Some x => callback x cb
  | None => ret tt
  end.

Definition checkSafeTransition (oldActiveController : option ctrl) : M unit :=
  a <- gets access ;;
  (if state_accessIsUnblocked a then
     match oldActiveController with
     | Some o =>
         throw (logic_error
                  ("Access calls must be blocked in willMakeInactive. Controller: "
                     ++ getDescription o ++ "."))
     | None => modify (with_access (set_accessIsUnblocked false))
     end
   else ret tt) ;;
  a <- gets access ;;
  if Z.ltb 0 (state_numUnreturnedAccessCalls a) then
    match oldActiveController with
    | Some o =>
        throw (logic_error
                 ("There are " ++ string_of_Z (state_numUnreturnedAccessCalls a)
                    ++ " unreturned access calls after willMakeInactive was called. Controller: "
                    ++ getDescription o ++ "."))
    | None =>
        throw (logic_error
                 "There are unreturned access calls for a NULL controller.")
    end
  else ret tt.

Definition performTransition (newController : option ctrl)
    (alsoSetAsCurrentController : bool) : M unit :=
  oldActiveController <- gets (fun w => state_activeController (access w)) ;;
  call_if_present oldActiveController WillMakeInactive ;;
  with_stateMutex
    (catch_rethrow (checkSafeTransition oldActiveController)
       (call_if_present oldActiveController DidCancelMakeInactive) ;;
     call_if_present newController WillMakeActive ;;
     store_controllers newController alsoSetAsCurrentController) ;;
  call_if_present oldActiveController DidMakeInactive.

Definition performActiveControllerChange (newActiveController : option ctrl)
    : M unit :=
  scope_exit AccessUnblocker_dtor
    (performTransition newActiveController false ;;
     call_if_present newActiveController DidMakeActive).

Definition store_concurrentActiveControllerChangeAllowed (b : bool) : M unit :=
  modify (with_access (set_concurrentActiveControllerChangeAllowed b)).

(** The [willRemove] loop; [notifiedList] is returned however the loop
    ends, since the handler of the enclosing try block reads it. *)
Fixpoint willRemove_loop (xs notifiedList : list ctrl)
    : World -> result unit * list ctrl * World :=
  match xs with
  | [] => fun w => (Ok tt, notifiedList, w)
  | x :: xs' =>
      fun w => match callback x WillRemove w with
               | (Ok _, w') => willRemove_loop xs' (notifiedList ++ [x]) w'
               | (r, w') => (r, notifiedList, w')
               end
  end.

(** The try block of [performCurrentControllerChange]. *)
Definition tryRemoveAndTransition (newCurrentController : option ctrl)
    (oldAccessList : list ctrl) : World -> result unit * list ctrl * World :=
  fun w =>
    match store_concurrentActiveControllerChangeAllowed true w with
    | (Ok _, w1) =>
        match willRemove_loop oldAccessList [] w1 with
        | (Ok _, notifiedList, w2) =>
            match (store_concurrentActiveControllerChangeAllowed false ;;
                   performTransition newCurrentController true) w2 with
            | (r, w3) => (r, notifiedList, w3)
            end
        | rlw => rlw
        end
    | (r, w1) => (stop r, [], w1)
    end.

Definition performCurrentControllerChange (newCurrentController : option ctrl)
    : M unit :=
  scope_exit AccessUnblocker_dtor
    (oldCurrentController <- gets (fun w => state_currentController (access w)) ;;
     oldAccessList <- match oldCurrentController with
                      | Some o => getControllersList o
                      | None => ret []
                      end ;;
     (fun w =>
        match tryRemoveAndTransition newCurrentController oldAccessList w with
        | (Throw e, notifiedList, w') =>
            (store_concurrentActiveControllerChangeAllowed true ;;
             for_each notifiedList (fun x => callback x DidCancelRemove) ;;
             throw e) w'
        | (r, _, w') => (r, w')
        end) ;;
     for_each oldAccessList (fun x => callback x DidRemove) ;;
     match newCurrentController with
     | Some n =>
         newAccessList <- getControllersList n ;;
         for_each (rev newAccessList) (fun x => callback x DidAdd) ;;
         callback n DidMakeActive
     | None => ret tt
     end).

(** *** Controller Access Management *)

Definition isActive (controller : ctrl) : M bool :=
  active <- gets (fun w => state_activeController (access w)) ;;
  ret (opt_eqb (Some controller) active).

Definition makeActive (controller : ctrl) : M unit :=
  concurrent <- shouldPerformConcurrentActiveControllerChange controller ;;
  if concurrent then
    active <- gets (fun w => state_activeController (access w)) ;;
    when (negb (opt_eqb (Some controller) active))
      (performActiveControllerChange (Some controller))
  else
    TransitionBlocker_ctor ;;
    scope_exit TransitionBlocker_dtor
      (inList <- isInAccessList controller ;;
       if inList then
         active <- gets (fun w => state_activeController (access w)) ;;
         when (negb (opt_eqb (Some controller) active))
           (performActiveControllerChange (Some controller))
       else
         performCurrentControllerChange (Some controller)).

Definition makeInactive (controller : ctrl) : M unit :=
  concurrent <- shouldPerformConcurrentActiveControllerChange controller ;;
  if concurrent then
    active <- gets (fun w => state_activeController (access w)) ;;
    when (opt_eqb (Some controller) active)
      (performActiveControllerChange None)
  else
    TransitionBlocker_ctor ;;
    scope_exit TransitionBlocker_dtor
      (active <- gets (fun w => state_activeController (access w)) ;;
       when (opt_eqb (Some controller) active)
         (performActiveControllerChange None)).

Definition removeFromAccess (controller : ctrl) : M unit :=
  TransitionBlocker_ctor ;;
  scope_exit TransitionBlocker_dtor
    (inList <- isInAccessList controller ;;
     if inList then
       current <- gets (fun w => state_currentController (access w)) ;;
       if opt_eqb (Some controller) current then
         performCurrentControllerChange None
       else
         throw (logic_error
                  ("Cannot remove controller from access if it is not the current controller. Controller: "
                     ++ getDescription controller ++ "."))
     else ret tt).

(** *** HSerialController: the default [willMakeInactive] *)

Definition HSerialController_willMakeInactive (this : ctrl) : M unit :=
  blockAccessCalls this ;;
  success <- waitForAllAccessCallsToReturn this 1500 ;;
  if negb success then
    throw (ControllerRefuses this "Access calls have not returned.")
  else ret tt.

(** *** HSerial: AccessManagementGuard *)

Definition AccessManagementGuard_ctor (owner : ctrl) : M unit :=
  (fun w => if am_serializingMutex_locked (hserial w owner) then (Blocked, w)
            else (Ok tt, with_hserial owner (set_am_serializingMutex_locked true) w)) ;;
  modify (with_hserial owner (set_am_call true (this_thread cfg))).

Definition AccessManagementGuard_dtor (owner : ctrl) : M unit :=
  modify (with_hserial owner
            (fun h => set_am_call false (am_callThread h) h)) ;;
  modify (with_hserial owner (set_am_serializingMutex_locked false)).

Definition with_AccessManagementGuard {A} (owner : ctrl) (body : M A) : M A :=
  AccessManagementGuard_ctor owner ;;
  scope_exit (AccessManagementGuard_dtor owner) body.

(** *** HSerial: Access Management *)

Definition HSerial_isLockedActive (this : ctrl) : M bool :=
  with_isLockedMutex this (gets (fun w => _isLockedActive (hserial w this))).

Definition HSerial_makeActive (this : ctrl) : M unit :=
  with_AccessManagementGuard this
    (modify (with_hserial this (set_setIsLockedActive false)) ;;
     makeActive this).

Definition HSerial_makeInactive (this : ctrl) : M unit :=
  with_AccessManagementGuard this (makeInactive this).

Definition HSerial_makeLockedActive (this : ctrl) : M unit :=
  with_AccessManagementGuard this
    (modify (with_hserial this (set_setIsLockedActive true)) ;;
     with_isLockedMutex this (modify (with_hserial this (set_isLocked true))) ;;
     catch_rethrow (makeActive this)
       (active <- isActive this ;;
        when (negb active)
          (with_isLockedMutex this
             (modify (with_hserial this (set_isLocked false))))) ;;
     with_isLockedMutex this
       (modify (with_hserial this (set__isLockedActive true)))).

Definition HSerial_unlockActive (this : ctrl) : M unit :=
  with_AccessManagementGuard this
    (with_isLockedMutex this
       (modify (with_hserial this (set_isLocked false)) ;;
        modify (with_hserial this (set__isLockedActive false)))).

Definition HSerial_removeFromAccess (this : ctrl) : M unit :=
  with_AccessManagementGuard this (removeFromAccess this).

(** *** HSerial: Transition Callbacks *)

Definition transitionInitiatedExternally (this : ctrl) : M bool :=
  h <- gets (fun w => hserial w this) ;;
  ret (negb (am_callInProgress h)
       || negb (Nat.eqb (am_callThread h) (this_thread cfg))).

Definition HSerial_willMakeInactive (this : ctrl) : M unit :=
  external <- transitionInitiatedExternally this ;;
  when external
    (with_isLockedMutex this
       (locked <- gets (fun w => isLocked (hserial w this)) ;;
        if locked then
          throw (ControllerRefuses this "The controller is locked.")
        else ret tt)) ;;
  blockAccessCalls this ;;
  success <- waitForAllAccessCallsToReturn this 1000 ;;
  (if negb success then
     throw (ControllerRefuses this
              ("The controller is using the port. Controller: "
                 ++ getDescription this ++ "."))
   else ret tt) ;;
  lock_isLockedMutex this.

Definition HSerial_didMakeInactive (this : ctrl) : M unit :=
  modify (with_hserial this (set_isLocked false)) ;;
  modify (with_hserial this (set__isLockedActive false)) ;;
  unlock_isLockedMutex this.

Definition HSerial_didCancelMakeInactive (this : ctrl) : M unit :=
  unlock_isLockedMutex this.

Definition HSerial_willMakeActive (this : ctrl) : M unit :=
  lock_isLockedMutex this.

Definition HSerial_didMakeActive (this : ctrl) : M unit :=
  v <- gets (fun w => setIsLockedActive (hserial w this)) ;;
  modify (with_hserial this (set_isLocked v)) ;;
  modify (with_hserial this (set__isLockedActive v)) ;;
  unlock_isLockedMutex this.

(** *** Calls made by overridden callbacks *)

(** The public access-management functions of a controller, by its
    class.  HSerial's go through its AccessManagementGuard; for another
    subclass they are the functions inherited from HSerialController.
    The locking functions exist for HSerial only. *)
Definition controller_makeActive (c : ctrl) : M unit :=
  match class_of cfg c with
  | HSerial => HSerial_makeActive c
  | Subclass _ _ => makeActive c
  end.

Definition controller_makeInactive (c : ctrl) : M unit :=
  match class_of cfg c with
  | HSerial => HSerial_makeInactive c
  | Subclass _ _ => makeInactive c
  end.

Definition controller_removeFromAccess (c : ctrl) : M unit :=
  match class_of cfg c with
  | HSerial => HSerial_removeFromAccess c
  | Subclass _ _ => removeFromAccess c
  end.

Definition unit_call (m : M unit) : M bool := m ;; ret true.

Definition perform (this : ctrl) (c : Call) : M bool :=
  match c with
  | call_blockAccessCalls => unit_call (blockAccessCalls this)
  | call_unblockAccessCalls => unit_call (unblockAccessCalls this)
  | call_waitForAllAccessCallsToReturn timeout =>
      waitForAllAccessCallsToReturn this timeout
  | call_isActive c => isActive c
  | call_makeActive c => unit_call (controller_makeActive c)
  | call_makeInactive c => unit_call (controller_makeInactive c)
  | call_removeFromAccess c => unit_call (controller_removeFromAccess c)
  | call_makeLockedActive c =>
      match class_of cfg c with
      | HSerial => unit_call (HSerial_makeLockedActive c)
      | Subclass _ _ => ret true
      end
  | call_unlockActive c =>
      match class_of cfg c with
      | HSerial => unit_call (HSerial_unlockActive c)
      | Subclass _ _ => ret true
      end
  | call_isLockedActive c =>
      match class_of cfg c with
      | HSerial => HSerial_isLockedActive c
      | Subclass _ _ => ret false
      end
  | call_access c f => accessFunction c f
  end.

Fixpoint run (this : ctrl) (p : Prog) : M unit :=
  match p with
  | Return => ret tt
  | Raise e => throw e
  | Do c k =>
      fun w => match perform this c w with
               | (Ok b, w') => run this (k (Returned b)) w'
               | (Throw e, w') => run this (k (Threw e)) w'
               | (r, w') => (stop r, w')
               end
  end.

(** The implementation of callback [cb] that controller [this] has. *)
Definition callback_body (this : ctrl) (cb : Callback) : M unit :=
  match class_of cfg this with
  | HSerial =>
      match cb with
      | WillMakeInactive => HSerial_willMakeInactive this
      | DidMakeInactive => HSerial_didMakeInactive this
      | DidCancelMakeInactive => HSerial_didCancelMakeInactive this
      | WillMakeActive => HSerial_willMakeActive this
      | DidMakeActive => HSerial_didMakeActive this
      | _ => ret tt
      end
  | Subclass _ overrides =>
      match override overrides cb with
      | Some p => run this p
      | None =>
          match cb with
          | WillMakeInactive => HSerialController_willMakeInactive this
          | _ => ret tt
          end
      end
  end.

End Library.

(** Whether the access calls in flight return within [timeout] ms. *)
Definition drains_within (cfg : Config) (w : World) (timeout : Z) : bool :=
  Z.eqb (state_numUnreturnedAccessCalls (access w)) 0
  || match drain_at cfg with
     | Some t => Z.leb t (clock w + timeout)
     | None => false
     end.

(** Virtual dispatch: a callback of nesting depth at most [fuel]. *)
Fixpoint dispatch (cfg : Config) (fuel : nat) (c : ctrl) (cb : Callback)
    : M unit :=
  match fuel with
  | 0 => out_of_fuel
  | S fuel' => callback_body cfg fuel' (dispatch cfg fuel') c cb
  end.

(** The library as a caller sees it. *)
Module Run.
Definition makeActive cfg fuel c := makeActive cfg fuel (dispatch cfg fuel) c.
Definition makeInactive cfg fuel c := makeInactive cfg fuel (dispatch cfg fuel) c.
Definition removeFromAccess cfg fuel c :=
  removeFromAccess cfg fuel (dispatch cfg fuel) c.
Definition performTransition cfg fuel n also :=
  performTransition cfg (dispatch cfg fuel) n also.
Definition performActiveControllerChange cfg fuel n :=
  performActiveControllerChange cfg (dispatch cfg fuel) n.
Definition performCurrentControllerChange cfg fuel n :=
  performCurrentControllerChange cfg fuel (dispatch cfg fuel) n.
Definition HSerial_makeActive cfg fuel c :=
  HSerial_makeActive cfg fuel (dispatch cfg fuel) c.
Definition HSerial_makeInactive cfg fuel c :=
  HSerial_makeInactive cfg fuel (dispatch cfg fuel) c.
Definition HSerial_makeLockedActive cfg fuel c :=
  HSerial_makeLockedActive cfg fuel (dispatch cfg fuel) c.
Definition HSerial_removeFromAccess cfg fuel c :=
  HSerial_removeFromAccess cfg fuel (dispatch cfg fuel) c.
Definition controller_makeActive cfg fuel c :=
  controller_makeActive cfg fuel (dispatch cfg fuel) c.
Definition controller_makeInactive cfg fuel c :=
  controller_makeInactive cfg fuel (dispatch cfg fuel) c.
Definition controller_removeFromAccess cfg fuel c :=
  controller_removeFromAccess cfg fuel (dispatch cfg fuel) c.
End Run.

(** ** Example configurations *)

Module Examples.

Definition initial_access : AccessState :=
  {| state_currentController := None; state_activeController := None;
     state_numUnreturnedAccessCalls := 0; state_accessIsUnblocked := true;
     state_transitionInProgress := false;
     state_concurrentActiveControllerChangeAllowed := false;
     state_transitionThread := 0; tb_readyNumber := 0; tb_nextNumber := 0;
     stateMutex_locked := false |}.

Definition initial_hserial : HSerialState :=
  {| isLocked := false; _isLockedActive := false; setIsLockedActive := false;
     am_callInProgress := false; am_callThread := 0;
     am_serializingMutex_locked := false; isLockedMutex_locked := false |}.

Definition initial_world : World :=
  {| access := initial_access; hserial := fun _ => initial_hserial;
     clock := 0; serial_calls := []; callback_log := []; store_log := [] |}.

Definition plain : Class := Subclass "Plain" no_overrides.

(** Controller 1 registers 2 and 5 as delegates, and 2 registers 6. *)
Definition tree : Delegation.graph :=
  Delegation.push_back
    (Delegation.push_back (Delegation.push_back Delegation.no_delegates 2 6) 1 2)
    1 5.

(** Controllers 3 and 4 are HSerial objects, the others inherit every
    callback. *)
Definition plain_cfg : Config :=
  {| class_of := fun c => if Nat.eqb c 3 || Nat.eqb c 4 then HSerial else plain;
     delegates := tree;
     deviceName := "COM3"; this_thread := 7; drain_at := None;
     serial_throws := fun _ _ => None |}.

(** Controller 1 overrides willMakeInactive with an empty body. *)
Definition careless : Class :=
  Subclass "Careless"
    {| on_willRemove := None; on_didCancelRemove := None; on_didRemove := None;
       on_didAdd := None; on_willMakeInactive := Some Return;
       on_didCancelMakeInactive := None; on_didMakeInactive := None;
       on_willMakeActive := None; on_didMakeActive := None |}.

Definition careless_cfg : Config :=
  {| class_of := fun c => if Nat.eqb c 1 then careless else plain;
     delegates := fun c => if Nat.eqb c 1 then [2] else [];
     deviceName := "COM3"; this_thread := 7; drain_at := None;
     serial_throws := fun _ _ => None |}.

(** Controller 5 refuses to be removed from the access list. *)
Definition reluctant : Class :=
  Subclass "Reluctant"
    {| on_willRemove := Some (Raise (ControllerRefuses 5 "busy"));
       on_didCancelRemove := None; on_didRemove := None;
       on_didAdd := None; on_willMakeInactive := None;
       on_didCancelMakeInactive := None; on_didMakeInactive := None;
       on_willMakeActive := None; on_didMakeActive := None |}.

Definition reluctant_cfg : Config :=
  {| class_of := fun c => if Nat.eqb c 5 then reluctant else plain;
     delegates := tree;
     deviceName := "COM3"; this_thread := 7; drain_at := None;
     serial_throws := fun _ _ => None |}.

(** Controller 1 makes its delegate 2 active when told it will be removed,
    and controller 2 then refuses to be removed. *)
Definition meddling : Class :=
  Subclass "Meddling"
    {| on_willRemove := Some (Do (call_makeActive 2) (fun _ => Return));
       on_didCancelRemove := None; on_didRemove := None;
       on_didAdd := None; on_willMakeInactive := None;
       on_didCancelMakeInactive := None; on_didMakeInactive := None;
       on_willMakeActive := None; on_didMakeActive := None |}.

Definition unwilling : Class :=
  Subclass "Unwilling"
    {| on_willRemove := Some (Raise (ControllerRefuses 2 "busy"));
       on_didCancelRemove := None; on_didRemove := None;
       on_didAdd := None; on_willMakeInactive := None;
       on_didCancelMakeInactive := None; on_didMakeInactive := None;
       on_willMakeActive := None; on_didMakeActive := None |}.

Definition meddling_cfg : Config :=
  {| class_of := fun c => if Nat.eqb c 1 then meddling
                          else if Nat.eqb c 2 then unwilling else plain;
     delegates := tree;
     deviceName := "COM3"; this_thread := 7; drain_at := None;
     serial_throws := fun _ _ => None |}.

(** Delegates registered one at a time: 1 delegates to 2 and 3, and 2 to 3. *)
Definition diamond : Delegation.graph :=
  Delegation.push_back
    (Delegation.push_back (Delegation.push_back Delegation.no_delegates 2 3) 1 2)
    1 3.

(** A world in which a transition is in progress on the modelled thread,
    with [calls] access calls of other threads in flight. *)
Definition in_transition (calls : Z) (w : World) : World :=
  with_access
    (fun a => set_numUnreturnedAccessCalls calls
                (set_transitionThread 7 (set_transitionInProgress true a))) w.

(** The world after HSerial controller [c] has made itself locked active
    from the initial one. *)
Definition after_makeLockedActive (cfg : Config) (c : ctrl) : World :=
  snd (Run.HSerial_makeLockedActive cfg 5 c initial_world).

(** The world after [c] has made itself active from the initial one. *)
Definition after_makeActive (cfg : Config) (c : ctrl) : World :=
  snd (Run.makeActive cfg 5 c initial_world).

(** The world in which a request made after [c] became active has just
    reached the head of the transition queue. *)
Definition at_queue_head (cfg : Config) (c : ctrl) : World :=
  snd (TransitionBlocker_ctor cfg (after_makeActive cfg c)).

End Examples.

(** * The ports registry (HSerialPortsManager, HSerialDevice)

    HSerialPortsManager keeps one HSerialDevice object per device name in
    its [devices] dictionary and hands out HSerialPort values, which wrap
    a shared pointer to the device.  Device objects live on a heap and
    are named by their address, so that two pointers can be compared; the
    manager never removes an entry, hence no object is ever destroyed.
    [devicesMutex] and [detailsMutex] are lock_guards around code that
    calls nothing outside this module, so a caller always finds them
    free; they are left out.  What [serial::list_ports] returns is an
    argument of the functions that call it. *)

Module Ports.

(** [serial::PortInfo]. *)
Record PortInfo : Type := {
  port : string;
  description : string;
  hardware_id : string
}.

Definition ptr : Type := nat.

(** The fields of an HSerialDevice object; [deviceName] is const, and
    [device_access] is the weak pointer to the access object, [None]
    while it has never been assigned. *)
Record HSerialDevice : Type := {
  deviceName : string;
  device_description : string;
  device_hardwareID : string;
  device_access : option ptr
}.

(** An HSerialPort holds a shared pointer to its device. *)
Record HSerialPort : Type := { device : ptr }.

Record Manager : Type := {
  heap : list HSerialDevice;          (* the device objects, by address *)
  devices : list (string * ptr)       (* the dictionary, in insertion order *)
}.

Definition initial : Manager := {| heap := []; devices := [] |}.

(** [devices.at(name)]; [None] stands for std::out_of_range. *)
Fixpoint devices_at (ds : list (string * ptr)) (name : string) : option ptr :=
  match ds with
  | [] => None
  | (n, d) :: ds' => if String.eqb n name then Some d else devices_at ds' name
  end.

(** [devices.insert({name, d})], which leaves an existing entry alone. *)
Definition devices_insert (ds : list (string * ptr)) (name : string) (d : ptr)
    : list (string * ptr) :=
  match devices_at ds name with
  | Some _ => ds
  | None => ds ++ [(name, d)]
  end.

(** [HSerialDevice::createShared]: a new object at a fresh address. *)
Definition createShared (name description hardwareID : string) (m : Manager)
    : ptr * Manager :=
  (List.length (heap m),
   {| heap := heap m ++ [{| deviceName := name;
                            device_description := description;
                            device_hardwareID := hardwareID;
                            device_access := None |}];
      devices := devices m |}).

Definition empty (s : string) : bool :=
  match s with
  | EmptyString => true
  | String _ _ => false
  end.

(** [getDeviceInternal(const std::string&)]. *)
Definition getDeviceInternal (name : string) (m : Manager)
    : result ptr * Manager :=
  if empty name then
    (Throw (invalid_argument "Device name must not be empty."), m)
  else
    match devices_at (devices m) name with
    | Some d => (Ok d, m)
    | None =>
        let (d, m1) := createShared name EmptyString EmptyString m in
        (Ok d,
         {| heap := heap m1; devices := devices_insert (devices m1) name d |})
    end.

(** [getDeviceInternal(const serial::PortInfo&)]. *)
Definition getDeviceInternal_info (portInfo : PortInfo) (m : Manager)
    : ptr * Manager :=
  match devices_at (devices m) (port portInfo) with
  | Some d => (d, m)
  | None =>
      let (d, m1) := createShared (port portInfo) (description portInfo)
                       (hardware_id portInfo) m in
      (d, {| heap := heap m1;
             devices := devices_insert (devices m1) (port portInfo) d |})
  end.

Fixpoint getPorts_loop (portInfoList : list PortInfo)
    (ports : list HSerialPort) (m : Manager) : list HSerialPort * Manager :=
  match portInfoList with
  | [] => (ports, m)
  | portInfo :: rest =>
      if empty (port portInfo) then getPorts_loop rest ports m
      else
        let (d, m1) := getDeviceInternal_info portInfo m in
        getPorts_loop rest (ports ++ [{| device := d |}]) m1
  end.

Definition getPorts (list_ports : list PortInfo) (m : Manager)
    : list HSerialPort * Manager :=
  getPorts_loop list_ports [] m.

Definition portForDeviceName (name : string) (m : Manager)
    : result HSerialPort * Manager :=
  if empty name then
    (Throw (invalid_argument "Device name must not be empty."), m)
  else
    match getDeviceInternal name m with
    | (Ok d, m1) => (Ok {| device := d |}, m1)
    | (r, m1) => (stop r, m1)
    end.

Definition getDevice (name : string) (m : Manager) : result ptr * Manager :=
  getDeviceInternal name m.

(** [HSerialDevice::setDescriptionAndHardwareID] on the object at [d]. *)
Fixpoint set_details (h : list HSerialDevice) (d : ptr)
    (description hardwareID : string) : list HSerialDevice :=
  match h, d with
  | [], _ => []
  | x :: h', 0 =>
      {| deviceName := deviceName x; device_description := description;
         device_hardwareID := hardwareID;
         device_access := device_access x |} :: h'
  | x :: h', S d' => x :: set_details h' d' description hardwareID
  end.

Definition setDescriptionAndHardwareID (d : ptr)
    (description hardwareID : string) (m : Manager) : Manager :=
  {| heap := set_details (heap m) d description hardwareID;
     devices := devices m |}.

Definition getDescription (d : ptr) (m : Manager) : option string :=
  option_map device_description (nth_error (heap m) d).

Definition getHardwareID (d : ptr) (m : Manager) : option string :=
  option_map device_hardwareID (nth_error (heap m) d).

Definition getDeviceName (d : ptr) (m : Manager) : option string :=
  option_map deviceName (nth_error (heap m) d).

Fixpoint refreshDeviceDetails_loop (portInfoList : list PortInfo)
    (d : ptr) (name : string) (m : Manager) : Manager :=
  match portInfoList with
  | [] => m
  | info :: rest =>
      if String.eqb (port info) name then
        setDescriptionAndHardwareID d (description info) (hardware_id info) m
      else refreshDeviceDetails_loop rest d name m
  end.

(** [refreshDeviceDetails(HSerialDevice& device)]; the reference is to a
    live object, so the address is one of [heap]. *)
Definition refreshDeviceDetails (list_ports : list PortInfo) (d : ptr)
    (m : Manager) : Manager :=
  match nth_error (heap m) d with
  | Some dev => refreshDeviceDetails_loop list_ports d (deviceName dev) m
  | None => m
  end.

(** The calls a program can make on the manager. *)
Inductive Request : Type :=
| req_getPorts (list_ports : list PortInfo)
| req_portForDeviceName (name : string)
| req_getDevice (name : string)
| req_refreshDeviceDetails (list_ports : list PortInfo) (d : ptr).

Definition serve (r : Request) (m : Manager) : Manager :=
  match r with
  | req_getPorts l => snd (getPorts l m)
  | req_portForDeviceName name => snd (portForDeviceName name m)
  | req_getDevice name => snd (getDevice name m)
  | req_refreshDeviceDetails l d => refreshDeviceDetails l d m
  end.

Definition serve_all (rs : list Request) (m : Manager) : Manager :=
  fold_left (fun m r => serve r m) rs m.

(** *** Controllers and the access object of a device

    The controllers of a device share ownership of its access object;
    the device keeps a weak pointer.  An access object is named by its
    address; [use_count] is the number of shared pointers to it, and a
    weak pointer to it has expired when that is 0. *)

Record Store : Type := {
  manager : Manager;
  use_count : list nat
}.

(** What an HSerialController holds: its port and its access object. *)
Record HSerialController : Type := {
  port_of : HSerialPort;
  access_of : ptr
}.

Fixpoint assign_access (h : list HSerialDevice) (d : ptr) (a : ptr)
    : list HSerialDevice :=
  match h, d with
  | [], _ => []
  | x :: h', 0 =>
      {| deviceName := deviceName x;
         device_description := device_description x;
         device_hardwareID := device_hardwareID x;
         device_access := Some a |} :: h'
  | x :: h', S d' => x :: assign_access h' d' a
  end.

Fixpoint add_use (counts : list nat) (a : ptr) : list nat :=
  match counts, a with
  | [], _ => []
  | n :: counts', 0 => S n :: counts'
  | n :: counts', S a' => n :: add_use counts' a'
  end.

Fixpoint drop_use (counts : list nat) (a : ptr) : list nat :=
  match counts, a with
  | [], _ => []
  | n :: counts', 0 => Nat.pred n :: counts'
  | n :: counts', S a' => n :: drop_use counts' a'
  end.

(** Whether [std::shared_ptr<HSerialAccess>(access)] succeeds; otherwise
    it throws std::bad_weak_ptr. *)
Definition lock_weak (s : Store) (w : option ptr) : option ptr :=
  match w with
  | Some a => if Nat.ltb 0 (nth a (use_count s) 0) then Some a else None
  | None => None
  end.

(** The [access] member of the device at [d]. *)
Definition weak_access (d : ptr) (m : Manager) : option ptr :=
  match nth_error (heap m) d with
  | Some dev => device_access dev
  | None => None
  end.

(** [HSerialDevice::getAccess] of the device at [d]. *)
Definition getAccess (d : ptr) (s : Store) : ptr * Store :=
  match lock_weak s (weak_access d (manager s)) with
  | Some a =>
      (a, {| manager := manager s; use_count := add_use (use_count s) a |})
  | None =>
      let a := List.length (use_count s) in
      (a, {| manager := {| heap := assign_access (heap (manager s)) d a;
                           devices := devices (manager s) |};
             use_count := use_count s ++ [1] |})
  end.

(** [HSerialController::HSerialController(HSerialPort)]. *)
Definition HSerialController_ctor (port : HSerialPort) (s : Store)
    : HSerialController * Store :=
  let (a, s1) := getAccess (device port) s in
  ({| port_of := port; access_of := a |}, s1).

(** The controller's [access] member is released when it is destroyed. *)
Definition HSerialController_dtor (c : HSerialController) (s : Store) : Store :=
  {| manager := manager s; use_count := drop_use (use_count s) (access_of c) |}.

(** A program: the store and the controllers that are alive. *)
Record Program : Type := {
  store : Store;
  live : list HSerialController
}.

Definition start : Program :=
  {| store := {| manager := initial; use_count := [] |}; live := [] |}.

Fixpoint remove_nth {X} (i : nat) (l : list X) : list X :=
  match l, i with
  | [], _ => []
  | _ :: l', 0 => l'
  | x :: l', S i' => x :: remove_nth i' l'
  end.

(** What a program does: it makes a controller for the port of a device
    name, destroys one of its controllers, or calls the manager. *)
Inductive Step : Type :=
| new_controller (name : string)
| delete_controller (i : nat)
| request (r : Request).

Definition step (p : Program) (st : Step) : Program :=
  match st with
  | new_controller name =>
      match portForDeviceName name (manager (store p)) with
      | (Ok port, m1) =>
          let (c, s1) :=
            HSerialController_ctor port
              {| manager := m1; use_count := use_count (store p) |} in
          {| store := s1; live := live p ++ [c] |}
      | (_, m1) =>
          {| store := {| manager := m1; use_count := use_count (store p) |};
             live := live p |}
      end
  | delete_controller i =>
      match nth_error (live p) i with
      | Some c =>
          {| store := HSerialController_dtor c (store p);
             live := remove_nth i (live p) |}
      | None => p
      end
  | request r =>
      {| store := {| manager := serve r (manager (store p));
                     use_count := use_count (store p) |};
         live := live p |}
  end.

Definition steps (sts : list Step) (p : Program) : Program :=
  fold_left step sts p.

(** A system with two ports, and a manager that has been asked for a port
    that is not there and for the list of ports. *)
Definition two_ports : list PortInfo :=
  [{| port := "COM3"; description := "USB serial";
      hardware_id := "1a86:7523" |};
   {| port := "COM4"; description := "Modem"; hardware_id := "n/a" |}].

Definition used : Manager :=
  serve_all [req_portForDeviceName "COM1"; req_getPorts two_ports] initial.

(** A program that makes a controller and destroys it. *)
Definition reopened : list Step :=
  [new_controller "COM3"; delete_controller 0].

End Ports.

(** * HSerial's destructor

    [~HSerial] tries [removeFromAccess] and, if that throws, closes the
    port and tries once more; an exception that leaves the catch block
    leaves the destructor, which is [noexcept], so the program is
    terminated.  [~HSerialController] then runs and calls [isActive]. *)

Definition HSerial_dtor (cfg : Config) (fuel : nat)
    (invoke : ctrl -> Callback -> M unit) (this : ctrl) : M unit :=
  (fun w =>
     match HSerial_removeFromAccess cfg fuel invoke this w with
     | (Throw _, w') =>
         noexcept (accessFunction cfg this f_close ;;
                   HSerial_removeFromAccess cfg fuel invoke this) w'
     | rw => rw
     end) ;;
  isActive this ;;
  ret tt.

(** The destructor as a caller sees it. *)
Definition destroy_HSerial (cfg : Config) (fuel : nat) (this : ctrl) : M unit :=
  HSerial_dtor cfg fuel (dispatch cfg fuel) this.

(** * Vocabulary of the properties *)

(** [o] is a delegate or a subdelegate (of any degree) of [x]. *)
Inductive subdelegate (g : Delegation.graph) : ctrl -> ctrl -> Prop :=
| sub_direct x o : In o (g x) -> subdelegate g x o
| sub_via x y o : In y (g x) -> subdelegate g y o -> subdelegate g x o.

(** A call returns when it ends normally or by an exception. *)
Definition returns {A} (r : result A) : bool :=
  match r with
  | Ok _ | Throw _ => true
  | _ => false
  end.

(** [frames all R m]: the world after [m] is [R]-related to the world
    before -- however [m] ends if [all] is set, otherwise provided [m]
    returns. *)
Definition frames (all : bool) (R : World -> World -> Prop) {A} (m : M A)
  : Prop :=
  forall w, all || returns (fst (m w)) = true -> R w (snd (m w)).

(** The part of the world that a callback made with [stateMutex] held
    cannot change. *)
Definition core (w : World) :=
  (state_currentController (access w), state_activeController (access w),
   state_numUnreturnedAccessCalls (access w), state_accessIsUnblocked (access w),
   (state_transitionInProgress (access w),
    state_concurrentActiveControllerChangeAllowed (access w),
    state_transitionThread (access w), tb_readyNumber (access w)),
   (stateMutex_locked (access w), clock w, serial_calls w, callback_log w,
    store_log w)).

(** With [stateMutex] held before, [core] is afterwards as it was. *)
Definition held_frame (w w' : World) : Prop :=
  stateMutex_locked (access w) = true -> core w' = core w.

(** A store made with no access call in flight and access calls blocked. *)
Definition safe_store (s : ActiveStore) : Prop :=
  calls_at_store s = 0%Z /\ unblocked_at_store s = false.

(** The counter is not negative, and every store since the log was
    [before] was safe. *)
Definition safe_since (before : list ActiveStore) (w : World) : Prop :=
  (0 <= state_numUnreturnedAccessCalls (access w))%Z /\
  exists new, store_log w = before ++ new /\ Forall safe_store new.

(** [safe_since] is kept. *)
Definition safety (before : list ActiveStore) (w w' : World) : Prop :=
  safe_since before w -> safe_since before w'.

(** The callback is made on the active controller, on the transition
    thread, with [stateMutex] free. *)
Definition called_in_transition (cfg : Config) (this : ctrl) (w : World)
    : Prop :=
  stateMutex_locked (access w) = false /\
  state_transitionInProgress (access w) = true /\
  state_transitionThread (access w) = this_thread cfg /\
  state_activeController (access w) = Some this.

(** [transitionInitiatedExternally], read off the state. *)
Definition initiated_externally (cfg : Config) (this : ctrl) (w : World)
    : bool :=
  negb (am_callInProgress (hserial w this))
  || negb (Nat.eqb (am_callThread (hserial w this)) (this_thread cfg)).

(** [stateMutex] is afterwards locked or free as it was before. *)
Definition same_mutex (w w' : World) : Prop :=
  stateMutex_locked (access w') = stateMutex_locked (access w).

(** A queued transition is in progress and concurrent active controller
    changes are not allowed. *)
Definition queued (w : World) : Prop :=
  state_transitionInProgress (access w) = true /\
  state_concurrentActiveControllerChangeAllowed (access w) = false /\
  tb_nextNumber (access w) <> tb_readyNumber (access w).

(** What a callback made inside a queued transition leaves alone if it
    returns. *)
Definition transition_core (w : World) :=
  (callback_log w, store_log w,
   state_activeController (access w), state_currentController (access w),
   (state_transitionInProgress (access w),
    state_concurrentActiveControllerChangeAllowed (access w),
    state_transitionThread (access w),
    tb_readyNumber (access w), tb_nextNumber (access w))).

(** Inside a queued transition, [transition_core] is afterwards as it
    was. *)
Definition quiet (w w' : World) : Prop :=
  queued w -> transition_core w' = transition_core w.

(** The transition flags and the numbers of the transition queue. *)
Definition flags (w : World) :=
  (state_transitionInProgress (access w),
   state_concurrentActiveControllerChangeAllowed (access w),
   state_transitionThread (access w),
   tb_readyNumber (access w), tb_nextNumber (access w)).

(** The callback [cb] made on [c], if [c] is not NULL. *)
Definition events (c : option ctrl) (cb : Callback) : list (ctrl * Callback) :=
  match c with
  | Some x => [(x, cb)]
  | None => []
  end.

(** [c] is the current controller or one of its delegates and
    subdelegates. *)
Definition in_access_list (cfg : Config) (w : World) (c : ctrl) : Prop :=
  exists cur, state_currentController (access w) = Some cur /\
              (cur = c \/ subdelegate (delegates cfg) cur c).


(** The callbacks that tell a controller it leaves or joins the access
    list. *)
Definition membership (cb : Callback) : bool :=
  match cb with
  | WillRemove | DidCancelRemove | DidRemove | DidAdd => true
  | _ => false
  end.

(** The membership callbacks made so far. *)
Definition membership_log (w : World) : list (ctrl * Callback) :=
  filter (fun e => membership (snd e)) (callback_log w).

(** Some request holds the transition queue. *)
Definition in_queue (w : World) : Prop :=
  tb_nextNumber (access w) <> tb_readyNumber (access w).

(** The queue numbers and the membership callbacks made so far. *)
Definition queue_core (w : World) :=
  (tb_nextNumber (access w), tb_readyNumber (access w), membership_log w).

(** While the queue is held, [queue_core] is afterwards as it was. *)
Definition no_membership (w w' : World) : Prop :=
  in_queue w -> queue_core w' = queue_core w.

(** The callback [cb] made on each of [xs], in order. *)
Definition calls (cb : Callback) (xs : list ctrl) : list (ctrl * Callback) :=
  map (fun x => (x, cb)) xs.

(** A controller that inherits the empty body of a membership callback. *)
Definition inherits (cfg : Config) (cb : Callback) (x : ctrl) : Prop :=
  match class_of cfg x with
  | HSerial => True
  | Subclass _ overrides => override overrides cb = None
  end.

(** The didCancelRemove calls made so far, in order. *)
Definition cancel_calls (w : World) : list ctrl :=
  map fst (filter (fun e => match snd e with
                            | DidCancelRemove => true
                            | _ => false
                            end) (callback_log w)).

(** The order the specification gives: the notified controllers are
    cancelled last-notified first. *)
Definition specified_cancel_order (notified : list ctrl) (w w' : World)
    : Prop :=
  cancel_calls w' = cancel_calls w ++ rev notified.

(** The state a caller can observe is afterwards as it was: the current and
    the active controller and, for every HSerial controller, [isLocked] and
    [_isLockedActive]. *)
Definition steady (w w' : World) : Prop :=
  state_currentController (access w') = state_currentController (access w) /\
  state_activeController (access w') = state_activeController (access w) /\
  forall x, isLocked (hserial w' x) = isLocked (hserial w x) /\
            _isLockedActive (hserial w' x) = _isLockedActive (hserial w x).

(** Calls a callback body can make that start no transition and touch no
    lock flag. *)
Definition passive_call (c : Call) : bool :=
  match c with
  | call_makeActive _ | call_makeInactive _ | call_removeFromAccess _
  | call_makeLockedActive _ | call_unlockActive _ => false
  | _ => true
  end.

(** A callback body that makes passive calls only. *)
Inductive passive : Prog -> Prop :=
| passive_Return : passive Return
| passive_Raise e : passive (Raise e)
| passive_Do c k :
    passive_call c = true -> (forall a, passive (k a)) -> passive (Do c k).

(** The exception is a ControllerRefuses. *)
Definition refusal (e : exn) : bool :=
  match e with
  | ControllerRefuses _ _ => true
  | _ => false
  end.

(** A callback body that never throws ControllerRefuses. *)
Inductive polite : Prog -> Prop :=
| polite_Return : polite Return
| polite_Raise e : refusal e = false -> polite (Raise e)
| polite_Do c k : (forall a, polite (k a)) -> polite (Do c k).

(** Every overridden callback is passive. *)
Definition passive_callbacks (cfg : Config) : Prop :=
  forall c name overrides cb p,
    class_of cfg c = Subclass name overrides ->
    override overrides cb = Some p -> passive p.

(** No overridden didMakeActive throws ControllerRefuses: a refusal comes
    from willRemove or willMakeInactive. *)
Definition polite_didMakeActive (cfg : Config) : Prop :=
  forall c name overrides p,
    class_of cfg c = Subclass name overrides ->
    override overrides DidMakeActive = Some p -> polite p.

(** The callbacks made before the new active controller is stored. *)
Definition precedes_store (cb : Callback) : bool :=
  match cb with
  | WillRemove | DidCancelRemove | WillMakeInactive | DidCancelMakeInactive
  | WillMakeActive => true
  | _ => false
  end.

(** [carries P m]: when [m] throws an exception in [P], the observable
    state is as before.  [never P m]: [m] throws no exception in [P]. *)
Definition carries (P : exn -> bool) {A} (m : M A) : Prop :=
  forall w e, fst (m w) = Throw e -> P e = true -> steady w (snd (m w)).

(** [never P m]: [m] throws no exception in [P]. *)
Definition never (P : exn -> bool) {A} (m : M A) : Prop :=
  forall w e, fst (m w) = Throw e -> P e = false.

(** Every exception. *)
Definition any_exn (e : exn) : bool := true.

(** What the specification says of a refused makeActive. *)
Definition specified_refusal (cfg : Config) (fuel : nat) (c : ctrl)
    (w : World) : Prop :=
  forall r d,
    fst (Run.controller_makeActive cfg fuel c w) = Throw (ControllerRefuses r d) ->
    steady w (snd (Run.controller_makeActive cfg fuel c w)).

(** The controllers reached from [this] by delegation paths of length
    [degree], in the order [appendDelegatesOfDegree] visits them. *)
Fixpoint level (g : Delegation.graph) (degree : nat) (this : ctrl)
    : list ctrl :=
  match degree with
  | 0 => [this]
  | S degree' => flat_map (level g degree') (g this)
  end.

(** The numbers of the transition queue and what the TransitionBlocker
    sets. *)
Definition queue_flags (w : World) :=
  (tb_nextNumber (access w), tb_readyNumber (access w),
   state_transitionInProgress (access w), state_transitionThread (access w)).

(** While the queue is held, [queue_flags] is afterwards as it was. *)
Definition holds_queue (w w' : World) : Prop :=
  in_queue w -> queue_flags w' = queue_flags w.

(** The access object between transitions: the queue is empty, no
    transition is in progress and access calls are unblocked. *)
Definition settled (w : World) : Prop :=
  tb_nextNumber (access w) = tb_readyNumber (access w) /\
  state_transitionInProgress (access w) = false /\
  state_accessIsUnblocked (access w) = true.

(** [settled] is kept. *)
Definition settles (w w' : World) : Prop := settled w -> settled w'.

(** What [settled] reads. *)
Definition gate (w : World) :=
  (tb_nextNumber (access w), tb_readyNumber (access w),
   state_transitionInProgress (access w), state_accessIsUnblocked (access w)).

(** Access calls are unblocked afterwards if they were before. *)
Definition unblocks (w w' : World) : Prop :=
  state_accessIsUnblocked (access w) = true ->
  state_accessIsUnblocked (access w') = true.

(** Between [w] and [w'] the callbacks [evs] were made and nothing was
    stored: the active and the current controller, [stateMutex] and every
    HSerial object's own state are as they were. *)
Definition undisturbed (evs : list (ctrl * Callback)) (w w' : World) : Prop :=
  state_activeController (access w') = state_activeController (access w) /\
  state_currentController (access w') = state_currentController (access w) /\
  stateMutex_locked (access w') = stateMutex_locked (access w) /\
  store_log w' = store_log w /\
  callback_log w' = callback_log w ++ evs /\
  forall x, hserial w' x = hserial w x.

(** What makes the HSerial controller [this] refuse to give up the active
    role: it is the active controller, it is locked, and the request does
    not come from one of its own access-management calls. *)
Definition locked_from_outside (cfg : Config) (this : ctrl) (w : World) : Prop :=
  state_activeController (access w) = Some this /\
  stateMutex_locked (access w) = false /\
  isLockedMutex_locked (hserial w this) = false /\
  initiated_externally cfg this w = true /\
  isLocked (hserial w this) = true.

(** The two callbacks in which HSerial writes [isLocked] and
    [_isLockedActive]. *)
Definition touches_lock (cb : Callback) : bool :=
  match cb with
  | DidMakeInactive | DidMakeActive => true
  | _ => false
  end.

(** [steady], and no HSerial controller's [setIsLockedActive] has
    changed either. *)
Definition placid (w w' : World) : Prop :=
  state_currentController (access w') = state_currentController (access w) /\
  state_activeController (access w') = state_activeController (access w) /\
  forall x, isLocked (hserial w' x) = isLocked (hserial w x) /\
            _isLockedActive (hserial w' x) = _isLockedActive (hserial w x) /\
            setIsLockedActive (hserial w' x) = setIsLockedActive (hserial w x).

(** HSerial's design guarantee: [isLocked] and [_isLockedActive] are
    false whenever the controller is inactive.  [but] names a controller
    whose [isLocked] is exempt, as it is inside its own makeLockedActive. *)
Definition lock_discipline_but (cfg : Config) (but : option ctrl) (w : World)
    : Prop :=
  forall x, class_of cfg x = HSerial ->
            state_activeController (access w) <> Some x ->
            _isLockedActive (hserial w x) = false /\
            (but <> Some x -> isLocked (hserial w x) = false).

Definition lock_discipline (cfg : Config) (w : World) : Prop :=
  lock_discipline_but cfg None w.

(** The discipline is kept. *)
Definition guards (cfg : Config) (but : option ctrl) (w w' : World) : Prop :=
  lock_discipline_but cfg but w -> lock_discipline_but cfg but w'.

(** A transition to [n] has been made: [n] is the active controller, the
    controller that was active, if it is an HSerial, has its two flags
    cleared, and no other flag has changed. *)
Definition transitioned (cfg : Config) (n : option ctrl) (w w' : World)
    : Prop :=
  state_activeController (access w') = n /\
  (forall x, setIsLockedActive (hserial w' x) = setIsLockedActive (hserial w x)) /\
  (forall x, state_activeController (access w) <> Some x \/
             class_of cfg x <> HSerial ->
             isLocked (hserial w' x) = isLocked (hserial w x) /\
             _isLockedActive (hserial w' x) = _isLockedActive (hserial w x)) /\
  (forall o, state_activeController (access w) = Some o ->
             class_of cfg o = HSerial ->
             isLocked (hserial w' o) = false /\
             _isLockedActive (hserial w' o) = false).

(** The new active controller [c] has been told didMakeActive: an HSerial
    has taken both flags from [setIsLockedActive], and nothing else has
    changed. *)
Definition engaged (cfg : Config) (c : ctrl) (w w' : World) : Prop :=
  state_currentController (access w') = state_currentController (access w) /\
  state_activeController (access w') = state_activeController (access w) /\
  (forall x, setIsLockedActive (hserial w' x) = setIsLockedActive (hserial w x)) /\
  (forall x, x <> c \/ class_of cfg c <> HSerial ->
             isLocked (hserial w' x) = isLocked (hserial w x) /\
             _isLockedActive (hserial w' x) = _isLockedActive (hserial w x)) /\
  (class_of cfg c = HSerial ->
   isLocked (hserial w' c) = setIsLockedActive (hserial w c) /\
   _isLockedActive (hserial w' c) = setIsLockedActive (hserial w c)).

(** What a transition to [n] leaves when it has been made: for a
    controller, the transition followed by its didMakeActive. *)
Definition changed (cfg : Config) (n : option ctrl) (w w' : World) : Prop :=
  match n with
  | Some c => exists w1, transitioned cfg (Some c) w w1 /\ engaged cfg c w1 w'
  | None => transitioned cfg None w w'
  end.

(** How a request for a transition to [n] ends at [w] when it returns:
    the transition has been made, or nothing a caller can observe has
    changed -- and then, if the request returned normally, because [P]
    held. *)
Definition ends_at (cfg : Config) (n : option ctrl) (P : World -> Prop)
    {A} (m : M A) (w : World) : Prop :=
  returns (fst (m w)) = true ->
  (steady w (snd (m w)) /\ ((exists a, fst (m w) = Ok a) -> P w)) \/
  changed cfg n w (snd (m w)).

Definition ends (cfg : Config) (n : option ctrl) (P : World -> Prop)
    {A} (m : M A) : Prop :=
  forall w, ends_at cfg n P m w.

(** The dictionary and the heap agree: [name] is mapped to [d] exactly
    when the object at [d] has the device name [name]. *)
Definition consistent (m : Ports.Manager) : Prop :=
  forall name d,
    Ports.devices_at (Ports.devices m) name = Some d
    <-> Ports.getDeviceName d m = Some name.

(** The first port of the list with the device name [name]. *)
Definition listed (list_ports : list Ports.PortInfo) (name : string)
    : option Ports.PortInfo :=
  find (fun info => String.eqb (Ports.port info) name) list_ports.

(** The registry stays consistent and its dictionary only grows. *)
Definition grows (m m' : Ports.Manager) : Prop :=
  consistent m' /\
  forall n d, Ports.devices_at (Ports.devices m) n = Some d ->
              Ports.devices_at (Ports.devices m') n = Some d.


(** The number of controllers of [cs] that hold the access object [a]. *)
Definition holders (a : Ports.ptr) (cs : list Ports.HSerialController) : nat :=
  List.length (filter (fun c => Nat.eqb (Ports.access_of c) a) cs).

(** What holds of a program between its steps: the registry is consistent,
    every controller holds the access object its device points to, the use
    counts are the numbers of holders, and no two devices point to the same
    access object. *)
Definition sharing (p : Ports.Program) : Prop :=
  consistent (Ports.manager (Ports.store p)) /\
  (forall c, In c (Ports.live p) ->
     Ports.weak_access (Ports.device (Ports.port_of c))
       (Ports.manager (Ports.store p)) = Some (Ports.access_of c)) /\
  (forall a, nth a (Ports.use_count (Ports.store p)) 0
             = holders a (Ports.live p)) /\
  (forall d a, Ports.weak_access d (Ports.manager (Ports.store p)) = Some a ->
     a < List.length (Ports.use_count (Ports.store p))) /\
  (forall d1 d2 a,
     Ports.weak_access d1 (Ports.manager (Ports.store p)) = Some a ->
     Ports.weak_access d2 (Ports.manager (Ports.store p)) = Some a ->
     d1 = d2).
(** Controller [c] is on the access list as a delegate or subdelegate of
    the current controller, and the access object and [c]'s own guard are
    idle. *)
Definition idle_delegate (cfg : Config) (c : ctrl) (w : World) : Prop :=
  in_access_list cfg w c /\
  state_currentController (access w) <> Some c /\
  tb_nextNumber (access w) = tb_readyNumber (access w) /\
  state_transitionInProgress (access w) = false /\
  stateMutex_locked (access w) = false /\
  am_serializingMutex_locked (hserial w c) = false.

(** Controller 2, a delegate of controller 1, is an HSerial object; the
    others inherit every callback. *)
Definition lent_cfg : Config :=
  {| class_of := fun c => if Nat.eqb c 2 then HSerial else Examples.plain;
     delegates := Examples.tree;
     deviceName := "COM3"; this_thread := 7; drain_at := None;
     serial_throws := fun _ _ => None |}.

(** Inside a transition, on the transition thread, while concurrent
    active controller changes are allowed: the willRemove and
    didCancelRemove callbacks of a current controller change. *)
Definition concurrent_window (cfg : Config) (w : World) : Prop :=
  state_transitionInProgress (access w) = true /\
  state_concurrentActiveControllerChangeAllowed (access w) = true /\
  state_transitionThread (access w) = this_thread cfg /\
  stateMutex_locked (access w) = false /\
  tb_nextNumber (access w) <> tb_readyNumber (access w).

(** The world inside the willRemove callbacks of a current controller
    change requested after [c] became active. *)
Definition in_willRemove (cfg : Config) (c : ctrl) : World :=
  with_access (set_concurrentActiveControllerChangeAllowed true)
    (Examples.at_queue_head cfg c).

(** [transition_core] is afterwards as it was, whatever the state. *)
Definition silent (w w' : World) : Prop :=
  transition_core w' = transition_core w.

(** Controller 2 makes itself inactive as soon as it is told it has been
    made active. *)
Definition fickle : Class :=
  Subclass "Fickle"
    {| on_willRemove := None; on_didCancelRemove := None;
       on_didRemove := None; on_didAdd := None;
       on_willMakeInactive := None; on_didCancelMakeInactive := None;
       on_didMakeInactive := None; on_willMakeActive := None;
       on_didMakeActive := Some (Do (call_makeInactive 2) (fun _ => Return)) |}.

Definition fickle_cfg : Config :=
  {| class_of := fun c => if Nat.eqb c 2 then fickle else Examples.plain;
     delegates := Examples.tree;
     deviceName := "COM3"; this_thread := 7; drain_at := None;
     serial_throws := fun _ _ => None |}.

(** Controller 1 makes itself active again as soon as it is told it has
    been made inactive. *)
Definition clinging : Class :=
  Subclass "Clinging"
    {| on_willRemove := None; on_didCancelRemove := None;
       on_didRemove := None; on_didAdd := None;
       on_willMakeInactive := None; on_didCancelMakeInactive := None;
       on_didMakeInactive := Some (Do (call_makeActive 1) (fun _ => Return));
       on_willMakeActive := None; on_didMakeActive := None |}.

Definition clinging_cfg : Config :=
  {| class_of := fun c => if Nat.eqb c 1 then clinging else Examples.plain;
     delegates := Examples.tree;
     deviceName := "COM3"; this_thread := 7; drain_at := None;
     serial_throws := fun _ _ => None |}.

(** * Properties *)

Lemma with_snd {A B} (x : A * B) (a : A) : fst x = a -> x = (a, snd x).
Proof. intros <-. now destruct x. Qed.

(** ** Delegation graph *)

Section DelegationFacts.
Import Delegation.

Lemma scan_delegates_false g rec o xs :
  (forall x, rec x = Some false -> ~ subdelegate g x o) ->
  scan_delegates rec o xs = Some false ->
  forall y, In y xs -> y <> o /\ ~ subdelegate g y o.
Proof.
  intros Hrec. induction xs as [|x xs IH]; simpl; intros H y Hy.
  - contradiction.
  - destruct (Nat.eqb_spec x o) as [->|Hxo]; [discriminate|].
    destruct (rec x) as [[|]|] eqn:Hx; try discriminate.
    destruct Hy as [<-|Hy]; [split; auto|]. now apply IH.
Qed.

Lemma hasAsDelegateOrSubdelegate_false fuel g :
  forall x o, hasAsDelegateOrSubdelegate fuel g x (Some o) = Some false ->
              ~ subdelegate g x o.
Proof.
  induction fuel as [|fuel IH]; simpl; intros x o H; [discriminate|].
  pose proof (scan_delegates_false g _ o (g x) (fun y => IH y o) H) as Hs.
  intros Hsub. inversion Hsub; subst.
  - destruct (Hs o); auto.
  - destruct (Hs y); auto.
Qed.

Lemma hasAsDelegateOrSubdelegate_true fuel g :
  forall x o, hasAsDelegateOrSubdelegate fuel g x (Some o) = Some true ->
              subdelegate g x o.
Proof.
  induction fuel as [|fuel IH]; simpl; intros x o H; [discriminate|].
  assert (S : forall xs, (forall y, In y xs -> In y (g x)) ->
              scan_delegates (fun y => hasAsDelegateOrSubdelegate fuel g y (Some o))
                o xs = Some true -> subdelegate g x o).
  { induction xs as [|y xs IHxs]; simpl; intros Hin Hs; [discriminate|].
    destruct (Nat.eqb_spec y o) as [->|Hne].
    - apply sub_direct. apply Hin. now left.
    - destruct (hasAsDelegateOrSubdelegate fuel g y (Some o)) as [[|]|] eqn:Hy;
        try discriminate.
      + eapply sub_via; [apply Hin; now left|]. now apply IH.
      + apply IHxs; [|exact Hs]. intros z Hz. apply Hin. now right. }
  apply (S (g x)); auto.
Qed.

Lemma scan_delegates_total rec o xs :
  (forall y, In y xs -> exists b, rec y = Some b) ->
  exists b, scan_delegates rec o xs = Some b.
Proof.
  induction xs as [|x xs IH]; simpl; intros H; [eauto|].
  destruct (Nat.eqb x o); [eauto|].
  destruct (H x (or_introl eq_refl)) as [[|] ->]; [eauto|].
  apply IH. intros y Hy. apply H. now right.
Qed.

(** A bound that works for every element of a finite list. *)
Lemma uniform_bound (P : nat -> ctrl -> Prop) (xs : list ctrl) :
  (forall y, In y xs -> exists n, forall m, n <= m -> P m y) ->
  exists n, forall m, n <= m -> forall y, In y xs -> P m y.
Proof.
  induction xs as [|x xs IH]; intros H.
  - exists 0. intros m _ y [].
  - destruct (H x (or_introl eq_refl)) as [n1 H1].
    destruct IH as [n2 H2]; [intros y Hy; apply H; now right|].
    exists (Nat.max n1 n2). intros m Hm y [<-|Hy].
    + apply H1. lia.
    + apply H2; [lia|assumption].
Qed.

Lemma hasAsDelegateOrSubdelegate_total g other :
  forall x, Acc (delegate_of g) x ->
  exists fuel, forall fuel', fuel <= fuel' ->
    exists b, hasAsDelegateOrSubdelegate fuel' g x other = Some b.
Proof.
  induction 1 as [x _ IH].
  destruct (uniform_bound
              (fun m y => exists b, hasAsDelegateOrSubdelegate m g y other = Some b)
              (g x) IH) as [n Hn].
  exists (S n). intros [|fuel'] Hle; [lia|]. simpl.
  destruct other as [o|]; [|eauto].
  apply scan_delegates_total. intros y Hy. apply (Hn fuel'); [lia|assumption].
Qed.

Lemma acyclic_no_delegates : acyclic no_delegates.
Proof. intros c. constructor. intros y []. Qed.

Lemma acyclic_push_back g this d :
  acyclic g -> this <> d -> ~ subdelegate g d this ->
  acyclic (push_back g this d).
Proof.
  intros Hg Hne Hno.
  assert (A : forall x, Acc (delegate_of g) x ->
              x <> this -> ~ subdelegate g x this ->
              Acc (delegate_of (push_back g this d)) x).
  { induction 1 as [x _ IH]. intros Hx Hsx. constructor. intros y Hy.
    unfold delegate_of, push_back in Hy.
    destruct (Nat.eqb_spec x this); [contradiction|].
    apply IH; [exact Hy| |].
    - intros ->. apply Hsx. now constructor.
    - intros Hy'. apply Hsx. eapply sub_via; eassumption. }
  assert (B : Acc (delegate_of (push_back g this d)) d).
  { apply A; auto. }
  intros c. specialize (Hg c). induction Hg as [x _ IH].
  constructor. intros y Hy. unfold delegate_of, push_back in Hy.
  destruct (Nat.eqb_spec x this).
  - apply in_app_or in Hy. destruct Hy as [Hy|[<-|[]]]; [now apply IH|exact B].
  - now apply IH.
Qed.

Lemma registerDelegate_Ok fuel g this delegate g' :
  registerDelegate fuel g this delegate = Ok g' ->
  exists d, delegate = Some d /\ this <> d /\ ~ In d (g this) /\
            ~ subdelegate g d this /\ g' = push_back g this d.
Proof.
  unfold registerDelegate. destruct delegate as [d|]; [|discriminate].
  destruct (Nat.eqb_spec this d); [discriminate|].
  simpl. destruct (existsb (Nat.eqb d) (g this)) eqn:Hex; [discriminate|].
  destruct (hasAsDelegateOrSubdelegate fuel g d (Some this)) as [[|]|] eqn:Hh;
    try discriminate.
  intros [= <-]. exists d. repeat split; auto.
  - intros Hin. assert (existsb (Nat.eqb d) (g this) = true).
    { apply existsb_exists. exists d. split; [assumption|apply Nat.eqb_refl]. }
    congruence.
  - eapply hasAsDelegateOrSubdelegate_false; eassumption.
Qed.

Lemma registered_acyclic g : registered g -> acyclic g.
Proof.
  induction 1 as [|g fuel this delegate g' _ IH Hreg].
  - apply acyclic_no_delegates.
  - apply registerDelegate_Ok in Hreg.
    destruct Hreg as (d & -> & Hne & _ & Hno & ->).
    now apply acyclic_push_back.
Qed.

(** What one sweep at a given degree does to the list and the count. *)
Lemma appendDelegatesOfDegree_from_spec g degree :
  forall this lst, exists appended,
    appendDelegatesOfDegree_from g degree this lst
    = (lst ++ appended, N.of_nat (List.length appended)).
Proof.
  induction degree as [|degree IH]; intros this lst; simpl.
  - exists [this]. reflexivity.
  - assert (F : forall xs l0 (n0 : list ctrl), exists appended,
               fold_left
                 (fun (acc : list ctrl * N) (x : ctrl) =>
                    let r := appendDelegatesOfDegree_from g degree x (fst acc) in
                    (fst r, (snd acc + snd r)%N))
                 xs (l0 ++ n0, N.of_nat (List.length n0))
               = (l0 ++ appended, N.of_nat (List.length appended))).
    { induction xs as [|x xs IHxs]; intros l0 n0; simpl.
      - exists n0. reflexivity.
      - destruct (IH x (l0 ++ n0)) as [a Ha]. rewrite Ha. simpl.
        rewrite <- app_assoc.
        replace (N.of_nat (List.length n0) + N.of_nat (List.length a))%N
          with (N.of_nat (List.length (n0 ++ a))) by (rewrite List.length_app; lia).
        apply IHxs. }
    destruct (F (g this) lst []) as [a Ha].
    rewrite app_nil_r in Ha. simpl in Ha. exists a. exact Ha.
Qed.

Lemma appendDelegatesOfDegree_spec g this lst degree :
  exists appended,
    appendDelegatesOfDegree g this lst degree
    = (lst ++ appended, N.of_nat (List.length appended)).
Proof.
  unfold appendDelegatesOfDegree. destruct (degree <? 0)%Z.
  - exists []. now rewrite app_nil_r.
  - apply appendDelegatesOfDegree_from_spec.
Qed.

(** Beyond the height of a controller's delegation tree a sweep appends
    nothing. *)
Lemma appendDelegatesOfDegree_from_height g :
  forall x, Acc (delegate_of g) x ->
  exists h, forall degree, h < degree -> forall lst,
    appendDelegatesOfDegree_from g degree x lst = (lst, 0%N).
Proof.
  induction 1 as [x _ IH].
  destruct (uniform_bound
              (fun m y => forall degree, m < degree -> forall lst,
                   appendDelegatesOfDegree_from g degree y lst = (lst, 0%N))
              (g x)) as [n Hn].
  { intros y Hy. destruct (IH y Hy) as [h Hh]. exists h.
    intros m Hm degree Hd. apply Hh. lia. }
  exists (S n). intros [|degree] Hd lst; [lia|]. simpl.
  assert (F : forall xs, (forall y, In y xs -> In y (g x)) ->
              fold_left
                (fun (acc : list ctrl * N) (x0 : ctrl) =>
                   let r := appendDelegatesOfDegree_from g degree x0 (fst acc) in
                   (fst r, (snd acc + snd r)%N))
                xs (lst, 0%N) = (lst, 0%N)).
  { induction xs as [|y xs IHxs]; intros Hin; simpl; [reflexivity|].
    rewrite (Hn n (le_n n) y (Hin y (or_introl eq_refl)) degree) by lia.
    simpl. apply IHxs. intros z Hz. apply Hin. now right. }
  apply F. auto.
Qed.

Lemma getControllersList_loop_total g x h :
  (forall degree, h < degree -> forall lst,
      appendDelegatesOfDegree_from g degree x lst = (lst, 0%N)) ->
  forall n degree, (0 <= degree)%Z -> (Z.of_nat h + 1 <= degree + Z.of_nat n)%Z ->
  forall fuel, S n <= fuel -> forall lst,
    exists appended, getControllersList_loop fuel g x lst degree = Some (lst ++ appended).
Proof.
  intros Hh. induction n as [|n IH]; intros degree H0 Hle fuel Hfuel lst;
    (destruct fuel as [|fuel]; [lia|]); simpl.
  - unfold appendDelegatesOfDegree.
    destruct (Z.ltb_spec degree 0); [lia|].
    rewrite Hh by lia. simpl. exists []. now rewrite app_nil_r.
  - destruct (appendDelegatesOfDegree_spec g x lst degree) as [a Ha].
    rewrite Ha. simpl. destruct (0 <? N.of_nat (List.length a))%N.
    + destruct (IH (degree + 1)%Z ltac:(lia) ltac:(lia) fuel ltac:(lia) (lst ++ a))
        as [b Hb].
      rewrite Hb. exists (a ++ b). now rewrite app_assoc.
    + eauto.
Qed.

Lemma getControllersList_total g x :
  Acc (delegate_of g) x ->
  exists fuel, forall fuel', fuel <= fuel' ->
    exists rest, getControllersList fuel' g x = Some (x :: rest).
Proof.
  intros Hacc. destruct (appendDelegatesOfDegree_from_height g x Hacc) as [h Hh].
  exists (S h). intros fuel' Hle. unfold getControllersList.
  destruct (getControllersList_loop_total g x h Hh h 1%Z ltac:(lia) ltac:(lia)
              fuel' Hle [x]) as [a Ha].
  rewrite Ha. simpl. eauto.
Qed.

End DelegationFacts.

(** ** Reasoning about library code *)

Local Open Scope hs_scope.

Section Frames.

Context (all : bool) (R : World -> World -> Prop) `{!PreOrder R}.

Lemma returns_stop {A B} (r : result A) :
  (forall a, r <> Ok a) -> returns (@stop A B r) = returns r.
Proof. destruct r; intros H; try reflexivity. now destruct (H a). Qed.

Lemma frames_ret {A} (a : A) : frames all R (ret a).
Proof. intros w _. reflexivity. Qed.

Lemma frames_gets {A} (f : World -> A) : frames all R (gets f).
Proof. intros w _. reflexivity. Qed.

Lemma frames_throw {A} e : frames all R (@throw A e).
Proof. intros w _. reflexivity. Qed.

Lemma frames_block {A} : frames all R (@block A).
Proof. intros w _. reflexivity. Qed.

Lemma frames_out_of_fuel {A} : frames all R (@out_of_fuel A).
Proof. intros w _. reflexivity. Qed.

Lemma frames_modify f : (forall w, R w (f w)) -> frames all R (modify f).
Proof. intros H w _. apply H. Qed.

Lemma frames_bind {A B} (m : M A) (k : A -> M B) :
  frames all R m -> (forall a, frames all R (k a)) -> frames all R (bind m k).
Proof.
  intros Hm Hk w. unfold bind. specialize (Hm w).
  destruct (m w) as [r w1]. simpl in Hm.
  destruct r as [a| | | |]; simpl; intros H;
    try (apply Hm; destruct all; simpl in *; congruence).
  transitivity w1.
  - apply Hm. now destruct all.
  - now apply Hk.
Qed.

Lemma frames_when b m : frames all R m -> frames all R (when b m).
Proof. destruct b; simpl; auto using frames_ret. Qed.

Lemma frames_scope_exit {A} dtor (body : M A) :
  frames all R dtor -> frames all R body ->
  frames all R (scope_exit dtor body).
Proof.
  intros Hd Hb w. unfold scope_exit. specialize (Hb w).
  destruct (body w) as [r w1]. simpl in Hb.
  destruct r as [a|e| | |]; simpl; try exact Hb.
  - specialize (Hd w1). destruct (dtor w1) as [r2 w2]. simpl in Hd.
    destruct r2; simpl; intros H; (transitivity w1;
      [apply Hb; now destruct all | apply Hd; destruct all; simpl in *; congruence]).
  - specialize (Hd w1). destruct (dtor w1) as [r2 w2]. simpl in Hd.
    destruct r2; simpl; intros H; (transitivity w1;
      [apply Hb; now destruct all | apply Hd; destruct all; simpl in *; congruence]).
Qed.

Lemma frames_catch_rethrow {A} (m : M A) handler :
  frames all R m -> frames all R handler ->
  frames all R (catch_rethrow m handler).
Proof.
  intros Hm Hh w. unfold catch_rethrow. specialize (Hm w).
  destruct (m w) as [r w1]. simpl in Hm.
  destruct r as [a|e| | |]; simpl; try exact Hm.
  specialize (Hh w1). destruct (handler w1) as [r2 w2]. simpl in Hh.
  destruct r2; simpl; intros H; (transitivity w1;
    [apply Hm; now destruct all | apply Hh; destruct all; simpl in *; congruence]).
Qed.

Lemma frames_noexcept {A} (m : M A) :
  frames all R m -> frames all R (noexcept m).
Proof.
  intros Hm w. unfold noexcept. specialize (Hm w).
  destruct (m w) as [r w1]. simpl in Hm.
  destruct r as [a|e| | |]; simpl; try exact Hm.
  intros H. apply Hm. destruct all; simpl in *; congruence.
Qed.

Lemma frames_for_each {X} (xs : list X) f :
  (forall x, frames all R (f x)) -> frames all R (for_each xs f).
Proof.
  intros Hf. induction xs as [|x xs IH]; simpl.
  - apply frames_ret.
  - apply frames_bind; auto.
Qed.

End Frames.

Lemma frames_weaken R {A} (m : M A) : frames true R m -> frames false R m.
Proof. intros H w _. now apply H. Qed.

(** One step in proving [frames] by following the structure of the code. *)
Ltac frames_step :=
  first
    [ assumption
    | match goal with |- PreOrder _ => typeclasses eauto end
    | apply frames_ret | apply frames_gets | apply frames_throw
    | apply frames_block | apply frames_out_of_fuel
    | apply frames_bind; [ | | intro]
    | apply frames_when | apply frames_scope_exit
    | apply frames_catch_rethrow | apply frames_noexcept
    | apply frames_for_each; [ | intro]
    | match goal with
      | |- frames _ _ (if ?b then _ else _) => destruct b
      | |- frames _ _ (match ?x with _ => _ end) => destruct x
      end ].

(** Closure under the interpreter of callback bodies and under virtual
    dispatch. *)
Section FramesDispatch.

Context (all : bool) (R : World -> World -> Prop) `{!PreOrder R}.
Variable cfg : Config.

Lemma frames_run fuel invoke this p :
  (forall c, frames all R (perform cfg fuel invoke this c)) ->
  frames all R (run cfg fuel invoke this p).
Proof.
  intros Hp. induction p as [| e | c k IH]; simpl.
  - apply frames_ret; assumption.
  - apply frames_throw; assumption.
  - intros w. specialize (Hp c w).
    destruct (perform cfg fuel invoke this c w) as [r w1]. simpl in Hp.
    destruct r as [b|e| | |]; simpl; intros H;
      try (apply Hp; destruct all; simpl in *; congruence).
    + transitivity w1; [apply Hp; now destruct all | now apply IH].
    + transitivity w1; [apply Hp; now destruct all | now apply IH].
Qed.

Lemma frames_dispatch :
  (forall fuel invoke,
      (forall c cb, frames all R (invoke c cb)) ->
      forall c cb, frames all R (callback_body cfg fuel invoke c cb)) ->
  forall fuel c cb, frames all R (dispatch cfg fuel c cb).
Proof.
  intros Hstep. induction fuel as [|fuel IH]; intros c cb; simpl.
  - apply frames_out_of_fuel; assumption.
  - apply Hstep. exact IH.
Qed.

End FramesDispatch.

(** Closure under the current-controller change, whose try block threads
    the notified list past the monad. *)
Section FramesCurrentChange.

Context (all : bool) (R : World -> World -> Prop) `{!PreOrder R}.
Variable cfg : Config.
Variable fuel : nat.
Variable invoke : ctrl -> Callback -> M unit.

Hypothesis frames_callback : forall c cb, frames all R (callback invoke c cb).
Hypothesis frames_store_flag :
  forall b, frames all R (store_concurrentActiveControllerChangeAllowed b).

Lemma frames_willRemove_loop xs :
  forall notifiedList w,
    all || returns (fst (fst (willRemove_loop invoke xs notifiedList w))) = true ->
    R w (snd (willRemove_loop invoke xs notifiedList w)).
Proof.
  induction xs as [|x xs IH]; intros nl w; simpl.
  - reflexivity.
  - pose proof (frames_callback x WillRemove w) as Hc.
    destruct (callback invoke x WillRemove w) as [r w1]. simpl in Hc.
    destruct r; simpl; intros H;
      try (apply Hc; destruct all; simpl in *; congruence).
    transitivity w1; [apply Hc; now destruct all | now apply IH].
Qed.

Lemma frames_tryRemoveAndTransition n xs :
  frames all R (performTransition cfg invoke n true) ->
  forall w,
    all || returns (fst (fst (tryRemoveAndTransition cfg invoke n xs w))) = true ->
    R w (snd (tryRemoveAndTransition cfg invoke n xs w)).
Proof.
  intros Hpt w. unfold tryRemoveAndTransition.
  pose proof (frames_store_flag true w) as H1.
  destruct (store_concurrentActiveControllerChangeAllowed true w) as [r1 w1].
  simpl in H1.
  destruct r1; simpl; intros H;
    try (apply H1; destruct all; simpl in *; congruence).
  pose proof (frames_willRemove_loop xs [] w1) as H2.
  destruct (willRemove_loop invoke xs [] w1) as [[r2 nl] w2]. simpl in H2.
  destruct r2; simpl in *;
    try (transitivity w1; [apply H1; now destruct all | now apply H2]).
  assert (H3 : frames all R
                 (store_concurrentActiveControllerChangeAllowed false ;;
                  performTransition cfg invoke n true)).
  { apply frames_bind; auto. }
  specialize (H3 w2).
  destruct ((store_concurrentActiveControllerChangeAllowed false ;;
             performTransition cfg invoke n true) w2) as [r3 w3].
  simpl in *.
  transitivity w1; [apply H1; now destruct all|].
  transitivity w2; [apply H2; now destruct all|].
  now apply H3.
Qed.

Lemma frames_performCurrentControllerChange n :
  frames all R (performTransition cfg invoke n true) ->
  frames all R AccessUnblocker_dtor ->
  frames all R (performCurrentControllerChange cfg fuel invoke n).
Proof.
  intros Hpt Hau. unfold performCurrentControllerChange.
  apply frames_scope_exit; [assumption..|].
  apply frames_bind; [assumption|apply frames_gets; assumption|]. intros old.
  apply frames_bind; [assumption| |].
  { destruct old; [|apply frames_ret; assumption].
    unfold getControllersList.
    destruct (Delegation.getControllersList fuel (delegates cfg) c);
      [apply frames_ret|apply frames_out_of_fuel]; assumption. }
  intros xs.
  apply frames_bind; [assumption| |].
  { intros w.
    pose proof (frames_tryRemoveAndTransition n xs Hpt w) as Ht.
    destruct (tryRemoveAndTransition cfg invoke n xs w) as [[r nl] w1].
    simpl in Ht.
    destruct r; simpl; try exact Ht.
    intros H. transitivity w1; [apply Ht; now destruct all|].
    revert H.
    apply (frames_bind all R (store_concurrentActiveControllerChangeAllowed true)).
    - apply frames_store_flag.
    - intros _. apply frames_bind; [assumption| |].
      + apply frames_for_each; [assumption|]. intros x. apply frames_callback.
      + intros _. apply frames_throw. assumption. }
  intros _.
  apply frames_bind; [assumption| |].
  { apply frames_for_each; [assumption|]. intros x. apply frames_callback. }
  intros _. destruct n as [n|]; [|apply frames_ret; assumption].
  apply frames_bind; [assumption| |].
  { unfold getControllersList.
    destruct (Delegation.getControllersList fuel (delegates cfg) n);
      [apply frames_ret|apply frames_out_of_fuel]; assumption. }
  intros ys.
  apply frames_bind; [assumption| |intros _; apply frames_callback].
  apply frames_for_each; [assumption|]. intros x. apply frames_callback.
Qed.

End FramesCurrentChange.

(** ** While [stateMutex] is held

    Everything a callback can do to the access object starts by taking
    [stateMutex] (or a ticket of the transition queue), so a callback made
    with the mutex held leaves the access object as it is. *)

#[local] Instance held_frame_preorder : PreOrder held_frame.
Proof.
  split.
  - intros w _. reflexivity.
  - intros w1 w2 w3 H12 H23 H1. specialize (H12 H1).
    rewrite <- H12. apply H23.
    unfold core in H12. injection H12 as _ _ _ _ _ _ _ _ Hl _ _ _ _.
    congruence.
Qed.

Section Held.

Variable cfg : Config.
Variable fuel : nat.
Variable invoke : ctrl -> Callback -> M unit.

Lemma with_stateMutex_held {A} (m : M A) w :
  stateMutex_locked (access w) = true -> with_stateMutex m w = (Blocked, w).
Proof.
  intros H. unfold with_stateMutex, bind, lock_stateMutex. now rewrite H.
Qed.

Lemma held_with_stateMutex {A} (m : M A) :
  frames true held_frame (with_stateMutex m).
Proof. intros w _ H. now rewrite with_stateMutex_held. Qed.

Lemma held_with_stateMutex_bind {A B} (m : M A) (k : A -> M B) :
  frames true held_frame (bind (with_stateMutex m) k).
Proof. intros w _ H. unfold bind. now rewrite with_stateMutex_held. Qed.

Lemma TransitionBlocker_ctor_held w :
  stateMutex_locked (access w) = true ->
  fst (TransitionBlocker_ctor cfg w) = Blocked /\
  core (snd (TransitionBlocker_ctor cfg w)) = core w.
Proof.
  intros H. unfold TransitionBlocker_ctor, bind, gets, modify, block. simpl.
  destruct (tb_nextNumber (access w) =? tb_readyNumber (access w))%Z; simpl.
  - rewrite with_stateMutex_held by exact H. simpl. auto.
  - auto.
Qed.

Lemma held_TransitionBlocker_bind {B} (k : unit -> M B) :
  frames true held_frame (bind (TransitionBlocker_ctor cfg) k).
Proof.
  intros w _ H. unfold bind.
  destruct (TransitionBlocker_ctor_held w H) as [Hr Hc].
  destruct (TransitionBlocker_ctor cfg w) as [r w1]. simpl in *. now subst r.
Qed.

Lemma held_with_hserial c f : frames true held_frame (modify (with_hserial c f)).
Proof. apply frames_modify. intros w _. reflexivity. Qed.

Lemma held_lock_isLockedMutex c : frames true held_frame (lock_isLockedMutex c).
Proof.
  intros w _ _. unfold lock_isLockedMutex.
  now destruct (isLockedMutex_locked (hserial w c)).
Qed.

Lemma held_with_isLockedMutex {A} c (m : M A) :
  frames true held_frame m -> frames true held_frame (with_isLockedMutex c m).
Proof.
  intros H. unfold with_isLockedMutex, unlock_isLockedMutex.
  repeat first [apply held_lock_isLockedMutex | apply held_with_hserial | frames_step].
Qed.

Lemma held_with_AccessManagementGuard {A} c (m : M A) :
  frames true held_frame m ->
  frames true held_frame (with_AccessManagementGuard cfg c m).
Proof.
  intros H. unfold with_AccessManagementGuard, AccessManagementGuard_ctor,
    AccessManagementGuard_dtor.
  repeat first [apply held_with_hserial | frames_step].
  intros w _ _. now destruct (am_serializingMutex_locked (hserial w c)).
Qed.

Lemma held_makeActive c :
  frames true held_frame (makeActive cfg fuel invoke c).
Proof. apply held_with_stateMutex_bind. Qed.

Lemma held_makeInactive c :
  frames true held_frame (makeInactive cfg fuel invoke c).
Proof. apply held_with_stateMutex_bind. Qed.

Lemma held_removeFromAccess c :
  frames true held_frame (removeFromAccess cfg fuel invoke c).
Proof. apply held_TransitionBlocker_bind. Qed.

Lemma held_perform this c :
  frames true held_frame (perform cfg fuel invoke this c).
Proof.
  destruct c; simpl; unfold unit_call, controller_makeActive,
    controller_makeInactive, controller_removeFromAccess,
    HSerial_makeActive, HSerial_makeInactive, HSerial_removeFromAccess,
    HSerial_makeLockedActive, HSerial_unlockActive, HSerial_isLockedActive,
    blockAccessCalls, unblockAccessCalls, waitForAllAccessCallsToReturn,
    isActive, accessFunction, AccessGuard_ctor;
    repeat first
      [ apply held_with_stateMutex | apply held_with_stateMutex_bind
      | apply held_makeActive | apply held_makeInactive
      | apply held_removeFromAccess | apply held_with_hserial
      | apply held_with_isLockedMutex | apply held_with_AccessManagementGuard
      | frames_step ].
Qed.

Lemma held_callback_body this cb :
  frames true held_frame (callback_body cfg fuel invoke this cb).
Proof.
  unfold callback_body. destruct (class_of cfg this) as [name ov|].
  - destruct (override ov cb) as [p|].
    + apply frames_run; [typeclasses eauto|]. apply held_perform.
    + destruct cb; try (apply frames_ret; typeclasses eauto).
      unfold HSerialController_willMakeInactive, blockAccessCalls.
      apply held_with_stateMutex_bind.
  - destruct cb; try (apply frames_ret; typeclasses eauto);
      unfold HSerial_willMakeInactive, HSerial_didMakeInactive,
        HSerial_didCancelMakeInactive, HSerial_willMakeActive,
        HSerial_didMakeActive, transitionInitiatedExternally,
        unlock_isLockedMutex;
      repeat first
        [ apply held_with_stateMutex | apply held_with_stateMutex_bind
        | apply held_with_hserial | apply held_lock_isLockedMutex
        | apply held_with_isLockedMutex
        | progress unfold blockAccessCalls, waitForAllAccessCallsToReturn
        | frames_step ].
Qed.

End Held.

Lemma held_dispatch cfg fuel c cb :
  frames true held_frame (dispatch cfg fuel c cb).
Proof.
  destruct fuel; simpl.
  - apply frames_out_of_fuel. typeclasses eauto.
  - apply held_callback_body.
Qed.

(** ** The safety invariant of the active-controller store *)

#[local] Instance safety_preorder before : PreOrder (safety before).
Proof. split; [intros w H; exact H | intros w1 w2 w3 H12 H23 H; auto]. Qed.

Lemma safety_same before w w' :
  state_numUnreturnedAccessCalls (access w') = state_numUnreturnedAccessCalls (access w) ->
  store_log w' = store_log w ->
  safety before w w'.
Proof. intros Hn Hs [H0 H1]. split; [now rewrite Hn | now rewrite Hs]. Qed.

Ltac safety_leaf :=
  apply frames_modify; intros ?; apply safety_same; reflexivity.

Section Safety.

Variable cfg : Config.
Variable fuel : nat.
Variable invoke : ctrl -> Callback -> M unit.
Variable before : list ActiveStore.

Hypothesis invoke_safety : forall c cb, frames true (safety before) (invoke c cb).
Hypothesis invoke_held : forall c cb, frames true held_frame (invoke c cb).

Local Abbreviation safe m := (frames true (safety before) m).

Lemma safe_callback c cb : safe (callback invoke c cb).
Proof.
  unfold callback.
  repeat first [apply invoke_safety | safety_leaf | frames_step].
Qed.

Lemma safe_call_if_present c cb : safe (call_if_present invoke c cb).
Proof.
  destruct c; simpl; [apply safe_callback | apply frames_ret; typeclasses eauto].
Qed.

Lemma safe_lock_stateMutex : safe lock_stateMutex.
Proof.
  intros w _. unfold lock_stateMutex.
  destruct (stateMutex_locked (access w)); simpl;
    [reflexivity | apply safety_same; reflexivity].
Qed.

Lemma safe_with_stateMutex {A} (m : M A) : safe m -> safe (with_stateMutex m).
Proof.
  intros H. unfold with_stateMutex, unlock_stateMutex.
  repeat first [apply safe_lock_stateMutex | safety_leaf | frames_step].
Qed.

Lemma safe_lock_isLockedMutex c : safe (lock_isLockedMutex c).
Proof.
  intros w _. unfold lock_isLockedMutex.
  destruct (isLockedMutex_locked (hserial w c)); simpl;
    [reflexivity | apply safety_same; reflexivity].
Qed.

Lemma safe_with_isLockedMutex {A} c (m : M A) :
  safe m -> safe (with_isLockedMutex c m).
Proof.
  intros H. unfold with_isLockedMutex, unlock_isLockedMutex.
  repeat first [apply safe_lock_isLockedMutex | safety_leaf | frames_step].
Qed.

Lemma safe_with_AccessManagementGuard {A} c (m : M A) :
  safe m -> safe (with_AccessManagementGuard cfg c m).
Proof.
  intros H. unfold with_AccessManagementGuard, AccessManagementGuard_ctor,
    AccessManagementGuard_dtor.
  repeat first [safety_leaf | frames_step].
  intros w _. destruct (am_serializingMutex_locked (hserial w c)); simpl;
    [reflexivity | apply safety_same; reflexivity].
Qed.

Lemma safe_throwIfNotActiveController c n :
  safe (throwIfNotActiveController cfg c n).
Proof. unfold throwIfNotActiveController. repeat frames_step. Qed.

Lemma safe_throwIfNotTransitionCorrect c n :
  safe (throwIfNotTransitionCorrect cfg c n).
Proof. unfold throwIfNotTransitionCorrect. repeat frames_step. Qed.

Lemma safe_TransitionBlocker_ctor : safe (TransitionBlocker_ctor cfg).
Proof.
  unfold TransitionBlocker_ctor.
  repeat first [apply safe_with_stateMutex | safety_leaf | frames_step].
Qed.

Lemma safe_TransitionBlocker_dtor : safe TransitionBlocker_dtor.
Proof.
  unfold TransitionBlocker_dtor.
  repeat first [apply safe_with_stateMutex | safety_leaf | frames_step].
Qed.

Lemma safe_AccessUnblocker_dtor : safe AccessUnblocker_dtor.
Proof.
  unfold AccessUnblocker_dtor.
  repeat first [apply safe_with_stateMutex | safety_leaf | frames_step].
Qed.

Lemma safe_blockAccessCalls c : safe (blockAccessCalls cfg c).
Proof.
  unfold blockAccessCalls.
  repeat first [apply safe_with_stateMutex | apply safe_throwIfNotActiveController
               | apply safe_throwIfNotTransitionCorrect | safety_leaf | frames_step].
Qed.

Lemma safe_unblockAccessCalls c : safe (unblockAccessCalls cfg c).
Proof.
  unfold unblockAccessCalls.
  repeat first [apply safe_with_stateMutex | apply safe_throwIfNotActiveController
               | apply safe_throwIfNotTransitionCorrect | safety_leaf | frames_step].
Qed.

Lemma safe_wait_allAccessCallsReturned t :
  safe (wait_allAccessCallsReturned cfg t).
Proof.
  intros w _ [H0 H1]. unfold wait_allAccessCallsReturned.
  destruct (state_numUnreturnedAccessCalls (access w) =? 0)%Z; simpl;
    [now split|].
  destruct (match drain_at cfg with Some t0 => (t0 <=? clock w + Z.max 0 t)%Z | None => false end);
    simpl; (split; [simpl; lia | exact H1]).
Qed.

Lemma safe_waitForAllAccessCallsToReturn c t :
  safe (waitForAllAccessCallsToReturn cfg c t).
Proof.
  unfold waitForAllAccessCallsToReturn.
  repeat first [apply safe_with_stateMutex | apply safe_throwIfNotActiveController
               | apply safe_throwIfNotTransitionCorrect
               | apply safe_wait_allAccessCallsReturned | frames_step].
Qed.

Lemma safe_accessFunction c f : safe (accessFunction cfg c f).
Proof.
  intros w _ [H0 H1].
  unfold accessFunction, AccessGuard_ctor, AccessGuard_dtor, serial_call,
    with_stateMutex, lock_stateMutex, unlock_stateMutex,
    throwIfNotActiveController, scope_exit, bind, gets, modify, throw, ret,
    block.
  simpl. destruct (stateMutex_locked (access w)); simpl; [now split|].
  destruct (accessCallMayProceed cfg _); simpl; [|now split].
  destruct (negb _); simpl; [now split|].
  destruct (serial_throws cfg (serial_calls w) f); simpl;
    (split; [simpl; lia | exact H1]).
Qed.

Lemma safe_isInAccessList c : safe (isInAccessList cfg fuel c).
Proof.
  unfold isInAccessList, hasAsDelegateOrSubdelegate. repeat frames_step.
Qed.

Lemma safe_shouldPerform c :
  safe (shouldPerformConcurrentActiveControllerChange cfg fuel c).
Proof.
  unfold shouldPerformConcurrentActiveControllerChange.
  repeat first [apply safe_with_stateMutex | apply safe_isInAccessList | frames_step].
Qed.

Lemma safe_checkSafeTransition old : safe (checkSafeTransition cfg old).
Proof. unfold checkSafeTransition. repeat first [safety_leaf | frames_step]. Qed.

(** What a passed check establishes. *)
Lemma checkSafeTransition_Ok old w u w' :
  checkSafeTransition cfg old w = (Ok u, w') ->
  state_accessIsUnblocked (access w') = false /\
  (state_numUnreturnedAccessCalls (access w') <= 0)%Z /\
  state_numUnreturnedAccessCalls (access w') = state_numUnreturnedAccessCalls (access w) /\
  stateMutex_locked (access w') = stateMutex_locked (access w) /\
  store_log w' = store_log w /\ callback_log w' = callback_log w /\
  state_activeController (access w') = state_activeController (access w) /\
  state_currentController (access w') = state_currentController (access w) /\
  hserial w' = hserial w.
Proof.
  unfold checkSafeTransition, bind, gets, modify, throw, ret. simpl.
  destruct (state_accessIsUnblocked (access w)) eqn:Hu.
  - destruct old; simpl; [discriminate|].
    destruct (Z.ltb_spec 0 (state_numUnreturnedAccessCalls (access w)));
      [discriminate|].
    intros [= <- <-]. simpl. repeat split; auto.
  - simpl. destruct (Z.ltb_spec 0 (state_numUnreturnedAccessCalls (access w))).
    + destruct old; discriminate.
    + intros [= <- <-]. repeat split; auto.
Qed.

Lemma scope_exit_modify {A} f (body : M A) w :
  snd (scope_exit (modify f) body w)
  = if returns (fst (body w)) then f (snd (body w)) else snd (body w).
Proof.
  unfold scope_exit, modify. now destruct (body w) as [[] ?].
Qed.

(** A callback made with the mutex held sees and leaves the counter and
    the blocking flag as they are. *)
Lemma callback_held c cb w :
  stateMutex_locked (access w) = true ->
  let w' := snd (call_if_present invoke c cb w) in
  stateMutex_locked (access w') = true /\
  state_numUnreturnedAccessCalls (access w') = state_numUnreturnedAccessCalls (access w) /\
  state_accessIsUnblocked (access w') = state_accessIsUnblocked (access w) /\
  state_activeController (access w') = state_activeController (access w) /\
  state_currentController (access w') = state_currentController (access w) /\
  store_log w' = store_log w /\
  callback_log w' = callback_log w ++ match c with Some x => [(x, cb)] | None => [] end.
Proof.
  intros Hl. destruct c as [x|]; simpl.
  2:{ rewrite app_nil_r. repeat split; auto. }
  unfold callback, bind, modify. cbn beta iota.
  match goal with
  | |- context [(if is_noexcept cb then ?a else ?b) ?w1] =>
      assert (Hh : held_frame w1 (snd ((if is_noexcept cb then a else b) w1)));
      [ destruct (is_noexcept cb);
        [ exact (frames_noexcept true held_frame _ (invoke_held x cb) w1 eq_refl)
        | exact (invoke_held x cb w1 eq_refl) ]
      | specialize (Hh Hl); unfold core in Hh; simpl in Hh;
        injection Hh as Hc Ha Hn Hu _ _ _ _ Hm _ _ Hcl Hsl;
        destruct ((if is_noexcept cb then a else b) w1) as [[] w2];
        simpl in *; repeat split; congruence ]
  end.
Qed.

Lemma safe_locked_block old n also w :
  stateMutex_locked (access w) = true ->
  safe_since before w ->
  safe_since before
    (snd ((catch_rethrow (checkSafeTransition cfg old)
             (call_if_present invoke old DidCancelMakeInactive) ;;
           call_if_present invoke n WillMakeActive ;;
           store_controllers n also) w)).
Proof.
  intros Hl Hw. unfold bind at 1.
  pose proof (frames_catch_rethrow true (safety before) _ _
                (safe_checkSafeTransition old)
                (safe_call_if_present old DidCancelMakeInactive) w eq_refl Hw)
    as Hcatch.
  unfold catch_rethrow in *.
  destruct (checkSafeTransition cfg old w) as [[u| e | | |] w1] eqn:Hcheck;
    simpl in *; try exact Hcatch.
  2:{ destruct (call_if_present invoke old DidCancelMakeInactive w1)
        as [[]]; exact Hcatch. }
  destruct (checkSafeTransition_Ok _ _ _ _ Hcheck)
    as (Hblocked & Hle & _ & Hl1 & _).
  rewrite Hl in Hl1.
  destruct Hcatch as [H0 [new [Hlog Hnew]]].
  pose proof (callback_held n WillMakeActive w1 Hl1) as Hwma. simpl in Hwma.
  destruct Hwma as (_ & Hn2 & Hu2 & _ & _ & Hs2 & _).
  unfold bind.
  destruct (call_if_present invoke n WillMakeActive w1) as [r2 w2].
  simpl in *.
  assert (Hsafe2 : safe_since before w2).
  { split; [lia|]. exists new. split; [congruence|assumption]. }
  destruct r2; simpl; try exact Hsafe2.
  unfold store_controllers, bind, modify, when, ret.
  assert (Hgood : safe_since before
            {| access := set_activeController n (access w2);
               hserial := hserial w2; clock := clock w2;
               serial_calls := serial_calls w2; callback_log := callback_log w2;
               store_log := store_log w2 ++
                 [{| stored_active := n;
                     calls_at_store := state_numUnreturnedAccessCalls (access w2);
                     unblocked_at_store := state_accessIsUnblocked (access w2) |}] |}).
  { split; simpl; [lia|]. exists (new ++ [{| stored_active := n;
                     calls_at_store := state_numUnreturnedAccessCalls (access w2);
                     unblocked_at_store := state_accessIsUnblocked (access w2) |}]).
    split; [rewrite app_assoc; congruence|].
    apply Forall_app. split; [assumption|]. constructor; [|constructor].
    split; simpl; [lia|congruence]. }
  destruct also; simpl; [|exact Hgood].
  destruct Hgood as [G0 G1]. split; [exact G0|exact G1].
Qed.

Lemma safe_performTransition n also :
  safe (performTransition cfg invoke n also).
Proof.
  unfold performTransition.
  apply frames_bind; [typeclasses eauto|apply frames_gets; typeclasses eauto|].
  intros old.
  apply frames_bind; [typeclasses eauto|apply safe_call_if_present|]. intros _.
  apply frames_bind; [typeclasses eauto| |intros; apply safe_call_if_present].
  intros w _ Hw. unfold with_stateMutex, bind at 1, lock_stateMutex.
  destruct (stateMutex_locked (access w)) eqn:Hl; simpl; [exact Hw|].
  unfold unlock_stateMutex. rewrite scope_exit_modify.
  match goal with
  | |- context [snd (?blk ?w1)] =>
      assert (Hb : safe_since before (snd (blk w1)))
  end.
  { apply safe_locked_block; [reflexivity|].
    destruct Hw as [H0 H1]. split; [exact H0|exact H1]. }
  match goal with |- context [if ?b then _ else _] => destruct b end;
    [|exact Hb].
  destruct Hb as [H0 H1]. split; [exact H0|exact H1].
Qed.

Lemma safe_performActiveControllerChange n :
  safe (performActiveControllerChange cfg invoke n).
Proof.
  unfold performActiveControllerChange.
  repeat first [apply safe_AccessUnblocker_dtor | apply safe_performTransition
               | apply safe_call_if_present | frames_step].
Qed.

Lemma safe_store_flag b :
  safe (store_concurrentActiveControllerChangeAllowed b).
Proof. unfold store_concurrentActiveControllerChangeAllowed. safety_leaf. Qed.

Lemma safe_performCurrentControllerChange n :
  safe (performCurrentControllerChange cfg fuel invoke n).
Proof.
  apply frames_performCurrentControllerChange;
    first [typeclasses eauto | apply safe_callback | apply safe_store_flag
          | apply safe_performTransition | apply safe_AccessUnblocker_dtor].
Qed.

Lemma safe_makeActive c : safe (makeActive cfg fuel invoke c).
Proof.
  unfold makeActive.
  repeat first [apply safe_shouldPerform | apply safe_TransitionBlocker_ctor
               | apply safe_TransitionBlocker_dtor | apply safe_isInAccessList
               | apply safe_performActiveControllerChange
               | apply safe_performCurrentControllerChange | frames_step].
Qed.

Lemma safe_makeInactive c : safe (makeInactive cfg fuel invoke c).
Proof.
  unfold makeInactive.
  repeat first [apply safe_shouldPerform | apply safe_TransitionBlocker_ctor
               | apply safe_TransitionBlocker_dtor
               | apply safe_performActiveControllerChange | frames_step].
Qed.

Lemma safe_removeFromAccess c : safe (removeFromAccess cfg fuel invoke c).
Proof.
  unfold removeFromAccess.
  repeat first [apply safe_TransitionBlocker_ctor
               | apply safe_TransitionBlocker_dtor | apply safe_isInAccessList
               | apply safe_performCurrentControllerChange | frames_step].
Qed.

Lemma safe_perform this c : safe (perform cfg fuel invoke this c).
Proof.
  destruct c; simpl; unfold unit_call, controller_makeActive,
    controller_makeInactive, controller_removeFromAccess,
    HSerial_makeActive, HSerial_makeInactive, HSerial_removeFromAccess,
    HSerial_makeLockedActive, HSerial_unlockActive, HSerial_isLockedActive,
    isActive;
    repeat first
      [ apply safe_blockAccessCalls | apply safe_unblockAccessCalls
      | apply safe_waitForAllAccessCallsToReturn | apply safe_accessFunction
      | apply safe_makeActive | apply safe_makeInactive
      | apply safe_removeFromAccess | apply safe_with_isLockedMutex
      | apply safe_with_AccessManagementGuard | safety_leaf | frames_step ].
Qed.

Lemma safe_callback_body this cb :
  safe (callback_body cfg fuel invoke this cb).
Proof.
  unfold callback_body. destruct (class_of cfg this) as [name ov|].
  - destruct (override ov cb) as [p|].
    + apply frames_run; [typeclasses eauto|]. apply safe_perform.
    + destruct cb; try (apply frames_ret; typeclasses eauto).
      unfold HSerialController_willMakeInactive.
      repeat first [ apply safe_blockAccessCalls
                   | apply safe_waitForAllAccessCallsToReturn | frames_step ].
  - destruct cb; try (apply frames_ret; typeclasses eauto);
      unfold HSerial_willMakeInactive, HSerial_didMakeInactive,
        HSerial_didCancelMakeInactive, HSerial_willMakeActive,
        HSerial_didMakeActive, transitionInitiatedExternally,
        unlock_isLockedMutex;
      repeat first
        [ apply safe_blockAccessCalls
        | apply safe_waitForAllAccessCallsToReturn
        | apply safe_lock_isLockedMutex | apply safe_with_isLockedMutex
        | safety_leaf | frames_step ].
Qed.

End Safety.

Lemma safe_dispatch cfg before fuel :
  forall c cb, frames true (safety before) (dispatch cfg fuel c cb).
Proof.
  induction fuel as [|fuel IH]; intros c cb; simpl.
  - apply frames_out_of_fuel. typeclasses eauto.
  - apply safe_callback_body; [exact IH|]. intros. apply held_dispatch.
Qed.

(** A [noexcept] callback does not end by an exception. *)
Lemma callback_noexcept invoke c cb w :
  is_noexcept cb = true -> forall e, fst (callback invoke c cb w) <> Throw e.
Proof.
  intros H e. unfold callback, bind, modify, noexcept. cbn beta iota.
  rewrite H.
  match goal with |- context [invoke c cb ?w1] => destruct (invoke c cb w1) as [[] ?] end;
    simpl; discriminate.
Qed.

(** ** A willMakeInactive that returns without blocking or draining *)

Section UnsafeTransition.

Variable cfg : Config.
Variable invoke : ctrl -> Callback -> M unit.
Hypothesis invoke_held : forall c cb, frames true held_frame (invoke c cb).

Lemma checkSafeTransition_unsafe o w :
  state_accessIsUnblocked (access w) = true \/
  (0 < state_numUnreturnedAccessCalls (access w))%Z ->
  exists msg, checkSafeTransition cfg (Some o) w = (Throw (logic_error msg), w).
Proof.
  intros H. unfold checkSafeTransition, bind, gets, throw, ret. simpl.
  destruct (state_accessIsUnblocked (access w)); simpl; [eauto|].
  destruct H as [H|H]; [discriminate|].
  destruct (Z.ltb_spec 0 (state_numUnreturnedAccessCalls (access w)));
    [eauto|lia].
Qed.

Lemma performTransition_unsafe n also w o w1 :
  state_activeController (access w) = Some o ->
  callback invoke o WillMakeInactive w = (Ok tt, w1) ->
  stateMutex_locked (access w1) = false ->
  state_accessIsUnblocked (access w1) = true \/
  (0 < state_numUnreturnedAccessCalls (access w1))%Z ->
  let r := fst (performTransition cfg invoke n also w) in
  let w' := snd (performTransition cfg invoke n also w) in
  state_activeController (access w') = state_activeController (access w1) /\
  state_currentController (access w') = state_currentController (access w1) /\
  store_log w' = store_log w1 /\
  callback_log w' = callback_log w1 ++ [(o, DidCancelMakeInactive)] /\
  (returns r = true -> exists msg, r = Throw (logic_error msg)) /\
  (fst (callback invoke o DidCancelMakeInactive
          (with_access (set_stateMutex_locked true) w1)) = Ok tt ->
   exists msg, r = Throw (logic_error msg)).
Proof.
  intros Hact Hcb Hfree Hbad.
  set (wl := with_access (set_stateMutex_locked true) w1).
  assert (Hbad' : state_accessIsUnblocked (access wl) = true \/
                  (0 < state_numUnreturnedAccessCalls (access wl))%Z)
    by exact Hbad.
  destruct (checkSafeTransition_unsafe o wl Hbad') as [msg Hcheck].
  assert (E : performTransition cfg invoke n also w
              = let (r2, w2) := callback invoke o DidCancelMakeInactive wl in
                match r2 with
                | Ok _ => (Throw (logic_error msg),
                           with_access (set_stateMutex_locked false) w2)
                | Throw e => (Throw e, with_access (set_stateMutex_locked false) w2)
                | _ => (stop r2, w2)
                end).
  { unfold performTransition.
    unfold bind at 1, gets. cbn beta iota. rewrite Hact.
    unfold bind at 1. simpl call_if_present at 1. rewrite Hcb.
    unfold bind at 1, with_stateMutex, bind at 1, lock_stateMutex.
    rewrite Hfree. cbn beta iota. fold wl.
    unfold scope_exit, bind, catch_rethrow, unlock_stateMutex, modify.
    rewrite Hcheck. simpl call_if_present.
    destruct (callback invoke o DidCancelMakeInactive wl) as [[] w2];
      reflexivity. }
  rewrite E. clear E.
  pose proof (callback_held invoke invoke_held (Some o) DidCancelMakeInactive
                wl eq_refl) as Hc.
  pose proof (callback_noexcept invoke o DidCancelMakeInactive wl eq_refl)
    as Hne.
  cbv zeta in Hc. simpl call_if_present in Hc.
  destruct (callback invoke o DidCancelMakeInactive wl) as [r2 w2].
  simpl in Hc. destruct Hc as (_ & _ & _ & Ha & Hc & Hs & Hl).
  destruct r2; simpl; repeat split; auto; try discriminate; eauto.
  now destruct (Hne e).
Qed.

End UnsafeTransition.

(** ** C1: the active controller is only written in a safe state *)

Lemma safe_since_start w :
  (0 <= state_numUnreturnedAccessCalls (access w))%Z ->
  safe_since (store_log w) w.
Proof. intros H. split; [exact H|]. exists []. now rewrite app_nil_r. Qed.

(** C1.  Every write of [state_activeController] -- in an active
    controller change or a current controller change, whether requested
    by a caller or from inside a callback -- happens with
    [state_numUnreturnedAccessCalls = 0] and access calls blocked.  And
    when the outgoing active controller's willMakeInactive returns with
    access calls still unblocked or with calls unreturned, nothing is
    stored, didCancelMakeInactive is called on that controller, and the
    transition ends in a [std::logic_error]. *)
Theorem active_store_is_safe cfg fuel :
  (forall this call w,
      (0 <= state_numUnreturnedAccessCalls (access w))%Z ->
      exists new,
        store_log (snd (perform cfg fuel (dispatch cfg fuel) this call w))
        = store_log w ++ new /\ Forall safe_store new) /\
  (forall n also w,
      (0 <= state_numUnreturnedAccessCalls (access w))%Z ->
      exists new,
        store_log (snd (Run.performTransition cfg fuel n also w))
        = store_log w ++ new /\ Forall safe_store new) /\
  (forall n w,
      (0 <= state_numUnreturnedAccessCalls (access w))%Z ->
      exists new,
        store_log (snd (Run.performActiveControllerChange cfg fuel n w))
        = store_log w ++ new /\ Forall safe_store new) /\
  (forall n w,
      (0 <= state_numUnreturnedAccessCalls (access w))%Z ->
      exists new,
        store_log (snd (Run.performCurrentControllerChange cfg fuel n w))
        = store_log w ++ new /\ Forall safe_store new) /\
  (forall n also w o w1,
      state_activeController (access w) = Some o ->
      callback (dispatch cfg fuel) o WillMakeInactive w = (Ok tt, w1) ->
      stateMutex_locked (access w1) = false ->
      state_accessIsUnblocked (access w1) = true \/
      (0 < state_numUnreturnedAccessCalls (access w1))%Z ->
      let r := fst (Run.performTransition cfg fuel n also w) in
      let w' := snd (Run.performTransition cfg fuel n also w) in
      state_activeController (access w') = state_activeController (access w1) /\
      state_currentController (access w') = state_currentController (access w1) /\
      store_log w' = store_log w1 /\
      callback_log w' = callback_log w1 ++ [(o, DidCancelMakeInactive)] /\
      (returns r = true -> exists msg, r = Throw (logic_error msg)) /\
      (fst (callback (dispatch cfg fuel) o DidCancelMakeInactive
              (with_access (set_stateMutex_locked true) w1)) = Ok tt ->
       exists msg, r = Throw (logic_error msg))).
Proof.
  assert (Hh : forall c cb, frames true held_frame (dispatch cfg fuel c cb))
    by (intros; apply held_dispatch).
  split; [|split; [|split; [|split]]].
  - intros this call w H0.
    apply (safe_perform cfg fuel (dispatch cfg fuel) (store_log w)
             (safe_dispatch cfg _ fuel) Hh this call w eq_refl
             (safe_since_start w H0)).
  - intros n also w H0.
    apply (safe_performTransition cfg (dispatch cfg fuel) (store_log w)
             (safe_dispatch cfg _ fuel) Hh n also w eq_refl
             (safe_since_start w H0)).
  - intros n w H0.
    apply (safe_performActiveControllerChange cfg (dispatch cfg fuel) (store_log w)
             (safe_dispatch cfg _ fuel) Hh n w eq_refl (safe_since_start w H0)).
  - intros n w H0.
    apply (safe_performCurrentControllerChange cfg fuel (dispatch cfg fuel)
             (store_log w) (safe_dispatch cfg _ fuel) Hh n w eq_refl
             (safe_since_start w H0)).
  - intros n also w o w1 Hact Hcb Hfree Hbad.
    exact (performTransition_unsafe cfg _ Hh n also w o w1 Hact Hcb Hfree Hbad).
Qed.

Lemma active_store_is_safe_witness :
  (exists new,
      store_log (snd (perform Examples.plain_cfg 5 (dispatch Examples.plain_cfg 5)
                        2 (call_makeActive 2)
                        (Examples.after_makeActive Examples.plain_cfg 1)))
      = store_log (Examples.after_makeActive Examples.plain_cfg 1) ++ new
      /\ Forall safe_store new) /\
  (let w := Examples.after_makeActive Examples.careless_cfg 1 in
   let r := fst (Run.performTransition Examples.careless_cfg 5 (Some 2) false w) in
   let w' := snd (Run.performTransition Examples.careless_cfg 5 (Some 2) false w) in
   state_activeController (access w') = Some 1 /\
   store_log w' = store_log w /\
   exists msg, r = Throw (logic_error msg)).
Proof.
  split.
  - apply (proj1 (active_store_is_safe Examples.plain_cfg 5)). vm_compute.
    discriminate.
  - pose proof (proj2 (proj2 (proj2 (proj2
                  (active_store_is_safe Examples.careless_cfg 5))))
                  (Some 2) false (Examples.after_makeActive Examples.careless_cfg 1)
                  1
                  (snd (callback (dispatch Examples.careless_cfg 5) 1
                          WillMakeInactive
                          (Examples.after_makeActive Examples.careless_cfg 1))))
      as H.
    destruct H as (Ha & _ & Hs & _ & _ & Hr).
    + vm_compute. reflexivity.
    + apply with_snd. vm_compute. reflexivity.
    + vm_compute. reflexivity.
    + left. vm_compute. reflexivity.
    + cbv zeta. split; [rewrite Ha; vm_compute; reflexivity|].
      split; [rewrite Hs; vm_compute; reflexivity|].
      apply Hr. vm_compute. reflexivity.
Defined.

(** ** C9: traversals of a registered delegate graph terminate *)

Lemma hasAsDelegateOrSubdelegate_total_acyclic g :
  Delegation.acyclic g -> forall this other,
  exists fuel, forall fuel', fuel <= fuel' ->
    exists b, Delegation.hasAsDelegateOrSubdelegate fuel' g this other = Some b.
Proof. intros H this other. apply hasAsDelegateOrSubdelegate_total, H. Qed.

Lemma registerDelegate_total g this delegate :
  Delegation.acyclic g ->
  exists fuel, forall fuel', fuel <= fuel' ->
    Delegation.registerDelegate fuel' g this delegate <> OutOfFuel.
Proof.
  intros H. destruct delegate as [d|]; [|exists 0; intros; discriminate].
  destruct (hasAsDelegateOrSubdelegate_total_acyclic g H d (Some this))
    as [fuel Hf].
  exists fuel. intros fuel' Hle. unfold Delegation.registerDelegate.
  destruct (Nat.eqb this d); [discriminate|].
  destruct (Delegation.hasAsFirstDegreeDelegate g this (Some d)); [discriminate|].
  destruct (Hf fuel' Hle) as [[|] ->]; discriminate.
Qed.

(** C9.  In a delegate graph built through [registerDelegate] alone --
    which accepts a delegate only if it is not NULL, not the controller
    itself, not already a first-degree delegate, and does not have the
    controller among its own delegates and subdelegates -- the traversals
    [hasAsDelegateOrSubdelegate], [appendDelegatesOfDegree] and
    [getControllersList] terminate (as does [registerDelegate] itself),
    and [getControllersList] returns a list that starts with the
    controller. *)
Theorem registered_traversals_terminate g :
  Delegation.registered g ->
  forall this,
    (forall fuel delegate g',
        Delegation.registerDelegate fuel g this delegate = Ok g' ->
        exists d, delegate = Some d /\ this <> d /\ ~ In d (g this) /\
                  ~ subdelegate g d this /\ g' = Delegation.push_back g this d) /\
    (forall delegate, exists fuel, forall fuel', fuel <= fuel' ->
        Delegation.registerDelegate fuel' g this delegate <> OutOfFuel) /\
    (forall other, exists fuel, forall fuel', fuel <= fuel' ->
        exists b, Delegation.hasAsDelegateOrSubdelegate fuel' g this other = Some b) /\
    (forall lst degree, exists appended,
        Delegation.appendDelegatesOfDegree g this lst degree
        = (lst ++ appended, N.of_nat (List.length appended))) /\
    (exists fuel, forall fuel', fuel <= fuel' ->
        exists rest, Delegation.getControllersList fuel' g this = Some (this :: rest)).
Proof.
  intros Hreg this. pose proof (registered_acyclic g Hreg) as Hacyc.
  repeat split.
  - intros fuel delegate g'. apply registerDelegate_Ok.
  - intros delegate. now apply registerDelegate_total.
  - intros other. now apply hasAsDelegateOrSubdelegate_total_acyclic.
  - intros lst degree. apply appendDelegatesOfDegree_spec.
  - apply getControllersList_total, Hacyc.
Qed.

Lemma diamond_registered : Delegation.registered Examples.diamond.
Proof.
  unfold Examples.diamond.
  apply (Delegation.registered_step
           (Delegation.push_back (Delegation.push_back Delegation.no_delegates 2 3) 1 2)
           5 1 (Some 3)); [|reflexivity].
  apply (Delegation.registered_step
           (Delegation.push_back Delegation.no_delegates 2 3) 5 1 (Some 2));
    [|reflexivity].
  apply (Delegation.registered_step Delegation.no_delegates 5 2 (Some 3));
    [|reflexivity].
  apply Delegation.registered_none.
Defined.

Lemma registered_traversals_terminate_witness :
  Delegation.registered Examples.diamond /\
  exists fuel, forall fuel', fuel <= fuel' ->
    exists rest, Delegation.getControllersList fuel' Examples.diamond 1 = Some (1 :: rest).
Proof.
  split; [exact diamond_registered|].
  apply (registered_traversals_terminate Examples.diamond diamond_registered 1).
Defined.

(** ** C3 and C10: the access-call guard *)

Section AccessGuardFacts.

Variable cfg : Config.

Lemma AccessGuard_ctor_cases c name w :
  let r := fst (AccessGuard_ctor cfg c name w) in
  let w' := snd (AccessGuard_ctor cfg c name w) in
  serial_calls w' = serial_calls w /\
  match r with
  | Ok _ =>
      state_activeController (access w) = Some c /\
      state_numUnreturnedAccessCalls (access w')
      = (state_numUnreturnedAccessCalls (access w) + 1)%Z /\
      stateMutex_locked (access w') = false
  | _ =>
      state_numUnreturnedAccessCalls (access w')
      = state_numUnreturnedAccessCalls (access w)
  end.
Proof.
  unfold AccessGuard_ctor, with_stateMutex, lock_stateMutex, unlock_stateMutex,
    throwIfNotActiveController, scope_exit, bind, gets, modify, throw, ret, block.
  simpl. destruct (stateMutex_locked (access w)); simpl; [auto|].
  destruct (accessCallMayProceed cfg _); simpl; [|auto].
  destruct (state_activeController (access w)) as [a|]; simpl; [|auto].
  destruct (Nat.eqb_spec c a); simpl; [subst; auto|auto].
Qed.

Lemma accessFunction_counter c f w :
  state_numUnreturnedAccessCalls (access (snd (accessFunction cfg c f w)))
  = state_numUnreturnedAccessCalls (access w).
Proof.
  unfold accessFunction, AccessGuard_ctor, AccessGuard_dtor, serial_call,
    with_stateMutex, lock_stateMutex, unlock_stateMutex,
    throwIfNotActiveController, scope_exit, bind, gets, modify, throw, ret, block.
  simpl. destruct (stateMutex_locked (access w)); simpl; [reflexivity|].
  destruct (accessCallMayProceed cfg _); simpl; [|reflexivity].
  destruct (negb _); simpl; [reflexivity|].
  destruct (serial_throws cfg (serial_calls w) f); simpl; lia.
Qed.

Lemma accessFunction_inactive c f w :
  stateMutex_locked (access w) = false ->
  accessCallMayProceed cfg (access w) = true ->
  state_activeController (access w) <> Some c ->
  fst (accessFunction cfg c f w)
  = Throw (logic_error ("The controller must be active to call " ++ funcName f
                          ++ ". Inactive controller: " ++ getDescription cfg c
                          ++ ".")) /\
  serial_calls (snd (accessFunction cfg c f w)) = serial_calls w /\
  state_numUnreturnedAccessCalls (access (snd (accessFunction cfg c f w)))
  = state_numUnreturnedAccessCalls (access w).
Proof.
  intros Hl Hp Ha.
  unfold accessFunction, AccessGuard_ctor, AccessGuard_dtor, serial_call,
    with_stateMutex, lock_stateMutex, unlock_stateMutex,
    throwIfNotActiveController, scope_exit, bind, gets, modify, throw, ret, block.
  simpl. rewrite Hl. simpl.
  replace (accessCallMayProceed cfg (set_stateMutex_locked true (access w)))
    with true by (rewrite <- Hp; reflexivity).
  simpl.
  destruct (state_activeController (access w)) as [a|]; simpl; [|auto].
  destruct (Nat.eqb_spec c a); simpl; [subst; congruence|auto].
Qed.

End AccessGuardFacts.

(** C3.  An access function called by a controller that is not the
    active controller is stopped by the guard before the driver is
    touched -- but what [throwIfNotActiveController] throws is a
    [std::logic_error], not the [NotActiveController] that the headers
    document. *)
Theorem inactive_access_throws_logic_error cfg c f w :
  stateMutex_locked (access w) = false ->
  accessCallMayProceed cfg (access w) = true ->
  state_activeController (access w) <> Some c ->
  (exists what, fst (accessFunction cfg c f w) = Throw (logic_error what)) /\
  (forall description,
      fst (accessFunction cfg c f w) <> Throw (NotActiveController description)) /\
  serial_calls (snd (accessFunction cfg c f w)) = serial_calls w.
Proof.
  intros Hl Hp Ha.
  destruct (accessFunction_inactive cfg c f w Hl Hp Ha) as (Hr & Hs & _).
  rewrite Hr. repeat split; [eauto|discriminate|exact Hs].
Qed.

Lemma inactive_access_throws_logic_error_witness :
  let w := Examples.after_makeActive Examples.plain_cfg 1 in
  (exists what,
      fst (accessFunction Examples.plain_cfg 2 f_read w) = Throw (logic_error what)) /\
  (forall description,
      fst (accessFunction Examples.plain_cfg 2 f_read w)
      <> Throw (NotActiveController description)) /\
  serial_calls (snd (accessFunction Examples.plain_cfg 2 f_read w)) = serial_calls w.
Proof.
  apply (inactive_access_throws_logic_error Examples.plain_cfg 2 f_read
           (Examples.after_makeActive Examples.plain_cfg 1)).
  - vm_compute. reflexivity.
  - vm_compute. reflexivity.
  - vm_compute. discriminate.
Defined.

(** C10.  A call that the guard rejects because its controller is not
    active leaves [state_numUnreturnedAccessCalls] as it was: the
    constructor increments the counter only after the check has passed,
    the destructor runs only when the constructor has completed, and so
    an access function, however it ends, leaves the counter where it
    found it. *)
Theorem access_call_counter_net_zero cfg c f w :
  let r := fst (AccessGuard_ctor cfg c (funcName f) w) in
  let w1 := snd (AccessGuard_ctor cfg c (funcName f) w) in
  match r with
  | Ok _ =>
      state_activeController (access w) = Some c /\
      state_numUnreturnedAccessCalls (access w1)
      = (state_numUnreturnedAccessCalls (access w) + 1)%Z
  | _ =>
      state_numUnreturnedAccessCalls (access w1)
      = state_numUnreturnedAccessCalls (access w) /\
      accessFunction cfg c f w = (stop r, w1)
  end /\
  state_numUnreturnedAccessCalls (access (snd (accessFunction cfg c f w)))
  = state_numUnreturnedAccessCalls (access w).
Proof.
  cbv zeta. split; [|apply accessFunction_counter].
  pose proof (AccessGuard_ctor_cases cfg c (funcName f) w) as H. cbv zeta in H.
  unfold accessFunction, bind.
  destruct (AccessGuard_ctor cfg c (funcName f) w) as [[] w1]; simpl in *;
    intuition.
Qed.

(** ** C6 and C7: willMakeInactive of HSerialController and of HSerial *)

Section WillMakeInactive.

Variable cfg : Config.

Lemma HSerialController_willMakeInactive_spec this w :
  called_in_transition cfg this w ->
  let r := fst (HSerialController_willMakeInactive cfg this w) in
  let w' := snd (HSerialController_willMakeInactive cfg this w) in
  state_accessIsUnblocked (access w') = false /\
  (clock w <= clock w' <= clock w + 1500)%Z /\
  if drains_within cfg w 1500 then
    r = Ok tt /\ state_numUnreturnedAccessCalls (access w') = 0%Z
  else
    r = Throw (ControllerRefuses this "Access calls have not returned.") /\
    clock w' = (clock w + 1500)%Z.
Proof.
  intros (Hl & Hp & Ht & Ha).
  unfold HSerialController_willMakeInactive, blockAccessCalls,
    waitForAllAccessCallsToReturn, wait_allAccessCallsReturned, drains_within,
    with_stateMutex, lock_stateMutex, unlock_stateMutex,
    throwIfNotTransitionCorrect, throwIfNotActiveController,
    scope_exit, bind, gets, modify, throw, ret.
  change (Z.max 0 1500)%Z with 1500%Z.
  repeat progress (simpl; rewrite ?Hl, ?Hp, ?Ht, ?Ha, ?Nat.eqb_refl).
  destruct (Z.eqb_spec (state_numUnreturnedAccessCalls (access w)) 0) as [E|E];
    simpl.
  - repeat split; auto; lia.
  - destruct (drain_at cfg) as [t|]; simpl.
    + destruct (Z.leb_spec t (clock w + 1500)); simpl; repeat split; auto; lia.
    + repeat split; auto; lia.
Qed.

Lemma HSerial_willMakeInactive_spec this w :
  called_in_transition cfg this w ->
  isLockedMutex_locked (hserial w this) = false ->
  let r := fst (HSerial_willMakeInactive cfg this w) in
  let w' := snd (HSerial_willMakeInactive cfg this w) in
  isLocked (hserial w' this) = isLocked (hserial w this) /\
  _isLockedActive (hserial w' this) = _isLockedActive (hserial w this) /\
  if initiated_externally cfg this w && isLocked (hserial w this) then
    r = Throw (ControllerRefuses this "The controller is locked.") /\
    access w' = access w /\ clock w' = clock w
  else
    state_accessIsUnblocked (access w') = false /\
    (clock w <= clock w' <= clock w + 1000)%Z /\
    if drains_within cfg w 1000 then
      r = Ok tt /\ state_numUnreturnedAccessCalls (access w') = 0%Z /\
      isLockedMutex_locked (hserial w' this) = true
    else
      r = Throw (ControllerRefuses this
                   ("The controller is using the port. Controller: "
                      ++ getDescription cfg this ++ ".")) /\
      clock w' = (clock w + 1000)%Z.
Proof.
  intros (Hl & Hp & Ht & Ha) Hm.
  unfold HSerial_willMakeInactive, transitionInitiatedExternally,
    initiated_externally, with_isLockedMutex, lock_isLockedMutex,
    unlock_isLockedMutex, blockAccessCalls,
    waitForAllAccessCallsToReturn, wait_allAccessCallsReturned, drains_within,
    with_stateMutex, lock_stateMutex, unlock_stateMutex,
    throwIfNotTransitionCorrect, throwIfNotActiveController,
    scope_exit, bind, gets, modify, throw, ret, when.
  change (Z.max 0 1000)%Z with 1000%Z.
  simpl.
  destruct (negb (am_callInProgress (hserial w this))
            || negb (Nat.eqb (am_callThread (hserial w this)) (this_thread cfg)));
    simpl.
  - rewrite Hm. simpl. rewrite !Nat.eqb_refl. simpl.
    destruct (isLocked (hserial w this)) eqn:Hlk; simpl.
    + rewrite !Nat.eqb_refl. simpl. rewrite Hlk. destruct w; auto.
    + repeat progress (simpl; rewrite ?Hl, ?Hp, ?Ht, ?Ha, ?Hm, ?Hlk, ?Nat.eqb_refl).
      destruct (Z.eqb_spec (state_numUnreturnedAccessCalls (access w)) 0) as [E|E];
        simpl.
      * repeat progress (simpl; rewrite ?Hm, ?Hlk, ?Nat.eqb_refl).
        repeat split; auto; lia.
      * destruct (drain_at cfg) as [t|]; simpl.
        -- destruct (Z.leb_spec t (clock w + 1000)); simpl;
             repeat progress (simpl; rewrite ?Hm, ?Hlk, ?Nat.eqb_refl);
             repeat split; auto; lia.
        -- repeat progress (simpl; rewrite ?Hm, ?Hlk, ?Nat.eqb_refl).
           repeat split; auto; lia.
  - repeat progress (simpl; rewrite ?Hl, ?Hp, ?Ht, ?Ha, ?Hm, ?Nat.eqb_refl).
    destruct (Z.eqb_spec (state_numUnreturnedAccessCalls (access w)) 0) as [E|E];
      simpl.
    + repeat progress (simpl; rewrite ?Hm, ?Nat.eqb_refl).
      repeat split; auto; lia.
    + destruct (drain_at cfg) as [t|]; simpl.
      * destruct (Z.leb_spec t (clock w + 1000)); simpl;
          repeat progress (simpl; rewrite ?Hm, ?Nat.eqb_refl);
          repeat split; auto; lia.
      * repeat progress (simpl; rewrite ?Hm, ?Nat.eqb_refl).
        repeat split; auto; lia.
Qed.

Lemma HSerial_willMakeInactive_locked_only this w :
  fst (HSerial_willMakeInactive cfg this w)
  = Throw (ControllerRefuses this "The controller is locked.") ->
  initiated_externally cfg this w = true /\ isLocked (hserial w this) = true.
Proof.
  unfold HSerial_willMakeInactive, transitionInitiatedExternally,
    initiated_externally, with_isLockedMutex, lock_isLockedMutex,
    unlock_isLockedMutex, blockAccessCalls,
    waitForAllAccessCallsToReturn, wait_allAccessCallsReturned,
    with_stateMutex, lock_stateMutex, unlock_stateMutex,
    throwIfNotTransitionCorrect, throwIfNotActiveController,
    scope_exit, bind, gets, modify, throw, ret, when.
  intros H.
  repeat (simpl in H; rewrite ?Nat.eqb_refl in H;
          match type of H with
          | context [if ?b then _ else _] => destruct b eqn:?
          | context [match ?x with _ => _ end] => destruct x eqn:?
          end);
    simpl in H; try discriminate; auto.
Qed.

Lemma HSerial_didMakeInactive_spec this w :
  let w' := snd (HSerial_didMakeInactive this w) in
  fst (HSerial_didMakeInactive this w) = Ok tt /\
  isLocked (hserial w' this) = false /\
  _isLockedActive (hserial w' this) = false /\
  isLockedMutex_locked (hserial w' this) = false /\
  access w' = access w.
Proof.
  unfold HSerial_didMakeInactive, unlock_isLockedMutex, bind, modify. simpl.
  rewrite !Nat.eqb_refl. simpl. auto.
Qed.

End WillMakeInactive.

(** ** [stateMutex] is released by whoever took it

    Every library function that returns leaves [stateMutex] as it found
    it. *)

#[local] Instance same_mutex_preorder : PreOrder same_mutex.
Proof.
  split; [intros w; reflexivity|].
  intros w1 w2 w3 H12 H23. unfold same_mutex in *. congruence.
Qed.

Ltac mutex_leaf := apply frames_modify; intros ?; reflexivity.

Section SameMutex.

Variable cfg : Config.
Variable fuel : nat.
Variable invoke : ctrl -> Callback -> M unit.

Hypothesis invoke_mutex : forall c cb, frames false same_mutex (invoke c cb).

Local Abbreviation keeps m := (frames false same_mutex m).

Lemma keeps_with_stateMutex {A} (m : M A) : keeps m -> keeps (with_stateMutex m).
Proof.
  intros Hm w. unfold with_stateMutex, bind, lock_stateMutex, scope_exit,
    unlock_stateMutex, modify.
  destruct (stateMutex_locked (access w)) eqn:Hl; simpl; [discriminate|].
  specialize (Hm (with_access (set_stateMutex_locked true) w)).
  destruct (m (with_access (set_stateMutex_locked true) w)) as [[] w1];
    simpl in *; intros H; try discriminate; unfold same_mutex; simpl; auto.
Qed.

Lemma keeps_callback c cb : keeps (callback invoke c cb).
Proof.
  unfold callback. repeat first [apply invoke_mutex | mutex_leaf | frames_step].
Qed.

Lemma keeps_call_if_present c cb : keeps (call_if_present invoke c cb).
Proof.
  destruct c; simpl; [apply keeps_callback | apply frames_ret; typeclasses eauto].
Qed.

Lemma keeps_lock_isLockedMutex c : keeps (lock_isLockedMutex c).
Proof.
  intros w _. unfold lock_isLockedMutex.
  destruct (isLockedMutex_locked (hserial w c)); reflexivity.
Qed.

Lemma keeps_with_isLockedMutex {A} c (m : M A) :
  keeps m -> keeps (with_isLockedMutex c m).
Proof.
  intros H. unfold with_isLockedMutex, unlock_isLockedMutex.
  repeat first [apply keeps_lock_isLockedMutex | mutex_leaf | frames_step].
Qed.

Lemma keeps_with_AccessManagementGuard {A} c (m : M A) :
  keeps m -> keeps (with_AccessManagementGuard cfg c m).
Proof.
  intros H. unfold with_AccessManagementGuard, AccessManagementGuard_ctor,
    AccessManagementGuard_dtor.
  repeat first [mutex_leaf | frames_step].
  intros w _. destruct (am_serializingMutex_locked (hserial w c)); reflexivity.
Qed.

Lemma keeps_throwIfNotActiveController c n :
  keeps (throwIfNotActiveController cfg c n).
Proof. unfold throwIfNotActiveController. repeat frames_step. Qed.

Lemma keeps_throwIfNotTransitionCorrect c n :
  keeps (throwIfNotTransitionCorrect cfg c n).
Proof. unfold throwIfNotTransitionCorrect. repeat frames_step. Qed.

Lemma keeps_wait_allAccessCallsReturned t :
  keeps (wait_allAccessCallsReturned cfg t).
Proof.
  intros w _. unfold wait_allAccessCallsReturned.
  destruct (state_numUnreturnedAccessCalls (access w) =? 0)%Z; [reflexivity|].
  destruct (match drain_at cfg with Some t0 => (t0 <=? clock w + Z.max 0 t)%Z | None => false end);
    reflexivity.
Qed.

Ltac keeps_step :=
  first
    [ apply keeps_with_stateMutex | apply keeps_callback
    | apply keeps_call_if_present | apply keeps_lock_isLockedMutex
    | apply keeps_with_isLockedMutex | apply keeps_with_AccessManagementGuard
    | apply keeps_throwIfNotActiveController
    | apply keeps_throwIfNotTransitionCorrect
    | apply keeps_wait_allAccessCallsReturned
    | mutex_leaf | frames_step ].

Lemma keeps_TransitionBlocker_ctor : keeps (TransitionBlocker_ctor cfg).
Proof. unfold TransitionBlocker_ctor. repeat keeps_step. Qed.

Lemma keeps_TransitionBlocker_dtor : keeps TransitionBlocker_dtor.
Proof. unfold TransitionBlocker_dtor. repeat keeps_step. Qed.

Lemma keeps_AccessUnblocker_dtor : keeps AccessUnblocker_dtor.
Proof. unfold AccessUnblocker_dtor. repeat keeps_step. Qed.

Lemma keeps_blockAccessCalls c : keeps (blockAccessCalls cfg c).
Proof. unfold blockAccessCalls. repeat keeps_step. Qed.

Lemma keeps_unblockAccessCalls c : keeps (unblockAccessCalls cfg c).
Proof. unfold unblockAccessCalls. repeat keeps_step. Qed.

Lemma keeps_waitForAllAccessCallsToReturn c t :
  keeps (waitForAllAccessCallsToReturn cfg c t).
Proof. unfold waitForAllAccessCallsToReturn. repeat keeps_step. Qed.

Lemma keeps_accessFunction c f : keeps (accessFunction cfg c f).
Proof.
  unfold accessFunction, AccessGuard_ctor, AccessGuard_dtor, serial_call.
  repeat keeps_step.
Qed.

Lemma keeps_isInAccessList c : keeps (isInAccessList cfg fuel c).
Proof. unfold isInAccessList, hasAsDelegateOrSubdelegate. repeat keeps_step. Qed.

Lemma keeps_shouldPerform c :
  keeps (shouldPerformConcurrentActiveControllerChange cfg fuel c).
Proof.
  unfold shouldPerformConcurrentActiveControllerChange.
  repeat first [apply keeps_isInAccessList | keeps_step].
Qed.

Lemma keeps_performTransition n also :
  keeps (performTransition cfg invoke n also).
Proof.
  unfold performTransition, checkSafeTransition, store_controllers. repeat keeps_step.
Qed.

Lemma keeps_performActiveControllerChange n :
  keeps (performActiveControllerChange cfg invoke n).
Proof.
  unfold performActiveControllerChange.
  repeat first [apply keeps_AccessUnblocker_dtor | apply keeps_performTransition
               | keeps_step].
Qed.

Lemma keeps_performCurrentControllerChange n :
  keeps (performCurrentControllerChange cfg fuel invoke n).
Proof.
  apply frames_performCurrentControllerChange;
    first [typeclasses eauto | apply keeps_callback
          | apply keeps_performTransition | apply keeps_AccessUnblocker_dtor
          | idtac].
  intros b. unfold store_concurrentActiveControllerChangeAllowed. mutex_leaf.
Qed.

Lemma keeps_makeActive c : keeps (makeActive cfg fuel invoke c).
Proof.
  unfold makeActive.
  repeat first [apply keeps_shouldPerform | apply keeps_TransitionBlocker_ctor
               | apply keeps_TransitionBlocker_dtor | apply keeps_isInAccessList
               | apply keeps_performActiveControllerChange
               | apply keeps_performCurrentControllerChange | keeps_step].
Qed.

Lemma keeps_makeInactive c : keeps (makeInactive cfg fuel invoke c).
Proof.
  unfold makeInactive.
  repeat first [apply keeps_shouldPerform | apply keeps_TransitionBlocker_ctor
               | apply keeps_TransitionBlocker_dtor
               | apply keeps_performActiveControllerChange | keeps_step].
Qed.

Lemma keeps_removeFromAccess c : keeps (removeFromAccess cfg fuel invoke c).
Proof.
  unfold removeFromAccess.
  repeat first [apply keeps_TransitionBlocker_ctor
               | apply keeps_TransitionBlocker_dtor | apply keeps_isInAccessList
               | apply keeps_performCurrentControllerChange | keeps_step].
Qed.

Lemma keeps_perform this c : keeps (perform cfg fuel invoke this c).
Proof.
  destruct c; simpl; unfold unit_call, controller_makeActive,
    controller_makeInactive, controller_removeFromAccess,
    HSerial_makeActive, HSerial_makeInactive, HSerial_removeFromAccess,
    HSerial_makeLockedActive, HSerial_unlockActive, HSerial_isLockedActive,
    isActive;
    repeat first
      [ apply keeps_blockAccessCalls | apply keeps_unblockAccessCalls
      | apply keeps_waitForAllAccessCallsToReturn | apply keeps_accessFunction
      | apply keeps_makeActive | apply keeps_makeInactive
      | apply keeps_removeFromAccess | keeps_step ].
Qed.

Lemma keeps_callback_body this cb :
  keeps (callback_body cfg fuel invoke this cb).
Proof.
  unfold callback_body. destruct (class_of cfg this) as [name ov|].
  - destruct (override ov cb) as [p|].
    + apply frames_run; [typeclasses eauto|]. apply keeps_perform.
    + destruct cb; try (apply frames_ret; typeclasses eauto).
      unfold HSerialController_willMakeInactive.
      repeat first [ apply keeps_blockAccessCalls
                   | apply keeps_waitForAllAccessCallsToReturn | keeps_step ].
  - destruct cb; try (apply frames_ret; typeclasses eauto);
      unfold HSerial_willMakeInactive, HSerial_didMakeInactive,
        HSerial_didCancelMakeInactive, HSerial_willMakeActive,
        HSerial_didMakeActive, transitionInitiatedExternally,
        unlock_isLockedMutex;
      repeat first
        [ apply keeps_blockAccessCalls
        | apply keeps_waitForAllAccessCallsToReturn | keeps_step ].
Qed.

End SameMutex.

Lemma keeps_dispatch cfg fuel :
  forall c cb, frames false same_mutex (dispatch cfg fuel c cb).
Proof.
  apply frames_dispatch; [typeclasses eauto|].
  intros. now apply keeps_callback_body.
Qed.

(** ** Inside a queued transition

    While a queued transition is in progress and concurrent active
    controller changes are not allowed, a request for another transition
    waits in the queue for ever; so a callback that returns has made no
    transition and caused no callback. *)

#[local] Instance quiet_preorder : PreOrder quiet.
Proof.
  split; [intros w _; reflexivity|].
  intros w1 w2 w3 H12 H23 H1. specialize (H12 H1). rewrite <- H12. apply H23.
  unfold transition_core in H12. injection H12 as _ _ _ _ Hp Hc _ Hr Hn.
  destruct H1 as (H1 & H2 & H3). repeat split; congruence.
Qed.

Ltac quiet_leaf := apply frames_modify; intros ? _; reflexivity.

Section Quiet.

Variable cfg : Config.
Variable fuel : nat.
Variable invoke : ctrl -> Callback -> M unit.

Local Abbreviation calm m := (frames false quiet m).

Lemma calm_lock_stateMutex : calm lock_stateMutex.
Proof.
  intros w _ _. unfold lock_stateMutex.
  destruct (stateMutex_locked (access w)); reflexivity.
Qed.

Lemma calm_with_stateMutex {A} (m : M A) : calm m -> calm (with_stateMutex m).
Proof.
  intros H. unfold with_stateMutex, unlock_stateMutex.
  repeat first [apply calm_lock_stateMutex | quiet_leaf | frames_step].
Qed.

Lemma calm_lock_isLockedMutex c : calm (lock_isLockedMutex c).
Proof.
  intros w _ _. unfold lock_isLockedMutex.
  destruct (isLockedMutex_locked (hserial w c)); reflexivity.
Qed.

Lemma calm_with_isLockedMutex {A} c (m : M A) :
  calm m -> calm (with_isLockedMutex c m).
Proof.
  intros H. unfold with_isLockedMutex, unlock_isLockedMutex.
  repeat first [apply calm_lock_isLockedMutex | quiet_leaf | frames_step].
Qed.

Lemma calm_with_AccessManagementGuard {A} c (m : M A) :
  calm m -> calm (with_AccessManagementGuard cfg c m).
Proof.
  intros H. unfold with_AccessManagementGuard, AccessManagementGuard_ctor,
    AccessManagementGuard_dtor.
  repeat first [quiet_leaf | frames_step].
  intros w _ _. destruct (am_serializingMutex_locked (hserial w c)); reflexivity.
Qed.

Lemma calm_throwIfNotActiveController c n :
  calm (throwIfNotActiveController cfg c n).
Proof. unfold throwIfNotActiveController. repeat frames_step. Qed.

Lemma calm_throwIfNotTransitionCorrect c n :
  calm (throwIfNotTransitionCorrect cfg c n).
Proof. unfold throwIfNotTransitionCorrect. repeat frames_step. Qed.

Lemma calm_wait_allAccessCallsReturned t :
  calm (wait_allAccessCallsReturned cfg t).
Proof.
  intros w _ _. unfold wait_allAccessCallsReturned.
  destruct (state_numUnreturnedAccessCalls (access w) =? 0)%Z; [reflexivity|].
  destruct (match drain_at cfg with Some t0 => (t0 <=? clock w + Z.max 0 t)%Z | None => false end);
    reflexivity.
Qed.

Ltac calm_step :=
  first
    [ apply calm_with_stateMutex | apply calm_lock_isLockedMutex
    | apply calm_with_isLockedMutex | apply calm_with_AccessManagementGuard
    | apply calm_throwIfNotActiveController
    | apply calm_throwIfNotTransitionCorrect
    | apply calm_wait_allAccessCallsReturned
    | quiet_leaf | frames_step ].

Lemma calm_blockAccessCalls c : calm (blockAccessCalls cfg c).
Proof. unfold blockAccessCalls. repeat calm_step. Qed.

Lemma calm_unblockAccessCalls c : calm (unblockAccessCalls cfg c).
Proof. unfold unblockAccessCalls. repeat calm_step. Qed.

Lemma calm_waitForAllAccessCallsToReturn c t :
  calm (waitForAllAccessCallsToReturn cfg c t).
Proof. unfold waitForAllAccessCallsToReturn. repeat calm_step. Qed.

Lemma calm_accessFunction c f : calm (accessFunction cfg c f).
Proof.
  unfold accessFunction, AccessGuard_ctor, AccessGuard_dtor, serial_call.
  repeat calm_step.
Qed.

(** A queued request made from inside a queued transition never gets its
    turn. *)
Lemma TransitionBlocker_ctor_queued w :
  tb_nextNumber (access w) <> tb_readyNumber (access w) ->
  fst (TransitionBlocker_ctor cfg w) = Blocked.
Proof.
  intros H. unfold TransitionBlocker_ctor, bind, gets, modify, block. simpl.
  destruct (Z.eqb_spec (tb_nextNumber (access w)) (tb_readyNumber (access w)));
    [contradiction|reflexivity].
Qed.

Lemma shouldPerform_queued c w :
  state_concurrentActiveControllerChangeAllowed (access w) = false ->
  let r := shouldPerformConcurrentActiveControllerChange cfg fuel c w in
  fst r = Blocked \/
  (fst r = Ok false /\
   tb_nextNumber (access (snd r)) = tb_nextNumber (access w) /\
   tb_readyNumber (access (snd r)) = tb_readyNumber (access w)).
Proof.
  intros H. unfold shouldPerformConcurrentActiveControllerChange,
    with_stateMutex, lock_stateMutex, unlock_stateMutex, scope_exit, bind,
    gets, modify, ret.
  simpl. destruct (stateMutex_locked (access w)); simpl; [auto|].
  rewrite H, andb_false_r. simpl. auto.
Qed.

Lemma makeActive_queued c w :
  queued w -> returns (fst (makeActive cfg fuel invoke c w)) = false.
Proof.
  intros (_ & Hc & Hn). unfold makeActive, bind at 1.
  destruct (shouldPerform_queued c w Hc) as [Hb|(Hr & Hn1 & Hr1)].
  - destruct (shouldPerformConcurrentActiveControllerChange cfg fuel c w)
      as [r w1]. simpl in Hb. now subst r.
  - destruct (shouldPerformConcurrentActiveControllerChange cfg fuel c w)
      as [r w1]. simpl in *. subst r. unfold bind.
    assert (Hq : tb_nextNumber (access w1) <> tb_readyNumber (access w1))
      by congruence.
    pose proof (TransitionBlocker_ctor_queued w1 Hq) as Hb.
    destruct (TransitionBlocker_ctor cfg w1) as [r w2]. simpl in Hb. now subst r.
Qed.

Lemma makeInactive_queued c w :
  queued w -> returns (fst (makeInactive cfg fuel invoke c w)) = false.
Proof.
  intros (_ & Hc & Hn). unfold makeInactive, bind at 1.
  destruct (shouldPerform_queued c w Hc) as [Hb|(Hr & Hn1 & Hr1)].
  - destruct (shouldPerformConcurrentActiveControllerChange cfg fuel c w)
      as [r w1]. simpl in Hb. now subst r.
  - destruct (shouldPerformConcurrentActiveControllerChange cfg fuel c w)
      as [r w1]. simpl in *. subst r. unfold bind.
    assert (Hq : tb_nextNumber (access w1) <> tb_readyNumber (access w1))
      by congruence.
    pose proof (TransitionBlocker_ctor_queued w1 Hq) as Hb.
    destruct (TransitionBlocker_ctor cfg w1) as [r w2]. simpl in Hb. now subst r.
Qed.

Lemma removeFromAccess_queued c w :
  tb_nextNumber (access w) <> tb_readyNumber (access w) ->
  returns (fst (removeFromAccess cfg fuel invoke c w)) = false.
Proof.
  intros Hn. unfold removeFromAccess, bind.
  pose proof (TransitionBlocker_ctor_queued w Hn) as Hb.
  destruct (TransitionBlocker_ctor cfg w) as [r w2]. simpl in Hb. now subst r.
Qed.

Lemma calm_makeActive c : calm (makeActive cfg fuel invoke c).
Proof. intros w Hr Hq. rewrite makeActive_queued in Hr by exact Hq. discriminate. Qed.

Lemma calm_makeInactive c : calm (makeInactive cfg fuel invoke c).
Proof. intros w Hr Hq. rewrite makeInactive_queued in Hr by exact Hq. discriminate. Qed.

Lemma calm_removeFromAccess c : calm (removeFromAccess cfg fuel invoke c).
Proof.
  intros w Hr Hq. rewrite removeFromAccess_queued in Hr by apply Hq. discriminate.
Qed.

Lemma calm_perform this c : calm (perform cfg fuel invoke this c).
Proof.
  destruct c; simpl; unfold unit_call, controller_makeActive,
    controller_makeInactive, controller_removeFromAccess,
    HSerial_makeActive, HSerial_makeInactive, HSerial_removeFromAccess,
    HSerial_makeLockedActive, HSerial_unlockActive, HSerial_isLockedActive,
    isActive;
    repeat first
      [ apply calm_blockAccessCalls | apply calm_unblockAccessCalls
      | apply calm_waitForAllAccessCallsToReturn | apply calm_accessFunction
      | apply calm_makeActive | apply calm_makeInactive
      | apply calm_removeFromAccess | calm_step ].
Qed.

Lemma calm_callback_body this cb :
  calm (callback_body cfg fuel invoke this cb).
Proof.
  unfold callback_body. destruct (class_of cfg this) as [name ov|].
  - destruct (override ov cb) as [p|].
    + apply frames_run; [typeclasses eauto|]. apply calm_perform.
    + destruct cb; try (apply frames_ret; typeclasses eauto).
      unfold HSerialController_willMakeInactive.
      repeat first [ apply calm_blockAccessCalls
                   | apply calm_waitForAllAccessCallsToReturn | calm_step ].
  - destruct cb; try (apply frames_ret; typeclasses eauto);
      unfold HSerial_willMakeInactive, HSerial_didMakeInactive,
        HSerial_didCancelMakeInactive, HSerial_willMakeActive,
        HSerial_didMakeActive, transitionInitiatedExternally,
        unlock_isLockedMutex;
      repeat first
        [ apply calm_blockAccessCalls
        | apply calm_waitForAllAccessCallsToReturn | calm_step ].
Qed.

End Quiet.

Lemma calm_dispatch cfg fuel c cb : frames false quiet (dispatch cfg fuel c cb).
Proof.
  destruct fuel; simpl.
  - apply frames_out_of_fuel. typeclasses eauto.
  - apply calm_callback_body.
Qed.

(** ** Following a call that returned normally *)

Lemma bind_Ok {A B} (m : M A) (k : A -> M B) w b w' :
  bind m k w = (Ok b, w') ->
  exists a w1, m w = (Ok a, w1) /\ k a w1 = (Ok b, w').
Proof.
  unfold bind. destruct (m w) as [[a| | | |] w1]; simpl; try discriminate.
  eauto.
Qed.

Lemma scope_exit_Ok {A} dtor (body : M A) w a w' :
  scope_exit dtor body w = (Ok a, w') ->
  exists w1, body w = (Ok a, w1) /\ dtor w1 = (Ok tt, w').
Proof.
  unfold scope_exit. destruct (body w) as [[a0| | | |] w1]; try discriminate.
  - destruct (dtor w1) as [[[]| | | |] w2] eqn:Hd; simpl; try discriminate.
    intros [= <- <-]. exists w1. split; [reflexivity|exact Hd].
  - destruct (dtor w1) as [[[]| | | |] w2]; simpl; discriminate.
Qed.

Lemma catch_rethrow_Ok {A} (m : M A) handler w a w' :
  catch_rethrow m handler w = (Ok a, w') -> m w = (Ok a, w').
Proof.
  unfold catch_rethrow. destruct (m w) as [[a0|e| | |] w1]; auto.
  destruct (handler w1) as [[]]; simpl; discriminate.
Qed.

Lemma noexcept_Ok {A} (m : M A) w a w' :
  noexcept m w = (Ok a, w') -> m w = (Ok a, w').
Proof. unfold noexcept. destruct (m w) as [[] ?]; auto; discriminate. Qed.

Lemma with_stateMutex_Ok {A} (m : M A) w a w' :
  with_stateMutex m w = (Ok a, w') ->
  stateMutex_locked (access w) = false /\
  exists w1, m (with_access (set_stateMutex_locked true) w) = (Ok a, w1) /\
             w' = with_access (set_stateMutex_locked false) w1.
Proof.
  unfold with_stateMutex, lock_stateMutex, unlock_stateMutex, modify.
  intros H. apply bind_Ok in H. destruct H as ([] & w0 & Hlock & H).
  destruct (stateMutex_locked (access w)); [discriminate|].
  injection Hlock as <-. split; [reflexivity|].
  apply scope_exit_Ok in H. destruct H as (w1 & Hm & Hd).
  injection Hd as <-. eauto.
Qed.

Lemma queued_flags w w' : flags w' = flags w -> queued w -> queued w'.
Proof.
  unfold flags. intros [= Hp Hc _ Hr Hn] (H1 & H2 & H3). repeat split; congruence.
Qed.

Lemma transition_core_fields w w' :
  transition_core w' = transition_core w ->
  callback_log w' = callback_log w /\ store_log w' = store_log w /\
  state_activeController (access w') = state_activeController (access w) /\
  state_currentController (access w') = state_currentController (access w) /\
  flags w' = flags w.
Proof.
  unfold transition_core, flags. intros [= H1 H2 H3 H4 H5 H6 H7 H8 H9].
  repeat split; congruence.
Qed.

Section Following.

Variable cfg : Config.
Variable fuel : nat.
Variable invoke : ctrl -> Callback -> M unit.
Hypothesis invoke_calm : forall c cb, frames false quiet (invoke c cb).

Lemma uint32_succ_neq n : uint32 (n + 1) <> n.
Proof.
  unfold uint32. intros H.
  pose proof (Z.div_mod (n + 1) 4294967296 ltac:(lia)) as Hd.
  rewrite H in Hd. lia.
Qed.

Lemma TransitionBlocker_ctor_Ok w u w1 :
  TransitionBlocker_ctor cfg w = (Ok u, w1) ->
  queued w1 /\
  callback_log w1 = callback_log w /\ store_log w1 = store_log w /\
  state_activeController (access w1) = state_activeController (access w) /\
  state_currentController (access w1) = state_currentController (access w) /\
  state_transitionThread (access w1) = this_thread cfg /\
  stateMutex_locked (access w1) = false /\ hserial w1 = hserial w.
Proof.
  unfold TransitionBlocker_ctor, with_stateMutex,
    lock_stateMutex, unlock_stateMutex, scope_exit, bind, gets, modify, block,
    ret. simpl.
  destruct (Z.eqb_spec (tb_nextNumber (access w)) (tb_readyNumber (access w)))
    as [E|E]; simpl; [|discriminate].
  destruct (stateMutex_locked (access w)); simpl; [discriminate|].
  intros [= <- <-]. unfold queued. simpl. repeat split; auto.
  rewrite <- E. apply uint32_succ_neq.
Qed.

Lemma TransitionBlocker_dtor_Ok w u w1 :
  TransitionBlocker_dtor w = (Ok u, w1) ->
  callback_log w1 = callback_log w /\ store_log w1 = store_log w /\
  state_activeController (access w1) = state_activeController (access w) /\
  state_currentController (access w1) = state_currentController (access w) /\
  hserial w1 = hserial w.
Proof.
  unfold TransitionBlocker_dtor, with_stateMutex,
    lock_stateMutex, unlock_stateMutex, scope_exit, bind, gets, modify. simpl.
  destruct (stateMutex_locked (access w)); simpl; [discriminate|].
  intros [= <- <-]. simpl. auto.
Qed.

Lemma AccessUnblocker_dtor_Ok w u w1 :
  AccessUnblocker_dtor w = (Ok u, w1) ->
  transition_core w1 = transition_core w /\ hserial w1 = hserial w.
Proof.
  unfold AccessUnblocker_dtor, with_stateMutex,
    lock_stateMutex, unlock_stateMutex, scope_exit, when, bind, gets, modify,
    ret. simpl.
  destruct (stateMutex_locked (access w)); simpl; [discriminate|].
  destruct (state_accessIsUnblocked (access w)); simpl; intros [= <- <-]; auto.
Qed.

Lemma shouldPerform_not_in_progress c w b w1 :
  state_transitionInProgress (access w) = false ->
  shouldPerformConcurrentActiveControllerChange cfg fuel c w = (Ok b, w1) ->
  b = false /\ transition_core w1 = transition_core w /\ hserial w1 = hserial w.
Proof.
  intros Hp. unfold shouldPerformConcurrentActiveControllerChange,
    with_stateMutex, lock_stateMutex, unlock_stateMutex, scope_exit, bind,
    gets, modify, ret.
  simpl. destruct (stateMutex_locked (access w)); simpl; [discriminate|].
  rewrite Hp. simpl. intros [= <- <-]. auto.
Qed.

Lemma isInAccessList_pure c w r w1 :
  isInAccessList cfg fuel c w = (r, w1) -> w1 = w.
Proof.
  unfold isInAccessList, hasAsDelegateOrSubdelegate, bind, gets, ret,
    out_of_fuel. simpl.
  destruct (state_currentController (access w)) as [cur|]; [|now intros [= <-]].
  destruct (Nat.eqb cur c); [now intros [= <-]|].
  destruct (Delegation.hasAsDelegateOrSubdelegate fuel (delegates cfg) cur (Some c));
    now intros [= <-].
Qed.

(** The callback's own entry is the only one it adds to the log. *)
Lemma callback_queued c cb w r w1 :
  queued w ->
  callback invoke c cb w = (r, w1) ->
  returns r = true ->
  callback_log w1 = callback_log w ++ [(c, cb)] /\
  store_log w1 = store_log w /\
  state_activeController (access w1) = state_activeController (access w) /\
  state_currentController (access w1) = state_currentController (access w) /\
  flags w1 = flags w.
Proof.
  intros Hq. unfold callback, bind, modify. cbn beta iota.
  match goal with
  | |- context [(if is_noexcept cb then ?a else ?b) ?w0] =>
      assert (Hc : frames false quiet (if is_noexcept cb then a else b));
      [ destruct (is_noexcept cb);
        [apply frames_noexcept|]; apply invoke_calm
      | specialize (Hc w0);
        destruct ((if is_noexcept cb then a else b) w0) as [r0 w0'] ]
  end.
  intros [= <- <-] Hr. simpl in Hc. specialize (Hc Hr Hq).
  apply transition_core_fields in Hc. simpl in Hc. exact Hc.
Qed.

Lemma call_if_present_queued c cb w r w1 :
  queued w ->
  call_if_present invoke c cb w = (r, w1) ->
  returns r = true ->
  callback_log w1 = callback_log w ++ events c cb /\
  store_log w1 = store_log w /\
  state_activeController (access w1) = state_activeController (access w) /\
  state_currentController (access w1) = state_currentController (access w) /\
  flags w1 = flags w.
Proof.
  destruct c as [x|]; simpl.
  - apply callback_queued.
  - intros _ [= <- <-] _. rewrite app_nil_r. auto.
Qed.

Lemma checkSafeTransition_core old w r w1 :
  checkSafeTransition cfg old w = (r, w1) ->
  transition_core w1 = transition_core w.
Proof.
  unfold checkSafeTransition, bind, gets, modify, throw, ret. simpl.
  destruct (state_accessIsUnblocked (access w)); simpl.
  - destruct old; simpl; [now intros [= <- <-]|].
    destruct (0 <? state_numUnreturnedAccessCalls (access w))%Z;
      now intros [= <- <-].
  - destruct (0 <? state_numUnreturnedAccessCalls (access w))%Z;
      [destruct old|]; now intros [= <- <-].
Qed.

Lemma store_controllers_Ok n also w u w1 :
  store_controllers n also w = (Ok u, w1) ->
  callback_log w1 = callback_log w /\
  state_activeController (access w1) = n /\
  state_currentController (access w1)
  = (if also then n else state_currentController (access w)) /\
  flags w1 = flags w /\ hserial w1 = hserial w.
Proof.
  unfold store_controllers, bind, modify, when, ret. simpl.
  destruct also; simpl; intros [= <- <-]; auto.
Qed.

(** A transition that completes inside a queued transition makes three
    callbacks: willMakeInactive on the outgoing controller, willMakeActive
    on the incoming one, then -- after the store -- didMakeInactive on the
    outgoing one. *)
Lemma performTransition_queued_Ok n also w u w' :
  queued w ->
  performTransition cfg invoke n also w = (Ok u, w') ->
  callback_log w'
  = callback_log w ++ events (state_activeController (access w)) WillMakeInactive
      ++ events n WillMakeActive
      ++ events (state_activeController (access w)) DidMakeInactive /\
  state_activeController (access w') = n /\
  state_currentController (access w')
  = (if also then n else state_currentController (access w)) /\
  flags w' = flags w.
Proof.
  intros Hq H. unfold performTransition in H.
  apply bind_Ok in H. destruct H as (old & w0 & Hg & H).
  injection Hg as <- <-.
  apply bind_Ok in H. destruct H as ([] & w1 & H1 & H).
  destruct (call_if_present_queued _ _ _ _ _ Hq H1 eq_refl)
    as (L1 & _ & A1 & C1 & F1).
  apply bind_Ok in H. destruct H as ([] & w2 & H2 & H3).
  apply with_stateMutex_Ok in H2. destruct H2 as (_ & w1b & H2 & ->).
  apply bind_Ok in H2. destruct H2 as ([] & wc & Hc & H2).
  apply catch_rethrow_Ok in Hc.
  apply checkSafeTransition_core, transition_core_fields in Hc.
  simpl in Hc. destruct Hc as (Lc & _ & Ac & Cc & Fc).
  apply bind_Ok in H2. destruct H2 as ([] & wd & Hd & H2).
  assert (Hqc : queued wc).
  { apply (queued_flags w); [|exact Hq]. rewrite Fc. exact F1. }
  change (flags (with_access (set_stateMutex_locked true) w1)) with (flags w1)
    in Fc.
  destruct (call_if_present_queued _ _ _ _ _ Hqc Hd eq_refl)
    as (Ld & _ & Ad & Cd & Fd).
  apply store_controllers_Ok in H2. destruct H2 as (Le & Ae & Ce & Fe & _).
  assert (Hq2 : queued (with_access (set_stateMutex_locked false) w1b)).
  { apply (queued_flags w); [|exact Hq].
    change (flags (with_access (set_stateMutex_locked false) w1b)) with (flags w1b).
    congruence. }
  destruct (call_if_present_queued _ _ _ _ _ Hq2 H3 eq_refl)
    as (L3 & _ & A3 & C3 & F3).
  change (flags (with_access (set_stateMutex_locked false) w1b)) with (flags w1b)
    in F3.
  simpl in *. repeat split.
  - rewrite L3, Le, Ld, Lc, L1. now rewrite <- !app_assoc.
  - congruence.
  - rewrite C3, Ce. destruct also; congruence.
  - congruence.
Qed.

Lemma performActiveControllerChange_queued_Ok n w u w' :
  queued w ->
  performActiveControllerChange cfg invoke n w = (Ok u, w') ->
  callback_log w'
  = callback_log w ++ events (state_activeController (access w)) WillMakeInactive
      ++ events n WillMakeActive
      ++ events (state_activeController (access w)) DidMakeInactive
      ++ events n DidMakeActive /\
  state_activeController (access w') = n /\
  state_currentController (access w') = state_currentController (access w) /\
  flags w' = flags w.
Proof.
  intros Hq H. unfold performActiveControllerChange in H.
  apply scope_exit_Ok in H. destruct H as (w2 & H & Hd).
  apply bind_Ok in H. destruct H as ([] & w1 & H1 & H2).
  destruct (performTransition_queued_Ok _ _ _ _ _ Hq H1) as (L1 & A1 & C1 & F1).
  assert (Hq1 : queued w1) by (apply (queued_flags w); assumption).
  destruct (call_if_present_queued _ _ _ _ _ Hq1 H2 eq_refl)
    as (L2 & _ & A2 & C2 & F2).
  apply AccessUnblocker_dtor_Ok in Hd. destruct Hd as [Hd _].
  apply transition_core_fields in Hd. destruct Hd as (L3 & _ & A3 & C3 & F3).
  repeat split.
  - rewrite L3, L2, L1. now rewrite <- !app_assoc.
  - congruence.
  - congruence.
  - congruence.
Qed.

End Following.

(** ** C5: the callbacks of an active controller change *)

Lemma isInAccessList_Ok cfg fuel c w b w1 :
  isInAccessList cfg fuel c w = (Ok b, w1) ->
  (b = true <-> in_access_list cfg w c).
Proof.
  unfold isInAccessList, hasAsDelegateOrSubdelegate, in_access_list, bind, gets,
    ret, out_of_fuel. simpl.
  destruct (state_currentController (access w)) as [cur|].
  - destruct (Nat.eqb_spec cur c) as [->|Hne].
    + intros [= <- <-]. split; eauto.
    + destruct (Delegation.hasAsDelegateOrSubdelegate fuel (delegates cfg) cur (Some c))
        as [[|]|] eqn:Hh; intros [= <- <-].
      * split; [|reflexivity]. intros _. exists cur. split; [reflexivity|].
        right. eapply hasAsDelegateOrSubdelegate_true. exact Hh.
      * split; [discriminate|]. intros (cur' & [= <-] & [?|Hs]); [contradiction|].
        now apply hasAsDelegateOrSubdelegate_false in Hh.
  - intros [= <- <-]. split; [discriminate|]. intros (cur & Hc & _). discriminate.
Qed.


(** ** C8: removeFromAccess of a controller that is not current *)

Lemma isInAccessList_total cfg c w :
  Delegation.acyclic (delegates cfg) ->
  exists fuel0, forall fuel, fuel0 <= fuel ->
    exists b, (b = true <-> in_access_list cfg w c) /\
      forall w1, state_currentController (access w1) = state_currentController (access w) ->
                 isInAccessList cfg fuel c w1 = (Ok b, w1).
Proof.
  intros Hacyc. destruct (state_currentController (access w)) as [cur|] eqn:Hcur.
  - destruct (hasAsDelegateOrSubdelegate_total_acyclic _ Hacyc cur (Some c))
      as [fuel0 Hf].
    exists fuel0. intros fuel Hle. destruct (Hf fuel Hle) as [b0 Hb0].
    assert (Hw : isInAccessList cfg fuel c w
                 = (Ok (if Nat.eqb cur c then true else b0), w)).
    { unfold isInAccessList, hasAsDelegateOrSubdelegate, bind, gets, ret. simpl.
      rewrite Hcur. destruct (Nat.eqb cur c); [reflexivity|]. now rewrite Hb0. }
    exists (if Nat.eqb cur c then true else b0). split.
    + eapply isInAccessList_Ok. exact Hw.
    + intros w1 H1. unfold isInAccessList, hasAsDelegateOrSubdelegate, bind,
        gets, ret. simpl. rewrite H1.
      destruct (Nat.eqb cur c); [reflexivity|]. now rewrite Hb0.
  - exists 0. intros fuel _. exists false. split.
    + split; [discriminate|]. intros (cur & Hc & _). congruence.
    + intros w1 H1. unfold isInAccessList, bind, gets, ret. simpl. now rewrite H1.
Qed.

Lemma bind_eq_Ok {A B} (m : M A) (k : A -> M B) w a w1 :
  m w = (Ok a, w1) -> bind m k w = k a w1.
Proof. intros H. unfold bind. now rewrite H. Qed.

Lemma scope_exit_eq {A} dtor (body : M A) w r w1 w2 :
  body w = (r, w1) -> returns r = true -> dtor w1 = (Ok tt, w2) ->
  scope_exit dtor body w = (r, w2).
Proof.
  intros Hb Hr Hd. unfold scope_exit. rewrite Hb.
  destruct r; try discriminate; now rewrite Hd.
Qed.

Lemma TransitionBlocker_ctor_idle cfg w :
  tb_nextNumber (access w) = tb_readyNumber (access w) ->
  stateMutex_locked (access w) = false ->
  exists w1, TransitionBlocker_ctor cfg w = (Ok tt, w1).
Proof.
  intros Hq Hl. unfold TransitionBlocker_ctor, with_stateMutex,
    lock_stateMutex, unlock_stateMutex, scope_exit, bind, gets, modify, block,
    ret. simpl.
  rewrite Hq, Z.eqb_refl. simpl. rewrite Hl. simpl. eauto.
Qed.

Lemma TransitionBlocker_dtor_free w :
  stateMutex_locked (access w) = false ->
  exists w1, TransitionBlocker_dtor w = (Ok tt, w1).
Proof.
  intros Hl. unfold TransitionBlocker_dtor, with_stateMutex,
    lock_stateMutex, unlock_stateMutex, scope_exit, bind, gets, modify. simpl.
  rewrite Hl. simpl. eauto.
Qed.

(** C8.  [removeFromAccess] of a controller that is on the access list
    without being the current controller (a delegate or subdelegate) ends
    in a [std::logic_error]; of a controller that is not on the access
    list it does nothing: no callback is made, and the current and the
    active controller stay as they are. *)
Theorem removeFromAccess_not_current cfg c w :
  Delegation.registered (delegates cfg) ->
  tb_nextNumber (access w) = tb_readyNumber (access w) ->
  stateMutex_locked (access w) = false ->
  exists fuel0, forall fuel, fuel0 <= fuel -> forall invoke,
    let r := fst (removeFromAccess cfg fuel invoke c w) in
    let w' := snd (removeFromAccess cfg fuel invoke c w) in
    (in_access_list cfg w c ->
     state_currentController (access w) <> Some c ->
     r = Throw (logic_error
                  ("Cannot remove controller from access if it is not the current controller. Controller: "
                     ++ getDescription cfg c ++ ".")) /\
     callback_log w' = callback_log w /\
     state_currentController (access w') = state_currentController (access w) /\
     state_activeController (access w') = state_activeController (access w)) /\
    (~ in_access_list cfg w c ->
     r = Ok tt /\
     callback_log w' = callback_log w /\
     state_currentController (access w') = state_currentController (access w) /\
     state_activeController (access w') = state_activeController (access w)).
Proof.
  intros Hreg Hq Hl.
  destruct (isInAccessList_total cfg c w (registered_acyclic _ Hreg))
    as [fuel0 Hf].
  exists fuel0. intros fuel Hle invoke. destruct (Hf fuel Hle) as (b & Hb & Hi).
  destruct (TransitionBlocker_ctor_idle cfg w Hq Hl) as [w1 Hctor].
  pose proof (TransitionBlocker_ctor_Ok cfg _ _ _ Hctor)
    as (_ & L1 & _ & A1 & C1 & _ & M1 & _).
  destruct (TransitionBlocker_dtor_free w1 M1) as [w2 Hdtor].
  pose proof (TransitionBlocker_dtor_Ok _ _ _ Hdtor) as (L2 & _ & A2 & C2 & _).
  specialize (Hi w1 C1).
  cbv zeta. unfold removeFromAccess.
  rewrite (bind_eq_Ok _ _ _ _ _ Hctor).
  split.
  - intros Hin Hcur.
    assert (Hbody :
      (inList <- isInAccessList cfg fuel c;;
       (if inList
        then current <- gets (fun w0 => state_currentController (access w0));;
             (if opt_eqb (Some c) current
              then performCurrentControllerChange cfg fuel invoke None
              else throw (logic_error
                     ("Cannot remove controller from access if it is not the current controller. Controller: "
                        ++ getDescription cfg c ++ ".")))
        else ret tt)) w1
      = (Throw (logic_error
                  ("Cannot remove controller from access if it is not the current controller. Controller: "
                     ++ getDescription cfg c ++ ".")), w1)).
    { rewrite (bind_eq_Ok _ _ _ _ _ Hi). apply Hb in Hin. subst b.
      unfold bind, gets, throw. simpl. rewrite C1.
      destruct (state_currentController (access w)) as [cur|]; simpl; auto.
      destruct (Nat.eqb_spec c cur) as [->|Hne]; [congruence|reflexivity]. }
    rewrite (scope_exit_eq _ _ _ _ _ _ Hbody eq_refl Hdtor). simpl.
    repeat split; congruence.
  - intros Hn.
    assert (Hbody :
      (inList <- isInAccessList cfg fuel c;;
       (if inList
        then current <- gets (fun w0 => state_currentController (access w0));;
             (if opt_eqb (Some c) current
              then performCurrentControllerChange cfg fuel invoke None
              else throw (logic_error
                     ("Cannot remove controller from access if it is not the current controller. Controller: "
                        ++ getDescription cfg c ++ ".")))
        else ret tt)) w1
      = (Ok tt, w1)).
    { rewrite (bind_eq_Ok _ _ _ _ _ Hi). destruct b; [|reflexivity].
      destruct Hn. now apply Hb. }
    rewrite (scope_exit_eq _ _ _ _ _ _ Hbody eq_refl Hdtor). simpl.
    repeat split; congruence.
Qed.

Lemma tree_registered : Delegation.registered Examples.tree.
Proof.
  unfold Examples.tree.
  apply (Delegation.registered_step
           (Delegation.push_back (Delegation.push_back Delegation.no_delegates 2 6) 1 2)
           5 1 (Some 5)); [|reflexivity].
  apply (Delegation.registered_step
           (Delegation.push_back Delegation.no_delegates 2 6) 5 1 (Some 2));
    [|reflexivity].
  apply (Delegation.registered_step Delegation.no_delegates 5 2 (Some 6));
    [|reflexivity].
  apply Delegation.registered_none.
Defined.

Lemma removeFromAccess_not_current_witness :
  let w := Examples.after_makeActive Examples.plain_cfg 1 in
  exists fuel0, forall fuel, fuel0 <= fuel ->
    (exists what,
        fst (Run.removeFromAccess Examples.plain_cfg fuel 6 w)
        = Throw (logic_error what)) /\
    state_currentController
      (access (snd (Run.removeFromAccess Examples.plain_cfg fuel 6 w))) = Some 1.
Proof.
  cbv zeta.
  destruct (removeFromAccess_not_current Examples.plain_cfg 6
              (Examples.after_makeActive Examples.plain_cfg 1))
    as [fuel0 H]; [exact tree_registered|reflexivity|reflexivity|].
  exists fuel0. intros fuel Hle.
  destruct (H fuel Hle (dispatch Examples.plain_cfg fuel)) as [Hin _].
  destruct Hin as (Hr & _ & Hc & _).
  - exists 1. split; [reflexivity|]. right.
    apply sub_via with (y := 2); [simpl; auto|]. constructor. simpl. auto.
  - discriminate.
  - unfold Run.removeFromAccess. rewrite Hr, Hc. split; [eauto|reflexivity].
Defined.

(** ** C6: the two drain timeouts *)

(** C6.  HSerialController's willMakeInactive blocks access calls and
    waits for the unreturned access calls for at most 1500 ms; if they
    have not returned by then it throws ControllerRefuses.  HSerial's
    override, once past its lock check, does the same with 1000 ms. *)
Theorem willMakeInactive_drain_timeouts cfg this w :
  called_in_transition cfg this w ->
  (let r := fst (HSerialController_willMakeInactive cfg this w) in
   let w' := snd (HSerialController_willMakeInactive cfg this w) in
   state_accessIsUnblocked (access w') = false /\
   (clock w <= clock w' <= clock w + 1500)%Z /\
   if drains_within cfg w 1500 then
     r = Ok tt /\ state_numUnreturnedAccessCalls (access w') = 0%Z
   else
     r = Throw (ControllerRefuses this "Access calls have not returned.") /\
     clock w' = (clock w + 1500)%Z) /\
  (isLockedMutex_locked (hserial w this) = false ->
   initiated_externally cfg this w && isLocked (hserial w this) = false ->
   let r := fst (HSerial_willMakeInactive cfg this w) in
   let w' := snd (HSerial_willMakeInactive cfg this w) in
   state_accessIsUnblocked (access w') = false /\
   (clock w <= clock w' <= clock w + 1000)%Z /\
   if drains_within cfg w 1000 then
     r = Ok tt /\ state_numUnreturnedAccessCalls (access w') = 0%Z
   else
     r = Throw (ControllerRefuses this
                  ("The controller is using the port. Controller: "
                     ++ getDescription cfg this ++ ".")) /\
     clock w' = (clock w + 1000)%Z).
Proof.
  intros Hc. split.
  - apply HSerialController_willMakeInactive_spec. exact Hc.
  - intros Hm Hx.
    pose proof (HSerial_willMakeInactive_spec cfg this w Hc Hm) as H.
    cbv zeta in *. rewrite Hx in H. destruct H as (_ & _ & Hu & Hclk & H).
    repeat split; try tauto.
    destruct (drains_within cfg w 1000); tauto.
Qed.

Lemma willMakeInactive_drain_timeouts_witness :
  (let w := Examples.in_transition 1 (Examples.after_makeActive Examples.plain_cfg 1) in
   fst (HSerialController_willMakeInactive Examples.plain_cfg 1 w)
   = Throw (ControllerRefuses 1 "Access calls have not returned.") /\
   clock (snd (HSerialController_willMakeInactive Examples.plain_cfg 1 w))
   = (clock w + 1500)%Z) /\
  (let w := Examples.in_transition 1 (Examples.after_makeActive Examples.plain_cfg 3) in
   clock (snd (HSerial_willMakeInactive Examples.plain_cfg 3 w))
   = (clock w + 1000)%Z).
Proof.
  split.
  - destruct (willMakeInactive_drain_timeouts Examples.plain_cfg 1
                (Examples.in_transition 1
                   (Examples.after_makeActive Examples.plain_cfg 1)))
      as [H _].
    + repeat split.
    + cbv zeta in H. destruct H as (_ & _ & H). exact H.
  - destruct (willMakeInactive_drain_timeouts Examples.plain_cfg 3
                (Examples.in_transition 1
                   (Examples.after_makeActive Examples.plain_cfg 3)))
      as [_ H].
    + repeat split.
    + destruct H as (_ & _ & H); [reflexivity|reflexivity|].
      apply H.
Defined.

(** ** C7: the lock of an HSerial controller *)

Lemma HSerial_willMakeInactive_locked cfg this w :
  isLockedMutex_locked (hserial w this) = false ->
  initiated_externally cfg this w = true ->
  isLocked (hserial w this) = true ->
  let w' := snd (HSerial_willMakeInactive cfg this w) in
  fst (HSerial_willMakeInactive cfg this w)
  = Throw (ControllerRefuses this "The controller is locked.") /\
  access w' = access w /\
  isLocked (hserial w' this) = true /\
  _isLockedActive (hserial w' this) = _isLockedActive (hserial w this).
Proof.
  intros Hm Hx Hlk. unfold initiated_externally in Hx.
  unfold HSerial_willMakeInactive, transitionInitiatedExternally,
    with_isLockedMutex, lock_isLockedMutex, unlock_isLockedMutex,
    scope_exit, bind, gets, modify, throw, ret, when.
  simpl. rewrite Hx. simpl. rewrite Hm. simpl. rewrite !Nat.eqb_refl. simpl.
  rewrite Hlk. simpl. rewrite !Nat.eqb_refl. simpl. auto.
Qed.

Lemma performTransition_last cfg invoke n also w u w' :
  performTransition cfg invoke n also w = (Ok u, w') ->
  exists w2,
    call_if_present invoke (state_activeController (access w)) DidMakeInactive w2
    = (Ok u, w').
Proof.
  intros H. unfold performTransition in H.
  apply bind_Ok in H. destruct H as (old & w0 & Hg & H). injection Hg as <- <-.
  apply bind_Ok in H. destruct H as ([] & w1 & _ & H).
  apply bind_Ok in H. destruct H as ([] & w2 & _ & H). eauto.
Qed.

Lemma AccessManagementGuard_ctor_Ok cfg this w u w1 :
  AccessManagementGuard_ctor cfg this w = (Ok u, w1) ->
  access w1 = access w /\ callback_log w1 = callback_log w /\
  store_log w1 = store_log w.
Proof.
  unfold AccessManagementGuard_ctor, bind, modify.
  destruct (am_serializingMutex_locked (hserial w this)); [discriminate|].
  intros [= <- <-]. auto.
Qed.

Lemma AccessManagementGuard_dtor_Ok this w u w1 :
  AccessManagementGuard_dtor this w = (Ok u, w1) ->
  access w1 = access w /\ callback_log w1 = callback_log w /\
  isLocked (hserial w1 this) = isLocked (hserial w this) /\
  _isLockedActive (hserial w1 this) = _isLockedActive (hserial w this).
Proof.
  unfold AccessManagementGuard_dtor, bind, modify. simpl.
  intros [= <- <-]. simpl. rewrite !Nat.eqb_refl. simpl. auto.
Qed.

Lemma HSerial_didMakeInactive_callback cfg fuel this w u w' :
  class_of cfg this = HSerial ->
  callback (dispatch cfg (S fuel)) this DidMakeInactive w = (Ok u, w') ->
  isLocked (hserial w' this) = false /\ _isLockedActive (hserial w' this) = false.
Proof.
  intros Hc. unfold callback, bind, modify, noexcept. simpl.
  unfold callback_body. rewrite Hc.
  unfold HSerial_didMakeInactive, unlock_isLockedMutex, bind, modify. simpl.
  intros [= <- <-]. simpl. rewrite !Nat.eqb_refl. simpl.
  rewrite ?Nat.eqb_refl. simpl. auto.
Qed.

(** HSerial's own makeInactive: once it has returned the controller is
    inactive and unlocked. *)
Lemma HSerial_makeInactive_unlocks cfg fuel this w w' :
  class_of cfg this = HSerial ->
  state_transitionInProgress (access w) = false ->
  state_activeController (access w) = Some this ->
  Run.HSerial_makeInactive cfg (S fuel) this w = (Ok tt, w') ->
  state_activeController (access w') = None /\
  state_currentController (access w') = state_currentController (access w) /\
  isLocked (hserial w' this) = false /\
  _isLockedActive (hserial w' this) = false /\
  callback_log w'
  = callback_log w ++ [(this, WillMakeInactive); (this, DidMakeInactive)].
Proof.
  intros Hc Hp Ha H.
  unfold Run.HSerial_makeInactive, HSerial_makeInactive,
    with_AccessManagementGuard in H.
  apply bind_Ok in H. destruct H as ([] & w0 & Hctor & H).
  apply AccessManagementGuard_ctor_Ok in Hctor. destruct Hctor as (E0 & L0 & _).
  apply scope_exit_Ok in H. destruct H as (w4 & H & Hdtor).
  apply AccessManagementGuard_dtor_Ok in Hdtor.
  destruct Hdtor as (E4 & L4 & K4 & K4').
  unfold makeInactive in H.
  apply bind_Ok in H. destruct H as (conc & w0' & Hs & H).
  apply shouldPerform_not_in_progress in Hs; [|now rewrite E0].
  destruct Hs as (-> & Hs & _). apply transition_core_fields in Hs.
  destruct Hs as (L0' & _ & A0' & C0' & _).
  apply bind_Ok in H. destruct H as ([] & w1 & Hb & H).
  apply TransitionBlocker_ctor_Ok in Hb.
  destruct Hb as (Hq & L1 & _ & A1 & C1 & _).
  apply scope_exit_Ok in H. destruct H as (w3 & H & Hd).
  apply TransitionBlocker_dtor_Ok in Hd. destruct Hd as (L3 & _ & A3 & C3 & K3).
  apply bind_Ok in H. destruct H as (active & w1' & Hg & H).
  injection Hg as <- <-.
  assert (Hact : state_activeController (access w1) = Some this)
    by (rewrite A1, A0', E0; exact Ha).
  rewrite Hact in H. simpl in H. rewrite Nat.eqb_refl in H. simpl in H.
  pose proof H as H'.
  apply (performActiveControllerChange_queued_Ok cfg (dispatch cfg (S fuel))
           (calm_dispatch cfg (S fuel))) in H'; [|exact Hq].
  destruct H' as (L2 & A2 & C2 & _). rewrite Hact in L2. simpl in L2.
  unfold performActiveControllerChange in H.
  apply scope_exit_Ok in H. destruct H as (w2 & H & Hu).
  apply AccessUnblocker_dtor_Ok in Hu. destruct Hu as [_ Ku].
  apply bind_Ok in H. destruct H as ([] & w2' & Ht & Hr).
  injection Hr as <-.
  apply performTransition_last in Ht. destruct Ht as (wx & Ht).
  rewrite Hact in Ht. simpl in Ht.
  apply (HSerial_didMakeInactive_callback cfg fuel this _ _ _ Hc) in Ht.
  destruct Ht as [K1 K2].
  repeat split.
  - rewrite E4, A3. exact A2.
  - rewrite E4, C3, C2, C1, C0', E0. reflexivity.
  - rewrite K4, K3, Ku. exact K1.
  - rewrite K4', K3, Ku. exact K2.
  - rewrite L4, L3, L2, L1, L0', L0. reflexivity.
Qed.

(** C7.  HSerial's willMakeInactive throws ControllerRefuses("The
    controller is locked.") exactly when the transition was initiated
    externally -- no access management call of this controller is in
    progress, or one is but on another thread -- and [isLocked] is set.
    When the controller itself asked ([makeInactive] on its own thread)
    the callback goes on to drain the access calls whatever [isLocked]
    is, and once the transition has been made didMakeInactive has cleared
    both [isLocked] and [_isLockedActive]. *)
Theorem lockable_willMakeInactive cfg fuel this w :
  (fst (HSerial_willMakeInactive cfg this w)
   = Throw (ControllerRefuses this "The controller is locked.") ->
   initiated_externally cfg this w = true /\ isLocked (hserial w this) = true) /\
  (isLockedMutex_locked (hserial w this) = false ->
   initiated_externally cfg this w = true ->
   isLocked (hserial w this) = true ->
   let w' := snd (HSerial_willMakeInactive cfg this w) in
   fst (HSerial_willMakeInactive cfg this w)
   = Throw (ControllerRefuses this "The controller is locked.") /\
   access w' = access w /\
   isLocked (hserial w' this) = true /\
   _isLockedActive (hserial w' this) = _isLockedActive (hserial w this)) /\
  (called_in_transition cfg this w ->
   isLockedMutex_locked (hserial w this) = false ->
   initiated_externally cfg this w = false ->
   let r := fst (HSerial_willMakeInactive cfg this w) in
   let w' := snd (HSerial_willMakeInactive cfg this w) in
   isLocked (hserial w' this) = isLocked (hserial w this) /\
   state_accessIsUnblocked (access w') = false /\
   if drains_within cfg w 1000 then
     r = Ok tt /\ state_numUnreturnedAccessCalls (access w') = 0%Z
   else
     r = Throw (ControllerRefuses this
                  ("The controller is using the port. Controller: "
                     ++ getDescription cfg this ++ "."))) /\
  (let w' := snd (HSerial_didMakeInactive this w) in
   fst (HSerial_didMakeInactive this w) = Ok tt /\
   isLocked (hserial w' this) = false /\
   _isLockedActive (hserial w' this) = false) /\
  (forall w',
      class_of cfg this = HSerial ->
      state_transitionInProgress (access w) = false ->
      state_activeController (access w) = Some this ->
      Run.HSerial_makeInactive cfg (S fuel) this w = (Ok tt, w') ->
      state_activeController (access w') = None /\
      isLocked (hserial w' this) = false /\
      _isLockedActive (hserial w' this) = false /\
      callback_log w'
      = callback_log w ++ [(this, WillMakeInactive); (this, DidMakeInactive)]).
Proof.
  split; [apply HSerial_willMakeInactive_locked_only|].
  split; [apply HSerial_willMakeInactive_locked|].
  split.
  - intros Hc Hm Hx.
    pose proof (HSerial_willMakeInactive_spec cfg this w Hc Hm) as H.
    cbv zeta in *. rewrite Hx in H. simpl in H.
    destruct H as (H1 & _ & H2 & _ & H3). repeat split; auto.
    destruct (drains_within cfg w 1000); tauto.
  - split.
    + pose proof (HSerial_didMakeInactive_spec this w) as H. cbv zeta in *. tauto.
    + intros w' Hc Hp Ha H.
      destruct (HSerial_makeInactive_unlocks cfg fuel this w w' Hc Hp Ha H)
        as (H1 & _ & H2 & H3 & H4).
      auto.
Qed.

Lemma lockable_willMakeInactive_witness :
  (let w := Examples.in_transition 0
              (Examples.after_makeLockedActive Examples.plain_cfg 3) in
   fst (HSerial_willMakeInactive Examples.plain_cfg 3 w)
   = Throw (ControllerRefuses 3 "The controller is locked.")) /\
  (let w := Examples.after_makeLockedActive Examples.plain_cfg 3 in
   let w' := snd (Run.HSerial_makeInactive Examples.plain_cfg 5 3 w) in
   state_activeController (access w') = None /\
   isLocked (hserial w' 3) = false /\
   _isLockedActive (hserial w' 3) = false /\
   callback_log w' = callback_log w ++ [(3, WillMakeInactive); (3, DidMakeInactive)]).
Proof.
  split.
  - apply (proj1 (proj2 (lockable_willMakeInactive Examples.plain_cfg 4 3
             (Examples.in_transition 0
                (Examples.after_makeLockedActive Examples.plain_cfg 3)))));
      vm_compute; reflexivity.
  - cbv zeta.
    apply (proj2 (proj2 (proj2 (proj2
             (lockable_willMakeInactive Examples.plain_cfg 4 3
                (Examples.after_makeLockedActive Examples.plain_cfg 3))))));
      try (apply with_snd); vm_compute; reflexivity.
Defined.

(** ** Membership callbacks come from the queued transition only

    While some queued transition is in progress, whatever a callback does
    -- including the concurrent active controller changes allowed from
    willRemove and didCancelRemove -- causes no willRemove,
    didCancelRemove, didRemove or didAdd: those belong to a current
    controller change, which must wait in the queue. *)

#[local] Instance no_membership_preorder : PreOrder no_membership.
Proof.
  split; [intros w _; reflexivity|].
  intros w1 w2 w3 H12 H23 H1. specialize (H12 H1). rewrite <- H12. apply H23.
  unfold queue_core in H12. injection H12 as Hn Hr _.
  unfold in_queue in *. congruence.
Qed.

Ltac member_leaf := apply frames_modify; intros ? _; reflexivity.

Section NoMembership.

Variable cfg : Config.
Variable fuel : nat.
Variable invoke : ctrl -> Callback -> M unit.
Hypothesis invoke_member : forall c cb, frames false no_membership (invoke c cb).

Local Abbreviation apart m := (frames false no_membership m).

Lemma apart_callback c cb :
  membership cb = false -> apart (callback invoke c cb).
Proof.
  intros Hm. unfold callback.
  apply frames_bind; [typeclasses eauto| |intros _].
  - apply frames_modify. intros w _. unfold queue_core, membership_log. simpl.
    rewrite filter_app. simpl. rewrite Hm. now rewrite app_nil_r.
  - destruct (is_noexcept cb); [apply frames_noexcept|]; apply invoke_member.
Qed.

Lemma apart_call_if_present c cb :
  membership cb = false -> apart (call_if_present invoke c cb).
Proof.
  intros Hm. destruct c; simpl;
    [now apply apart_callback | apply frames_ret; typeclasses eauto].
Qed.

Lemma apart_lock_stateMutex : apart lock_stateMutex.
Proof.
  intros w _ _. unfold lock_stateMutex.
  destruct (stateMutex_locked (access w)); reflexivity.
Qed.

Lemma apart_with_stateMutex {A} (m : M A) : apart m -> apart (with_stateMutex m).
Proof.
  intros H. unfold with_stateMutex, unlock_stateMutex.
  repeat first [apply apart_lock_stateMutex | member_leaf | frames_step].
Qed.

Lemma apart_lock_isLockedMutex c : apart (lock_isLockedMutex c).
Proof.
  intros w _ _. unfold lock_isLockedMutex.
  destruct (isLockedMutex_locked (hserial w c)); reflexivity.
Qed.

Lemma apart_with_isLockedMutex {A} c (m : M A) :
  apart m -> apart (with_isLockedMutex c m).
Proof.
  intros H. unfold with_isLockedMutex, unlock_isLockedMutex.
  repeat first [apply apart_lock_isLockedMutex | member_leaf | frames_step].
Qed.

Lemma apart_with_AccessManagementGuard {A} c (m : M A) :
  apart m -> apart (with_AccessManagementGuard cfg c m).
Proof.
  intros H. unfold with_AccessManagementGuard, AccessManagementGuard_ctor,
    AccessManagementGuard_dtor.
  repeat first [member_leaf | frames_step].
  intros w _ _. destruct (am_serializingMutex_locked (hserial w c)); reflexivity.
Qed.

Lemma apart_throwIfNotActiveController c n :
  apart (throwIfNotActiveController cfg c n).
Proof. unfold throwIfNotActiveController. repeat frames_step. Qed.

Lemma apart_throwIfNotTransitionCorrect c n :
  apart (throwIfNotTransitionCorrect cfg c n).
Proof. unfold throwIfNotTransitionCorrect. repeat frames_step. Qed.

Lemma apart_wait_allAccessCallsReturned t :
  apart (wait_allAccessCallsReturned cfg t).
Proof.
  intros w _ _. unfold wait_allAccessCallsReturned.
  destruct (state_numUnreturnedAccessCalls (access w) =? 0)%Z; [reflexivity|].
  destruct (match drain_at cfg with Some t0 => (t0 <=? clock w + Z.max 0 t)%Z | None => false end);
    reflexivity.
Qed.

Ltac apart_step :=
  first
    [ apply apart_with_stateMutex | apply apart_lock_isLockedMutex
    | apply apart_with_isLockedMutex | apply apart_with_AccessManagementGuard
    | apply apart_throwIfNotActiveController
    | apply apart_throwIfNotTransitionCorrect
    | apply apart_wait_allAccessCallsReturned
    | apply apart_call_if_present; reflexivity
    | member_leaf | frames_step ].

Lemma apart_blockAccessCalls c : apart (blockAccessCalls cfg c).
Proof. unfold blockAccessCalls. repeat apart_step. Qed.

Lemma apart_unblockAccessCalls c : apart (unblockAccessCalls cfg c).
Proof. unfold unblockAccessCalls. repeat apart_step. Qed.

Lemma apart_waitForAllAccessCallsToReturn c t :
  apart (waitForAllAccessCallsToReturn cfg c t).
Proof. unfold waitForAllAccessCallsToReturn. repeat apart_step. Qed.

Lemma apart_accessFunction c f : apart (accessFunction cfg c f).
Proof.
  unfold accessFunction, AccessGuard_ctor, AccessGuard_dtor, serial_call.
  repeat apart_step.
Qed.

Lemma apart_isInAccessList c : apart (isInAccessList cfg fuel c).
Proof. unfold isInAccessList, hasAsDelegateOrSubdelegate. repeat apart_step. Qed.

Lemma apart_shouldPerform c :
  apart (shouldPerformConcurrentActiveControllerChange cfg fuel c).
Proof.
  unfold shouldPerformConcurrentActiveControllerChange.
  repeat first [apply apart_isInAccessList | apart_step].
Qed.

Lemma apart_AccessUnblocker_dtor : apart AccessUnblocker_dtor.
Proof. unfold AccessUnblocker_dtor. repeat apart_step. Qed.

Lemma apart_performTransition n also :
  apart (performTransition cfg invoke n also).
Proof.
  unfold performTransition, checkSafeTransition, store_controllers.
  repeat apart_step.
Qed.

Lemma apart_performActiveControllerChange n :
  apart (performActiveControllerChange cfg invoke n).
Proof.
  unfold performActiveControllerChange.
  repeat first [apply apart_AccessUnblocker_dtor | apply apart_performTransition
               | apart_step].
Qed.

(** A request that must queue does not return while the queue is held. *)
Lemma apart_TransitionBlocker_bind {B} (k : unit -> M B) :
  apart (bind (TransitionBlocker_ctor cfg) k).
Proof.
  intros w Hr Hq. unfold bind in Hr.
  pose proof (TransitionBlocker_ctor_queued cfg w Hq) as Hb.
  destruct (TransitionBlocker_ctor cfg w) as [r w1]. simpl in Hb. subst r.
  discriminate.
Qed.

Lemma apart_makeActive c : apart (makeActive cfg fuel invoke c).
Proof.
  unfold makeActive.
  repeat first [apply apart_shouldPerform | apply apart_TransitionBlocker_bind
               | apply apart_performActiveControllerChange | apart_step].
Qed.

Lemma apart_makeInactive c : apart (makeInactive cfg fuel invoke c).
Proof.
  unfold makeInactive.
  repeat first [apply apart_shouldPerform | apply apart_TransitionBlocker_bind
               | apply apart_performActiveControllerChange | apart_step].
Qed.

Lemma apart_removeFromAccess c : apart (removeFromAccess cfg fuel invoke c).
Proof. unfold removeFromAccess. apply apart_TransitionBlocker_bind. Qed.

Lemma apart_perform this c : apart (perform cfg fuel invoke this c).
Proof.
  destruct c; simpl; unfold unit_call, controller_makeActive,
    controller_makeInactive, controller_removeFromAccess,
    HSerial_makeActive, HSerial_makeInactive, HSerial_removeFromAccess,
    HSerial_makeLockedActive, HSerial_unlockActive, HSerial_isLockedActive,
    isActive;
    repeat first
      [ apply apart_blockAccessCalls | apply apart_unblockAccessCalls
      | apply apart_waitForAllAccessCallsToReturn | apply apart_accessFunction
      | apply apart_makeActive | apply apart_makeInactive
      | apply apart_removeFromAccess | apart_step ].
Qed.

Lemma apart_callback_body this cb :
  apart (callback_body cfg fuel invoke this cb).
Proof.
  unfold callback_body. destruct (class_of cfg this) as [name ov|].
  - destruct (override ov cb) as [p|].
    + apply frames_run; [typeclasses eauto|]. apply apart_perform.
    + destruct cb; try (apply frames_ret; typeclasses eauto).
      unfold HSerialController_willMakeInactive.
      repeat first [ apply apart_blockAccessCalls
                   | apply apart_waitForAllAccessCallsToReturn | apart_step ].
  - destruct cb; try (apply frames_ret; typeclasses eauto);
      unfold HSerial_willMakeInactive, HSerial_didMakeInactive,
        HSerial_didCancelMakeInactive, HSerial_willMakeActive,
        HSerial_didMakeActive, transitionInitiatedExternally,
        unlock_isLockedMutex;
      repeat first
        [ apply apart_blockAccessCalls
        | apply apart_waitForAllAccessCallsToReturn | apart_step ].
Qed.

End NoMembership.

Lemma apart_dispatch cfg fuel :
  forall c cb, frames false no_membership (dispatch cfg fuel c cb).
Proof.
  apply frames_dispatch; [typeclasses eauto|].
  intros. now apply apart_callback_body.
Qed.

(** ** Cancelling a current controller change *)

Lemma calls_app cb xs ys : calls cb (xs ++ ys) = calls cb xs ++ calls cb ys.
Proof. apply map_app. Qed.

Lemma triple_eq {A B C} (x : A * B * C) a b :
  fst (fst x) = a -> snd (fst x) = b -> x = (a, b, snd x).
Proof. destruct x as [[? ?] ?]. simpl. congruence. Qed.

Lemma returns_cases {A} (r : result A) :
  returns r = true -> (exists a, r = Ok a) \/ (exists e, r = Throw e).
Proof. destruct r; try discriminate; eauto. Qed.

Section Cancelling.

Variable cfg : Config.
Variable fuel : nat.
Variable invoke : ctrl -> Callback -> M unit.
Hypothesis invoke_member : forall c cb, frames false no_membership (invoke c cb).

(** A membership callback is logged, and nothing it does is. *)
Lemma callback_member x cb w r w1 :
  in_queue w ->
  membership cb = true ->
  callback invoke x cb w = (r, w1) ->
  returns r = true ->
  queue_core w1
  = (tb_nextNumber (access w), tb_readyNumber (access w),
     membership_log w ++ [(x, cb)]).
Proof.
  intros Hq Hm H Hr. unfold callback, bind, modify in H.
  set (wl := {| access := access w; hserial := hserial w; clock := clock w;
                serial_calls := serial_calls w;
                callback_log := callback_log w ++ [(x, cb)];
                store_log := store_log w |}) in *.
  assert (Hl : queue_core wl
               = (tb_nextNumber (access w), tb_readyNumber (access w),
                  membership_log w ++ [(x, cb)])).
  { unfold queue_core, membership_log. simpl. rewrite filter_app. simpl.
    now rewrite Hm. }
  rewrite <- Hl.
  assert (Hf : frames false no_membership
                 (if is_noexcept cb then noexcept (invoke x cb) else invoke x cb)).
  { destruct (is_noexcept cb); [apply frames_noexcept|]; apply invoke_member. }
  specialize (Hf wl). simpl in H. rewrite H in Hf. simpl in Hf.
  apply Hf; [exact Hr|]. exact Hq.
Qed.

Lemma in_queue_core w w1 l :
  in_queue w ->
  queue_core w1 = (tb_nextNumber (access w), tb_readyNumber (access w), l) ->
  in_queue w1 /\ membership_log w1 = l /\
  tb_nextNumber (access w1) = tb_nextNumber (access w) /\
  tb_readyNumber (access w1) = tb_readyNumber (access w).
Proof.
  unfold queue_core, in_queue. intros Hq H. injection H as Hn Hr Hl.
  repeat split; congruence.
Qed.

(** The willRemove loop: [notifiedList] grows by the controllers whose
    willRemove returned, in the order of the access list. *)
Lemma willRemove_loop_member xs : forall nl w r nl' w1,
  in_queue w ->
  willRemove_loop invoke xs nl w = (r, nl', w1) ->
  returns r = true ->
  exists done rest attempted,
    xs = done ++ rest /\ nl' = nl ++ done /\
    queue_core w1
    = (tb_nextNumber (access w), tb_readyNumber (access w),
       membership_log w ++ calls WillRemove attempted) /\
    ((r = Ok tt /\ rest = [] /\ attempted = done) \/
     (exists e x rest', r = Throw e /\ rest = x :: rest' /\
                        attempted = done ++ [x])).
Proof.
  induction xs as [|x xs IH]; intros nl w r nl' w1 Hq H Hr; simpl in H.
  - injection H as <- <- <-. exists [], [], []. simpl.
    rewrite !app_nil_r. repeat split; auto.
  - destruct (callback invoke x WillRemove w) as [rc wc] eqn:Hc.
    destruct rc as [[]|e| | |].
    + pose proof (callback_member x WillRemove w _ _ Hq eq_refl Hc eq_refl) as Hk.
      destruct (in_queue_core _ _ _ Hq Hk) as (Hqc & Hlc & Hnc & Hrc).
      destruct (IH _ _ _ _ _ Hqc H Hr)
        as (done & rest & att & -> & -> & Hcore & Hcase).
      exists (x :: done), rest.
      exists (x :: att). repeat split.
      * now rewrite <- app_assoc.
      * rewrite Hcore, Hnc, Hrc, Hlc. simpl. now rewrite <- app_assoc.
      * destruct Hcase as [(-> & -> & ->)|(e & y & rest' & -> & -> & ->)];
          [left; auto|right; exists e, y, rest'; auto].
    + injection H as <- <- <-.
      pose proof (callback_member x WillRemove w _ _ Hq eq_refl Hc eq_refl) as Hk.
      exists [], (x :: xs), [x]. simpl. rewrite app_nil_r.
      repeat split; auto. right. exists e, x, xs. auto.
    + injection H as <- <- <-. discriminate.
    + injection H as <- <- <-. discriminate.
    + injection H as <- <- <-. discriminate.
Qed.

(** The noexcept membership callbacks made in a row. *)
Lemma for_each_member cb xs : forall w r w1,
  in_queue w ->
  membership cb = true -> is_noexcept cb = true ->
  for_each xs (fun x => callback invoke x cb) w = (r, w1) ->
  returns r = true ->
  r = Ok tt /\
  queue_core w1
  = (tb_nextNumber (access w), tb_readyNumber (access w),
     membership_log w ++ calls cb xs).
Proof.
  induction xs as [|x xs IH]; intros w r w1 Hq Hm Hn H Hr; simpl in H.
  - unfold ret in H. injection H as <- <-. rewrite app_nil_r. auto.
  - unfold bind in H.
    destruct (callback invoke x cb w) as [rc wc] eqn:Hc.
    destruct rc as [[]|e| | |]; simpl in H;
      try (unfold stop in H; injection H as <- <-; discriminate).
    + pose proof (callback_member x cb w _ _ Hq Hm Hc eq_refl) as Hk.
      destruct (in_queue_core _ _ _ Hq Hk) as (Hqc & Hlc & Hnc & Hrc).
      destruct (IH _ _ _ Hqc Hm Hn H Hr) as (-> & Hcore).
      split; [reflexivity|].
      rewrite Hcore, Hnc, Hrc, Hlc. simpl. now rewrite <- app_assoc.
    + exfalso. pose proof (callback_noexcept invoke x cb w Hn) as Hne.
      rewrite Hc in Hne. simpl in Hne. now apply (Hne e).
Qed.

End Cancelling.

Section CancellingChange.

Variable cfg : Config.
Variable fuel : nat.
Variable invoke : ctrl -> Callback -> M unit.
Hypothesis invoke_member : forall c cb, frames false no_membership (invoke c cb).

Lemma tryRemoveAndTransition_member n old w r notified w1 :
  in_queue w ->
  tryRemoveAndTransition cfg invoke n old w = (r, notified, w1) ->
  returns r = true ->
  exists rest attempted,
    old = notified ++ rest /\
    queue_core w1
    = (tb_nextNumber (access w), tb_readyNumber (access w),
       membership_log w ++ calls WillRemove attempted) /\
    ((rest = [] /\ attempted = notified) \/
     (exists x rest', rest = x :: rest' /\ attempted = notified ++ [x])).
Proof.
  intros Hq H Hr. unfold tryRemoveAndTransition in H.
  unfold store_concurrentActiveControllerChangeAllowed at 1 in H.
  unfold modify in H.
  set (ws := with_access (set_concurrentActiveControllerChangeAllowed true) w)
    in *.
  assert (Hqs : in_queue ws) by exact Hq.
  destruct (willRemove_loop invoke old [] ws) as [[rl nl] wl] eqn:Hl.
  assert (Hrl : returns rl = true).
  { destruct rl; try reflexivity; injection H as <- _ _; discriminate. }
  destruct (willRemove_loop_member invoke invoke_member _ _ _ _ _ _ Hqs Hl Hrl)
    as (done & rest & att & -> & Hnl & Hcore & Hcase).
  simpl in Hnl. subst nl.
  destruct Hcase as [(-> & -> & ->)|(e & x & rest' & -> & -> & ->)].
  - destruct ((store_concurrentActiveControllerChangeAllowed false;;
               performTransition cfg invoke n true) wl) as [rp wp] eqn:Hp.
    injection H as <- <- <-.
    exists [], done. rewrite app_nil_r. split; [reflexivity|]. split; [|auto].
    destruct (in_queue_core _ _ _ Hqs Hcore) as (Hql & _).
    assert (Hf : frames false no_membership
                   (store_concurrentActiveControllerChangeAllowed false;;
                    performTransition cfg invoke n true)).
    { apply frames_bind; [typeclasses eauto| |intros _].
      - apply frames_modify. intros ? _. reflexivity.
      - now apply apart_performTransition. }
    specialize (Hf wl). rewrite Hp in Hf. simpl in Hf.
    rewrite (Hf Hr Hql). exact Hcore.
  - injection H as <- <- <-. exists (x :: rest'), (done ++ [x]).
    split; [reflexivity|]. split; [exact Hcore|]. right. eauto.
Qed.

Lemma AccessUnblocker_dtor_no_throw w e :
  fst (AccessUnblocker_dtor w) <> Throw e.
Proof.
  unfold AccessUnblocker_dtor, with_stateMutex,
    lock_stateMutex, unlock_stateMutex, scope_exit, when, bind, gets, modify,
    ret. simpl.
  destruct (stateMutex_locked (access w)); simpl; [discriminate|].
  destruct (state_accessIsUnblocked (access w)); simpl; discriminate.
Qed.

(** When the try block throws [e], what is left of the current controller
    change is the catch block. *)
Lemma performCurrentControllerChange_catch n w old e notified w1 :
  match state_currentController (access w) with
  | Some o => Delegation.getControllersList fuel (delegates cfg) o
  | None => Some []
  end = Some old ->
  tryRemoveAndTransition cfg invoke n old w = (Throw e, notified, w1) ->
  performCurrentControllerChange cfg fuel invoke n w
  = scope_exit AccessUnblocker_dtor
      (fun _ =>
         (store_concurrentActiveControllerChangeAllowed true ;;
          for_each notified (fun x => callback invoke x DidCancelRemove) ;;
          throw e) w1) w.
Proof.
  intros Hold Htry.
  assert (Hlist : match state_currentController (access w) with
                  | Some o => getControllersList cfg fuel o
                  | None => ret []
                  end w = (Ok old, w)).
  { unfold getControllersList. destruct (state_currentController (access w));
      [rewrite Hold|injection Hold as <-]; reflexivity. }
  unfold performCurrentControllerChange, scope_exit.
  unfold bind at 1, gets at 1. unfold bind at 1. rewrite Hlist.
  unfold bind at 1. rewrite Htry.
  destruct ((store_concurrentActiveControllerChangeAllowed true ;;
             for_each notified (fun x => callback invoke x DidCancelRemove) ;;
             throw e) w1) as [rh wh] eqn:Hh.
  destruct rh as [[]|e'| | |]; try reflexivity.
  exfalso. unfold bind, store_concurrentActiveControllerChangeAllowed, modify,
    throw in Hh.
  destruct (for_each notified _ _) as [[] ?]; discriminate.
Qed.

(** The current controller change whose try block threw [e]. *)
Lemma performCurrentControllerChange_cancelled n w old e notified w1 :
  in_queue w ->
  match state_currentController (access w) with
  | Some o => Delegation.getControllersList fuel (delegates cfg) o
  | None => Some []
  end = Some old ->
  tryRemoveAndTransition cfg invoke n old w = (Throw e, notified, w1) ->
  returns (fst (performCurrentControllerChange cfg fuel invoke n w)) = true ->
  fst (performCurrentControllerChange cfg fuel invoke n w) = Throw e /\
  (exists rest, old = notified ++ rest) /\
  exists attempted,
    (attempted = notified \/ exists x, attempted = notified ++ [x]) /\
    membership_log (snd (performCurrentControllerChange cfg fuel invoke n w))
    = membership_log w ++ calls WillRemove attempted
        ++ calls DidCancelRemove notified.
Proof.
  intros Hq Hold Htry.
  destruct (tryRemoveAndTransition_member _ _ _ _ _ _ Hq Htry eq_refl)
    as (rest & att & Hsplit & Hcore & Hcase).
  destruct (in_queue_core _ _ _ Hq Hcore) as (Hq1 & Hl1 & Hn1 & Hr1).
  rewrite (performCurrentControllerChange_catch _ _ _ _ _ _ Hold Htry).
  unfold scope_exit, bind, store_concurrentActiveControllerChangeAllowed,
    modify, throw.
  set (ws := with_access (set_concurrentActiveControllerChangeAllowed true) w1).
  assert (Hqs : in_queue ws) by exact Hq1.
  destruct (for_each notified (fun x => callback invoke x DidCancelRemove) ws)
    as [rf wf] eqn:Hf.
  destruct rf as [[]|e'| | |]; simpl; try discriminate.
  - destruct (for_each_member invoke invoke_member DidCancelRemove _ _ _ _
                Hqs eq_refl eq_refl Hf eq_refl) as (_ & Hcf).
    destruct (in_queue_core _ _ _ Hqs Hcf) as (Hqf & Hlf & _).
    pose proof (apart_AccessUnblocker_dtor wf) as Hd.
    pose proof (AccessUnblocker_dtor_no_throw wf) as Hnt.
    destruct (AccessUnblocker_dtor wf) as [rd wd].
    destruct rd as [[]|e'| | |]; simpl; try discriminate;
      [|now elim (Hnt e')].
    intros _. split; [reflexivity|]. split; [eauto|].
    exists att. split.
    + destruct Hcase as [(_ & ->)|(x & _ & _ & ->)]; eauto.
    + simpl in Hd. specialize (Hd eq_refl Hqf).
      unfold queue_core in Hd. injection Hd as _ _ ->.
      rewrite Hlf. change (membership_log ws) with (membership_log w1).
      rewrite Hl1. now rewrite <- app_assoc.
  - destruct (for_each_member invoke invoke_member DidCancelRemove _ _ _ _
                Hqs eq_refl eq_refl Hf eq_refl) as (Habs & _). discriminate.
Qed.

End CancellingChange.

Lemma for_each_inherited cfg fuel xs : forall w,
  (forall x, In x xs -> inherits cfg DidCancelRemove x) ->
  exists w',
    for_each xs (fun x => callback (dispatch cfg (S fuel)) x DidCancelRemove) w
    = (Ok tt, w') /\ access w' = access w.
Proof.
  induction xs as [|x xs IH]; intros w Hin; cbn [for_each].
  - exists w. auto.
  - assert (Hx : callback (dispatch cfg (S fuel)) x DidCancelRemove w
                 = (Ok tt, {| access := access w; hserial := hserial w;
                              clock := clock w; serial_calls := serial_calls w;
                              callback_log := callback_log w ++ [(x, DidCancelRemove)];
                              store_log := store_log w |})).
    { unfold callback, bind, modify, noexcept. simpl. unfold callback_body.
      specialize (Hin x (or_introl eq_refl)). unfold inherits in Hin.
      destruct (class_of cfg x) as [name ov|]; [|reflexivity].
      simpl in Hin. simpl. now rewrite Hin. }
    unfold bind. rewrite Hx.
    destruct (IH {| access := access w; hserial := hserial w;
                    clock := clock w; serial_calls := serial_calls w;
                    callback_log := callback_log w ++ [(x, DidCancelRemove)];
                    store_log := store_log w |}) as (w' & -> & Ha).
    { intros y Hy. apply Hin. now right. }
    exists w'. auto.
Qed.

Lemma AccessUnblocker_dtor_free w :
  stateMutex_locked (access w) = false ->
  fst (AccessUnblocker_dtor w) = Ok tt.
Proof.
  intros Hl. unfold AccessUnblocker_dtor, with_stateMutex,
    lock_stateMutex, unlock_stateMutex, scope_exit, when, bind, gets, modify,
    ret. simpl. rewrite Hl. simpl.
  destruct (state_accessIsUnblocked (access w)); reflexivity.
Qed.

(** With the default didCancelRemove the cancelled change does return. *)
Lemma performCurrentControllerChange_cancel_returns cfg fuel n w old e notified w1 :
  match state_currentController (access w) with
  | Some o => Delegation.getControllersList (S fuel) (delegates cfg) o
  | None => Some []
  end = Some old ->
  tryRemoveAndTransition cfg (dispatch cfg (S fuel)) n old w
  = (Throw e, notified, w1) ->
  stateMutex_locked (access w) = false ->
  (forall x, In x notified -> inherits cfg DidCancelRemove x) ->
  fst (performCurrentControllerChange cfg (S fuel) (dispatch cfg (S fuel)) n w)
  = Throw e.
Proof.
  intros Hold Htry Hl Hin.
  rewrite (performCurrentControllerChange_catch _ _ _ _ _ _ _ _ _ Hold Htry).
  assert (Hl1 : stateMutex_locked (access w1) = false).
  { pose proof (frames_tryRemoveAndTransition false same_mutex cfg
                  (dispatch cfg (S fuel))
                  (keeps_callback _ (keeps_dispatch cfg (S fuel)))) as Hk.
    specialize (Hk (fun b w _ => eq_refl) n old
                  (keeps_performTransition cfg _ (keeps_dispatch cfg (S fuel)) n true)
                  w).
    rewrite Htry in Hk. specialize (Hk eq_refl). unfold same_mutex in Hk.
    simpl in Hk. congruence. }
  unfold scope_exit, bind, store_concurrentActiveControllerChangeAllowed,
    modify, throw.
  destruct (for_each_inherited cfg fuel notified
              (with_access (set_concurrentActiveControllerChangeAllowed true) w1)
              Hin) as (wf & -> & Ha).
  pose proof (AccessUnblocker_dtor_free wf) as Hd.
  rewrite Ha in Hd. specialize (Hd Hl1).
  destruct (AccessUnblocker_dtor wf) as [rd wd]. simpl in Hd. subst rd.
  reflexivity.
Qed.

Lemma cancel_order_counterexample :
  let w := Examples.after_makeActive Examples.reluctant_cfg 1 in
  let w' := snd (Run.makeActive Examples.reluctant_cfg 5 8 w) in
  fst (Run.makeActive Examples.reluctant_cfg 5 8 w)
  = Throw (ControllerRefuses 5 "busy") /\
  membership_log w'
  = membership_log w ++ calls WillRemove [1; 2; 5]
      ++ calls DidCancelRemove [1; 2] /\
  ~ specified_cancel_order [1; 2] w w'.
Proof.
  cbv zeta. repeat split.
  unfold specified_cancel_order. vm_compute. discriminate.
Qed.

(** C4 (amended).  In a current controller change whose try block -- the
    willRemove calls and performTransition, so also the outgoing active
    controller's willMakeInactive -- throws [e], the controllers notified
    are a prefix of the old access list; didCancelRemove is called exactly
    on them, in the SAME order as they were notified (not in reverse), after
    the willRemove calls, and [e] is then re-thrown.  The change does
    return, with [e], when the notified controllers inherit
    didCancelRemove. *)
Theorem cancel_in_notification_order cfg fuel n w old e notified w1 :
  in_queue w ->
  stateMutex_locked (access w) = false ->
  match state_currentController (access w) with
  | Some o => Delegation.getControllersList (S fuel) (delegates cfg) o
  | None => Some []
  end = Some old ->
  tryRemoveAndTransition cfg (dispatch cfg (S fuel)) n old w
  = (Throw e, notified, w1) ->
  (exists rest, old = notified ++ rest) /\
  ((forall x, In x notified -> inherits cfg DidCancelRemove x) ->
   fst (Run.performCurrentControllerChange cfg (S fuel) n w) = Throw e) /\
  (returns (fst (Run.performCurrentControllerChange cfg (S fuel) n w)) = true ->
   fst (Run.performCurrentControllerChange cfg (S fuel) n w) = Throw e /\
   exists attempted,
     (attempted = notified \/ exists x, attempted = notified ++ [x]) /\
     membership_log (snd (Run.performCurrentControllerChange cfg (S fuel) n w))
     = membership_log w ++ calls WillRemove attempted
         ++ calls DidCancelRemove notified).
Proof.
  intros Hq Hl Hold Htry. unfold Run.performCurrentControllerChange.
  split; [|split].
  - destruct (tryRemoveAndTransition_member cfg _ (apart_dispatch cfg (S fuel))
                _ _ _ _ _ _ Hq Htry eq_refl) as (rest & _ & Hs & _).
    eauto.
  - intros Hin.
    exact (performCurrentControllerChange_cancel_returns
             cfg fuel n w old e notified w1 Hold Htry Hl Hin).
  - intros Hr.
    destruct (performCurrentControllerChange_cancelled cfg (S fuel) _
                (apart_dispatch cfg (S fuel)) n w old e notified w1
                Hq Hold Htry Hr) as (H1 & _ & H2).
    auto.
Qed.

Lemma cancel_in_notification_order_witness :
  let cfg := Examples.reluctant_cfg in
  let w := Examples.at_queue_head cfg 1 in
  (exists rest, [1; 2; 5; 6] = [1; 2] ++ rest) /\
  fst (Run.performCurrentControllerChange cfg 4 (Some 8) w)
  = Throw (ControllerRefuses 5 "busy") /\
  exists attempted,
    (attempted = [1; 2] \/ exists x, attempted = [1; 2] ++ [x]) /\
    membership_log (snd (Run.performCurrentControllerChange cfg 4 (Some 8) w))
    = membership_log w ++ calls WillRemove attempted
        ++ calls DidCancelRemove [1; 2].
Proof.
  cbv zeta.
  assert (H : tryRemoveAndTransition Examples.reluctant_cfg
                (dispatch Examples.reluctant_cfg 4) (Some 8) [1; 2; 5; 6]
                (Examples.at_queue_head Examples.reluctant_cfg 1)
              = (Throw (ControllerRefuses 5 "busy"), [1; 2],
                 snd (tryRemoveAndTransition Examples.reluctant_cfg
                        (dispatch Examples.reluctant_cfg 4) (Some 8) [1; 2; 5; 6]
                        (Examples.at_queue_head Examples.reluctant_cfg 1)))).
  { apply triple_eq; vm_compute; reflexivity. }
  assert (Hq : in_queue (Examples.at_queue_head Examples.reluctant_cfg 1)).
  { unfold in_queue. vm_compute. discriminate. }
  destruct (cancel_in_notification_order Examples.reluctant_cfg 3 (Some 8)
              (Examples.at_queue_head Examples.reluctant_cfg 1)
              [1; 2; 5; 6] (ControllerRefuses 5 "busy") [1; 2] _
              Hq eq_refl eq_refl H)
    as (H1 & H2 & H3).
  split; [exact H1|]. split.
  - apply H2. intros x [<-|[<-|[]]]; vm_compute; reflexivity.
  - apply H3. vm_compute. reflexivity.
Defined.

(** ** Refusals

    The state a caller can observe: the current and the active controller
    and, for every HSerial controller, [isLocked] and [_isLockedActive]. *)

#[local] Instance steady_preorder : PreOrder steady.
Proof.
  split.
  - intros w. unfold steady. auto.
  - intros w1 w2 w3 (Hc & Ha & Hh) (Hc' & Ha' & Hh'). unfold steady.
    repeat split; try congruence.
    + destruct (Hh x), (Hh' x). congruence.
    + destruct (Hh x), (Hh' x). congruence.
Qed.

Ltac steady_leaf :=
  apply frames_modify; intros ?; unfold steady, with_hserial; simpl;
  repeat split; intros; try destruct (Nat.eqb _ _); reflexivity.

Section Carries.

Variable P : exn -> bool.

Lemma carries_frames {A} (m : M A) : frames false steady m -> carries P m.
Proof. intros H w e He _. apply H. now rewrite He. Qed.

Lemma carries_never {A} (m : M A) : never P m -> carries P m.
Proof. intros H w e He HP. rewrite (H w e He) in HP. discriminate. Qed.

Lemma carries_any {A} (m : M A) : carries any_exn m -> carries P m.
Proof. intros H w e He _. now apply (H w e). Qed.

Lemma carries_bind {A B} (m : M A) (k : A -> M B) :
  frames false steady m -> (forall a, carries P (k a)) ->
  carries P (bind m k).
Proof.
  intros Hm Hk w e. unfold bind. specialize (Hm w).
  destruct (m w) as [r w1]. simpl in Hm.
  destruct r as [a|e'| | |]; simpl; try discriminate.
  - intros He HP. transitivity w1; [now apply Hm|]. now apply (Hk a w1 e).
  - intros _ _. now apply Hm.
Qed.

Lemma carries_bind_last {A B} (m : M A) (k : A -> M B) :
  carries P m -> (forall a, never P (k a)) -> carries P (bind m k).
Proof.
  intros Hm Hk w e. unfold bind. specialize (Hm w).
  destruct (m w) as [r w1]. simpl in Hm.
  destruct r as [a|e'| | |]; simpl; try discriminate.
  - intros He HP. rewrite (Hk a w1 e He) in HP. discriminate.
  - intros [= ->] HP. now apply (Hm e).
Qed.

Lemma carries_scope_exit {A} dtor (body : M A) :
  carries P body -> frames false steady dtor -> never any_exn dtor ->
  carries P (scope_exit dtor body).
Proof.
  intros Hb Hd Hn w e. unfold scope_exit. specialize (Hb w).
  destruct (body w) as [r w1]. simpl in Hb.
  specialize (Hd w1). specialize (Hn w1).
  destruct r as [a|e'| | |]; simpl; try discriminate;
    destruct (dtor w1) as [rd w2]; simpl in *;
    destruct rd as [[]|e2| | |]; simpl; try discriminate;
    try (intros _ _; now specialize (Hn e2 eq_refl)).
  intros [= ->] HP. transitivity w1; [now apply (Hb e)|now apply Hd].
Qed.

Lemma carries_when b m : carries P m -> carries P (when b m).
Proof.
  destruct b; simpl; [auto|]. intros _ w e He. discriminate.
Qed.

Lemma never_ret {A} (a : A) : never P (ret a).
Proof. intros w e He. discriminate. Qed.

Lemma never_gets {A} (f : World -> A) : never P (gets f).
Proof. intros w e He. discriminate. Qed.

Lemma never_modify f : never P (modify f).
Proof. intros w e He. discriminate. Qed.

Lemma never_out_of_fuel {A} : never P (@out_of_fuel A).
Proof. intros w e He. discriminate. Qed.

Lemma never_bind {A B} (m : M A) (k : A -> M B) :
  never P m -> (forall a, never P (k a)) -> never P (bind m k).
Proof.
  intros Hm Hk w e. unfold bind. specialize (Hm w).
  destruct (m w) as [r w1]. simpl in Hm.
  destruct r as [a|e'| | |]; simpl; try discriminate.
  - apply Hk.
  - intros [= ->]. now apply Hm.
Qed.

Lemma never_when b m : never P m -> never P (when b m).
Proof. destruct b; simpl; auto using never_ret. Qed.

Lemma never_for_each {X} (xs : list X) f :
  (forall x, never P (f x)) -> never P (for_each xs f).
Proof.
  intros Hf. induction xs as [|x xs IH]; simpl;
    [apply never_ret | apply never_bind; auto].
Qed.

Lemma never_scope_exit {A} dtor (body : M A) :
  never P body -> never any_exn dtor -> never P (scope_exit dtor body).
Proof.
  intros Hb Hn w e. unfold scope_exit. specialize (Hb w).
  destruct (body w) as [r w1]. simpl in Hb. specialize (Hn w1).
  destruct r as [a|e'| | |]; simpl; try discriminate;
    destruct (dtor w1) as [rd w2]; simpl in *;
    destruct rd as [[]|e2| | |]; simpl; try discriminate;
    try (intros _; now specialize (Hn e2 eq_refl)).
  intros [= ->]. now apply Hb.
Qed.

Lemma never_lock_stateMutex : never P lock_stateMutex.
Proof.
  intros w e. unfold lock_stateMutex.
  destruct (stateMutex_locked (access w)); discriminate.
Qed.

End Carries.

Lemma never_with_stateMutex P {A} (m : M A) :
  never P m -> never P (with_stateMutex m).
Proof.
  intros H. unfold with_stateMutex.
  apply never_bind; [apply never_lock_stateMutex|intros _].
  apply never_scope_exit; [exact H|apply never_modify].
Qed.

Lemma never_callback P invoke c cb :
  is_noexcept cb = true -> never P (callback invoke c cb).
Proof.
  intros Hn w e He. now elim (callback_noexcept invoke c cb w Hn e).
Qed.

Lemma never_call_if_present P invoke c cb :
  is_noexcept cb = true -> never P (call_if_present invoke c cb).
Proof.
  intros Hn. destruct c; simpl; [now apply never_callback|apply never_ret].
Qed.

Lemma never_TransitionBlocker_dtor P : never P TransitionBlocker_dtor.
Proof.
  unfold TransitionBlocker_dtor.
  repeat first [apply never_with_stateMutex | apply never_modify
               | apply never_gets | apply never_bind; [|intro]].
Qed.

Lemma never_AccessUnblocker_dtor P : never P AccessUnblocker_dtor.
Proof.
  unfold AccessUnblocker_dtor.
  repeat first [apply never_with_stateMutex | apply never_modify
               | apply never_gets | apply never_when
               | apply never_bind; [|intro]].
Qed.

Lemma never_AccessManagementGuard_dtor P c :
  never P (AccessManagementGuard_dtor c).
Proof.
  unfold AccessManagementGuard_dtor.
  apply never_bind; [|intros _]; apply never_modify.
Qed.

(** *** What leaves the observable state alone *)

Section Steady.

Variable cfg : Config.
Variable fuel : nat.

Local Abbreviation still m := (frames false steady m).

Lemma still_lock_stateMutex : still lock_stateMutex.
Proof.
  intros w _. unfold lock_stateMutex.
  destruct (stateMutex_locked (access w)); simpl; [reflexivity|].
  unfold steady; simpl; auto.
Qed.

Lemma still_with_stateMutex {A} (m : M A) : still m -> still (with_stateMutex m).
Proof.
  intros H. unfold with_stateMutex, unlock_stateMutex.
  repeat first [apply still_lock_stateMutex | steady_leaf | frames_step].
Qed.

Lemma still_lock_isLockedMutex c : still (lock_isLockedMutex c).
Proof.
  intros w _. unfold lock_isLockedMutex.
  destruct (isLockedMutex_locked (hserial w c)); simpl; [reflexivity|].
  unfold steady, with_hserial; simpl. repeat split;
    destruct (Nat.eqb _ _); reflexivity.
Qed.

Lemma still_unlock_isLockedMutex c : still (unlock_isLockedMutex c).
Proof. unfold unlock_isLockedMutex. steady_leaf. Qed.

Lemma still_with_isLockedMutex {A} c (m : M A) :
  still m -> still (with_isLockedMutex c m).
Proof.
  intros H. unfold with_isLockedMutex.
  repeat first [apply still_lock_isLockedMutex
               | apply still_unlock_isLockedMutex | frames_step].
Qed.

Lemma still_AccessManagementGuard_ctor c :
  still (AccessManagementGuard_ctor cfg c).
Proof.
  unfold AccessManagementGuard_ctor.
  apply frames_bind; [typeclasses eauto| |intros _]; [|steady_leaf].
  intros w _. destruct (am_serializingMutex_locked (hserial w c)); simpl;
    [reflexivity|].
  unfold steady, with_hserial; simpl. repeat split;
    destruct (Nat.eqb _ _); reflexivity.
Qed.

Lemma still_AccessManagementGuard_dtor c :
  still (AccessManagementGuard_dtor c).
Proof.
  unfold AccessManagementGuard_dtor. repeat first [steady_leaf | frames_step].
Qed.

Lemma still_throwIfNotActiveController c n :
  still (throwIfNotActiveController cfg c n).
Proof. unfold throwIfNotActiveController. repeat frames_step. Qed.

Lemma still_throwIfNotTransitionCorrect c n :
  still (throwIfNotTransitionCorrect cfg c n).
Proof. unfold throwIfNotTransitionCorrect. repeat frames_step. Qed.

Lemma still_wait_allAccessCallsReturned t :
  still (wait_allAccessCallsReturned cfg t).
Proof.
  intros w _. unfold wait_allAccessCallsReturned.
  destruct (state_numUnreturnedAccessCalls (access w) =? 0)%Z; [reflexivity|].
  destruct (match drain_at cfg with Some t0 => (t0 <=? clock w + Z.max 0 t)%Z | None => false end);
    unfold steady; simpl; auto.
Qed.

Ltac still_step :=
  first
    [ apply still_with_stateMutex | apply still_lock_isLockedMutex
    | apply still_unlock_isLockedMutex | apply still_with_isLockedMutex
    | apply still_throwIfNotActiveController
    | apply still_throwIfNotTransitionCorrect
    | apply still_wait_allAccessCallsReturned
    | steady_leaf | frames_step ].

Lemma still_TransitionBlocker_ctor : still (TransitionBlocker_ctor cfg).
Proof. unfold TransitionBlocker_ctor. repeat still_step. Qed.

Lemma still_TransitionBlocker_dtor : still TransitionBlocker_dtor.
Proof. unfold TransitionBlocker_dtor. repeat still_step. Qed.

Lemma still_AccessUnblocker_dtor : still AccessUnblocker_dtor.
Proof. unfold AccessUnblocker_dtor. repeat still_step. Qed.

Lemma still_blockAccessCalls c : still (blockAccessCalls cfg c).
Proof. unfold blockAccessCalls. repeat still_step. Qed.

Lemma still_unblockAccessCalls c : still (unblockAccessCalls cfg c).
Proof. unfold unblockAccessCalls. repeat still_step. Qed.

Lemma still_waitForAllAccessCallsToReturn c t :
  still (waitForAllAccessCallsToReturn cfg c t).
Proof. unfold waitForAllAccessCallsToReturn. repeat still_step. Qed.

Lemma still_accessFunction c f : still (accessFunction cfg c f).
Proof.
  unfold accessFunction, AccessGuard_ctor, AccessGuard_dtor, serial_call.
  repeat still_step.
Qed.

Lemma still_isInAccessList c : still (isInAccessList cfg fuel c).
Proof. unfold isInAccessList, hasAsDelegateOrSubdelegate. repeat still_step. Qed.

Lemma still_shouldPerform c :
  still (shouldPerformConcurrentActiveControllerChange cfg fuel c).
Proof.
  unfold shouldPerformConcurrentActiveControllerChange.
  repeat first [apply still_isInAccessList | still_step].
Qed.

Lemma still_getControllersList c : still (getControllersList cfg fuel c).
Proof. unfold getControllersList. repeat still_step. Qed.

Lemma still_checkSafeTransition o : still (checkSafeTransition cfg o).
Proof. unfold checkSafeTransition. repeat still_step. Qed.

Lemma still_HSerialController_willMakeInactive c :
  still (HSerialController_willMakeInactive cfg c).
Proof.
  unfold HSerialController_willMakeInactive.
  repeat first [apply still_blockAccessCalls
               | apply still_waitForAllAccessCallsToReturn | still_step].
Qed.

Lemma still_HSerial_willMakeInactive c :
  still (HSerial_willMakeInactive cfg c).
Proof.
  unfold HSerial_willMakeInactive, transitionInitiatedExternally.
  repeat first [apply still_blockAccessCalls
               | apply still_waitForAllAccessCallsToReturn | still_step].
Qed.

(** A passive call, and so a passive callback body. *)
Lemma still_perform invoke this c :
  passive_call c = true -> still (perform cfg fuel invoke this c).
Proof.
  intros Hp. destruct c; try discriminate Hp; simpl;
    unfold unit_call, isActive, HSerial_isLockedActive;
    repeat first
      [ apply still_blockAccessCalls | apply still_unblockAccessCalls
      | apply still_waitForAllAccessCallsToReturn | apply still_accessFunction
      | still_step ].
Qed.

Lemma still_run invoke this p :
  passive p -> still (run cfg fuel invoke this p).
Proof.
  induction 1 as [|e|c k Hc Hk IH]; simpl.
  - apply frames_ret; typeclasses eauto.
  - apply frames_throw; typeclasses eauto.
  - intros w. pose proof (still_perform invoke this c Hc w) as Hp.
    destruct (perform cfg fuel invoke this c w) as [r w1]. simpl in Hp.
    destruct r as [b|e| | |]; simpl; intros H; try discriminate.
    + transitivity w1; [now apply Hp | now apply IH].
    + transitivity w1; [now apply Hp | now apply IH].
Qed.

Lemma still_callback_body invoke this cb :
  passive_callbacks cfg -> precedes_store cb = true ->
  still (callback_body cfg fuel invoke this cb).
Proof.
  intros Hpass Hcb. unfold callback_body.
  destruct (class_of cfg this) as [name ov|] eqn:Hclass.
  - destruct (override ov cb) as [p|] eqn:Hov.
    + apply still_run. exact (Hpass this name ov cb p Hclass Hov).
    + destruct cb; try discriminate Hcb;
        try (apply frames_ret; typeclasses eauto).
      apply still_HSerialController_willMakeInactive.
  - destruct cb; try discriminate Hcb;
      try (apply frames_ret; typeclasses eauto).
    + apply still_HSerial_willMakeInactive.
    + unfold HSerial_didCancelMakeInactive. apply still_unlock_isLockedMutex.
    + unfold HSerial_willMakeActive. apply still_lock_isLockedMutex.
Qed.

(** An overridden didMakeActive that is polite throws no refusal. *)
Lemma never_run invoke this p :
  polite p -> never refusal (run cfg fuel invoke this p).
Proof.
  induction 1 as [|e He|c k Hk IH]; simpl.
  - apply never_ret.
  - intros w e' [= <-]. exact He.
  - intros w e.
    destruct (perform cfg fuel invoke this c w) as [r w1].
    destruct r as [b|e'| | |]; simpl; try discriminate; apply IH.
Qed.

Lemma never_callback_body_didMakeActive invoke this :
  polite_didMakeActive cfg ->
  never refusal (callback_body cfg fuel invoke this DidMakeActive).
Proof.
  intros Hpol. unfold callback_body.
  destruct (class_of cfg this) as [name ov|] eqn:Hclass.
  - destruct (override ov DidMakeActive) as [p|] eqn:Hov.
    + apply never_run. exact (Hpol this name ov p Hclass Hov).
    + apply never_ret.
  - unfold HSerial_didMakeActive, unlock_isLockedMutex.
    repeat first [apply never_modify | apply never_gets
                 | apply never_bind; [|intro]].
Qed.

End Steady.

Lemma still_dispatch cfg fuel c cb :
  passive_callbacks cfg -> precedes_store cb = true ->
  frames false steady (dispatch cfg fuel c cb).
Proof.
  intros Hpass Hcb. destruct fuel as [|fuel]; simpl.
  - apply frames_out_of_fuel; typeclasses eauto.
  - now apply still_callback_body.
Qed.

Lemma never_dispatch_didMakeActive cfg fuel c :
  polite_didMakeActive cfg ->
  never refusal (dispatch cfg fuel c DidMakeActive).
Proof.
  intros Hpol. destruct fuel as [|fuel]; simpl.
  - apply never_out_of_fuel.
  - now apply never_callback_body_didMakeActive.
Qed.

(** *** Transitions that end in an exception *)

Section RefusedTransitions.

Variable cfg : Config.
Variable fuel : nat.
Variable invoke : ctrl -> Callback -> M unit.

Hypothesis invoke_still :
  forall c cb, precedes_store cb = true -> frames false steady (invoke c cb).
Hypothesis invoke_polite : forall c, never refusal (invoke c DidMakeActive).

Local Abbreviation still m := (frames false steady m).

Lemma still_callback c cb :
  precedes_store cb = true -> still (callback invoke c cb).
Proof.
  intros Hcb. unfold callback.
  apply frames_bind; [typeclasses eauto| |intros _].
  - apply frames_modify. intros w. unfold steady. simpl. auto.
  - destruct (is_noexcept cb); [apply frames_noexcept|]; now apply invoke_still.
Qed.

Lemma still_call_if_present c cb :
  precedes_store cb = true -> still (call_if_present invoke c cb).
Proof.
  intros Hcb. destruct c; simpl;
    [now apply still_callback | apply frames_ret; typeclasses eauto].
Qed.

Lemma never_callback_didMakeActive c :
  never refusal (callback invoke c DidMakeActive).
Proof.
  unfold callback. apply never_bind; [apply never_modify|intros _].
  simpl. apply invoke_polite.
Qed.

Lemma carries_with_stateMutex P {A} (m : M A) :
  carries P m -> carries P (with_stateMutex m).
Proof.
  intros H. unfold with_stateMutex.
  apply carries_bind; [apply still_lock_stateMutex|intros _].
  apply carries_scope_exit; [exact H| |apply never_modify].
  unfold unlock_stateMutex. steady_leaf.
Qed.

(** However [performTransition] throws, it does so before the store. *)
Lemma carries_performTransition n also :
  carries any_exn (performTransition cfg invoke n also).
Proof.
  unfold performTransition.
  apply carries_bind; [apply frames_gets; typeclasses eauto|intros old].
  apply carries_bind; [now apply still_call_if_present|intros _].
  apply carries_bind_last;
    [|intros _; now apply never_call_if_present].
  apply carries_with_stateMutex.
  apply carries_bind; [|intros _].
  { apply frames_catch_rethrow; [typeclasses eauto| |].
    - apply still_checkSafeTransition.
    - now apply still_call_if_present. }
  apply carries_bind; [now apply still_call_if_present|intros _].
  apply carries_never. unfold store_controllers.
  apply never_bind; [apply never_modify|intros _].
  apply never_when, never_modify.
Qed.

Lemma carries_performActiveControllerChange n :
  carries refusal (performActiveControllerChange cfg invoke n).
Proof.
  unfold performActiveControllerChange.
  apply carries_scope_exit;
    [|apply still_AccessUnblocker_dtor|apply never_AccessUnblocker_dtor].
  apply carries_bind_last; [apply carries_any, carries_performTransition|].
  intros _. destruct n; simpl;
    [apply never_callback_didMakeActive|apply never_ret].
Qed.

Lemma still_willRemove_loop xs : forall nl w,
  returns (fst (fst (willRemove_loop invoke xs nl w))) = true ->
  steady w (snd (willRemove_loop invoke xs nl w)).
Proof.
  induction xs as [|x xs IH]; intros nl w; simpl.
  - reflexivity.
  - pose proof (still_callback x WillRemove eq_refl w) as Hc.
    destruct (callback invoke x WillRemove w) as [r w1]. simpl in Hc.
    destruct r; simpl; intros H; try discriminate; try (now apply Hc).
    transitivity w1; [now apply Hc | now apply IH].
Qed.

Lemma tryRemoveAndTransition_throws n old w e notified w1 :
  tryRemoveAndTransition cfg invoke n old w = (Throw e, notified, w1) ->
  steady w w1.
Proof.
  unfold tryRemoveAndTransition,
    store_concurrentActiveControllerChangeAllowed at 1, modify.
  set (ws := with_access (set_concurrentActiveControllerChangeAllowed true) w).
  assert (Hs : steady w ws) by (unfold steady; simpl; auto).
  pose proof (still_willRemove_loop old [] ws) as Hl.
  destruct (willRemove_loop invoke old [] ws) as [[rl nl] wl]. simpl in Hl.
  destruct rl as [[]|e'| | |]; try discriminate.
  - pose proof (carries_bind any_exn
                  (store_concurrentActiveControllerChangeAllowed false)
                  (fun _ => performTransition cfg invoke n true)) as Hp.
    specialize (Hp ltac:(unfold store_concurrentActiveControllerChangeAllowed;
                         steady_leaf)
                   (fun _ => carries_performTransition n true) wl).
    destruct ((store_concurrentActiveControllerChangeAllowed false;;
               performTransition cfg invoke n true) wl) as [rp wp].
    intros [= -> <- <-]. simpl in Hp.
    transitivity ws; [exact Hs|]. transitivity wl; [now apply Hl|].
    now apply (Hp e).
  - intros [= <- <- <-]. transitivity ws; [exact Hs|now apply Hl].
Qed.

Lemma carries_performCurrentControllerChange n :
  carries refusal (performCurrentControllerChange cfg fuel invoke n).
Proof.
  unfold performCurrentControllerChange.
  apply carries_scope_exit;
    [|apply still_AccessUnblocker_dtor|apply never_AccessUnblocker_dtor].
  apply carries_bind; [apply frames_gets; typeclasses eauto|intros old].
  apply carries_bind; [|intros oldList].
  { destruct old; [apply still_getControllersList
                  |apply frames_ret; typeclasses eauto]. }
  apply carries_bind_last.
  - apply carries_any. intros w e0 He _.
    destruct (tryRemoveAndTransition cfg invoke n oldList w)
      as [[r nl] w1] eqn:Htry.
    destruct r as [[]|e| | |]; try discriminate He.
    transitivity w1; [exact (tryRemoveAndTransition_throws _ _ _ _ _ _ Htry)|].
    assert (Hh : still (store_concurrentActiveControllerChangeAllowed true ;;
                        for_each nl (fun x => callback invoke x DidCancelRemove) ;;
                        @throw unit e)).
    { unfold store_concurrentActiveControllerChangeAllowed.
      repeat first [apply still_callback; reflexivity | steady_leaf
                   | frames_step]. }
    apply Hh. now rewrite He.
  - intros _. apply never_bind; [|intros _].
    { apply never_for_each. intros x. now apply never_callback. }
    destruct n; [|apply never_ret].
    apply never_bind; [|intros newList].
    { unfold getControllersList.
      destruct (Delegation.getControllersList fuel (delegates cfg) c);
        [apply never_ret|apply never_out_of_fuel]. }
    apply never_bind; [|intros _; apply never_callback_didMakeActive].
    apply never_for_each. intros x. now apply never_callback.
Qed.

Lemma carries_makeActive c : carries refusal (makeActive cfg fuel invoke c).
Proof.
  unfold makeActive.
  apply carries_bind; [apply still_shouldPerform|intros conc].
  destruct conc.
  - apply carries_bind; [apply frames_gets; typeclasses eauto|intros a].
    apply carries_when, carries_performActiveControllerChange.
  - apply carries_bind; [apply still_TransitionBlocker_ctor|intros _].
    apply carries_scope_exit;
      [|apply still_TransitionBlocker_dtor|apply never_TransitionBlocker_dtor].
    apply carries_bind; [apply still_isInAccessList|intros inList].
    destruct inList.
    + apply carries_bind; [apply frames_gets; typeclasses eauto|intros a].
      apply carries_when, carries_performActiveControllerChange.
    + apply carries_performCurrentControllerChange.
Qed.

Lemma carries_makeInactive c : carries refusal (makeInactive cfg fuel invoke c).
Proof.
  unfold makeInactive.
  apply carries_bind; [apply still_shouldPerform|intros conc].
  destruct conc.
  - apply carries_bind; [apply frames_gets; typeclasses eauto|intros a].
    apply carries_when, carries_performActiveControllerChange.
  - apply carries_bind; [apply still_TransitionBlocker_ctor|intros _].
    apply carries_scope_exit;
      [|apply still_TransitionBlocker_dtor|apply never_TransitionBlocker_dtor].
    apply carries_bind; [apply frames_gets; typeclasses eauto|intros a].
    apply carries_when, carries_performActiveControllerChange.
Qed.

Lemma carries_removeFromAccess c :
  carries refusal (removeFromAccess cfg fuel invoke c).
Proof.
  unfold removeFromAccess.
  apply carries_bind; [apply still_TransitionBlocker_ctor|intros _].
  apply carries_scope_exit;
    [|apply still_TransitionBlocker_dtor|apply never_TransitionBlocker_dtor].
  apply carries_bind; [apply still_isInAccessList|intros inList].
  destruct inList; [|apply carries_never, never_ret].
  apply carries_bind; [apply frames_gets; typeclasses eauto|intros cur].
  destruct (opt_eqb (Some c) cur);
    [apply carries_performCurrentControllerChange|].
  apply carries_frames, frames_throw; typeclasses eauto.
Qed.

Lemma carries_with_AccessManagementGuard c (m : M unit) :
  carries refusal m -> carries refusal (with_AccessManagementGuard cfg c m).
Proof.
  intros H. unfold with_AccessManagementGuard.
  apply carries_bind; [apply still_AccessManagementGuard_ctor|intros _].
  apply carries_scope_exit; [exact H| |].
  - apply still_AccessManagementGuard_dtor.
  - apply never_AccessManagementGuard_dtor.
Qed.

Lemma carries_controller_makeActive c :
  carries refusal (controller_makeActive cfg fuel invoke c).
Proof.
  unfold controller_makeActive, HSerial_makeActive.
  destruct (class_of cfg c); [apply carries_makeActive|].
  apply carries_with_AccessManagementGuard.
  apply carries_bind; [steady_leaf|intros _]. apply carries_makeActive.
Qed.

Lemma carries_controller_makeInactive c :
  carries refusal (controller_makeInactive cfg fuel invoke c).
Proof.
  unfold controller_makeInactive, HSerial_makeInactive.
  destruct (class_of cfg c); [apply carries_makeInactive|].
  apply carries_with_AccessManagementGuard, carries_makeInactive.
Qed.

Lemma carries_controller_removeFromAccess c :
  carries refusal (controller_removeFromAccess cfg fuel invoke c).
Proof.
  unfold controller_removeFromAccess, HSerial_removeFromAccess.
  destruct (class_of cfg c); [apply carries_removeFromAccess|].
  apply carries_with_AccessManagementGuard, carries_removeFromAccess.
Qed.

End RefusedTransitions.

Lemma refused_state_counterexample :
  let w := Examples.after_makeActive Examples.meddling_cfg 1 in
  let w' := snd (Run.controller_makeActive Examples.meddling_cfg 5 8 w) in
  fst (Run.controller_makeActive Examples.meddling_cfg 5 8 w)
  = Throw (ControllerRefuses 2 "busy") /\
  callback_log w'
  = callback_log w ++ [(1, WillRemove); (1, WillMakeInactive);
                       (2, WillMakeActive); (1, DidMakeInactive);
                       (2, DidMakeActive); (2, WillRemove);
                       (1, DidCancelRemove)] /\
  state_activeController (access w) = Some 1 /\
  state_activeController (access w') = Some 2 /\
  ~ specified_refusal Examples.meddling_cfg 5 8 w.
Proof.
  cbv zeta. repeat split.
  intros H. specialize (H 2 "busy" eq_refl). destruct H as (_ & Ha & _).
  vm_compute in Ha. discriminate.
Qed.

Lemma reluctant_passive : passive_callbacks Examples.reluctant_cfg.
Proof.
  intros c name ov cb p Hc Ho. simpl in Hc.
  destruct (Nat.eqb c 5); injection Hc as <- <-; destruct cb; simpl in Ho;
    try discriminate Ho.
  injection Ho as <-. constructor.
Qed.

Lemma reluctant_polite : polite_didMakeActive Examples.reluctant_cfg.
Proof.
  intros c name ov p Hc Ho. simpl in Hc.
  destruct (Nat.eqb c 5); injection Hc as <- <-; discriminate Ho.
Qed.

Lemma plain_passive : passive_callbacks Examples.plain_cfg.
Proof.
  intros c name ov cb p Hc Ho. simpl in Hc.
  destruct (Nat.eqb c 3 || Nat.eqb c 4); [discriminate Hc|].
  injection Hc as <- <-. destruct cb; discriminate Ho.
Qed.

Lemma plain_polite : polite_didMakeActive Examples.plain_cfg.
Proof.
  intros c name ov p Hc Ho. simpl in Hc.
  destruct (Nat.eqb c 3 || Nat.eqb c 4); [discriminate Hc|].
  injection Hc as <- <-. discriminate Ho.
Qed.

(** C2 (amended).  When no overridden callback makes a controller change
    of its own (no makeActive, makeInactive, removeFromAccess,
    makeLockedActive or unlockActive from a callback) and no overridden
    didMakeActive throws ControllerRefuses -- so that a refusal comes from
    willRemove or willMakeInactive -- a makeActive, makeInactive or
    removeFromAccess that ends in ControllerRefuses leaves
    currentController, activeController and every controller's isLocked
    and _isLockedActive as they were before the call. *)
Theorem refused_call_leaves_state cfg fuel c w r d :
  passive_callbacks cfg ->
  polite_didMakeActive cfg ->
  (fst (Run.controller_makeActive cfg fuel c w) = Throw (ControllerRefuses r d) ->
   steady w (snd (Run.controller_makeActive cfg fuel c w))) /\
  (fst (Run.controller_makeInactive cfg fuel c w) = Throw (ControllerRefuses r d) ->
   steady w (snd (Run.controller_makeInactive cfg fuel c w))) /\
  (fst (Run.controller_removeFromAccess cfg fuel c w)
   = Throw (ControllerRefuses r d) ->
   steady w (snd (Run.controller_removeFromAccess cfg fuel c w))).
Proof.
  intros Hpass Hpol.
  assert (Hs : forall x cb, precedes_store cb = true ->
                            frames false steady (dispatch cfg fuel x cb)).
  { intros x cb. now apply still_dispatch. }
  assert (Hn : forall x, never refusal (dispatch cfg fuel x DidMakeActive)).
  { intros x. now apply never_dispatch_didMakeActive. }
  split; [|split]; intros H.
  - exact (carries_controller_makeActive cfg fuel _ Hs Hn c w _ H eq_refl).
  - exact (carries_controller_makeInactive cfg fuel _ Hs Hn c w _ H eq_refl).
  - exact (carries_controller_removeFromAccess cfg fuel _ Hs Hn c w _ H eq_refl).
Qed.

Lemma refused_call_leaves_state_witness :
  (let w := Examples.after_makeActive Examples.reluctant_cfg 1 in
   steady w (snd (Run.controller_makeActive Examples.reluctant_cfg 5 8 w))) /\
  (let w := with_access (set_numUnreturnedAccessCalls 2)
              (Examples.after_makeActive Examples.plain_cfg 1) in
   steady w (snd (Run.controller_makeInactive Examples.plain_cfg 5 1 w))).
Proof.
  split; cbv zeta.
  - apply (proj1 (refused_call_leaves_state Examples.reluctant_cfg 5 8
                    (Examples.after_makeActive Examples.reluctant_cfg 1)
                    5 "busy" reluctant_passive reluctant_polite)).
    vm_compute; reflexivity.
  - apply (proj1 (proj2 (refused_call_leaves_state Examples.plain_cfg 5 1
                    (with_access (set_numUnreturnedAccessCalls 2)
                       (Examples.after_makeActive Examples.plain_cfg 1))
                    1 "Access calls have not returned."
                    plain_passive plain_polite))).
    vm_compute; reflexivity.
Defined.

(** ** Callbacks that make no access management requests

    What such callbacks do is invisible in [transition_core]: they
    block and unblock access calls, wait, use the port and take HSerial's
    mutexes. *)

#[local] Instance silent_preorder : PreOrder silent.
Proof.
  split; unfold silent; [intros w|intros w1 w2 w3]; congruence.
Qed.

Ltac silent_leaf :=
  apply frames_modify; intros ?; unfold silent, transition_core, with_hserial;
  simpl; reflexivity.

Section Silent.

Variable cfg : Config.
Variable fuel : nat.

Local Abbreviation hushes m := (frames false silent m).

Lemma silent_lock_stateMutex : hushes lock_stateMutex.
Proof.
  intros w _. unfold lock_stateMutex.
  destruct (stateMutex_locked (access w)); simpl; [reflexivity|].
  unfold silent; simpl; auto.
Qed.

Lemma silent_with_stateMutex {A} (m : M A) : hushes m -> hushes (with_stateMutex m).
Proof.
  intros H. unfold with_stateMutex, unlock_stateMutex.
  repeat first [apply silent_lock_stateMutex | silent_leaf | frames_step].
Qed.

Lemma silent_lock_isLockedMutex c : hushes (lock_isLockedMutex c).
Proof.
  intros w _. unfold lock_isLockedMutex.
  destruct (isLockedMutex_locked (hserial w c)); simpl; [reflexivity|].
  unfold silent, with_hserial; simpl. repeat split;
    destruct (Nat.eqb _ _); reflexivity.
Qed.

Lemma silent_unlock_isLockedMutex c : hushes (unlock_isLockedMutex c).
Proof. unfold unlock_isLockedMutex. silent_leaf. Qed.

Lemma silent_with_isLockedMutex {A} c (m : M A) :
  hushes m -> hushes (with_isLockedMutex c m).
Proof.
  intros H. unfold with_isLockedMutex.
  repeat first [apply silent_lock_isLockedMutex
               | apply silent_unlock_isLockedMutex | frames_step].
Qed.

Lemma silent_AccessManagementGuard_ctor c :
  hushes (AccessManagementGuard_ctor cfg c).
Proof.
  unfold AccessManagementGuard_ctor.
  apply frames_bind; [typeclasses eauto| |intros _]; [|silent_leaf].
  intros w _. destruct (am_serializingMutex_locked (hserial w c)); simpl;
    [reflexivity|].
  unfold silent, with_hserial; simpl. repeat split;
    destruct (Nat.eqb _ _); reflexivity.
Qed.

Lemma silent_AccessManagementGuard_dtor c :
  hushes (AccessManagementGuard_dtor c).
Proof.
  unfold AccessManagementGuard_dtor. repeat first [silent_leaf | frames_step].
Qed.

Lemma silent_throwIfNotActiveController c n :
  hushes (throwIfNotActiveController cfg c n).
Proof. unfold throwIfNotActiveController. repeat frames_step. Qed.

Lemma silent_throwIfNotTransitionCorrect c n :
  hushes (throwIfNotTransitionCorrect cfg c n).
Proof. unfold throwIfNotTransitionCorrect. repeat frames_step. Qed.

Lemma silent_wait_allAccessCallsReturned t :
  hushes (wait_allAccessCallsReturned cfg t).
Proof.
  intros w _. unfold wait_allAccessCallsReturned.
  destruct (state_numUnreturnedAccessCalls (access w) =? 0)%Z; [reflexivity|].
  destruct (match drain_at cfg with Some t0 => (t0 <=? clock w + Z.max 0 t)%Z | None => false end);
    unfold silent; simpl; auto.
Qed.

Ltac silent_step :=
  first
    [ apply silent_with_stateMutex | apply silent_lock_isLockedMutex
    | apply silent_unlock_isLockedMutex | apply silent_with_isLockedMutex
    | apply silent_throwIfNotActiveController
    | apply silent_throwIfNotTransitionCorrect
    | apply silent_wait_allAccessCallsReturned
    | silent_leaf | frames_step ].

Lemma silent_AccessUnblocker_dtor : hushes AccessUnblocker_dtor.
Proof. unfold AccessUnblocker_dtor. repeat silent_step. Qed.





Lemma silent_isInAccessList c : hushes (isInAccessList cfg fuel c).
Proof. unfold isInAccessList, hasAsDelegateOrSubdelegate. repeat silent_step. Qed.

Lemma silent_shouldPerform c :
  hushes (shouldPerformConcurrentActiveControllerChange cfg fuel c).
Proof.
  unfold shouldPerformConcurrentActiveControllerChange.
  repeat first [apply silent_isInAccessList | silent_step].
Qed.

Lemma silent_getControllersList c : hushes (getControllersList cfg fuel c).
Proof. unfold getControllersList. repeat silent_step. Qed.

Lemma silent_checkSafeTransition o : hushes (checkSafeTransition cfg o).
Proof. unfold checkSafeTransition. repeat silent_step. Qed.






End Silent.


(** *** Following a transition whose callbacks are silent

    The callbacks of an active controller change whose callbacks are
    silent, in whatever state it is made: also inside willRemove and
    didCancelRemove, where it is made without queuing. *)

Section FollowingSilent.

Variable cfg : Config.
Variable fuel : nat.
Variable invoke : ctrl -> Callback -> M unit.
Hypothesis invoke_silent : forall c cb, frames false silent (invoke c cb).






End FollowingSilent.

(** *** C5: an active controller change, queued or not *)

Lemma opt_eqb_true a b : opt_eqb a b = true -> a = b.
Proof.
  destruct a, b; simpl; try discriminate; auto.
  intros H. apply Nat.eqb_eq in H. now subst.
Qed.

Lemma opt_eqb_false a b : opt_eqb a b = false -> a <> b.
Proof.
  destruct a, b; simpl; try discriminate; auto; try congruence.
  intros H [= ->]. rewrite Nat.eqb_refl in H. discriminate.
Qed.






(** The proviso is needed for a swap made without queuing.  Inside
    willRemove, controller 2's didMakeActive makes it inactive again:
    [makeActive] returns normally after six callbacks with no controller
    active. *)
Lemma unqueued_swap_undone :
  let w := in_willRemove fickle_cfg 1 in
  concurrent_window fickle_cfg w /\
  state_activeController (access w) = Some 1 /\
  in_access_list fickle_cfg w 2 /\
  fst (Run.makeActive fickle_cfg 5 2 w) = Ok tt /\
  callback_log (snd (Run.makeActive fickle_cfg 5 2 w))
  = callback_log w ++ [(1, WillMakeInactive); (2, WillMakeActive);
                       (1, DidMakeInactive); (2, DidMakeActive);
                       (2, WillMakeInactive); (2, DidMakeInactive)] /\
  state_activeController (access (snd (Run.makeActive fickle_cfg 5 2 w)))
  = None.
Proof.
  cbv zeta. split; [|split; [|split; [|split; [|split]]]].
  - unfold concurrent_window. repeat split; try reflexivity.
    vm_compute. discriminate.
  - reflexivity.
  - exists 1. split; [reflexivity|]. right. constructor. simpl. auto.
  - vm_compute. reflexivity.
  - vm_compute. reflexivity.
  - vm_compute. reflexivity.
Qed.

(** * Further properties *)

(** ** Delegation: what the traversals compute *)

Section DelegationContents.
Import Delegation.

Lemma fold_appendDelegatesOfDegree g d xs :
  (forall x lst, appendDelegatesOfDegree_from g d x lst
                 = (lst ++ level g d x, N.of_nat (List.length (level g d x)))) ->
  forall lst n,
    fold_left
      (fun (acc : list ctrl * N) (x : ctrl) =>
         let r := appendDelegatesOfDegree_from g d x (fst acc) in
         (fst r, (snd acc + snd r)%N))
      xs (lst, n)
    = (lst ++ flat_map (level g d) xs,
       (n + N.of_nat (List.length (flat_map (level g d) xs)))%N).
Proof.
  intros H. induction xs as [|x xs IH]; intros lst n; simpl.
  - now rewrite app_nil_r, N.add_0_r.
  - rewrite H. simpl. rewrite IH. rewrite <- app_assoc. f_equal.
    rewrite List.length_app. lia.
Qed.

Lemma appendDelegatesOfDegree_from_level g d :
  forall x lst, appendDelegatesOfDegree_from g d x lst
                = (lst ++ level g d x, N.of_nat (List.length (level g d x))).
Proof.
  induction d as [|d IH]; intros x lst; simpl; [reflexivity|].
  now rewrite (fold_appendDelegatesOfDegree g d (g x) IH).
Qed.

Lemma level_empty_next g d :
  forall x, level g d x = [] -> level g (S d) x = [].
Proof.
  induction d as [|d IH]; intros x H; [discriminate|].
  change (flat_map (level g (S d)) (g x) = []).
  change (flat_map (level g d) (g x) = []) in H.
  induction (g x) as [|y ys IHy]; [reflexivity|].
  simpl in *. apply app_eq_nil in H. destruct H as [Hy Hys].
  rewrite (IH y Hy). simpl. auto.
Qed.

Lemma level_empty_from g d x :
  level g d x = [] -> forall d', d <= d' -> level g d' x = [].
Proof.
  intros H d' Hle. induction Hle; [exact H|now apply level_empty_next].
Qed.

Lemma level_subdelegate g d :
  forall x o, In o (level g (S d) x) -> subdelegate g x o.
Proof.
  induction d as [|d IH]; intros x o H.
  - simpl in H. apply in_flat_map in H. destruct H as (y & Hy & [<-|[]]).
    now apply sub_direct.
  - change (In o (flat_map (level g (S d)) (g x))) in H.
    apply in_flat_map in H. destruct H as (y & Hy & Ho).
    apply (sub_via g x y o Hy). now apply IH.
Qed.

Lemma subdelegate_level g x o :
  subdelegate g x o -> exists d, In o (level g (S d) x).
Proof.
  induction 1 as [x o H|x y o Hy _ [d IH]].
  - exists 0. simpl. apply in_flat_map. exists o. simpl. auto.
  - exists (S d). change (In o (flat_map (level g (S d)) (g x))).
    apply in_flat_map. eauto.
Qed.

Lemma getControllersList_loop_step fuel g x lst k :
  getControllersList_loop (S fuel) g x lst (Z.of_nat k)
  = if (0 <? N.of_nat (List.length (level g k x)))%N
    then getControllersList_loop fuel g x (lst ++ level g k x) (Z.of_nat (S k))
    else Some (lst ++ level g k x).
Proof.
  cbn [getControllersList_loop]. unfold appendDelegatesOfDegree.
  destruct (Z.ltb_spec (Z.of_nat k) 0); [lia|].
  rewrite Nat2Z.id, appendDelegatesOfDegree_from_level. cbn [fst snd].
  now replace (Z.of_nat k + 1)%Z with (Z.of_nat (S k)) by lia.
Qed.

(** The loop of [getControllersList] appends level after level and stops
    at the first empty one. *)
Lemma getControllersList_loop_levels g x :
  forall n k lst,
    level g (k + n) x = [] ->
    (forall d, k <= d < k + n -> level g d x <> []) ->
    forall fuel, n < fuel ->
      getControllersList_loop fuel g x lst (Z.of_nat k)
      = Some (lst ++ flat_map (fun d => level g d x) (seq k n)).
Proof.
  induction n as [|n IH]; intros k lst Hend Hfull fuel Hfuel;
    (destruct fuel as [|fuel]; [lia|]); rewrite getControllersList_loop_step.
  - rewrite Nat.add_0_r in Hend. rewrite Hend. simpl. now rewrite app_nil_r.
  - assert (Hk : level g k x <> []) by (apply Hfull; lia).
    destruct (level g k x) as [|y ys] eqn:Hl; [congruence|].
    replace (0 <? N.of_nat (List.length (y :: ys)))%N with true
      by (symmetry; apply N.ltb_lt; simpl; lia).
    rewrite (IH (S k)); try lia.
    + cbn [seq flat_map]. rewrite Hl. now rewrite <- app_assoc.
    + now replace (S k + n) with (k + S n) by lia.
    + intros d Hd. apply Hfull. lia.
Qed.

(** In a well-founded graph some level is empty. *)
Lemma level_eventually_empty g :
  forall x, Acc (delegate_of g) x -> exists h, level g (S h) x = [].
Proof.
  intros x Hacc.
  destruct (appendDelegatesOfDegree_from_height g x Hacc) as [h Hh].
  exists h. specialize (Hh (S h) (Nat.lt_succ_diag_r h) []).
  rewrite appendDelegatesOfDegree_from_level in Hh. now injection Hh as Hh _.
Qed.

Lemma first_empty_level g x h :
  level g (S h) x = [] ->
  exists m, m <= h /\ level g (S m) x = [] /\
            forall d, d <= m -> level g d x <> [].
Proof.
  induction h as [|h IH]; intros H.
  - exists 0. repeat split; auto. intros d Hd.
    replace d with 0 by lia. discriminate.
  - destruct (level g (S h) x) as [|y ys] eqn:Hl.
    + destruct (IH eq_refl) as (m & Hm & He & Hf). exists m. auto.
    + exists (S h). repeat split; auto. intros d Hd Hnil.
      pose proof (level_empty_from g d x Hnil (S h) Hd). congruence.
Qed.

Lemma getControllersList_levels g x :
  Acc (delegate_of g) x ->
  exists m, forall fuel, m < fuel ->
    getControllersList fuel g x
    = Some (flat_map (fun d => level g d x) (seq 0 (S m))) /\
    level g (S m) x = [].
Proof.
  intros Hacc. destruct (level_eventually_empty g x Hacc) as [h Hh].
  destruct (first_empty_level g x h Hh) as (m & _ & He & Hf).
  exists m. intros fuel Hfuel. split; [|exact He].
  unfold getControllersList.
  rewrite (getControllersList_loop_levels g x m 1 [x]); try lia.
  - reflexivity.
  - now replace (1 + m) with (S m) by lia.
  - intros d Hd. apply Hf. lia.
Qed.

Lemma levels_members g this m :
  level g (S m) this = [] ->
  forall x, In x (flat_map (fun d => level g d this) (seq 0 (S m)))
            <-> x = this \/ subdelegate g this x.
Proof.
  intros He x. rewrite in_flat_map. split.
  - intros (d & Hd & Hx). destruct d as [|d].
    + simpl in Hx. destruct Hx as [<-|[]]. now left.
    + right. now apply (level_subdelegate g d).
  - intros [->|Hs].
    + exists 0. split; [apply in_seq; lia|simpl; auto].
    + destruct (subdelegate_level g this x Hs) as [d Hd].
      exists (S d). split; [|exact Hd]. apply in_seq.
      destruct (Nat.le_gt_cases (S d) m) as [Hle|Hgt]; [lia|].
      assert (Hnil : level g (S d) this = [])
        by (apply (level_empty_from g (S m) this He); lia).
      rewrite Hnil in Hd. destruct Hd.
Qed.


Lemma subdelegate_clos_trans g x o :
  subdelegate g x o -> Relation_Operators.clos_trans ctrl (delegate_of g) o x.
Proof.
  induction 1 as [x o H|x y o Hy _ IH].
  - now apply Relation_Operators.t_step.
  - apply (Relation_Operators.t_trans _ _ o y x);
      [exact IH|now apply Relation_Operators.t_step].
Qed.

Lemma acyclic_irreflexive g :
  acyclic g -> forall c, ~ subdelegate g c c.
Proof.
  intros Hacc c Hc. apply subdelegate_clos_trans in Hc.
  pose proof (Acc_clos_trans ctrl (delegate_of g) c (Hacc c)) as Ht.
  induction Ht as [x _ IH]. exact (IH x Hc Hc).
Qed.

Lemma registered_NoDup g : registered g -> forall c, NoDup (g c).
Proof.
  induction 1 as [|g fuel this delegate g' _ IH Hreg]; intros c.
  - constructor.
  - apply registerDelegate_Ok in Hreg.
    destruct Hreg as (d & _ & _ & Hnin & _ & ->). unfold push_back.
    destruct (Nat.eqb_spec c this) as [->|_]; [|apply IH].
    apply NoDup_app; [apply IH|repeat constructor; intros []|].
    intros x Hx [<-|[]]. contradiction.
Qed.

End DelegationContents.

(** X1.  What [registerDelegate] answers, for a graph built by
    [registerDelegate]: the four rejections, in the order of the checks and
    each with its message, and otherwise the delegate appended to the
    controller's list. *)
Theorem registerDelegate_outcomes g this delegate :
  Delegation.registered g ->
  exists fuel0, forall fuel, fuel0 <= fuel ->
    let r := Delegation.registerDelegate fuel g this delegate in
    (delegate = None ->
     r = Throw (invalid_argument "A delegate must be a non-NULL controller.")) /\
    (delegate = Some this ->
     r = Throw (invalid_argument "A controller cannot delegate to itself.")) /\
    (forall d, delegate = Some d -> d <> this ->
       (In d (g this) ->
        r = Throw (invalid_argument
                     "Cannot add a delegate more than once to the same controller.")) /\
       (~ In d (g this) -> subdelegate g d this ->
        r = Throw (invalid_argument "Delegation cycles are not allowed.")) /\
       (~ In d (g this) -> ~ subdelegate g d this ->
        r = Ok (Delegation.push_back g this d))).
Proof.
  intros Hreg.
  destruct delegate as [d|].
  - destruct (hasAsDelegateOrSubdelegate_total g (Some this) d
                (registered_acyclic g Hreg d)) as [fuel0 Hf].
    exists fuel0. intros fuel Hfuel. cbv zeta.
    destruct (Hf fuel Hfuel) as [b Hb].
    unfold Delegation.registerDelegate. split; [discriminate|]. split.
    + intros [= ->]. now rewrite Nat.eqb_refl.
    + intros d' [= <-] Hne.
      destruct (Nat.eqb_spec this d) as [->|_]; [contradiction|].
      unfold Delegation.hasAsFirstDegreeDelegate.
      destruct (existsb (Nat.eqb d) (g this)) eqn:He.
      * apply existsb_exists in He. destruct He as (y & Hy & Hyd).
        apply Nat.eqb_eq in Hyd. subst y.
        repeat split; auto; intros; contradiction.
      * assert (Hnin : ~ In d (g this)).
        { intros Hin.
          assert (existsb (Nat.eqb d) (g this) = true)
            by (apply existsb_exists; exists d; split; [auto|apply Nat.eqb_refl]).
          congruence. }
        rewrite Hb. destruct b.
        -- apply hasAsDelegateOrSubdelegate_true in Hb.
           repeat split; auto; intros; contradiction.
        -- apply hasAsDelegateOrSubdelegate_false in Hb.
           repeat split; auto; intros; contradiction.
  - exists 0. intros fuel _. cbv zeta. repeat split; try discriminate.
Qed.

Lemma registerDelegate_outcomes_witness :
  exists fuel0, forall fuel, fuel0 <= fuel ->
    Delegation.registerDelegate fuel Examples.diamond 3 (Some 1)
    = Throw (invalid_argument "Delegation cycles are not allowed.").
Proof.
  destruct (registerDelegate_outcomes Examples.diamond 3 (Some 1)
              diamond_registered) as [fuel0 H].
  exists fuel0. intros fuel Hfuel.
  destruct (H fuel Hfuel) as (_ & _ & H3).
  destruct (H3 1 eq_refl ltac:(discriminate)) as (_ & Hcycle & _).
  apply Hcycle.
  - simpl. tauto.
  - apply sub_direct. simpl. auto.
Defined.

(** X2.  [hasAsDelegateOrSubdelegate] decides reachability through
    delegates: on a graph built by [registerDelegate] it answers true
    exactly when the other controller is not NULL and is a delegate, or a
    delegate of a delegate, and so on, of this one. *)
Theorem hasAsDelegateOrSubdelegate_decides g x other :
  Delegation.registered g ->
  exists fuel0, forall fuel, fuel0 <= fuel ->
    exists b,
      Delegation.hasAsDelegateOrSubdelegate fuel g x other = Some b /\
      (b = true <-> exists o, other = Some o /\ subdelegate g x o).
Proof.
  intros Hreg.
  destruct (hasAsDelegateOrSubdelegate_total g other x
              (registered_acyclic g Hreg x)) as [fuel0 Hf].
  exists fuel0. intros fuel Hfuel. destruct (Hf fuel Hfuel) as [b Hb].
  exists b. split; [exact Hb|].
  destruct other as [o|].
  - destruct b.
    + apply hasAsDelegateOrSubdelegate_true in Hb. split; eauto.
    + apply hasAsDelegateOrSubdelegate_false in Hb.
      split; [discriminate|]. intros (o' & [= <-] & Hs). contradiction.
  - destruct fuel; [discriminate|]. simpl in Hb. injection Hb as <-.
    split; [discriminate|]. intros (o & Ho & _). discriminate.
Qed.

Lemma hasAsDelegateOrSubdelegate_decides_witness :
  exists fuel0, forall fuel, fuel0 <= fuel ->
    exists b,
      Delegation.hasAsDelegateOrSubdelegate fuel Examples.tree 1 (Some 6) = Some b /\
      (b = true <-> exists o, Some 6 = Some o /\ subdelegate Examples.tree 1 o).
Proof.
  exact (hasAsDelegateOrSubdelegate_decides Examples.tree 1 (Some 6)
           tree_registered).
Defined.

(** X3.  [getControllersList] on a graph built by [registerDelegate]: the
    controller itself, then its delegates of degree 1 in registration
    order, then those of degree 2, and so on up to the last degree that
    has any; so the list holds exactly the controller and its delegates
    and subdelegates. *)
Theorem getControllersList_contents g this :
  Delegation.registered g ->
  exists m, forall fuel, m < fuel ->
    exists l,
      Delegation.getControllersList fuel g this = Some l /\
      l = flat_map (fun d => level g d this) (seq 0 (S m)) /\
      (forall d, d <= m -> level g d this <> []) /\
      (forall x, In x l <-> x = this \/ subdelegate g this x).
Proof.
  intros Hreg.
  destruct (level_eventually_empty g this (registered_acyclic g Hreg this))
    as [h Hh].
  destruct (first_empty_level g this h Hh) as (m & _ & He & Hf).
  exists m. intros fuel Hfuel.
  exists (flat_map (fun d => level g d this) (seq 0 (S m))).
  split; [|split; [reflexivity|split; [exact Hf|]]].
  - unfold Delegation.getControllersList.
    rewrite (getControllersList_loop_levels g this m 1 [this]); try lia.
    + reflexivity.
    + now replace (1 + m) with (S m) by lia.
    + intros d Hd. apply Hf. lia.
  - exact (levels_members g this m He).
Qed.

Lemma getControllersList_contents_witness :
  exists m, forall fuel, m < fuel ->
    exists l,
      Delegation.getControllersList fuel Examples.diamond 1 = Some l /\
      l = flat_map (fun d => level Examples.diamond d 1) (seq 0 (S m)) /\
      (forall d, d <= m -> level Examples.diamond d 1 <> []) /\
      (forall x, In x l <-> x = 1 \/ subdelegate Examples.diamond 1 x).
Proof.
  exact (getControllersList_contents Examples.diamond 1 diamond_registered).
Defined.

(** X4.  [registerDelegate] keeps the delegate graph well formed: no
    controller is a delegate or subdelegate of itself, and no controller
    has the same delegate twice. *)
Theorem registered_graph_well_formed g :
  Delegation.registered g ->
  forall c, ~ subdelegate g c c /\ ~ In c (g c) /\ NoDup (g c).
Proof.
  intros Hreg c.
  pose proof (acyclic_irreflexive g (registered_acyclic g Hreg) c) as Hirr.
  repeat split; [exact Hirr| |now apply registered_NoDup].
  intros Hin. apply Hirr. now apply sub_direct.
Qed.

Lemma registered_graph_well_formed_witness :
  ~ subdelegate Examples.diamond 1 1 /\ ~ In 1 (Examples.diamond 1) /\
  NoDup (Examples.diamond 1).
Proof.
  exact (registered_graph_well_formed Examples.diamond diamond_registered 1).
Defined.

(** ** The transition queue is held to the end of the transition

    While a request holds the transition queue, nothing a callback does
    -- concurrent active controller changes included -- releases the
    queue or clears [state_transitionInProgress]. *)

#[local] Instance holds_queue_preorder : PreOrder holds_queue.
Proof.
  split; [intros w _; reflexivity|].
  intros w1 w2 w3 H12 H23 H1. specialize (H12 H1). rewrite <- H12. apply H23.
  unfold queue_flags in H12. injection H12 as Hn Hr _ _.
  unfold in_queue in *. congruence.
Qed.

Ltac queue_leaf := apply frames_modify; intros ? _; reflexivity.

Section HoldsQueue.

Variable cfg : Config.
Variable fuel : nat.
Variable invoke : ctrl -> Callback -> M unit.
Hypothesis invoke_holds : forall c cb, frames false holds_queue (invoke c cb).

Local Abbreviation holds m := (frames false holds_queue m).

Lemma holds_callback c cb : holds (callback invoke c cb).
Proof.
  unfold callback.
  apply frames_bind; [typeclasses eauto| |intros _].
  - apply frames_modify. intros w _. reflexivity.
  - destruct (is_noexcept cb); [apply frames_noexcept|]; apply invoke_holds.
Qed.

Lemma holds_call_if_present c cb : holds (call_if_present invoke c cb).
Proof.
  destruct c; simpl;
    [apply holds_callback | apply frames_ret; typeclasses eauto].
Qed.

Lemma holds_lock_stateMutex : holds lock_stateMutex.
Proof.
  intros w _ _. unfold lock_stateMutex.
  destruct (stateMutex_locked (access w)); reflexivity.
Qed.

Lemma holds_with_stateMutex {A} (m : M A) : holds m -> holds (with_stateMutex m).
Proof.
  intros H. unfold with_stateMutex, unlock_stateMutex.
  repeat first [apply holds_lock_stateMutex | queue_leaf | frames_step].
Qed.

Lemma holds_lock_isLockedMutex c : holds (lock_isLockedMutex c).
Proof.
  intros w _ _. unfold lock_isLockedMutex.
  destruct (isLockedMutex_locked (hserial w c)); reflexivity.
Qed.

Lemma holds_with_isLockedMutex {A} c (m : M A) :
  holds m -> holds (with_isLockedMutex c m).
Proof.
  intros H. unfold with_isLockedMutex, unlock_isLockedMutex.
  repeat first [apply holds_lock_isLockedMutex | queue_leaf | frames_step].
Qed.

Lemma holds_with_AccessManagementGuard {A} c (m : M A) :
  holds m -> holds (with_AccessManagementGuard cfg c m).
Proof.
  intros H. unfold with_AccessManagementGuard, AccessManagementGuard_ctor,
    AccessManagementGuard_dtor.
  repeat first [queue_leaf | frames_step].
  intros w _ _. destruct (am_serializingMutex_locked (hserial w c)); reflexivity.
Qed.

Lemma holds_throwIfNotActiveController c n :
  holds (throwIfNotActiveController cfg c n).
Proof. unfold throwIfNotActiveController. repeat frames_step. Qed.

Lemma holds_throwIfNotTransitionCorrect c n :
  holds (throwIfNotTransitionCorrect cfg c n).
Proof. unfold throwIfNotTransitionCorrect. repeat frames_step. Qed.

Lemma holds_wait_allAccessCallsReturned t :
  holds (wait_allAccessCallsReturned cfg t).
Proof.
  intros w _ _. unfold wait_allAccessCallsReturned.
  destruct (state_numUnreturnedAccessCalls (access w) =? 0)%Z; [reflexivity|].
  destruct (match drain_at cfg with Some t0 => (t0 <=? clock w + Z.max 0 t)%Z | None => false end);
    reflexivity.
Qed.

Ltac holds_step :=
  first
    [ apply holds_with_stateMutex | apply holds_lock_isLockedMutex
    | apply holds_with_isLockedMutex | apply holds_with_AccessManagementGuard
    | apply holds_throwIfNotActiveController
    | apply holds_throwIfNotTransitionCorrect
    | apply holds_wait_allAccessCallsReturned
    | apply holds_call_if_present
    | queue_leaf | frames_step ].

Lemma holds_blockAccessCalls c : holds (blockAccessCalls cfg c).
Proof. unfold blockAccessCalls. repeat holds_step. Qed.

Lemma holds_unblockAccessCalls c : holds (unblockAccessCalls cfg c).
Proof. unfold unblockAccessCalls. repeat holds_step. Qed.

Lemma holds_waitForAllAccessCallsToReturn c t :
  holds (waitForAllAccessCallsToReturn cfg c t).
Proof. unfold waitForAllAccessCallsToReturn. repeat holds_step. Qed.

Lemma holds_accessFunction c f : holds (accessFunction cfg c f).
Proof.
  unfold accessFunction, AccessGuard_ctor, AccessGuard_dtor, serial_call.
  repeat holds_step.
Qed.

Lemma holds_isInAccessList c : holds (isInAccessList cfg fuel c).
Proof. unfold isInAccessList, hasAsDelegateOrSubdelegate. repeat holds_step. Qed.

Lemma holds_shouldPerform c :
  holds (shouldPerformConcurrentActiveControllerChange cfg fuel c).
Proof.
  unfold shouldPerformConcurrentActiveControllerChange.
  repeat first [apply holds_isInAccessList | holds_step].
Qed.

Lemma holds_AccessUnblocker_dtor : holds AccessUnblocker_dtor.
Proof. unfold AccessUnblocker_dtor. repeat holds_step. Qed.

Lemma holds_performTransition n also :
  holds (performTransition cfg invoke n also).
Proof.
  unfold performTransition, checkSafeTransition, store_controllers.
  repeat holds_step.
Qed.

Lemma holds_performActiveControllerChange n :
  holds (performActiveControllerChange cfg invoke n).
Proof.
  unfold performActiveControllerChange.
  repeat first [apply holds_AccessUnblocker_dtor | apply holds_performTransition
               | holds_step].
Qed.

Lemma holds_performCurrentControllerChange n :
  holds (performCurrentControllerChange cfg fuel invoke n).
Proof.
  apply frames_performCurrentControllerChange;
    first [typeclasses eauto | apply holds_callback
          | apply holds_performTransition | apply holds_AccessUnblocker_dtor
          | idtac].
  intros b. unfold store_concurrentActiveControllerChangeAllowed. queue_leaf.
Qed.

(** A request that must queue does not return while the queue is held. *)
Lemma holds_TransitionBlocker_bind {B} (k : unit -> M B) :
  holds (bind (TransitionBlocker_ctor cfg) k).
Proof.
  intros w Hr Hq. unfold bind in Hr.
  pose proof (TransitionBlocker_ctor_queued cfg w Hq) as Hb.
  destruct (TransitionBlocker_ctor cfg w) as [r w1]. simpl in Hb. subst r.
  discriminate.
Qed.

Lemma holds_makeActive c : holds (makeActive cfg fuel invoke c).
Proof.
  unfold makeActive.
  repeat first [apply holds_shouldPerform | apply holds_TransitionBlocker_bind
               | apply holds_performActiveControllerChange | holds_step].
Qed.

Lemma holds_makeInactive c : holds (makeInactive cfg fuel invoke c).
Proof.
  unfold makeInactive.
  repeat first [apply holds_shouldPerform | apply holds_TransitionBlocker_bind
               | apply holds_performActiveControllerChange | holds_step].
Qed.

Lemma holds_removeFromAccess c : holds (removeFromAccess cfg fuel invoke c).
Proof. unfold removeFromAccess. apply holds_TransitionBlocker_bind. Qed.

Lemma holds_perform this c : holds (perform cfg fuel invoke this c).
Proof.
  destruct c; simpl; unfold unit_call, controller_makeActive,
    controller_makeInactive, controller_removeFromAccess,
    HSerial_makeActive, HSerial_makeInactive, HSerial_removeFromAccess,
    HSerial_makeLockedActive, HSerial_unlockActive, HSerial_isLockedActive,
    isActive;
    repeat first
      [ apply holds_blockAccessCalls | apply holds_unblockAccessCalls
      | apply holds_waitForAllAccessCallsToReturn | apply holds_accessFunction
      | apply holds_makeActive | apply holds_makeInactive
      | apply holds_removeFromAccess | holds_step ].
Qed.

Lemma holds_callback_body this cb :
  holds (callback_body cfg fuel invoke this cb).
Proof.
  unfold callback_body. destruct (class_of cfg this) as [name ov|].
  - destruct (override ov cb) as [p|].
    + apply frames_run; [typeclasses eauto|]. apply holds_perform.
    + destruct cb; try (apply frames_ret; typeclasses eauto).
      unfold HSerialController_willMakeInactive.
      repeat first [ apply holds_blockAccessCalls
                   | apply holds_waitForAllAccessCallsToReturn | holds_step ].
  - destruct cb; try (apply frames_ret; typeclasses eauto);
      unfold HSerial_willMakeInactive, HSerial_didMakeInactive,
        HSerial_didCancelMakeInactive, HSerial_willMakeActive,
        HSerial_didMakeActive, transitionInitiatedExternally,
        unlock_isLockedMutex;
      repeat first
        [ apply holds_blockAccessCalls
        | apply holds_waitForAllAccessCallsToReturn | holds_step ].
Qed.

End HoldsQueue.

Lemma holds_dispatch cfg fuel :
  forall c cb, frames false holds_queue (dispatch cfg fuel c cb).
Proof.
  apply frames_dispatch; [typeclasses eauto|].
  intros. now apply holds_callback_body.
Qed.

(** ** Requests made while the queue is held *)

Lemma blocked_bind {A B} (m : M A) (k : A -> M B) w :
  fst (m w) = Blocked -> bind m k w = (Blocked, snd (m w)).
Proof. unfold bind. destruct (m w) as [[] w1]; simpl; congruence. Qed.

Lemma TransitionBlocker_ctor_waits cfg w :
  tb_nextNumber (access w) <> tb_readyNumber (access w) ->
  fst (TransitionBlocker_ctor cfg w) = Blocked /\
  callback_log (snd (TransitionBlocker_ctor cfg w)) = callback_log w /\
  store_log (snd (TransitionBlocker_ctor cfg w)) = store_log w.
Proof.
  intros Hq. unfold TransitionBlocker_ctor, bind, gets, modify, block. simpl.
  destruct (Z.eqb_spec (tb_nextNumber (access w)) (tb_readyNumber (access w)));
    [contradiction|]. simpl. auto.
Qed.

Lemma shouldPerform_waits cfg fuel c w :
  state_concurrentActiveControllerChangeAllowed (access w) = false ->
  let r := shouldPerformConcurrentActiveControllerChange cfg fuel c w in
  (fst r = Blocked \/
   (fst r = Ok false /\
    tb_nextNumber (access (snd r)) = tb_nextNumber (access w) /\
    tb_readyNumber (access (snd r)) = tb_readyNumber (access w))) /\
  callback_log (snd r) = callback_log w /\ store_log (snd r) = store_log w.
Proof.
  intros Hc. cbv zeta.
  unfold shouldPerformConcurrentActiveControllerChange, with_stateMutex,
    lock_stateMutex, unlock_stateMutex, scope_exit, bind, gets, modify, ret.
  destruct (stateMutex_locked (access w)); simpl; [auto|].
  rewrite Hc, andb_false_r. simpl. auto.
Qed.

(** X5.  A request that needs the transition queue while the queue is
    held -- as every request made from inside a transition callback does,
    unless it is an active controller change allowed to run concurrently --
    is never answered: [removeFromAccess] always waits, and [makeActive]
    and [makeInactive] wait when concurrent active controller changes are
    not allowed.  No callback is made and nothing is stored. *)
Theorem queued_requests_wait cfg fuel invoke c w :
  tb_nextNumber (access w) <> tb_readyNumber (access w) ->
  (let r := removeFromAccess cfg fuel invoke c w in
   fst r = Blocked /\ callback_log (snd r) = callback_log w /\
   store_log (snd r) = store_log w) /\
  (state_concurrentActiveControllerChangeAllowed (access w) = false ->
   (let r := makeActive cfg fuel invoke c w in
    fst r = Blocked /\ callback_log (snd r) = callback_log w /\
    store_log (snd r) = store_log w) /\
   (let r := makeInactive cfg fuel invoke c w in
    fst r = Blocked /\ callback_log (snd r) = callback_log w /\
    store_log (snd r) = store_log w)).
Proof.
  intros Hq. split.
  - cbv zeta. unfold removeFromAccess.
    destruct (TransitionBlocker_ctor_waits cfg w Hq) as (Hb & Hl & Hs).
    rewrite (blocked_bind _ _ w Hb). simpl. auto.
  - intros Hc.
    destruct (shouldPerform_waits cfg fuel c w Hc) as (Hsp & Hl & Hs).
    cbv zeta in Hsp, Hl, Hs.
    assert (Hgen : forall k : bool -> M unit,
               (forall w0, tb_nextNumber (access w0) <> tb_readyNumber (access w0) ->
                  fst (k false w0) = Blocked /\
                  callback_log (snd (k false w0)) = callback_log w0 /\
                  store_log (snd (k false w0)) = store_log w0) ->
               let r := bind (shouldPerformConcurrentActiveControllerChange
                                cfg fuel c) k w in
               fst r = Blocked /\ callback_log (snd r) = callback_log w /\
               store_log (snd r) = store_log w).
    { intros k Hk. cbv zeta. destruct Hsp as [Hb|(Hok & Hn & Hr)].
      - rewrite (blocked_bind _ _ w Hb). simpl. auto.
      - unfold bind.
        destruct (shouldPerformConcurrentActiveControllerChange cfg fuel c w)
          as [r0 w0]. simpl in *. subst r0.
        destruct (Hk w0) as (H1 & H2 & H3); [congruence|].
        repeat split; congruence. }
    split; apply Hgen; intros w0 Hq0.
    + destruct (TransitionBlocker_ctor_waits cfg w0 Hq0) as (Hb & Hl0 & Hs0).
      rewrite (blocked_bind _ _ w0 Hb). simpl. auto.
    + destruct (TransitionBlocker_ctor_waits cfg w0 Hq0) as (Hb & Hl0 & Hs0).
      rewrite (blocked_bind _ _ w0 Hb). simpl. auto.
Qed.

Lemma queued_requests_wait_witness :
  fst (removeFromAccess Examples.plain_cfg 5 (dispatch Examples.plain_cfg 5) 1
         (Examples.at_queue_head Examples.plain_cfg 1)) = Blocked /\
  fst (makeActive Examples.plain_cfg 5 (dispatch Examples.plain_cfg 5) 2
         (Examples.at_queue_head Examples.plain_cfg 1)) = Blocked.
Proof.
  assert (Hq : tb_nextNumber (access (Examples.at_queue_head Examples.plain_cfg 1))
               <> tb_readyNumber (access (Examples.at_queue_head Examples.plain_cfg 1)))
    by (vm_compute; discriminate).
  assert (Hc : state_concurrentActiveControllerChangeAllowed
                 (access (Examples.at_queue_head Examples.plain_cfg 1)) = false)
    by (vm_compute; reflexivity).
  split.
  - pose proof (queued_requests_wait Examples.plain_cfg 5
                  (dispatch Examples.plain_cfg 5) 1 _ Hq) as H.
    cbv zeta in H. exact (proj1 (proj1 H)).
  - pose proof (queued_requests_wait Examples.plain_cfg 5
                  (dispatch Examples.plain_cfg 5) 2 _ Hq) as H.
    cbv zeta in H. exact (proj1 (proj1 (proj2 H Hc))).
Defined.

(** ** Every request leaves the access object settled *)

#[local] Instance settles_preorder : PreOrder settles.
Proof. split; [intros w H; exact H|intros w1 w2 w3 H12 H23 H; auto]. Qed.

#[local] Instance unblocks_preorder : PreOrder unblocks.
Proof. split; [intros w H; exact H|intros w1 w2 w3 H12 H23 H; auto]. Qed.

Lemma TransitionBlocker_ctor_takes cfg w u w1 :
  TransitionBlocker_ctor cfg w = (Ok u, w1) ->
  tb_nextNumber (access w) = tb_readyNumber (access w) /\
  tb_nextNumber (access w1) = uint32 (tb_nextNumber (access w) + 1) /\
  tb_readyNumber (access w1) = tb_readyNumber (access w) /\
  state_accessIsUnblocked (access w1) = state_accessIsUnblocked (access w) /\
  in_queue w1.
Proof.
  unfold TransitionBlocker_ctor, with_stateMutex,
    lock_stateMutex, unlock_stateMutex, scope_exit, bind, gets, modify, block,
    ret. simpl.
  destruct (Z.eqb_spec (tb_nextNumber (access w)) (tb_readyNumber (access w)))
    as [E|E]; simpl; [|discriminate].
  destruct (stateMutex_locked (access w)); simpl; [discriminate|].
  intros [= <- <-]. unfold in_queue. simpl. repeat split; auto.
  rewrite <- E. apply uint32_succ_neq.
Qed.

Lemma TransitionBlocker_dtor_gives w u w1 :
  TransitionBlocker_dtor w = (Ok u, w1) ->
  tb_readyNumber (access w1) = uint32 (tb_readyNumber (access w) + 1) /\
  tb_nextNumber (access w1) = tb_nextNumber (access w) /\
  state_transitionInProgress (access w1) = false /\
  state_accessIsUnblocked (access w1) = state_accessIsUnblocked (access w).
Proof.
  unfold TransitionBlocker_dtor, with_stateMutex,
    lock_stateMutex, unlock_stateMutex, scope_exit, bind, gets, modify. simpl.
  destruct (stateMutex_locked (access w)); simpl; [discriminate|].
  intros [= <- <-]. simpl. auto.
Qed.

Lemma scope_exit_returns {A} dtor (body : M A) w :
  never any_exn dtor ->
  returns (fst (scope_exit dtor body w)) = true ->
  returns (fst (body w)) = true /\
  fst (scope_exit dtor body w) = fst (body w) /\
  exists u, dtor (snd (body w)) = (Ok u, snd (scope_exit dtor body w)).
Proof.
  intros Hn. unfold scope_exit. destruct (body w) as [r w1]. simpl.
  specialize (Hn w1).
  destruct r as [a|e| | |]; simpl; try discriminate;
    destruct (dtor w1) as [rd w2]; simpl in *;
    destruct rd as [u|e2| | |]; simpl; try discriminate; eauto;
    intros _; now specialize (Hn e2 eq_refl).
Qed.

(** A request that takes the queue gives it back when it returns,
    normally or not. *)
Lemma TransitionBlocker_scope_settles cfg {A} (body : M A) :
  frames false holds_queue body -> frames false unblocks body ->
  frames false settles
    (TransitionBlocker_ctor cfg ;; scope_exit TransitionBlocker_dtor body).
Proof.
  intros Hq Hu w Hret (Hidle & _ & Hub). unfold bind in *.
  destruct (TransitionBlocker_ctor cfg w) as [r1 w1] eqn:Hc.
  destruct r1 as [[]|e| | |]; simpl in Hret |- *; try discriminate.
  - apply TransitionBlocker_ctor_takes in Hc.
    destruct Hc as (_ & Hn1 & Hr1 & Hu1 & Hq1).
    destruct (scope_exit_returns TransitionBlocker_dtor body w1
                (never_TransitionBlocker_dtor any_exn) Hret)
      as (Hb & _ & u & Hd).
    apply TransitionBlocker_dtor_gives in Hd.
    destruct Hd as (Hr2 & Hn2 & Hp2 & Hu2).
    specialize (Hq w1 Hb Hq1). unfold queue_flags in Hq.
    injection Hq as Hqn Hqr _ _.
    specialize (Hu w1 Hb). unfold unblocks in Hu.
    unfold settled. repeat split.
    + rewrite Hn2, Hr2, Hqn, Hqr, Hn1, Hr1. now rewrite Hidle.
    + exact Hp2.
    + rewrite Hu2. apply Hu. congruence.
  - exfalso. unfold TransitionBlocker_ctor, with_stateMutex,
      lock_stateMutex, unlock_stateMutex, scope_exit, bind, gets, modify, block,
      ret in Hc. simpl in Hc.
    destruct (Z.eqb (tb_nextNumber (access w)) (tb_readyNumber (access w)));
      simpl in Hc; [|discriminate].
    destruct (stateMutex_locked (access w)); discriminate.
Qed.

Lemma unblocks_AccessUnblocker_scope {A} (body : M A) :
  frames false unblocks (scope_exit AccessUnblocker_dtor body).
Proof.
  intros w Hret _.
  destruct (scope_exit_returns AccessUnblocker_dtor body w
              (never_AccessUnblocker_dtor any_exn) Hret) as (_ & _ & u & Hd).
  revert Hd. generalize (snd (scope_exit AccessUnblocker_dtor body w)).
  generalize (snd (body w)). intros w1 w2.
  unfold AccessUnblocker_dtor, with_stateMutex,
    lock_stateMutex, unlock_stateMutex, scope_exit, when, bind, gets, modify,
    ret. simpl.
  destruct (stateMutex_locked (access w1)); simpl; [discriminate|].
  destruct (state_accessIsUnblocked (access w1)) eqn:E; simpl;
    intros H; inversion H; subst; simpl; auto.
Qed.

Lemma frames_isInAccessList R `{!PreOrder R} cfg fuel c :
  frames false R (isInAccessList cfg fuel c).
Proof.
  intros w _. destruct (isInAccessList cfg fuel c w) as [r w1] eqn:E.
  apply isInAccessList_pure in E. subst w1. reflexivity.
Qed.

Lemma shouldPerform_idle cfg fuel c w :
  state_transitionInProgress (access w) = false ->
  gate (snd (shouldPerformConcurrentActiveControllerChange cfg fuel c w))
  = gate w /\
  (fst (shouldPerformConcurrentActiveControllerChange cfg fuel c w) = Ok false \/
   fst (shouldPerformConcurrentActiveControllerChange cfg fuel c w) = Blocked).
Proof.
  intros Hp.
  unfold shouldPerformConcurrentActiveControllerChange, with_stateMutex,
    lock_stateMutex, unlock_stateMutex, scope_exit, bind, gets, modify, ret.
  destruct (stateMutex_locked (access w)); simpl; [auto|].
  rewrite Hp. simpl. auto.
Qed.

Section Settling.

Variable cfg : Config.
Variable fuel : nat.
Variable invoke : ctrl -> Callback -> M unit.
Hypothesis invoke_holds : forall c cb, frames false holds_queue (invoke c cb).

Lemma unblocks_performActiveControllerChange n :
  frames false unblocks (performActiveControllerChange cfg invoke n).
Proof. apply unblocks_AccessUnblocker_scope. Qed.

Lemma unblocks_performCurrentControllerChange n :
  frames false unblocks (performCurrentControllerChange cfg fuel invoke n).
Proof. apply unblocks_AccessUnblocker_scope. Qed.

(** What follows [shouldPerformConcurrentActiveControllerChange] when no
    transition is in progress. *)
Lemma settles_after_shouldPerform c (k : bool -> M unit) :
  frames false settles (k false) ->
  frames false settles
    (bind (shouldPerformConcurrentActiveControllerChange cfg fuel c) k).
Proof.
  intros Hk w Hret Hs. unfold bind in *.
  destruct (shouldPerform_idle cfg fuel c w (proj1 (proj2 Hs))) as (Hg & Hr).
  destruct (shouldPerformConcurrentActiveControllerChange cfg fuel c w)
    as [r0 w0]. simpl in Hg, Hr.
  assert (Hs0 : settled w0).
  { unfold gate in Hg. injection Hg as Hn Hr' Hp Hu. destruct Hs as (H1 & H2 & H3).
    unfold settled. repeat split; congruence. }
  destruct Hr as [-> | ->]; simpl in *; [|discriminate].
  now apply Hk.
Qed.

Lemma settles_makeActive c : frames false settles (makeActive cfg fuel invoke c).
Proof.
  unfold makeActive. apply settles_after_shouldPerform.
  apply TransitionBlocker_scope_settles.
  - repeat first [ apply holds_isInAccessList
                 | apply holds_performActiveControllerChange
                 | apply holds_performCurrentControllerChange
                 | assumption | frames_step ].
  - repeat first [ apply frames_isInAccessList
                 | apply unblocks_performActiveControllerChange
                 | apply unblocks_performCurrentControllerChange
                 | frames_step ].
Qed.

Lemma settles_makeInactive c :
  frames false settles (makeInactive cfg fuel invoke c).
Proof.
  unfold makeInactive. apply settles_after_shouldPerform.
  apply TransitionBlocker_scope_settles.
  - repeat first [ apply holds_performActiveControllerChange
                 | assumption | frames_step ].
  - repeat first [ apply unblocks_performActiveControllerChange
                 | frames_step ].
Qed.

Lemma settles_removeFromAccess c :
  frames false settles (removeFromAccess cfg fuel invoke c).
Proof.
  unfold removeFromAccess.
  apply TransitionBlocker_scope_settles.
  - repeat first [ apply holds_isInAccessList
                 | apply holds_performCurrentControllerChange
                 | assumption | frames_step ].
  - repeat first [ apply frames_isInAccessList
                 | apply unblocks_performCurrentControllerChange
                 | frames_step ].
Qed.

Lemma settles_with_AccessManagementGuard c (m : M unit) :
  frames false settles m ->
  frames false settles (with_AccessManagementGuard cfg c m).
Proof.
  intros H. unfold with_AccessManagementGuard, AccessManagementGuard_ctor,
    AccessManagementGuard_dtor.
  repeat first [ assumption
               | apply frames_modify; intros ? Hs; exact Hs
               | frames_step ].
  intros w _ Hs. destruct (am_serializingMutex_locked (hserial w c)); exact Hs.
Qed.

End Settling.

(** X6.  Whatever the callbacks do, and however the request ends --
    normally, refused, or with another exception -- a [makeActive],
    [makeInactive] or [removeFromAccess] that returns has given back the
    transition queue, cleared [state_transitionInProgress] and left access
    calls unblocked. *)
Theorem requests_leave_access_settled cfg fuel c w :
  settled w ->
  (returns (fst (Run.controller_makeActive cfg fuel c w)) = true ->
   settled (snd (Run.controller_makeActive cfg fuel c w))) /\
  (returns (fst (Run.controller_makeInactive cfg fuel c w)) = true ->
   settled (snd (Run.controller_makeInactive cfg fuel c w))) /\
  (returns (fst (Run.controller_removeFromAccess cfg fuel c w)) = true ->
   settled (snd (Run.controller_removeFromAccess cfg fuel c w))).
Proof.
  intros Hs.
  pose proof (holds_dispatch cfg fuel) as Hd.
  unfold Run.controller_makeActive, Run.controller_makeInactive,
    Run.controller_removeFromAccess, controller_makeActive,
    controller_makeInactive, controller_removeFromAccess,
    HSerial_makeActive, HSerial_makeInactive, HSerial_removeFromAccess.
  destruct (class_of cfg c); (split; [|split]); intros Hret.
  - now apply (settles_makeActive cfg fuel _ Hd c w).
  - now apply (settles_makeInactive cfg fuel _ Hd c w).
  - now apply (settles_removeFromAccess cfg fuel _ Hd c w).
  - refine (settles_with_AccessManagementGuard cfg c _ _ w Hret Hs).
    apply frames_bind; [typeclasses eauto| |intros _].
    + apply frames_modify. intros ? H. exact H.
    + now apply settles_makeActive.
  - refine (settles_with_AccessManagementGuard cfg c _ _ w Hret Hs).
    now apply settles_makeInactive.
  - refine (settles_with_AccessManagementGuard cfg c _ _ w Hret Hs).
    now apply settles_removeFromAccess.
Qed.

Lemma requests_leave_access_settled_witness :
  settled (snd (Run.controller_makeActive Examples.reluctant_cfg 5 8
                  (Examples.after_makeActive Examples.reluctant_cfg 1))).
Proof.
  apply (proj1 (requests_leave_access_settled Examples.reluctant_cfg 5 8
                  (Examples.after_makeActive Examples.reluctant_cfg 1)
                  ltac:(vm_compute; auto))).
  vm_compute. reflexivity.
Defined.

(** ** What a request has achieved when it returns normally *)

Section Achieved.

Variable cfg : Config.
Variable fuel : nat.
Variable invoke : ctrl -> Callback -> M unit.
Hypothesis invoke_calm : forall c cb, frames false quiet (invoke c cb).
Hypothesis invoke_holds : forall c cb, frames false holds_queue (invoke c cb).

Lemma for_each_queued cb xs : forall w r w1,
  queued w ->
  for_each xs (fun x => callback invoke x cb) w = (r, w1) ->
  returns r = true ->
  state_activeController (access w1) = state_activeController (access w) /\
  state_currentController (access w1) = state_currentController (access w) /\
  flags w1 = flags w.
Proof.
  induction xs as [|x xs IH]; intros w r w1 Hq H Hr; simpl in H.
  - unfold ret in H. injection H as <- <-. auto.
  - unfold bind in H.
    destruct (callback invoke x cb w) as [rc wc] eqn:Hc.
    destruct rc as [[]|e| | |]; simpl in H;
      try (unfold stop in H; injection H as <- <-; discriminate).
    + destruct (callback_queued invoke invoke_calm x cb w _ _ Hq Hc eq_refl)
        as (_ & _ & Ha & Hcur & Hf).
      destruct (IH wc r w1 (queued_flags _ _ Hf Hq) H Hr) as (Ha' & Hc' & Hf').
      repeat split; congruence.
    + injection H as <- <-.
      destruct (callback_queued invoke invoke_calm x cb w _ _ Hq Hc eq_refl)
        as (_ & _ & Ha & Hcur & Hf). auto.
Qed.

(** The try block of a current controller change that ends normally has
    made [n] the active and the current controller, and concurrent active
    controller changes are no longer allowed. *)
Lemma tryRemoveAndTransition_Ok n old w notified w1 :
  in_queue w ->
  state_transitionInProgress (access w) = true ->
  tryRemoveAndTransition cfg invoke n old w = (Ok tt, notified, w1) ->
  state_activeController (access w1) = n /\
  state_currentController (access w1) = n /\ queued w1.
Proof.
  intros Hq Hp. unfold tryRemoveAndTransition,
    store_concurrentActiveControllerChangeAllowed at 1, modify.
  set (ws := with_access (set_concurrentActiveControllerChangeAllowed true) w).
  assert (Hqs : in_queue ws) by exact Hq.
  assert (Hsf : forall b, frames false holds_queue
                             (store_concurrentActiveControllerChangeAllowed b)).
  { intros b. unfold store_concurrentActiveControllerChangeAllowed.
    queue_leaf. }
  pose proof (frames_willRemove_loop false holds_queue invoke
                (holds_callback invoke invoke_holds) Hsf old [] ws) as Hl.
  destruct (willRemove_loop invoke old [] ws) as [[rl nl] wl]. simpl in Hl.
  destruct rl as [[]|e| | |]; try discriminate.
  specialize (Hl eq_refl Hqs). unfold queue_flags in Hl.
  injection Hl as Hn Hr Hip _.
  destruct ((store_concurrentActiveControllerChangeAllowed false;;
             performTransition cfg invoke n true) wl) as [rp wp] eqn:Hpt.
  intros Heq. injection Heq as Hrp _ Hwp. subst rp wp.
  unfold bind, store_concurrentActiveControllerChangeAllowed, modify in Hpt.
  set (wq := with_access (set_concurrentActiveControllerChangeAllowed false) wl)
    in Hpt.
  assert (Hqq : queued wq).
  { unfold queued, in_queue in *. simpl. repeat split; auto; congruence. }
  destruct (performTransition_queued_Ok cfg invoke invoke_calm n true wq tt w1
              Hqq Hpt) as (_ & Ha & Hc & Hf).
  split; [exact Ha|]. split; [exact Hc|]. exact (queued_flags _ _ Hf Hqq).
Qed.

Lemma performCurrentControllerChange_Ok n w u w' :
  in_queue w ->
  state_transitionInProgress (access w) = true ->
  performCurrentControllerChange cfg fuel invoke n w = (Ok u, w') ->
  state_activeController (access w') = n /\
  state_currentController (access w') = n.
Proof.
  intros Hq Hp H. unfold performCurrentControllerChange in H.
  apply scope_exit_Ok in H. destruct H as (w2 & H & Hd).
  apply AccessUnblocker_dtor_Ok in Hd. destruct Hd as (Hd & _).
  apply transition_core_fields in Hd. destruct Hd as (_ & _ & Hda & Hdc & _).
  rewrite Hda, Hdc. clear Hda Hdc w'.
  apply bind_Ok in H. destruct H as (old & w0 & Hg & H).
  unfold gets in Hg. injection Hg as <- <-.
  apply bind_Ok in H. destruct H as (oldList & w0 & Hlist & H).
  assert (w0 = w) as ->.
  { destruct (state_currentController (access w));
      [unfold getControllersList in Hlist;
       destruct (Delegation.getControllersList fuel (delegates cfg) c);
       [unfold ret in Hlist|unfold out_of_fuel in Hlist]|unfold ret in Hlist];
      congruence. }
  apply bind_Ok in H. destruct H as ([] & w3 & Htry & H).
  destruct (tryRemoveAndTransition cfg invoke n oldList w)
    as [[rt nl] wt] eqn:Ht.
  assert (rt = Ok tt /\ wt = w3) as [-> ->].
  { destruct rt as [[]|e| | |]; try (injection Htry as <-; auto); try discriminate.
    unfold bind, store_concurrentActiveControllerChangeAllowed, modify, throw
      in Htry.
    destruct (for_each nl _ _) as [[] ?]; discriminate. }
  clear Htry.
  destruct (tryRemoveAndTransition_Ok n oldList w nl w3 Hq Hp Ht)
    as (Ha & Hc & Hq3).
  apply bind_Ok in H. destruct H as ([] & w4 & Hdr & H).
  destruct (for_each_queued DidRemove oldList w3 _ w4 Hq3 Hdr eq_refl)
    as (Ha4 & Hc4 & Hf4).
  pose proof (queued_flags _ _ Hf4 Hq3) as Hq4.
  destruct n as [c|].
  - apply bind_Ok in H. destruct H as (newList & w5 & Hlist2 & H).
    assert (w5 = w4) as ->.
    { unfold getControllersList in Hlist2.
      destruct (Delegation.getControllersList fuel (delegates cfg) c);
        [unfold ret in Hlist2|unfold out_of_fuel in Hlist2]; congruence. }
    apply bind_Ok in H. destruct H as ([] & w6 & Hda & H).
    destruct (for_each_queued DidAdd (rev newList) w4 _ w6 Hq4 Hda eq_refl)
      as (Ha6 & Hc6 & Hf6).
    pose proof (queued_flags _ _ Hf6 Hq4) as Hq6.
    destruct (callback_queued invoke invoke_calm c DidMakeActive w6 _ _
                Hq6 H eq_refl) as (_ & _ & Ha2 & Hc2 & _).
    split; congruence.
  - unfold ret in H. injection H as _ <-. split; congruence.
Qed.



Lemma removeFromAccess_Ok c w u w' :
  removeFromAccess cfg fuel invoke c w = (Ok u, w') ->
  ~ in_access_list cfg w' c /\
  (in_access_list cfg w c ->
   state_currentController (access w) = Some c /\
   state_currentController (access w') = None /\
   state_activeController (access w') = None).
Proof.
  intros H. unfold removeFromAccess in H.
  apply bind_Ok in H. destruct H as ([] & w1 & Hc & H).
  apply (TransitionBlocker_ctor_Ok cfg) in Hc.
  destruct Hc as (Hq1 & _ & _ & _ & Hc1 & _).
  apply scope_exit_Ok in H. destruct H as (w2 & H & Hd).
  apply TransitionBlocker_dtor_Ok in Hd.
  destruct Hd as (_ & _ & Hda & Hdc & _).
  apply bind_Ok in H. destruct H as (inList & w1' & Hl & H).
  pose proof (isInAccessList_pure cfg fuel c w1 _ _ Hl) as ->.
  apply isInAccessList_Ok in Hl.
  destruct inList.
  - apply bind_Ok in H. destruct H as (cur & w1' & Hg & H).
    unfold gets in Hg. injection Hg as <- <-.
    destruct (opt_eqb (Some c) (state_currentController (access w1))) eqn:E;
      [|discriminate].
    apply opt_eqb_true in E.
    destruct Hq1 as (Hp1 & _ & Hn1).
    destruct (performCurrentControllerChange_Ok None w1 _ w2 Hn1 Hp1 H)
      as (Ha & Hcur).
    split.
    + intros (x & Hx & _). congruence.
    + intros _. repeat split; congruence.
  - unfold ret in H. injection H as _ <-.
    assert (Hno : ~ in_access_list cfg w1 c).
    { intros Hin. apply Hl in Hin. discriminate. }
    split.
    + intros (x & Hx & Hor). apply Hno. exists x. split; [congruence|auto].
    + intros (x & Hx & Hor). exfalso. apply Hno. exists x.
      split; [congruence|auto].
Qed.

End Achieved.

Lemma with_AccessManagementGuard_Ok cfg c (m : M unit) w u w' :
  with_AccessManagementGuard cfg c m w = (Ok u, w') ->
  exists w1 w2, access w1 = access w /\ m w1 = (Ok u, w2) /\
                access w' = access w2.
Proof.
  intros H. unfold with_AccessManagementGuard in H.
  apply bind_Ok in H. destruct H as ([] & w1 & Hc & H).
  apply AccessManagementGuard_ctor_Ok in Hc. destruct Hc as (Hc & _).
  apply scope_exit_Ok in H. destruct H as (w2 & H & Hd).
  apply AccessManagementGuard_dtor_Ok in Hd. destruct Hd as (Hd & _).
  exists w1, w2. auto.
Qed.

Lemma in_access_list_access cfg w w' c :
  access w' = access w -> in_access_list cfg w c -> in_access_list cfg w' c.
Proof. intros E (cur & Hc & Hor). exists cur. rewrite E. auto. Qed.







(** The proviso is needed for a request served without queuing.  Inside
    willRemove, controller 1's didMakeInactive makes it active again:
    [makeInactive] returns normally with controller 1 still active. *)
Lemma unqueued_makeInactive_undone :
  let w := in_willRemove clinging_cfg 1 in
  concurrent_window clinging_cfg w /\
  fst (Run.controller_makeInactive clinging_cfg 5 1 w) = Ok tt /\
  state_activeController
    (access (snd (Run.controller_makeInactive clinging_cfg 5 1 w)))
  = Some 1.
Proof.
  cbv zeta. split; [|split].
  - unfold concurrent_window. repeat split; try reflexivity.
    vm_compute. discriminate.
  - vm_compute. reflexivity.
  - vm_compute. reflexivity.
Qed.

(** X9.  When [removeFromAccess] returns normally the controller is not on
    the access list; if it was on it before, it was the current
    controller, and now there is neither a current nor an active
    controller. *)
Theorem removeFromAccess_removes cfg fuel c w w' :
  Run.controller_removeFromAccess cfg fuel c w = (Ok tt, w') ->
  ~ in_access_list cfg w' c /\
  (in_access_list cfg w c ->
   state_currentController (access w) = Some c /\
   state_currentController (access w') = None /\
   state_activeController (access w') = None).
Proof.
  intros H.
  unfold Run.controller_removeFromAccess, controller_removeFromAccess,
    HSerial_removeFromAccess in H.
  destruct (class_of cfg c).
  - exact (removeFromAccess_Ok cfg fuel _ (calm_dispatch cfg fuel)
             (holds_dispatch cfg fuel) c w tt w' H).
  - apply with_AccessManagementGuard_Ok in H.
    destruct H as (w1 & w2 & E1 & H & E2).
    destruct (removeFromAccess_Ok cfg fuel _ (calm_dispatch cfg fuel)
                (holds_dispatch cfg fuel) c w1 tt w2 H) as (Hno & Hwas).
    split.
    + intros Hin. apply Hno. apply (in_access_list_access cfg w'); auto.
    + intros Hin. rewrite E2, <- E1.
      apply Hwas. apply (in_access_list_access cfg w); auto.
Qed.

Lemma removeFromAccess_removes_witness :
  ~ in_access_list Examples.plain_cfg
      (snd (Run.controller_removeFromAccess Examples.plain_cfg 5 1
              (Examples.after_makeActive Examples.plain_cfg 1))) 1.
Proof.
  apply (removeFromAccess_removes Examples.plain_cfg 5 1
           (Examples.after_makeActive Examples.plain_cfg 1)).
  apply with_snd. vm_compute. reflexivity.
Defined.

(** ** The notifications of a current controller change that goes through *)

Section Notifying.

Variable cfg : Config.
Variable fuel : nat.
Variable invoke : ctrl -> Callback -> M unit.
Hypothesis invoke_member : forall c cb, frames false no_membership (invoke c cb).

Lemma tryRemoveAndTransition_Ok_member n old w notified w1 :
  in_queue w ->
  tryRemoveAndTransition cfg invoke n old w = (Ok tt, notified, w1) ->
  notified = old /\
  queue_core w1
  = (tb_nextNumber (access w), tb_readyNumber (access w),
     membership_log w ++ calls WillRemove old).
Proof.
  intros Hq H. unfold tryRemoveAndTransition in H.
  unfold store_concurrentActiveControllerChangeAllowed at 1 in H.
  unfold modify in H.
  set (ws := with_access (set_concurrentActiveControllerChangeAllowed true) w)
    in *.
  assert (Hqs : in_queue ws) by exact Hq.
  destruct (willRemove_loop invoke old [] ws) as [[rl nl] wl] eqn:Hl.
  destruct rl as [[]|e| | |]; try discriminate.
  destruct (willRemove_loop_member invoke invoke_member _ _ _ _ _ _ Hqs Hl eq_refl)
    as (done & rest & att & -> & Hnl & Hcore & Hcase).
  simpl in Hnl. subst nl.
  destruct Hcase as [(_ & -> & ->)|(e & x & rest' & He & _)]; [|discriminate].
  rewrite app_nil_r in *.
  destruct ((store_concurrentActiveControllerChangeAllowed false;;
             performTransition cfg invoke n true) wl) as [rp wp] eqn:Hp.
  injection H as -> <- <-. split; [reflexivity|].
  destruct (in_queue_core _ _ _ Hqs Hcore) as (Hql & _).
  assert (Hf : frames false no_membership
                 (store_concurrentActiveControllerChangeAllowed false;;
                  performTransition cfg invoke n true)).
  { apply frames_bind; [typeclasses eauto| |intros _].
    - apply frames_modify. intros ? _. reflexivity.
    - now apply apart_performTransition. }
  specialize (Hf wl). rewrite Hp in Hf. simpl in Hf.
  rewrite (Hf eq_refl Hql). exact Hcore.
Qed.

(** When the try block ends normally, what is left of the current
    controller change is the notifications after it. *)
Lemma performCurrentControllerChange_past_try n w old notified w1 :
  match state_currentController (access w) with
  | Some o => Delegation.getControllersList fuel (delegates cfg) o
  | None => Some []
  end = Some old ->
  tryRemoveAndTransition cfg invoke n old w = (Ok tt, notified, w1) ->
  performCurrentControllerChange cfg fuel invoke n w
  = scope_exit AccessUnblocker_dtor
      (fun _ =>
         (for_each old (fun x => callback invoke x DidRemove) ;;
          match n with
          | Some c =>
              newAccessList <- getControllersList cfg fuel c ;;
              for_each (rev newAccessList) (fun x => callback invoke x DidAdd) ;;
              callback invoke c DidMakeActive
          | None => ret tt
          end) w1) w.
Proof.
  intros Hold Htry.
  assert (Hlist : match state_currentController (access w) with
                  | Some o => getControllersList cfg fuel o
                  | None => ret []
                  end w = (Ok old, w)).
  { unfold getControllersList. destruct (state_currentController (access w));
      [rewrite Hold|injection Hold as <-]; reflexivity. }
  unfold performCurrentControllerChange, scope_exit.
  unfold bind at 1, gets at 1. unfold bind at 1. rewrite Hlist.
  unfold bind at 1. rewrite Htry. reflexivity.
Qed.

Lemma performCurrentControllerChange_notifies n w old notified w1 :
  in_queue w ->
  match state_currentController (access w) with
  | Some o => Delegation.getControllersList fuel (delegates cfg) o
  | None => Some []
  end = Some old ->
  tryRemoveAndTransition cfg invoke n old w = (Ok tt, notified, w1) ->
  returns (fst (performCurrentControllerChange cfg fuel invoke n w)) = true ->
  notified = old /\
  exists new,
    match n with
    | Some c => Delegation.getControllersList fuel (delegates cfg) c = Some new
    | None => new = []
    end /\
    membership_log (snd (performCurrentControllerChange cfg fuel invoke n w))
    = membership_log w ++ calls WillRemove old ++ calls DidRemove old
        ++ calls DidAdd (rev new).
Proof.
  intros Hq Hold Htry.
  destruct (tryRemoveAndTransition_Ok_member n old w notified w1 Hq Htry)
    as (-> & Hcore).
  destruct (in_queue_core _ _ _ Hq Hcore) as (Hq1 & Hl1 & _).
  rewrite (performCurrentControllerChange_past_try _ _ _ _ _ Hold Htry).
  intros Hret. split; [reflexivity|].
  destruct (scope_exit_returns _ _ _ (never_AccessUnblocker_dtor any_exn) Hret)
    as (Hb & _ & u & Hd).
  revert Hb Hd.
  generalize (snd (scope_exit AccessUnblocker_dtor
                     (fun _ =>
                        (for_each old (fun x => callback invoke x DidRemove) ;;
                         match n with
                         | Some c =>
                             newAccessList <- getControllersList cfg fuel c ;;
                             for_each (rev newAccessList)
                               (fun x => callback invoke x DidAdd) ;;
                             callback invoke c DidMakeActive
                         | None => ret tt
                         end) w1) w)).
  intros w'. clear Hret.
  destruct ((for_each old (fun x => callback invoke x DidRemove) ;;
             match n with
             | Some c =>
                 newAccessList <- getControllersList cfg fuel c ;;
                 for_each (rev newAccessList)
                   (fun x => callback invoke x DidAdd) ;;
                 callback invoke c DidMakeActive
             | None => ret tt
             end) w1) as [rb wb] eqn:HB.
  simpl. intros Hb Hd.
  pose proof (apart_AccessUnblocker_dtor wb) as Hau.
  rewrite Hd in Hau. simpl in Hau. specialize (Hau eq_refl). clear Hd.
  unfold bind at 1 in HB.
  destruct (for_each old (fun x => callback invoke x DidRemove) w1)
    as [rf wf] eqn:Hf.
  assert (Hrf : returns rf = true).
  { destruct rf; try reflexivity; simpl in HB; injection HB as <- _;
      discriminate. }
  destruct (for_each_member invoke invoke_member DidRemove _ _ _ _
              Hq1 eq_refl eq_refl Hf Hrf) as (-> & Hcf).
  destruct (in_queue_core _ _ _ Hq1 Hcf) as (Hqf & Hlf & _).
  destruct n as [c|].
  - unfold bind at 1, getControllersList in HB.
    destruct (Delegation.getControllersList fuel (delegates cfg) c)
      as [new|]; [|injection HB as <- _; discriminate].
    exists new. split; [reflexivity|].
    unfold ret in HB. unfold bind in HB.
    destruct (for_each (rev new) (fun x => callback invoke x DidAdd) wf)
      as [ra wa] eqn:Ha.
    assert (Hra : returns ra = true).
    { destruct ra; try reflexivity; simpl in HB; injection HB as <- _;
        discriminate. }
    destruct (for_each_member invoke invoke_member DidAdd _ _ _ _
                Hqf eq_refl eq_refl Ha Hra) as (-> & Hca).
    destruct (in_queue_core _ _ _ Hqf Hca) as (Hqa & Hla & _).
    pose proof (apart_callback invoke invoke_member c DidMakeActive
                  eq_refl wa) as Hdm.
    rewrite HB in Hdm. simpl in Hdm. specialize (Hdm Hb Hqa).
    assert (Hqb : in_queue wb).
    { unfold queue_core in Hdm. injection Hdm as Hn Hr _.
      unfold in_queue in *. congruence. }
    specialize (Hau Hqb). unfold queue_core in Hau, Hdm.
    injection Hau as _ _ ->. injection Hdm as _ _ ->.
    rewrite Hla, Hlf, Hl1. now rewrite <- !app_assoc.
  - exists []. split; [reflexivity|]. unfold ret in HB. injection HB as _ <-.
    specialize (Hau Hqf). unfold queue_core in Hau. injection Hau as _ _ ->.
    rewrite Hlf, Hl1. simpl. now rewrite app_nil_r, <- !app_assoc.
Qed.

End Notifying.

(** X10.  A current controller change whose try block ends normally --
    every willRemove returned and the transition was made -- goes on to
    call didRemove on every controller of the old access list, in list
    order, and then didAdd on the new access list in reverse order
    (highest degree first); there is no didCancelRemove, and nothing a
    callback does adds a notification of its own.  So each controller
    whose willRemove returned gets exactly one didRemove. *)
Theorem current_change_notifications cfg fuel n w old notified w1 :
  in_queue w ->
  match state_currentController (access w) with
  | Some o => Delegation.getControllersList fuel (delegates cfg) o
  | None => Some []
  end = Some old ->
  tryRemoveAndTransition cfg (dispatch cfg fuel) n old w = (Ok tt, notified, w1) ->
  returns (fst (Run.performCurrentControllerChange cfg fuel n w)) = true ->
  notified = old /\
  exists new,
    match n with
    | Some c => Delegation.getControllersList fuel (delegates cfg) c = Some new
    | None => new = []
    end /\
    membership_log (snd (Run.performCurrentControllerChange cfg fuel n w))
    = membership_log w ++ calls WillRemove old ++ calls DidRemove old
        ++ calls DidAdd (rev new).
Proof.
  intros Hq Hold Htry Hret.
  exact (performCurrentControllerChange_notifies cfg fuel _
           (apart_dispatch cfg fuel) n w old notified w1 Hq Hold Htry Hret).
Qed.

Lemma current_change_notifications_witness :
  exists new,
    Delegation.getControllersList 5 (delegates Examples.plain_cfg) 8 = Some new /\
    membership_log
      (snd (Run.performCurrentControllerChange Examples.plain_cfg 5 (Some 8)
              (Examples.at_queue_head Examples.plain_cfg 1)))
    = membership_log (Examples.at_queue_head Examples.plain_cfg 1)
        ++ calls WillRemove [1; 2; 5; 6] ++ calls DidRemove [1; 2; 5; 6]
        ++ calls DidAdd (rev new).
Proof.
  assert (Hq : in_queue (Examples.at_queue_head Examples.plain_cfg 1))
    by (unfold in_queue; vm_compute; discriminate).
  assert (H : tryRemoveAndTransition Examples.plain_cfg
                (dispatch Examples.plain_cfg 5) (Some 8) [1; 2; 5; 6]
                (Examples.at_queue_head Examples.plain_cfg 1)
              = (Ok tt, [1; 2; 5; 6],
                 snd (tryRemoveAndTransition Examples.plain_cfg
                        (dispatch Examples.plain_cfg 5) (Some 8) [1; 2; 5; 6]
                        (Examples.at_queue_head Examples.plain_cfg 1)))).
  { apply triple_eq; vm_compute; reflexivity. }
  assert (Hr : returns (fst (Run.performCurrentControllerChange
                               Examples.plain_cfg 5 (Some 8)
                               (Examples.at_queue_head Examples.plain_cfg 1)))
               = true) by (vm_compute; reflexivity).
  exact (proj2 (current_change_notifications Examples.plain_cfg 5 (Some 8)
                  (Examples.at_queue_head Examples.plain_cfg 1)
                  [1; 2; 5; 6] [1; 2; 5; 6] _ Hq eq_refl H Hr)).
Defined.

(** ** Requests that ask for what is already the case *)

Lemma shouldPerform_idle_Ok cfg fuel c w :
  state_transitionInProgress (access w) = false ->
  stateMutex_locked (access w) = false ->
  exists w0,
    shouldPerformConcurrentActiveControllerChange cfg fuel c w = (Ok false, w0) /\
    transition_core w0 = transition_core w /\
    stateMutex_locked (access w0) = false /\ hserial w0 = hserial w.
Proof.
  intros Hp Hl.
  unfold shouldPerformConcurrentActiveControllerChange, with_stateMutex,
    lock_stateMutex, unlock_stateMutex, scope_exit, bind, gets, modify, ret.
  rewrite Hl. simpl. rewrite Hp. simpl. eexists. split; [reflexivity|].
  unfold transition_core. simpl. auto.
Qed.

(** X11.  A request for what is already the case does nothing:
    [makeActive] on the active controller (which is on the access list)
    and [makeInactive] on a controller that is not active return normally
    without any callback, store or change of controllers. *)
Theorem redundant_requests_do_nothing cfg c w :
  Delegation.registered (delegates cfg) ->
  tb_nextNumber (access w) = tb_readyNumber (access w) ->
  state_transitionInProgress (access w) = false ->
  stateMutex_locked (access w) = false ->
  (state_activeController (access w) = Some c ->
   in_access_list cfg w c ->
   exists fuel0, forall fuel, fuel0 <= fuel -> forall invoke,
     fst (makeActive cfg fuel invoke c w) = Ok tt /\
     callback_log (snd (makeActive cfg fuel invoke c w)) = callback_log w /\
     store_log (snd (makeActive cfg fuel invoke c w)) = store_log w /\
     state_activeController (access (snd (makeActive cfg fuel invoke c w)))
     = Some c /\
     state_currentController (access (snd (makeActive cfg fuel invoke c w)))
     = state_currentController (access w) /\
     hserial (snd (makeActive cfg fuel invoke c w)) = hserial w) /\
  (state_activeController (access w) <> Some c ->
   forall fuel invoke,
     fst (makeInactive cfg fuel invoke c w) = Ok tt /\
     callback_log (snd (makeInactive cfg fuel invoke c w)) = callback_log w /\
     store_log (snd (makeInactive cfg fuel invoke c w)) = store_log w /\
     state_activeController (access (snd (makeInactive cfg fuel invoke c w)))
     = state_activeController (access w) /\
     state_currentController (access (snd (makeInactive cfg fuel invoke c w)))
     = state_currentController (access w) /\
     hserial (snd (makeInactive cfg fuel invoke c w)) = hserial w).
Proof.
  intros Hreg Hq Hp Hl. split.
  - intros Ha Hin.
    destruct (isInAccessList_total cfg c w (registered_acyclic _ Hreg))
      as [fuel0 Hf].
    exists fuel0. intros fuel Hle invoke.
    destruct (Hf fuel Hle) as (b & Hb & Hi).
    apply Hb in Hin. subst b.
    destruct (shouldPerform_idle_Ok cfg fuel c w Hp Hl)
      as (w0 & Hsp & T0 & M0 & S0).
    apply transition_core_fields in T0.
    destruct T0 as (L0 & St0 & A0 & C0 & F0).
    assert (Hq0 : tb_nextNumber (access w0) = tb_readyNumber (access w0)).
    { unfold flags in F0. injection F0 as _ _ _ Hr Hn. congruence. }
    destruct (TransitionBlocker_ctor_idle cfg w0 Hq0 M0) as [w1 Hctor].
    pose proof (TransitionBlocker_ctor_Ok cfg _ _ _ Hctor)
      as (_ & L1 & St1 & A1 & C1 & _ & M1 & S1).
    destruct (TransitionBlocker_dtor_free w1 M1) as [w2 Hdtor].
    pose proof (TransitionBlocker_dtor_Ok _ _ _ Hdtor)
      as (L2 & St2 & A2 & C2 & S2).
    specialize (Hi w1 ltac:(congruence)).
    unfold makeActive. rewrite (bind_eq_Ok _ _ _ _ _ Hsp).
    cbn iota. rewrite (bind_eq_Ok _ _ _ _ _ Hctor).
    assert (Hbody :
      (inList <- isInAccessList cfg fuel c;;
       (if inList
        then active <- gets (fun w0 => state_activeController (access w0));;
             when (negb (opt_eqb (Some c) active))
               (performActiveControllerChange cfg invoke (Some c))
        else performCurrentControllerChange cfg fuel invoke (Some c))) w1
      = (Ok tt, w1)).
    { rewrite (bind_eq_Ok _ _ _ _ _ Hi). unfold bind, gets. simpl.
      rewrite A1, A0, Ha. simpl. rewrite Nat.eqb_refl. reflexivity. }
    rewrite (scope_exit_eq _ _ _ _ _ _ Hbody eq_refl Hdtor). simpl.
    repeat split; congruence.
  - intros Ha fuel invoke.
    destruct (shouldPerform_idle_Ok cfg fuel c w Hp Hl)
      as (w0 & Hsp & T0 & M0 & S0).
    apply transition_core_fields in T0.
    destruct T0 as (L0 & St0 & A0 & C0 & F0).
    assert (Hq0 : tb_nextNumber (access w0) = tb_readyNumber (access w0)).
    { unfold flags in F0. injection F0 as _ _ _ Hr Hn. congruence. }
    destruct (TransitionBlocker_ctor_idle cfg w0 Hq0 M0) as [w1 Hctor].
    pose proof (TransitionBlocker_ctor_Ok cfg _ _ _ Hctor)
      as (_ & L1 & St1 & A1 & C1 & _ & M1 & S1).
    destruct (TransitionBlocker_dtor_free w1 M1) as [w2 Hdtor].
    pose proof (TransitionBlocker_dtor_Ok _ _ _ Hdtor)
      as (L2 & St2 & A2 & C2 & S2).
    unfold makeInactive. rewrite (bind_eq_Ok _ _ _ _ _ Hsp).
    cbn iota. rewrite (bind_eq_Ok _ _ _ _ _ Hctor).
    assert (Hbody :
      (active <- gets (fun w0 => state_activeController (access w0));;
       when (opt_eqb (Some c) active)
         (performActiveControllerChange cfg invoke None)) w1
      = (Ok tt, w1)).
    { unfold bind, gets. cbv beta iota. rewrite A1, A0.
      destruct (opt_eqb (Some c) (state_activeController (access w))) eqn:E;
        [|reflexivity].
      apply opt_eqb_true in E. congruence. }
    rewrite (scope_exit_eq _ _ _ _ _ _ Hbody eq_refl Hdtor). simpl.
    repeat split; congruence.
Qed.

Lemma redundant_requests_do_nothing_witness :
  (exists fuel0, forall fuel, fuel0 <= fuel -> forall invoke,
     fst (makeActive Examples.plain_cfg fuel invoke 1
            (Examples.after_makeActive Examples.plain_cfg 1)) = Ok tt) /\
  (forall fuel invoke,
     fst (makeInactive Examples.plain_cfg fuel invoke 2
            (Examples.after_makeActive Examples.plain_cfg 1)) = Ok tt).
Proof.
  destruct (redundant_requests_do_nothing Examples.plain_cfg 1
              (Examples.after_makeActive Examples.plain_cfg 1)
              tree_registered eq_refl eq_refl eq_refl) as (H1 & _).
  destruct (redundant_requests_do_nothing Examples.plain_cfg 2
              (Examples.after_makeActive Examples.plain_cfg 1)
              tree_registered eq_refl eq_refl eq_refl) as (_ & H2).
  split.
  - destruct H1 as [fuel0 H1].
    + vm_compute. reflexivity.
    + exists 1. split; [vm_compute; reflexivity|now left].
    + exists fuel0. intros fuel Hle invoke. apply (H1 fuel Hle invoke).
  - intros fuel invoke. apply (H2 ltac:(vm_compute; discriminate) fuel invoke).
Defined.

(** ** A locked controller keeps the active role *)

Lemma undisturbed_refl w : undisturbed [] w w.
Proof. repeat split. now rewrite app_nil_r. Qed.

Lemma undisturbed_trans a b w w1 w2 :
  undisturbed a w w1 -> undisturbed b w1 w2 -> undisturbed (a ++ b) w w2.
Proof.
  intros (A1 & C1 & M1 & S1 & L1 & H1) (A2 & C2 & M2 & S2 & L2 & H2).
  unfold undisturbed. rewrite A2, C2, M2, S2, L2, L1, <- app_assoc.
  repeat split; auto. intros x. now rewrite H2.
Qed.

Lemma undisturbed_with_access f evs w w' :
  state_activeController (f (access w')) = state_activeController (access w') ->
  state_currentController (f (access w')) = state_currentController (access w') ->
  stateMutex_locked (f (access w')) = stateMutex_locked (access w') ->
  undisturbed evs w w' -> undisturbed evs w (with_access f w').
Proof.
  intros Ha Hc Hm (A1 & C1 & M1 & S1 & L1 & H1).
  repeat split; simpl; try congruence; try exact H1.
Qed.

(** An inherited membership callback is an empty function. *)
Lemma callback_inherited cfg fuel x cb w :
  inherits cfg cb x -> membership cb = true ->
  exists w', callback (dispatch cfg (S fuel)) x cb w = (Ok tt, w') /\
             undisturbed [(x, cb)] w w'.
Proof.
  intros Hin Hm.
  exists {| access := access w; hserial := hserial w;
            clock := clock w; serial_calls := serial_calls w;
            callback_log := callback_log w ++ [(x, cb)];
            store_log := store_log w |}.
  split; [|repeat split].
  unfold callback, bind, modify. cbv beta iota.
  assert (Hb : dispatch cfg (S fuel) x cb = ret tt).
  { simpl. unfold callback_body. unfold inherits in Hin.
    destruct (class_of cfg x) as [name ov|].
    - rewrite Hin. destruct cb; try reflexivity; discriminate.
    - destruct cb; try reflexivity; discriminate. }
  rewrite Hb. destruct (is_noexcept cb); reflexivity.
Qed.

Lemma for_each_inherited_called cfg fuel cb xs : forall w,
  (forall x, In x xs -> inherits cfg cb x) -> membership cb = true ->
  exists w',
    for_each xs (fun x => callback (dispatch cfg (S fuel)) x cb) w = (Ok tt, w') /\
    undisturbed (calls cb xs) w w'.
Proof.
  induction xs as [|x xs IH]; intros w Hin Hm; cbn [for_each].
  - exists w. split; [reflexivity|apply undisturbed_refl].
  - destruct (callback_inherited cfg fuel x cb w (Hin x (or_introl eq_refl)) Hm)
      as (w1 & Hx & Hc1).
    destruct (IH w1 (fun y Hy => Hin y (or_intror Hy)) Hm) as (w' & Hf & Hc2).
    exists w'. split; [now rewrite (bind_eq_Ok _ _ _ _ _ Hx)|].
    exact (undisturbed_trans [(x, cb)] (calls cb xs) w w1 w' Hc1 Hc2).
Qed.

Lemma willRemove_loop_inherited cfg fuel xs : forall nl w,
  (forall x, In x xs -> inherits cfg WillRemove x) ->
  exists w',
    willRemove_loop (dispatch cfg (S fuel)) xs nl w = (Ok tt, nl ++ xs, w') /\
    undisturbed (calls WillRemove xs) w w'.
Proof.
  induction xs as [|x xs IH]; intros nl w Hin; cbn [willRemove_loop].
  - exists w. rewrite app_nil_r. split; [reflexivity|apply undisturbed_refl].
  - destruct (callback_inherited cfg fuel x WillRemove w
                (Hin x (or_introl eq_refl)) eq_refl) as (w1 & Hx & Hc1).
    rewrite Hx.
    destruct (IH (nl ++ [x]) w1 (fun y Hy => Hin y (or_intror Hy)))
      as (w' & Hf & Hc2).
    exists w'. rewrite Hf, <- app_assoc. split; [reflexivity|].
    exact (undisturbed_trans [(x, WillRemove)] (calls WillRemove xs) w w1 w'
             Hc1 Hc2).
Qed.

(** The willMakeInactive callback of a locked HSerial controller, asked
    from outside. *)
Lemma callback_locked_refuses cfg fuel this w :
  class_of cfg this = HSerial ->
  isLockedMutex_locked (hserial w this) = false ->
  initiated_externally cfg this w = true ->
  isLocked (hserial w this) = true ->
  exists w',
    callback (dispatch cfg (S fuel)) this WillMakeInactive w
    = (Throw (ControllerRefuses this "The controller is locked."), w') /\
    undisturbed [(this, WillMakeInactive)] w w'.
Proof.
  intros Hclass Hm Hext Hlk.
  unfold callback, bind, modify. cbv beta iota.
  set (wl := {| access := access w; hserial := hserial w;
                clock := clock w; serial_calls := serial_calls w;
                callback_log := callback_log w ++ [(this, WillMakeInactive)];
                store_log := store_log w |}).
  assert (Hb : dispatch cfg (S fuel) this WillMakeInactive
               = HSerial_willMakeInactive cfg this).
  { simpl. unfold callback_body. now rewrite Hclass. }
  cbn [is_noexcept]. rewrite Hb.
  unfold HSerial_willMakeInactive, transitionInitiatedExternally,
    with_isLockedMutex, lock_isLockedMutex, unlock_isLockedMutex, scope_exit,
    when, bind, gets, modify, ret, throw. subst wl. simpl.
  unfold initiated_externally in Hext. rewrite Hext. simpl.
  rewrite Hm. simpl. rewrite Nat.eqb_refl. simpl. rewrite Hlk. simpl.
  eexists. split; [reflexivity|]. repeat split. simpl. intros x.
  destruct (Nat.eqb_spec x this) as [->|_];
    [|destruct (Nat.eqb x this); reflexivity].
  destruct (hserial w this). simpl in *. now subst.
Qed.

Lemma AccessUnblocker_dtor_idle w :
  stateMutex_locked (access w) = false ->
  exists w',
    AccessUnblocker_dtor w = (Ok tt, w') /\ undisturbed [] w w'.
Proof.
  intros Hl. unfold AccessUnblocker_dtor, with_stateMutex,
    lock_stateMutex, unlock_stateMutex, scope_exit, when, bind, gets, modify,
    ret. simpl. rewrite Hl. simpl.
  destruct (state_accessIsUnblocked (access w)); simpl;
    eexists; (split; [reflexivity|]); repeat split; simpl; auto;
    now rewrite app_nil_r.
Qed.

Lemma TransitionBlocker_ctor_undisturbed cfg w :
  tb_nextNumber (access w) = tb_readyNumber (access w) ->
  stateMutex_locked (access w) = false ->
  exists w', TransitionBlocker_ctor cfg w = (Ok tt, w') /\ undisturbed [] w w'.
Proof.
  intros Hq Hl. destruct (TransitionBlocker_ctor_idle cfg w Hq Hl) as [w1 H].
  exists w1. split; [exact H|].
  destruct (TransitionBlocker_ctor_Ok cfg _ _ _ H)
    as (_ & L & S & A & C & _ & M & Hh).
  repeat split; try congruence. now rewrite L, app_nil_r.
Qed.

Lemma TransitionBlocker_dtor_undisturbed w :
  stateMutex_locked (access w) = false ->
  exists w', TransitionBlocker_dtor w = (Ok tt, w') /\ undisturbed [] w w'.
Proof.
  intros Hl. unfold TransitionBlocker_dtor, with_stateMutex,
    lock_stateMutex, unlock_stateMutex, scope_exit, bind, gets, modify. simpl.
  rewrite Hl. simpl. eexists. split; [reflexivity|].
  repeat split; simpl; auto. now rewrite app_nil_r.
Qed.

Lemma shouldPerform_idle_undisturbed cfg fuel c w :
  state_transitionInProgress (access w) = false ->
  stateMutex_locked (access w) = false ->
  exists w0,
    shouldPerformConcurrentActiveControllerChange cfg fuel c w = (Ok false, w0) /\
    undisturbed [] w w0 /\
    tb_nextNumber (access w0) = tb_nextNumber (access w) /\
    tb_readyNumber (access w0) = tb_readyNumber (access w).
Proof.
  intros Hp Hl.
  unfold shouldPerformConcurrentActiveControllerChange, with_stateMutex,
    lock_stateMutex, unlock_stateMutex, scope_exit, bind, gets, modify, ret.
  rewrite Hl. simpl. rewrite Hp. simpl. eexists. split; [reflexivity|].
  repeat split; simpl; auto. now rewrite app_nil_r.
Qed.

Section LockedRefusal.

Variable cfg : Config.
Variable fuel : nat.
Variable this : ctrl.
Hypothesis this_HSerial : class_of cfg this = HSerial.

Lemma locked_from_outside_undisturbed evs w w' :
  undisturbed evs w w' ->
  locked_from_outside cfg this w -> locked_from_outside cfg this w'.
Proof.
  intros (A & C & M & S & L & H) (Ha & Hm & Hlm & Hx & Hl).
  unfold locked_from_outside, initiated_externally in *. rewrite !H.
  repeat split; auto; congruence.
Qed.

Lemma performTransition_locked n also w :
  locked_from_outside cfg this w ->
  exists w',
    performTransition cfg (dispatch cfg (S fuel)) n also w
    = (Throw (ControllerRefuses this "The controller is locked."), w') /\
    undisturbed [(this, WillMakeInactive)] w w'.
Proof.
  intros (Ha & Hm & Hlm & Hx & Hl).
  destruct (callback_locked_refuses cfg fuel this w this_HSerial Hlm Hx Hl)
    as (w' & Hc & Hu).
  exists w'. split; [|exact Hu].
  unfold performTransition. unfold bind at 1, gets. cbv beta iota. rewrite Ha.
  unfold bind at 1. unfold call_if_present at 1. now rewrite Hc.
Qed.

Lemma performActiveControllerChange_locked n w :
  locked_from_outside cfg this w ->
  exists w',
    performActiveControllerChange cfg (dispatch cfg (S fuel)) n w
    = (Throw (ControllerRefuses this "The controller is locked."), w') /\
    undisturbed [(this, WillMakeInactive)] w w'.
Proof.
  intros Hl. destruct (performTransition_locked n false w Hl) as (w1 & H & Hu).
  pose proof (locked_from_outside_undisturbed _ _ _ Hu Hl) as (_ & Hm1 & _).
  destruct (AccessUnblocker_dtor_idle w1 Hm1) as (w2 & Hd & Hu2).
  exists w2. split.
  - unfold performActiveControllerChange.
    apply (scope_exit_eq _ _ _ _ w1 _); [|reflexivity|exact Hd].
    unfold bind. now rewrite H.
  - rewrite <- (app_nil_r [(this, WillMakeInactive)]).
    exact (undisturbed_trans _ _ _ _ _ Hu Hu2).
Qed.

Lemma performCurrentControllerChange_locked n w old :
  locked_from_outside cfg this w ->
  match state_currentController (access w) with
  | Some o => Delegation.getControllersList (S fuel) (delegates cfg) o
  | None => Some []
  end = Some old ->
  (forall x, In x old ->
     inherits cfg WillRemove x /\ inherits cfg DidCancelRemove x) ->
  exists w',
    performCurrentControllerChange cfg (S fuel) (dispatch cfg (S fuel)) n w
    = (Throw (ControllerRefuses this "The controller is locked."), w') /\
    undisturbed (calls WillRemove old ++ [(this, WillMakeInactive)]
                   ++ calls DidCancelRemove old) w w'.
Proof.
  intros Hl Hold Hin.
  set (ws := with_access (set_concurrentActiveControllerChangeAllowed true) w).
  assert (Hus : undisturbed [] w ws).
  { apply undisturbed_with_access; try reflexivity. apply undisturbed_refl. }
  destruct (willRemove_loop_inherited cfg fuel old [] ws
              (fun x Hx => proj1 (Hin x Hx))) as (wl & Hloop & Hul).
  change ([] ++ old) with old in Hloop.
  set (wq := with_access (set_concurrentActiveControllerChangeAllowed false) wl).
  assert (Huq : undisturbed (calls WillRemove old) w wq).
  { apply undisturbed_with_access; try reflexivity.
    exact (undisturbed_trans [] _ _ _ _ Hus Hul). }
  destruct (performTransition_locked n true wq
              (locked_from_outside_undisturbed _ _ _ Huq Hl))
    as (wr & Hpt & Hur).
  assert (Htry : tryRemoveAndTransition cfg (dispatch cfg (S fuel)) n old w
                 = (Throw (ControllerRefuses this "The controller is locked."),
                    old, wr)).
  { unfold tryRemoveAndTransition,
      store_concurrentActiveControllerChangeAllowed at 1, modify.
    fold ws. rewrite Hloop.
    unfold bind, store_concurrentActiveControllerChangeAllowed, modify.
    fold wq. now rewrite Hpt. }
  rewrite (performCurrentControllerChange_catch cfg (S fuel) _ n w old _ old wr
             Hold Htry).
  set (wh := with_access (set_concurrentActiveControllerChangeAllowed true) wr).
  assert (Huh : undisturbed (calls WillRemove old ++ [(this, WillMakeInactive)])
                  w wh).
  { apply undisturbed_with_access; try reflexivity.
    exact (undisturbed_trans _ _ _ _ _ Huq Hur). }
  destruct (for_each_inherited_called cfg fuel DidCancelRemove old wh
              (fun x Hx => proj2 (Hin x Hx)) eq_refl) as (wf & Hfe & Huf).
  pose proof (undisturbed_trans _ _ _ _ _ Huh Huf) as Hu.
  pose proof (locked_from_outside_undisturbed _ _ _ Hu Hl) as (_ & Hmf & _).
  destruct (AccessUnblocker_dtor_idle wf Hmf) as (w' & Hd & Hud).
  exists w'. split.
  - apply (scope_exit_eq _ _ _ _ wf _); [|reflexivity|exact Hd].
    unfold bind at 1, store_concurrentActiveControllerChangeAllowed, modify.
    fold wh. unfold bind. rewrite Hfe. reflexivity.
  - pose proof (undisturbed_trans _ _ _ _ _ Hu Hud) as Hfin.
    now rewrite app_nil_r, <- app_assoc in Hfin.
Qed.

End LockedRefusal.

Lemma makeActive_locked cfg this c w :
  Delegation.acyclic (delegates cfg) ->
  class_of cfg this = HSerial ->
  locked_from_outside cfg this w ->
  tb_nextNumber (access w) = tb_readyNumber (access w) ->
  state_transitionInProgress (access w) = false ->
  c <> this ->
  (forall x, in_access_list cfg w x ->
     inherits cfg WillRemove x /\ inherits cfg DidCancelRemove x) ->
  exists fuel0, forall fuel, fuel0 <= fuel ->
    exists old w',
      Run.makeActive cfg fuel c w
      = (Throw (ControllerRefuses this "The controller is locked."), w') /\
      (in_access_list cfg w c -> old = []) /\
      (~ in_access_list cfg w c ->
       forall x, In x old <-> in_access_list cfg w x) /\
      undisturbed (calls WillRemove old ++ [(this, WillMakeInactive)]
                     ++ calls DidCancelRemove old) w w'.
Proof.
  intros Hacyc Hclass Hl Hq Hp Hc Hin.
  destruct (isInAccessList_total cfg c w Hacyc) as [f1 Hf1].
  assert (Hlist : exists m, forall fuel, m < fuel ->
            exists old,
              match state_currentController (access w) with
              | Some o => Delegation.getControllersList fuel (delegates cfg) o
              | None => Some []
              end = Some old /\
              forall x, In x old <-> in_access_list cfg w x).
  { unfold in_access_list.
    destruct (state_currentController (access w)) as [cur|].
    - destruct (getControllersList_levels (delegates cfg) cur (Hacyc cur))
        as [m Hm].
      exists m. intros fuel Hfuel. destruct (Hm fuel Hfuel) as [Hg He].
      eexists. split; [exact Hg|]. intros x.
      rewrite (levels_members (delegates cfg) cur m He x). split.
      + intros [->|Hs]; exists cur; auto.
      + intros (cur' & [= <-] & [->|Hs]); auto.
    - exists 0. intros fuel _. exists []. split; [reflexivity|].
      intros x. split; [intros []|intros (cur & Hcur & _); discriminate]. }
  destruct Hlist as [m Hm].
  exists (S (f1 + m)). intros fuel' Hfuel.
  destruct fuel' as [|fuel]; [lia|].
  destruct (Hf1 (S fuel) ltac:(lia)) as (b & Hb & Hisin).
  destruct (Hm (S fuel) ltac:(lia)) as (old & Hold & Hmem).
  pose proof Hl as (Ha & Hmx & _).
  destruct (shouldPerform_idle_undisturbed cfg (S fuel) c w Hp Hmx)
    as (w0 & Hs & Hu0 & Hn0 & Hr0).
  pose proof (locked_from_outside_undisturbed cfg this _ _ _ Hu0 Hl) as Hl0.
  destruct (TransitionBlocker_ctor_undisturbed cfg w0
              ltac:(congruence) (proj1 (proj2 Hl0))) as (w1 & Hctor & Hu1).
  pose proof (undisturbed_trans _ _ _ _ _ Hu0 Hu1) as Hu01. simpl in Hu01.
  pose proof (locked_from_outside_undisturbed cfg this _ _ _ Hu01 Hl) as Hl1.
  assert (Hcur1 : state_currentController (access w1)
                  = state_currentController (access w))
    by exact (proj1 (proj2 Hu01)).
  assert (Hbody : exists evs' w2,
            (inList <- isInAccessList cfg (S fuel) c ;;
             if inList then
               active <- gets (fun w => state_activeController (access w)) ;;
               when (negb (opt_eqb (Some c) active))
                 (performActiveControllerChange cfg (dispatch cfg (S fuel))
                    (Some c))
             else
               performCurrentControllerChange cfg (S fuel)
                 (dispatch cfg (S fuel)) (Some c)) w1
            = (Throw (ControllerRefuses this "The controller is locked."), w2) /\
            undisturbed evs' w1 w2 /\
            evs' = (calls WillRemove (if b then [] else old)
                      ++ [(this, WillMakeInactive)]
                      ++ calls DidCancelRemove (if b then [] else old))).
  { rewrite (bind_eq_Ok _ _ _ _ _ (Hisin w1 Hcur1)). destruct b.
    - unfold bind at 1, gets. cbv beta iota. rewrite (proj1 Hl1).
      replace (opt_eqb (Some c) (Some this)) with false
        by (symmetry; simpl; now apply Nat.eqb_neq).
      cbn [negb when].
      destruct (performActiveControllerChange_locked cfg fuel this Hclass
                  (Some c) w1 Hl1) as (w2 & H & Hu).
      exists [(this, WillMakeInactive)], w2. auto.
    - destruct (performCurrentControllerChange_locked cfg fuel this Hclass
                  (Some c) w1 old Hl1 ltac:(now rewrite Hcur1))
        as (w2 & H & Hu).
      { intros x Hx. apply Hin. now apply Hmem. }
      eexists _, w2. split; [exact H|split; [exact Hu|reflexivity]]. }
  destruct Hbody as (evs' & w2 & Hbody & Hu2 & ->).
  pose proof (undisturbed_trans _ _ _ _ _ Hu01 Hu2) as Hu02. simpl in Hu02.
  pose proof (locked_from_outside_undisturbed cfg this _ _ _ Hu02 Hl) as Hl2.
  destruct (TransitionBlocker_dtor_undisturbed w2 (proj1 (proj2 Hl2)))
    as (w3 & Hdtor & Hu3).
  pose proof (undisturbed_trans _ _ _ _ _ Hu02 Hu3) as Hu. 
  rewrite app_nil_r in Hu.
  exists (if b then [] else old), w3. split; [|split; [|split]].
  - unfold Run.makeActive, makeActive.
    rewrite (bind_eq_Ok _ _ _ _ _ Hs). cbv iota.
    rewrite (bind_eq_Ok _ _ _ _ _ Hctor).
    now apply (scope_exit_eq _ _ _ _ w2 _).
  - intros Hi. apply Hb in Hi. now subst b.
  - intros Hni. destruct b; [exfalso; apply Hni; now apply Hb|exact Hmem].
  - exact Hu.
Qed.

(** X12.  While an HSerial controller is locked active, another
    controller's [makeActive] fails with the locked controller's refusal
    and changes nothing: no new active or current controller is stored and
    the lock stays.  If the caller is on the access list only the locked
    controller's [willMakeInactive] was called; otherwise every member of
    the access list -- when they inherit the empty [willRemove] and
    [didCancelRemove] -- is first told [willRemove] and afterwards
    [didCancelRemove], in the same order. *)
Theorem locked_controller_keeps_active_role cfg this c w :
  Delegation.acyclic (delegates cfg) ->
  class_of cfg this = HSerial ->
  locked_from_outside cfg this w ->
  tb_nextNumber (access w) = tb_readyNumber (access w) ->
  state_transitionInProgress (access w) = false ->
  c <> this ->
  (class_of cfg c = HSerial -> am_serializingMutex_locked (hserial w c) = false) ->
  (forall x, in_access_list cfg w x ->
     inherits cfg WillRemove x /\ inherits cfg DidCancelRemove x) ->
  exists fuel0, forall fuel, fuel0 <= fuel ->
    exists old w',
      Run.controller_makeActive cfg fuel c w
      = (Throw (ControllerRefuses this "The controller is locked."), w') /\
      (in_access_list cfg w c -> old = []) /\
      (~ in_access_list cfg w c ->
       forall x, In x old <-> in_access_list cfg w x) /\
      callback_log w'
      = callback_log w ++ calls WillRemove old ++ [(this, WillMakeInactive)]
          ++ calls DidCancelRemove old /\
      store_log w' = store_log w /\
      state_activeController (access w') = Some this /\
      state_currentController (access w')
      = state_currentController (access w) /\
      isLocked (hserial w' this) = true /\
      _isLockedActive (hserial w' this) = _isLockedActive (hserial w this).
Proof.
  intros Hacyc Hclass Hl Hq Hp Hc Ham Hin.
  unfold Run.controller_makeActive, controller_makeActive, HSerial_makeActive.
  destruct (class_of cfg c) as [name ov|] eqn:Hcc.
  - destruct (makeActive_locked cfg this c w Hacyc Hclass Hl Hq Hp Hc Hin)
      as [fuel0 H].
    exists fuel0. intros fuel Hfuel.
    destruct (H fuel Hfuel) as (old & w' & Hrun & Ho1 & Ho2 & Hu).
    destruct Hu as (A & C & M & S & L & Hh).
    destruct Hl as (Ha & _ & _ & _ & Hlk).
    exists old, w'. rewrite (Hh this). repeat split; auto; try congruence;
      apply Ho2; auto.
  - specialize (Ham eq_refl).
    set (w1 := with_hserial c (set_setIsLockedActive false)
                 (with_hserial c (set_am_call true (this_thread cfg))
                    (with_hserial c (set_am_serializingMutex_locked true) w))).
    assert (Hother : hserial w1 this = hserial w this).
    { subst w1. simpl. apply Nat.eqb_neq in Hc. rewrite Nat.eqb_sym in Hc.
      now rewrite Hc. }
    assert (Hl1 : locked_from_outside cfg this w1).
    { destruct Hl as (Ha & Hm & Hlm & Hx & Hlk).
      unfold locked_from_outside, initiated_externally in *. rewrite Hother.
      repeat split; auto. }
    assert (Hmem : forall x, in_access_list cfg w1 x <-> in_access_list cfg w x).
    { intros x. split; apply in_access_list_access; reflexivity. }
    destruct (makeActive_locked cfg this c w1 Hacyc Hclass Hl1 Hq Hp Hc
                ltac:(intros x Hx; apply Hin; now apply Hmem))
      as [fuel0 H].
    exists fuel0. intros fuel Hfuel.
    destruct (H fuel Hfuel) as (old & w2 & Hrun & Ho1 & Ho2 & Hu).
    destruct Hu as (A & C & M & S & L & Hh).
    destruct Hl as (Ha & _ & _ & _ & Hlk).
    exists old. eexists. split; [|split; [|split]].
    + unfold with_AccessManagementGuard, AccessManagementGuard_ctor,
        AccessManagementGuard_dtor.
      unfold bind at 1. unfold bind at 1. rewrite Ham.
      unfold modify at 1. cbv beta iota.
      apply (scope_exit_eq _ _ _ _ w2 _); [|reflexivity|].
      * unfold bind at 1, modify at 1. cbv beta iota. exact Hrun.
      * unfold bind, modify. reflexivity.
    + intros Hi. apply Ho1. now apply Hmem.
    + intros Hni x. rewrite <- Hmem. apply Ho2. now rewrite Hmem.
    + simpl. apply Nat.eqb_neq in Hc. rewrite Nat.eqb_sym in Hc. rewrite Hc.
      rewrite (Hh this), Hother, L, S, A, C.
      repeat split; auto.
Qed.

Lemma locked_controller_keeps_active_role_witness :
  exists fuel0, forall fuel, fuel0 <= fuel ->
    exists old w',
      Run.controller_makeActive Examples.plain_cfg fuel 1
        (Examples.after_makeLockedActive Examples.plain_cfg 3)
      = (Throw (ControllerRefuses 3 "The controller is locked."), w') /\
      (in_access_list Examples.plain_cfg
         (Examples.after_makeLockedActive Examples.plain_cfg 3) 1 -> old = []) /\
      (~ in_access_list Examples.plain_cfg
           (Examples.after_makeLockedActive Examples.plain_cfg 3) 1 ->
       forall x, In x old
                 <-> in_access_list Examples.plain_cfg
                       (Examples.after_makeLockedActive Examples.plain_cfg 3) x) /\
      callback_log w'
      = callback_log (Examples.after_makeLockedActive Examples.plain_cfg 3)
          ++ calls WillRemove old ++ [(3, WillMakeInactive)]
          ++ calls DidCancelRemove old /\
      store_log w'
      = store_log (Examples.after_makeLockedActive Examples.plain_cfg 3) /\
      state_activeController (access w') = Some 3 /\
      state_currentController (access w')
      = state_currentController
          (access (Examples.after_makeLockedActive Examples.plain_cfg 3)) /\
      isLocked (hserial w' 3) = true /\
      _isLockedActive (hserial w' 3)
      = _isLockedActive
          (hserial (Examples.after_makeLockedActive Examples.plain_cfg 3) 3).
Proof.
  apply (locked_controller_keeps_active_role Examples.plain_cfg 3 1
           (Examples.after_makeLockedActive Examples.plain_cfg 3)).
  - exact (registered_acyclic _ tree_registered).
  - reflexivity.
  - unfold locked_from_outside. repeat split; vm_compute; reflexivity.
  - vm_compute. reflexivity.
  - vm_compute. reflexivity.
  - discriminate.
  - intros _. vm_compute. reflexivity.
  - intros x _. unfold inherits. simpl.
    destruct (Nat.eqb x 3 || Nat.eqb x 4); split; try exact I; reflexivity.
Defined.

(** ** HSerial's lock flags *)

#[local] Instance placid_preorder : PreOrder placid.
Proof.
  split.
  - intros w. unfold placid. auto.
  - intros w1 w2 w3 (Hc & Ha & Hh) (Hc' & Ha' & Hh'). unfold placid.
    repeat split; try congruence;
      destruct (Hh x) as (? & ? & ?), (Hh' x) as (? & ? & ?); congruence.
Qed.

#[local] Instance guards_preorder cfg but : PreOrder (guards cfg but).
Proof. split; unfold guards; [intros w|intros w1 w2 w3]; auto. Qed.

Ltac placid_leaf :=
  apply frames_modify; intros ?; unfold placid, with_hserial; simpl;
  repeat split; intros; try destruct (Nat.eqb _ _); reflexivity.

Section Placid.

Variable cfg : Config.
Variable fuel : nat.

Local Abbreviation rests m := (frames false placid m).

Lemma placid_lock_stateMutex : rests lock_stateMutex.
Proof.
  intros w _. unfold lock_stateMutex.
  destruct (stateMutex_locked (access w)); simpl; [reflexivity|].
  unfold placid; simpl; auto.
Qed.

Lemma placid_with_stateMutex {A} (m : M A) : rests m -> rests (with_stateMutex m).
Proof.
  intros H. unfold with_stateMutex, unlock_stateMutex.
  repeat first [apply placid_lock_stateMutex | placid_leaf | frames_step].
Qed.

Lemma placid_lock_isLockedMutex c : rests (lock_isLockedMutex c).
Proof.
  intros w _. unfold lock_isLockedMutex.
  destruct (isLockedMutex_locked (hserial w c)); simpl; [reflexivity|].
  unfold placid, with_hserial; simpl. repeat split;
    destruct (Nat.eqb _ _); reflexivity.
Qed.

Lemma placid_unlock_isLockedMutex c : rests (unlock_isLockedMutex c).
Proof. unfold unlock_isLockedMutex. placid_leaf. Qed.

Lemma placid_with_isLockedMutex {A} c (m : M A) :
  rests m -> rests (with_isLockedMutex c m).
Proof.
  intros H. unfold with_isLockedMutex.
  repeat first [apply placid_lock_isLockedMutex
               | apply placid_unlock_isLockedMutex | frames_step].
Qed.

Lemma placid_AccessManagementGuard_ctor c :
  rests (AccessManagementGuard_ctor cfg c).
Proof.
  unfold AccessManagementGuard_ctor.
  apply frames_bind; [typeclasses eauto| |intros _]; [|placid_leaf].
  intros w _. destruct (am_serializingMutex_locked (hserial w c)); simpl;
    [reflexivity|].
  unfold placid, with_hserial; simpl. repeat split;
    destruct (Nat.eqb _ _); reflexivity.
Qed.

Lemma placid_AccessManagementGuard_dtor c :
  rests (AccessManagementGuard_dtor c).
Proof.
  unfold AccessManagementGuard_dtor. repeat first [placid_leaf | frames_step].
Qed.

Lemma placid_throwIfNotActiveController c n :
  rests (throwIfNotActiveController cfg c n).
Proof. unfold throwIfNotActiveController. repeat frames_step. Qed.

Lemma placid_throwIfNotTransitionCorrect c n :
  rests (throwIfNotTransitionCorrect cfg c n).
Proof. unfold throwIfNotTransitionCorrect. repeat frames_step. Qed.

Lemma placid_wait_allAccessCallsReturned t :
  rests (wait_allAccessCallsReturned cfg t).
Proof.
  intros w _. unfold wait_allAccessCallsReturned.
  destruct (state_numUnreturnedAccessCalls (access w) =? 0)%Z; [reflexivity|].
  destruct (match drain_at cfg with Some t0 => (t0 <=? clock w + Z.max 0 t)%Z | None => false end);
    unfold placid; simpl; auto.
Qed.

Ltac placid_step :=
  first
    [ apply placid_with_stateMutex | apply placid_lock_isLockedMutex
    | apply placid_unlock_isLockedMutex | apply placid_with_isLockedMutex
    | apply placid_throwIfNotActiveController
    | apply placid_throwIfNotTransitionCorrect
    | apply placid_wait_allAccessCallsReturned
    | placid_leaf | frames_step ].

Lemma placid_TransitionBlocker_ctor : rests (TransitionBlocker_ctor cfg).
Proof. unfold TransitionBlocker_ctor. repeat placid_step. Qed.

Lemma placid_TransitionBlocker_dtor : rests TransitionBlocker_dtor.
Proof. unfold TransitionBlocker_dtor. repeat placid_step. Qed.

Lemma placid_AccessUnblocker_dtor : rests AccessUnblocker_dtor.
Proof. unfold AccessUnblocker_dtor. repeat placid_step. Qed.

Lemma placid_blockAccessCalls c : rests (blockAccessCalls cfg c).
Proof. unfold blockAccessCalls. repeat placid_step. Qed.

Lemma placid_unblockAccessCalls c : rests (unblockAccessCalls cfg c).
Proof. unfold unblockAccessCalls. repeat placid_step. Qed.

Lemma placid_waitForAllAccessCallsToReturn c t :
  rests (waitForAllAccessCallsToReturn cfg c t).
Proof. unfold waitForAllAccessCallsToReturn. repeat placid_step. Qed.

Lemma placid_accessFunction c f : rests (accessFunction cfg c f).
Proof.
  unfold accessFunction, AccessGuard_ctor, AccessGuard_dtor, serial_call.
  repeat placid_step.
Qed.

Lemma placid_isInAccessList c : rests (isInAccessList cfg fuel c).
Proof. unfold isInAccessList, hasAsDelegateOrSubdelegate. repeat placid_step. Qed.

Lemma placid_shouldPerform c :
  rests (shouldPerformConcurrentActiveControllerChange cfg fuel c).
Proof.
  unfold shouldPerformConcurrentActiveControllerChange.
  repeat first [apply placid_isInAccessList | placid_step].
Qed.

Lemma placid_getControllersList c : rests (getControllersList cfg fuel c).
Proof. unfold getControllersList. repeat placid_step. Qed.

Lemma placid_checkSafeTransition o : rests (checkSafeTransition cfg o).
Proof. unfold checkSafeTransition. repeat placid_step. Qed.

Lemma placid_HSerialController_willMakeInactive c :
  rests (HSerialController_willMakeInactive cfg c).
Proof.
  unfold HSerialController_willMakeInactive.
  repeat first [apply placid_blockAccessCalls
               | apply placid_waitForAllAccessCallsToReturn | placid_step].
Qed.

Lemma placid_HSerial_willMakeInactive c :
  rests (HSerial_willMakeInactive cfg c).
Proof.
  unfold HSerial_willMakeInactive, transitionInitiatedExternally.
  repeat first [apply placid_blockAccessCalls
               | apply placid_waitForAllAccessCallsToReturn | placid_step].
Qed.

(** A passive call, and so a passive callback body. *)
Lemma placid_perform invoke this c :
  passive_call c = true -> rests (perform cfg fuel invoke this c).
Proof.
  intros Hp. destruct c; try discriminate Hp; simpl;
    unfold unit_call, isActive, HSerial_isLockedActive;
    repeat first
      [ apply placid_blockAccessCalls | apply placid_unblockAccessCalls
      | apply placid_waitForAllAccessCallsToReturn | apply placid_accessFunction
      | placid_step ].
Qed.

Lemma placid_run invoke this p :
  passive p -> rests (run cfg fuel invoke this p).
Proof.
  induction 1 as [|e|c k Hc Hk IH]; simpl.
  - apply frames_ret; typeclasses eauto.
  - apply frames_throw; typeclasses eauto.
  - intros w. pose proof (placid_perform invoke this c Hc w) as Hp.
    destruct (perform cfg fuel invoke this c w) as [r w1]. simpl in Hp.
    destruct r as [b|e| | |]; simpl; intros H; try discriminate.
    + transitivity w1; [now apply Hp | now apply IH].
    + transitivity w1; [now apply Hp | now apply IH].
Qed.

Lemma placid_callback_body invoke this cb :
  passive_callbacks cfg -> touches_lock cb = false ->
  rests (callback_body cfg fuel invoke this cb).
Proof.
  intros Hpass Hcb. unfold callback_body.
  destruct (class_of cfg this) as [name ov|] eqn:Hclass.
  - destruct (override ov cb) as [p|] eqn:Hov.
    + apply placid_run. exact (Hpass this name ov cb p Hclass Hov).
    + destruct cb; try discriminate Hcb;
        try (apply frames_ret; typeclasses eauto).
      apply placid_HSerialController_willMakeInactive.
  - destruct cb; try discriminate Hcb;
      try (apply frames_ret; typeclasses eauto).
    + apply placid_HSerial_willMakeInactive.
    + unfold HSerial_didCancelMakeInactive. apply placid_unlock_isLockedMutex.
    + unfold HSerial_willMakeActive. apply placid_lock_isLockedMutex.
Qed.

End Placid.

Lemma placid_steady w w' : placid w w' -> steady w w'.
Proof.
  intros (Hc & Ha & Hx). repeat split; auto; destruct (Hx x) as (? & ? & ?); auto.
Qed.

Lemma steady_guards cfg but w w' : steady w w' -> guards cfg but w w'.
Proof.
  intros (Hc & Ha & Hx) Hinv x Hclass Hact. destruct (Hx x) as [-> ->].
  apply Hinv; [exact Hclass|]. now rewrite <- Ha.
Qed.

Lemma frames_placid_guards cfg but {A} (m : M A) :
  frames false placid m -> frames false (guards cfg but) m.
Proof. intros H w Hr. apply steady_guards, placid_steady. now apply H. Qed.

Section LockFlags.

Variable cfg : Config.
Variable fuel : nat.
Hypothesis passive : passive_callbacks cfg.

Local Abbreviation invoke := (dispatch cfg fuel).

Lemma placid_dispatch c cb :
  touches_lock cb = false -> frames false placid (invoke c cb).
Proof.
  intros Hcb. destruct fuel as [|fuel']; simpl.
  - apply frames_out_of_fuel; typeclasses eauto.
  - now apply placid_callback_body.
Qed.

Lemma placid_log c cb :
  frames false placid
    (modify (fun w =>
       {| access := access w; hserial := hserial w; clock := clock w;
          serial_calls := serial_calls w;
          callback_log := callback_log w ++ [(c, cb)];
          store_log := store_log w |})).
Proof. apply frames_modify. intros w. unfold placid. simpl. auto. Qed.

Lemma placid_callback c cb :
  touches_lock cb = false -> frames false placid (callback invoke c cb).
Proof.
  intros Hcb. unfold callback.
  apply frames_bind; [typeclasses eauto|apply placid_log|intros _].
  destruct (is_noexcept cb); [apply frames_noexcept|]; now apply placid_dispatch.
Qed.

Lemma placid_call_if_present c cb :
  touches_lock cb = false -> frames false placid (call_if_present invoke c cb).
Proof.
  intros Hcb. destruct c; simpl;
    [now apply placid_callback | apply frames_ret; typeclasses eauto].
Qed.

Lemma steady_dispatch c cb :
  precedes_store cb = true -> frames false steady (invoke c cb).
Proof. intros Hcb. now apply still_dispatch. Qed.

(** didMakeInactive clears the flags of an HSerial and changes nothing
    else. *)
Lemma callback_didMakeInactive o w :
  returns (fst (callback invoke o DidMakeInactive w)) = true ->
  state_currentController (access (snd (callback invoke o DidMakeInactive w)))
  = state_currentController (access w) /\
  state_activeController (access (snd (callback invoke o DidMakeInactive w)))
  = state_activeController (access w) /\
  (forall x, setIsLockedActive (hserial (snd (callback invoke o DidMakeInactive w)) x)
             = setIsLockedActive (hserial w x)) /\
  (forall x, x <> o \/ class_of cfg o <> HSerial ->
     isLocked (hserial (snd (callback invoke o DidMakeInactive w)) x)
     = isLocked (hserial w x) /\
     _isLockedActive (hserial (snd (callback invoke o DidMakeInactive w)) x)
     = _isLockedActive (hserial w x)) /\
  (class_of cfg o = HSerial ->
   isLocked (hserial (snd (callback invoke o DidMakeInactive w)) o) = false /\
   _isLockedActive (hserial (snd (callback invoke o DidMakeInactive w)) o)
   = false).
Proof.
  destruct (class_of cfg o) as [name ov|] eqn:Hclass.
  - assert (Hp : frames false placid (callback invoke o DidMakeInactive)).
    { unfold callback.
      apply frames_bind; [typeclasses eauto|apply placid_log|intros _].
      cbn [is_noexcept]. apply frames_noexcept.
      destruct fuel as [|fuel']; simpl;
        [apply frames_out_of_fuel; typeclasses eauto|].
      unfold callback_body. rewrite Hclass.
      destruct (override ov DidMakeInactive) as [p|] eqn:Hov.
      - apply placid_run. exact (passive o name ov _ p Hclass Hov).
      - apply frames_ret; typeclasses eauto. }
    intros Hr. destruct (Hp w Hr) as (Hc & Ha & Hx).
    split; [exact Hc|split; [exact Ha|split; [|split]]].
    + intros x. now destruct (Hx x) as (_ & _ & ?).
    + intros x _. destruct (Hx x) as (? & ? & _). auto.
    + discriminate.
  - unfold callback, bind, modify. cbn [is_noexcept]. cbv beta iota.
    destruct fuel as [|fuel']; [discriminate|].
    cbn [dispatch]. unfold callback_body. rewrite Hclass.
    unfold noexcept, HSerial_didMakeInactive, unlock_isLockedMutex, bind,
      modify. simpl. intros _.
    split; [reflexivity|split; [reflexivity|split; [|split]]].
    + intros x. destruct (Nat.eqb x o); reflexivity.
    + intros x [Hx|Hx]; [|congruence].
      apply Nat.eqb_neq in Hx. rewrite Hx. auto.
    + intros _. rewrite Nat.eqb_refl. auto.
Qed.

(** didMakeActive gives an HSerial its two flags from [setIsLockedActive]
    and changes nothing else. *)
Lemma callback_didMakeActive c w :
  returns (fst (callback invoke c DidMakeActive w)) = true ->
  engaged cfg c w (snd (callback invoke c DidMakeActive w)).
Proof.
  destruct (class_of cfg c) as [name ov|] eqn:Hclass.
  - assert (Hp : frames false placid (callback invoke c DidMakeActive)).
    { unfold callback.
      apply frames_bind; [typeclasses eauto|apply placid_log|intros _].
      cbn [is_noexcept].
      destruct fuel as [|fuel']; simpl;
        [apply frames_out_of_fuel; typeclasses eauto|].
      unfold callback_body. rewrite Hclass.
      destruct (override ov DidMakeActive) as [p|] eqn:Hov.
      - apply placid_run. exact (passive c name ov _ p Hclass Hov).
      - apply frames_ret; typeclasses eauto. }
    intros Hr. destruct (Hp w Hr) as (Hc & Ha & Hx).
    unfold engaged. rewrite Hclass.
    split; [exact Hc|split; [exact Ha|split; [|split]]].
    + intros x. now destruct (Hx x) as (_ & _ & ?).
    + intros x _. destruct (Hx x) as (? & ? & _). auto.
    + discriminate.
  - unfold callback, bind, modify. cbn [is_noexcept]. cbv beta iota.
    destruct fuel as [|fuel']; [discriminate|].
    cbn [dispatch]. unfold callback_body. rewrite Hclass.
    unfold HSerial_didMakeActive, unlock_isLockedMutex, bind, gets,
      modify. simpl. intros _.
    unfold engaged. rewrite Hclass. simpl.
    split; [reflexivity|split; [reflexivity|split; [|split]]].
    + intros x. destruct (Nat.eqb x c); reflexivity.
    + intros x [Hx|Hx]; [|congruence].
      apply Nat.eqb_neq in Hx. rewrite Hx. auto.
    + intros _. rewrite !Nat.eqb_refl. auto.
Qed.

(** The transition itself, when it is made. *)
Lemma performTransition_transitioned n also w u w' :
  performTransition cfg invoke n also w = (Ok u, w') ->
  transitioned cfg n w w' /\
  state_currentController (access w')
  = (if also then n else state_currentController (access w)).
Proof.
  intros H. unfold performTransition in H.
  apply bind_Ok in H. destruct H as (old & w0 & Hg & H).
  injection Hg as <- <-.
  apply bind_Ok in H. destruct H as ([] & w1 & H1 & H).
  pose proof (placid_call_if_present (state_activeController (access w))
                WillMakeInactive eq_refl w) as P1.
  rewrite H1 in P1. cbn [fst snd] in P1. destruct (P1 eq_refl) as (C1 & A1 & X1). clear P1.
  apply bind_Ok in H. destruct H as ([] & w2 & H2 & H3).
  apply with_stateMutex_Ok in H2. destruct H2 as (_ & w1b & H2 & ->).
  apply bind_Ok in H2. destruct H2 as ([] & wc & Hc & H2).
  apply catch_rethrow_Ok, checkSafeTransition_Ok in Hc.
  destruct Hc as (_ & _ & _ & _ & _ & _ & Ac & Cc & Xc).
  apply bind_Ok in H2. destruct H2 as ([] & wd & Hd & H2).
  pose proof (placid_call_if_present n WillMakeActive eq_refl wc) as Pd.
  rewrite Hd in Pd. cbn [fst snd] in Pd. destruct (Pd eq_refl) as (Cd & Ad & Xd). clear Pd.
  apply store_controllers_Ok in H2. destruct H2 as (_ & Ae & Ce & _ & Xe).
  set (w2 := with_access (set_stateMutex_locked false) w1b) in *.
  assert (Hflags : forall x,
            isLocked (hserial w2 x) = isLocked (hserial w x) /\
            _isLockedActive (hserial w2 x) = _isLockedActive (hserial w x) /\
            setIsLockedActive (hserial w2 x) = setIsLockedActive (hserial w x)).
  { intros x. change (hserial w2 x) with (hserial w1b x). rewrite Xe.
    destruct (Xd x) as (-> & -> & ->). rewrite Xc.
    change (hserial (with_access (set_stateMutex_locked true) w1) x)
      with (hserial w1 x). exact (X1 x). }
  assert (A2 : state_activeController (access w2) = n) by exact Ae.
  assert (C2 : state_currentController (access w2)
               = if also then n else state_currentController (access w)).
  { change (state_currentController (access w2))
      with (state_currentController (access w1b)). rewrite Ce.
    destruct also; [reflexivity|]. rewrite Cd, Cc. exact C1. }
  destruct (state_activeController (access w)) as [o|] eqn:Hold;
    cbn [call_if_present] in H3.
  - pose proof (callback_didMakeInactive o w2) as Hm. rewrite H3 in Hm.
    destruct (Hm eq_refl) as (C3 & A3 & S3 & O3 & F3). cbn [snd] in *.
    split; [|congruence].
    split; [congruence|split; [|split]].
    + intros x. rewrite S3. now destruct (Hflags x) as (_ & _ & ?).
    + intros x Hx. destruct (Hflags x) as (<- & <- & _). apply O3.
      destruct Hx as [Hx|Hx]; [left; congruence|].
      destruct (Nat.eq_dec x o) as [->|Hne]; [now right|now left].
    + intros o' E Hclass. rewrite Hold in E. injection E as <-. now apply F3.
  - injection H3 as _ E. rewrite <- E. split; [|exact C2].
    split; [exact A2|split; [|split]].
    + intros x. now destruct (Hflags x) as (_ & _ & ?).
    + intros x _. destruct (Hflags x) as (? & ? & _). auto.
    + intros o Eo. rewrite Hold in Eo. discriminate Eo.
Qed.

(** A transition, made or not, keeps the discipline. *)
Lemma transitioned_guards but n w w' :
  transitioned cfg n w w' -> guards cfg but w w'.
Proof.
  intros (Ha & _ & Ho & Hf) Hinv x Hclass Hact.
  assert (Hdec : state_activeController (access w) = Some x \/
                 state_activeController (access w) <> Some x).
  { destruct (state_activeController (access w)) as [o|]; [|right; discriminate].
    destruct (Nat.eq_dec o x) as [->|Hne]; [now left|right; congruence]. }
  destruct Hdec as [E|E].
  - destruct (Hf x E Hclass) as [-> ->]. auto.
  - destruct (Ho x (or_introl E)) as [-> ->]. now apply Hinv.
Qed.

Lemma guards_performTransition but n also :
  frames false (guards cfg but) (performTransition cfg invoke n also).
Proof.
  intros w Hr. destruct (performTransition cfg invoke n also w) as [r w'] eqn:E.
  cbn [fst snd] in *. destruct r as [[]|e| | |]; try discriminate.
  - apply (transitioned_guards but n).
    exact (proj1 (performTransition_transitioned n also w tt w' E)).
  - apply steady_guards.
    pose proof (carries_performTransition cfg invoke steady_dispatch n also
                  w e) as Hs.
    rewrite E in Hs. now apply Hs.
Qed.

Lemma transitioned_placid_l n w w0 w1 :
  placid w w0 -> transitioned cfg n w0 w1 -> transitioned cfg n w w1.
Proof.
  intros (Hc & Ha & Hx) (Tn & Ts & To & Tf). unfold transitioned.
  rewrite <- Ha. split; [exact Tn|split; [|split]].
  - intros x. rewrite Ts. now destruct (Hx x) as (_ & _ & ?).
  - intros x Hor. destruct (To x Hor) as [-> ->].
    destruct (Hx x) as (? & ? & _). auto.
  - exact Tf.
Qed.

Lemma transitioned_placid_r n w w1 w2 :
  transitioned cfg n w w1 -> placid w1 w2 -> transitioned cfg n w w2.
Proof.
  intros (Tn & Ts & To & Tf) (Hc & Ha & Hx). unfold transitioned.
  split; [congruence|split; [|split]].
  - intros x. destruct (Hx x) as (_ & _ & ->). apply Ts.
  - intros x Hor. destruct (Hx x) as (-> & -> & _). now apply To.
  - intros o Ho Hclass. destruct (Hx o) as (-> & -> & _). now apply Tf.
Qed.

Lemma engaged_placid_r c w w1 w2 :
  engaged cfg c w w1 -> placid w1 w2 -> engaged cfg c w w2.
Proof.
  intros (Ec & Ea & Es & Eo & Ef) (Hc & Ha & Hx). unfold engaged.
  split; [congruence|split; [congruence|split; [|split]]].
  - intros x. destruct (Hx x) as (_ & _ & ->). apply Es.
  - intros x Hor. destruct (Hx x) as (-> & -> & _). now apply Eo.
  - intros Hclass. destruct (Hx c) as (-> & -> & _). now apply Ef.
Qed.

Lemma changed_placid_l n w w0 w1 :
  placid w w0 -> changed cfg n w0 w1 -> changed cfg n w w1.
Proof.
  intros Hp. destruct n as [c|]; simpl.
  - intros (w' & Ht & He). exists w'. split; [|exact He].
    now apply (transitioned_placid_l _ w w0).
  - now apply transitioned_placid_l.
Qed.

Lemma changed_placid_r n w w1 w2 :
  changed cfg n w w1 -> placid w1 w2 -> changed cfg n w w2.
Proof.
  destruct n as [c|]; simpl.
  - intros (w' & Ht & He) Hp. exists w'. split; [exact Ht|].
    now apply (engaged_placid_r c w' w1).
  - apply transitioned_placid_r.
Qed.

Lemma engaged_guards but c w w' :
  state_activeController (access w) = Some c ->
  engaged cfg c w w' -> guards cfg but w w'.
Proof.
  intros Hact (Ec & Ea & Es & Eo & Ef) Hinv x Hclass Hx.
  rewrite Ea, Hact in Hx.
  destruct (Eo x) as [-> ->]; [left; congruence|].
  apply Hinv; [exact Hclass|]. now rewrite Hact.
Qed.

Lemma changed_guards but n w w' : changed cfg n w w' -> guards cfg but w w'.
Proof.
  destruct n as [c|]; simpl.
  - intros (w1 & Ht & He). transitivity w1.
    + now apply (transitioned_guards but (Some c)).
    + apply (engaged_guards but c); [exact (proj1 Ht)|exact He].
  - apply transitioned_guards.
Qed.

Lemma bind_cases {A B} (m : M A) (k : A -> M B) w :
  (exists a w1, m w = (Ok a, w1) /\ bind m k w = k a w1) \/
  (exists r w1, m w = (r, w1) /\ (forall a, r <> Ok a) /\
                bind m k w = (stop r, w1)).
Proof.
  unfold bind. destruct (m w) as [r w1].
  destruct r as [a|e| | |];
    [left; exists a, w1; auto|right..];
    eexists _, w1; (split; [reflexivity|split; [discriminate|reflexivity]]).
Qed.

Lemma placid_willRemove_loop xs : forall nl w,
  returns (fst (fst (willRemove_loop invoke xs nl w))) = true ->
  placid w (snd (willRemove_loop invoke xs nl w)).
Proof.
  induction xs as [|x xs IH]; intros nl w; simpl.
  - reflexivity.
  - pose proof (placid_callback x WillRemove eq_refl w) as Hc.
    destruct (callback invoke x WillRemove w) as [r w1]. simpl in Hc.
    destruct r; simpl; intros H; try discriminate; try (now apply Hc).
    transitivity w1; [now apply Hc | now apply IH].
Qed.

Lemma tryRemoveAndTransition_transitioned n old w u notified w1 :
  tryRemoveAndTransition cfg invoke n old w = (Ok u, notified, w1) ->
  transitioned cfg n w w1.
Proof.
  unfold tryRemoveAndTransition,
    store_concurrentActiveControllerChangeAllowed at 1, modify.
  set (ws := with_access (set_concurrentActiveControllerChangeAllowed true) w).
  assert (Hs : placid w ws) by (unfold placid; simpl; auto).
  pose proof (placid_willRemove_loop old [] ws) as Hl.
  destruct (willRemove_loop invoke old [] ws) as [[rl nl] wl]. simpl in Hl.
  destruct rl as [[]|e'| | |]; try discriminate.
  unfold bind, store_concurrentActiveControllerChangeAllowed, modify.
  set (wq := with_access (set_concurrentActiveControllerChangeAllowed false) wl).
  assert (Hq : placid wl wq) by (unfold placid; simpl; auto).
  destruct (performTransition cfg invoke n true wq) as [rp wp] eqn:E.
  intros [= -> <- <-].
  apply (transitioned_placid_l n w wq).
  - transitivity ws; [exact Hs|]. transitivity wl; [now apply Hl|exact Hq].
  - exact (proj1 (performTransition_transitioned n true wq u wp E)).
Qed.

Lemma engaged_placid_l c w w0 w1 :
  placid w w0 -> engaged cfg c w0 w1 -> engaged cfg c w w1.
Proof.
  intros (Hc & Ha & Hx) (Ec & Ea & Es & Eo & Ef). unfold engaged.
  split; [congruence|split; [congruence|split; [|split]]].
  - intros x. rewrite Es. now destruct (Hx x) as (_ & _ & ?).
  - intros x Hor. destruct (Eo x Hor) as [-> ->].
    destruct (Hx x) as (? & ? & _). auto.
  - intros Hclass. destruct (Ef Hclass) as [-> ->].
    destruct (Hx c) as (_ & _ & ->). auto.
Qed.

(** A step that changes nothing and throws nothing, before the new
    active controller's didMakeActive. *)
Lemma engaged_bind_l c {A B} (m : M A) (k : A -> M B) :
  frames false placid m -> never any_exn m ->
  (forall a, frames false (engaged cfg c) (k a)) ->
  frames false (engaged cfg c) (bind m k).
Proof.
  intros Hm Hn Hk w Hr.
  destruct (bind_cases m k w) as [(a & w1 & E & Eb)|(r & w1 & E & Hno & Eb)];
    rewrite Eb in *.
  - apply (engaged_placid_l c w w1).
    + specialize (Hm w). rewrite E in Hm. now apply Hm.
    + now apply Hk.
  - exfalso. destruct r as [a0|e| | |]; try discriminate Hr.
    specialize (Hn w e). rewrite E in Hn. discriminate (Hn eq_refl).
Qed.

Lemma never_getControllersList c :
  never any_exn (getControllersList cfg fuel c).
Proof.
  unfold getControllersList.
  destruct (Delegation.getControllersList fuel (delegates cfg) c);
    [apply never_ret|apply never_out_of_fuel].
Qed.

(** The notifications that follow the try block of a current controller
    change. *)
Lemma after_try_changed n xs w w1 :
  transitioned cfg n w w1 ->
  returns (fst ((for_each xs (fun x => callback invoke x DidRemove) ;;
                 match n with
                 | Some c =>
                     newAccessList <- getControllersList cfg fuel c ;;
                     for_each (rev newAccessList)
                       (fun x => callback invoke x DidAdd) ;;
                     callback invoke c DidMakeActive
                 | None => ret tt
                 end) w1)) = true ->
  changed cfg n w
    (snd ((for_each xs (fun x => callback invoke x DidRemove) ;;
           match n with
           | Some c =>
               newAccessList <- getControllersList cfg fuel c ;;
               for_each (rev newAccessList)
                 (fun x => callback invoke x DidAdd) ;;
               callback invoke c DidMakeActive
           | None => ret tt
           end) w1)).
Proof.
  intros Ht.
  assert (Hrem : frames false placid
                   (for_each xs (fun x => callback invoke x DidRemove))).
  { apply frames_for_each; [typeclasses eauto|intros x].
    now apply placid_callback. }
  assert (Hnev : never any_exn
                   (for_each xs (fun x => callback invoke x DidRemove))).
  { apply never_for_each. intros x. now apply never_callback. }
  destruct n as [c|]; cbn [changed].
  - intros Hr. exists w1. split; [exact Ht|]. revert Hr.
    apply (engaged_bind_l c); [exact Hrem|exact Hnev|intros _].
    apply engaged_bind_l;
      [apply placid_getControllersList|apply never_getControllersList|].
    intros ys. apply engaged_bind_l.
    + apply frames_for_each; [typeclasses eauto|intros x].
      now apply placid_callback.
    + apply never_for_each. intros x. now apply never_callback.
    + intros _ w2 Hr. now apply callback_didMakeActive.
  - intros Hr. apply (transitioned_placid_r None w w1); [exact Ht|].
    revert Hr. apply (frames_bind false placid); [exact Hrem|intros _].
    apply frames_ret; typeclasses eauto.
Qed.

Section Ends.

Variable n : option ctrl.
Variable P : World -> Prop.
Hypothesis P_placid : forall w w1, placid w w1 -> P w1 -> P w.

Lemma ends_guards but {A} (m : M A) :
  ends cfg n P m -> frames false (guards cfg but) m.
Proof.
  intros H w Hr. destruct (H w Hr) as [[Hs _]|Hc];
    [now apply steady_guards|now apply (changed_guards but n)].
Qed.

Lemma ends_placid {A} (m : M A) :
  frames false placid m -> (forall w, P w) -> ends cfg n P m.
Proof. intros H HP w Hr. left. split; [now apply placid_steady, H|auto]. Qed.

Lemma ends_throw {A} e : ends cfg n P (@throw A e).
Proof.
  intros w Hr. left. split; [reflexivity|]. intros [a Ha]. discriminate Ha.
Qed.

Lemma ends_at_ret {A} (a : A) w : P w -> ends_at cfg n P (ret a) w.
Proof. intros HP Hr. left. split; [reflexivity|auto]. Qed.

(** Steps that change nothing around a request. *)
Lemma ends_bind_l {A B} (m : M A) (k : A -> M B) :
  frames false placid m ->
  (forall a, ends cfg n P (k a)) ->
  ends cfg n P (bind m k).
Proof.
  intros Hm Hk w Hr.
  destruct (bind_cases m k w) as [(a & w1 & E & Eb)|(r & w1 & E & Hno & Eb)];
    rewrite Eb in *; specialize (Hm w); rewrite E in Hm; cbn [fst snd] in Hm.
  - specialize (Hm eq_refl).
    destruct (Hk a w1 Hr) as [[Hs HP]|Hc].
    + left. split; [transitivity w1; auto using placid_steady|].
      intros Hok. apply (P_placid w w1 Hm). now apply HP.
    + right. now apply (changed_placid_l n w w1).
  - left. cbn [fst snd] in *. split.
    + apply placid_steady, Hm. destruct r; try discriminate Hr; reflexivity.
    + intros [b Hb]. destruct r; discriminate Hb.
Qed.

Lemma ends_bind_gets {A B} (f : World -> A) (k : A -> M B) :
  (forall w, ends_at cfg n P (k (f w)) w) -> ends cfg n P (bind (gets f) k).
Proof. intros H w. exact (H w). Qed.

Lemma ends_scope_exit {A} dtor (body : M A) :
  frames false placid dtor ->
  ends cfg n P body ->
  ends cfg n P (scope_exit dtor body).
Proof.
  intros Hd Hb w. unfold ends_at, scope_exit. specialize (Hb w).
  unfold ends_at in Hb.
  destruct (body w) as [r w1]. cbn [fst snd] in Hb.
  destruct r as [a|e| | |]; cbn [fst snd]; try exact Hb.
  - specialize (Hd w1). destruct (dtor w1) as [r2 w2]. cbn [fst snd] in Hd.
    destruct r2; cbn [fst snd stop returns]; intros H; try discriminate H;
      (destruct (Hb eq_refl) as [[Hs HP]|Hc];
       [left; split;
        [transitivity w1; [exact Hs|now apply placid_steady, Hd]
        |intros [b Hok]; try discriminate Hok; apply HP; eauto]
       |right; apply (changed_placid_r n w w1); auto]).
  - specialize (Hd w1). destruct (dtor w1) as [r2 w2]. cbn [fst snd] in Hd.
    destruct r2; cbn [fst snd stop returns]; intros H; try discriminate H;
      (destruct (Hb eq_refl) as [[Hs HP]|Hc];
       [left; split;
        [transitivity w1; [exact Hs|now apply placid_steady, Hd]
        |intros [b Hok]; discriminate Hok]
       |right; apply (changed_placid_r n w w1); auto]).
Qed.

Lemma ends_performActiveControllerChange :
  ends cfg n P (performActiveControllerChange cfg invoke n).
Proof.
  unfold performActiveControllerChange.
  apply ends_scope_exit; [apply placid_AccessUnblocker_dtor|].
  intros w Hr.
  match type of Hr with
  | context [bind ?m ?k w] =>
      destruct (bind_cases m k w)
        as [(a & w1 & E & Eb)|(r & w1 & E & Hno & Eb)]
  end; rewrite Eb in *.
  - right. destruct a.
    pose proof (proj1 (performTransition_transitioned n false w tt w1 E)) as Ht.
    destruct n as [c|]; cbn [call_if_present changed] in *.
    + exists w1. split; [exact Ht|]. now apply callback_didMakeActive.
    + exact Ht.
  - left. cbn [fst snd] in *.
    destruct r as [a|e| | |]; try discriminate Hr. split.
    + pose proof (carries_performTransition cfg invoke steady_dispatch n false
                    w e) as Hs.
      rewrite E in Hs. now apply Hs.
    + intros [b Hb]. discriminate Hb.
Qed.

Lemma ends_performCurrentControllerChange :
  ends cfg n P (performCurrentControllerChange cfg fuel invoke n).
Proof.
  unfold performCurrentControllerChange.
  apply ends_scope_exit; [apply placid_AccessUnblocker_dtor|].
  apply ends_bind_l; [apply frames_gets; typeclasses eauto|intros old].
  apply ends_bind_l.
  { destruct old; [apply placid_getControllersList
                  |apply frames_ret; typeclasses eauto]. }
  intros xs w Hr.
  match type of Hr with
  | context [bind ?m ?k w] =>
      destruct (bind_cases m k w)
        as [(a & w1 & E & Eb)|(r & w1 & E & Hno & Eb)]
  end; rewrite Eb in *; cbv beta in E.
  - destruct (tryRemoveAndTransition cfg invoke n xs w) as [[r nl] w0] eqn:Et.
    destruct r as [[]|e| | |]; try discriminate E.
    + injection E as _ <-. right.
      apply after_try_changed; [|exact Hr].
      exact (tryRemoveAndTransition_transitioned n xs w tt nl w0 Et).
    + exfalso. revert E. unfold bind, store_concurrentActiveControllerChangeAllowed,
        modify, throw.
      destruct (for_each nl _ _) as [[[]|e'| | |] wf]; discriminate.
  - left. cbn [fst snd] in *. split;
      [|intros [b Hb]; destruct r; discriminate Hb].
    destruct (tryRemoveAndTransition cfg invoke n xs w) as [[r0 nl] w0] eqn:Et.
    destruct r0 as [[]|e| | |].
    + injection E as <- <-. now destruct (Hno tt).
    + transitivity w0;
        [exact (tryRemoveAndTransition_throws cfg invoke steady_dispatch
                  n xs w e nl w0 Et)|].
      apply placid_steady.
      assert (Hh : frames false placid
                (store_concurrentActiveControllerChangeAllowed true ;;
                 for_each nl (fun x => callback invoke x DidCancelRemove) ;;
                 @throw unit e)).
      { apply frames_bind; [typeclasses eauto| |intros _].
        - unfold store_concurrentActiveControllerChangeAllowed. placid_leaf.
        - apply frames_bind; [typeclasses eauto| |intros _].
          + apply frames_for_each; [typeclasses eauto|intros x].
            now apply placid_callback.
          + apply frames_throw; typeclasses eauto. }
      specialize (Hh w0). rewrite E in Hh. apply Hh.
      cbn [fst snd] in Hr |- *. destruct r; try discriminate Hr; reflexivity.
    + injection E as <- <-. discriminate Hr.
    + injection E as <- <-. discriminate Hr.
    + injection E as <- <-. discriminate Hr.
Qed.

End Ends.

Lemma active_placid (a : option ctrl) w w1 :
  placid w w1 ->
  state_activeController (access w1) = a ->
  state_activeController (access w) = a.
Proof. intros (_ & Ha & _) H. congruence. Qed.

Lemma inactive_placid c w w1 :
  placid w w1 ->
  state_activeController (access w1) <> Some c ->
  state_activeController (access w) <> Some c.
Proof. intros (_ & Ha & _) H. congruence. Qed.

Lemma ends_makeActive c :
  ends cfg (Some c) (fun w => state_activeController (access w) = Some c)
    (makeActive cfg fuel invoke c).
Proof.
  pose proof (active_placid (Some c)) as HP.
  assert (Hchange : ends cfg (Some c)
            (fun w => state_activeController (access w) = Some c)
            (active <- gets (fun w => state_activeController (access w)) ;;
             when (negb (opt_eqb (Some c) active))
               (performActiveControllerChange cfg invoke (Some c)))).
  { apply ends_bind_gets. intros w.
    destruct (opt_eqb (Some c) (state_activeController (access w))) eqn:Eq;
      cbn [negb when].
    - apply ends_at_ret. symmetry. now apply opt_eqb_true.
    - now apply ends_performActiveControllerChange. }
  unfold makeActive.
  apply ends_bind_l; [exact HP|apply placid_shouldPerform|].
  intros [|]; [exact Hchange|].
  apply ends_bind_l; [exact HP|apply placid_TransitionBlocker_ctor|intros _].
  apply ends_scope_exit; [apply placid_TransitionBlocker_dtor|].
  apply ends_bind_l; [exact HP|apply placid_isInAccessList|].
  intros [|]; [exact Hchange|].
  now apply ends_performCurrentControllerChange.
Qed.

Lemma ends_makeInactive c :
  ends cfg None (fun w => state_activeController (access w) <> Some c)
    (makeInactive cfg fuel invoke c).
Proof.
  pose proof (inactive_placid c) as HP.
  assert (Hchange : ends cfg None
            (fun w => state_activeController (access w) <> Some c)
            (active <- gets (fun w => state_activeController (access w)) ;;
             when (opt_eqb (Some c) active)
               (performActiveControllerChange cfg invoke None))).
  { apply ends_bind_gets. intros w.
    destruct (opt_eqb (Some c) (state_activeController (access w))) eqn:Eq;
      cbn [when].
    - now apply ends_performActiveControllerChange.
    - apply ends_at_ret. intros E. apply (opt_eqb_false _ _ Eq). now rewrite E. }
  unfold makeInactive.
  apply ends_bind_l; [exact HP|apply placid_shouldPerform|].
  intros [|]; [exact Hchange|].
  apply ends_bind_l; [exact HP|apply placid_TransitionBlocker_ctor|intros _].
  apply ends_scope_exit; [apply placid_TransitionBlocker_dtor|].
  exact Hchange.
Qed.

Lemma ends_removeFromAccess c :
  ends cfg None (fun _ => True) (removeFromAccess cfg fuel invoke c).
Proof.
  assert (HP : forall w w1 : World, placid w w1 -> True -> True) by auto.
  unfold removeFromAccess.
  apply ends_bind_l; [exact HP|apply placid_TransitionBlocker_ctor|intros _].
  apply ends_scope_exit; [apply placid_TransitionBlocker_dtor|].
  apply ends_bind_l; [exact HP|apply placid_isInAccessList|].
  intros [|].
  - apply ends_bind_gets. intros w.
    destruct (opt_eqb (Some c) (state_currentController (access w))).
    + now apply ends_performCurrentControllerChange.
    + apply ends_throw.
  - intros w. now apply ends_at_ret.
Qed.

(** *** The access management functions of a controller *)

Lemma guards_with_AccessManagementGuard but c (m : M unit) :
  frames false (guards cfg but) m ->
  frames false (guards cfg but) (with_AccessManagementGuard cfg c m).
Proof.
  intros H. unfold with_AccessManagementGuard.
  apply frames_bind; [typeclasses eauto| |intros _].
  - apply frames_placid_guards, placid_AccessManagementGuard_ctor.
  - apply frames_scope_exit; [typeclasses eauto| |exact H].
    apply frames_placid_guards, placid_AccessManagementGuard_dtor.
Qed.

Lemma guards_controller_makeActive c :
  frames false (guards cfg None) (controller_makeActive cfg fuel invoke c).
Proof.
  pose proof (ends_guards (Some c) _ None _ (ends_makeActive c)) as H.
  unfold controller_makeActive, HSerial_makeActive.
  destruct (class_of cfg c); [exact H|].
  apply guards_with_AccessManagementGuard.
  apply frames_bind; [typeclasses eauto| |intros _; exact H].
  apply frames_modify. intros w. apply steady_guards.
  unfold steady, with_hserial; simpl.
  repeat split; intros; destruct (Nat.eqb _ _); reflexivity.
Qed.

Lemma guards_controller_makeInactive c :
  frames false (guards cfg None) (controller_makeInactive cfg fuel invoke c).
Proof.
  pose proof (ends_guards None _ None _ (ends_makeInactive c)) as H.
  unfold controller_makeInactive, HSerial_makeInactive.
  destruct (class_of cfg c); [exact H|].
  now apply guards_with_AccessManagementGuard.
Qed.

Lemma guards_controller_removeFromAccess c :
  frames false (guards cfg None) (controller_removeFromAccess cfg fuel invoke c).
Proof.
  pose proof (ends_guards None _ None _ (ends_removeFromAccess c)) as H.
  unfold controller_removeFromAccess, HSerial_removeFromAccess.
  destruct (class_of cfg c); [exact H|].
  now apply guards_with_AccessManagementGuard.
Qed.

(** [makeActive] that returns normally has made the controller active,
    and a lock asked for beforehand is in place. *)
Lemma makeActive_Ok_locks c w w' :
  makeActive cfg fuel invoke c w = (Ok tt, w') ->
  state_activeController (access w') = Some c /\
  (isLocked (hserial w c) = true ->
   setIsLockedActive (hserial w c) = true ->
   isLocked (hserial w' c) = true).
Proof.
  intros H. pose proof (ends_makeActive c w) as He. unfold ends_at in He.
  rewrite H in He. cbn [fst snd] in He.
  destruct (He eq_refl) as [[(Hc & Ha & Hx) HP]|(w1 & Ht & Hen)].
  - split; [rewrite Ha; apply HP; now exists tt|].
    intros Hl _. now destruct (Hx c) as [-> _].
  - destruct Ht as (Tn & Ts & To & Tf).
    destruct Hen as (Ec & Ea & Es & Eo & Ef).
    split; [congruence|]. intros Hl Hs.
    destruct (class_of cfg c) as [name ov|] eqn:Hclass.
    + destruct (Eo c) as [-> _]; [right; congruence|].
      destruct (To c) as [-> _]; [right; congruence|]. exact Hl.
    + destruct (Ef eq_refl) as [-> _]. now rewrite Ts.
Qed.

Lemma with_isLockedMutex_modify c f w :
  with_isLockedMutex c (modify (with_hserial c f)) w
  = if isLockedMutex_locked (hserial w c) then (Blocked, w)
    else (Ok tt,
          with_hserial c (set_isLockedMutex_locked false)
            (with_hserial c f
               (with_hserial c (set_isLockedMutex_locked true) w))).
Proof.
  unfold with_isLockedMutex, lock_isLockedMutex, unlock_isLockedMutex,
    scope_exit, bind, modify.
  destruct (isLockedMutex_locked (hserial w c)); reflexivity.
Qed.

Lemma hserial_with_hserial_other c f w x :
  x <> c -> hserial (with_hserial c f w) x = hserial w x.
Proof. intros H. simpl. apply Nat.eqb_neq in H. now rewrite H. Qed.

Lemma hserial_with_hserial_same c f w :
  hserial (with_hserial c f w) c = f (hserial w c).
Proof. simpl. now rewrite Nat.eqb_refl. Qed.

Lemma guards_makeLockedActive c :
  frames false (guards cfg None) (HSerial_makeLockedActive cfg fuel invoke c).
Proof.
  unfold HSerial_makeLockedActive. apply guards_with_AccessManagementGuard.
  intros w Hr Hinv.
  match type of Hr with
  | context [fst (?body w)] => destruct (body w) as [r0 w'] eqn:Eb
  end.
  cbn [fst snd orb] in *. revert Eb.
  unfold bind at 1, modify at 1. cbv beta iota.
  set (w1 := with_hserial c (set_setIsLockedActive true) w).
  unfold bind at 1. rewrite with_isLockedMutex_modify.
  destruct (isLockedMutex_locked (hserial w1 c));
    [intros [= <- <-]; discriminate Hr|].
  set (w2 := with_hserial c (set_isLockedMutex_locked false) _).
  assert (Hinv2 : lock_discipline_but cfg (Some c) w2).
  { intros x Hclass Hact. destruct (Nat.eq_dec x c) as [->|Hne].
    - split; [|congruence]. subst w2 w1.
      rewrite !hserial_with_hserial_same. simpl. now apply Hinv.
    - subst w2 w1. rewrite !hserial_with_hserial_other by exact Hne.
      split; [now apply Hinv|intros _; apply Hinv; auto; discriminate]. }
  clearbody w2. clear w1 Hinv.
  unfold bind at 1, catch_rethrow.
  pose proof (ends_guards (Some c) _ (Some c) _ (ends_makeActive c) w2) as Hg.
  destruct (makeActive cfg fuel invoke c w2) as [r w3] eqn:E.
  cbn [fst snd] in Hg.
  destruct r as [[]|e| | |];
    try (intros [= <- <-]; discriminate Hr).
  - specialize (Hg eq_refl Hinv2).
    destruct (makeActive_Ok_locks c w2 w3 E) as [Ha _].
    rewrite with_isLockedMutex_modify.
    destruct (isLockedMutex_locked (hserial w3 c));
      [intros [= <- <-]; discriminate Hr|].
    intros [= _ <-] x Hclass Hact.
    assert (Hne : x <> c).
    { intros ->. apply Hact. exact Ha. }
    rewrite !hserial_with_hserial_other by exact Hne.
    destruct (Hg x Hclass) as [H1 H2]; [rewrite Ha; congruence|].
    split; [exact H1|intros _; apply H2; congruence].
  - specialize (Hg eq_refl Hinv2).
    unfold isActive, bind, gets, ret. cbv beta iota.
    destruct (opt_eqb (Some c) (state_activeController (access w3))) eqn:Eq;
      cbn [negb when].
    + apply opt_eqb_true in Eq. unfold ret. cbv beta iota.
      intros [= _ <-] x Hclass Hact.
      assert (Hne : x <> c) by (intros ->; apply Hact; now rewrite <- Eq).
      destruct (Hg x Hclass Hact) as [H1 H2].
      split; [exact H1|intros _; apply H2; congruence].
    + apply opt_eqb_false in Eq. rewrite with_isLockedMutex_modify.
      destruct (isLockedMutex_locked (hserial w3 c));
        [intros [= <- <-]; discriminate Hr|].
      cbn [fst snd stop returns]. intros [= _ <-] x Hclass Hact.
      destruct (Nat.eq_dec x c) as [->|Hne].
      * rewrite !hserial_with_hserial_same. simpl.
        split; [|reflexivity]. now apply Hg.
      * rewrite !hserial_with_hserial_other by exact Hne.
        destruct (Hg x Hclass Hact) as [H1 H2].
        split; [exact H1|intros _; apply H2; congruence].
Qed.

Lemma guards_unlockActive c :
  frames false (guards cfg None) (HSerial_unlockActive cfg c).
Proof.
  unfold HSerial_unlockActive. apply guards_with_AccessManagementGuard.
  unfold with_isLockedMutex.
  apply frames_bind; [typeclasses eauto| |intros _].
  { apply frames_placid_guards, placid_lock_isLockedMutex. }
  apply frames_scope_exit; [typeclasses eauto| |].
  { apply frames_placid_guards, placid_unlock_isLockedMutex. }
  apply frames_bind; [typeclasses eauto| |intros _];
    apply frames_modify; unfold guards, lock_discipline_but;
    intros w Hinv x Hclass Hact;
    destruct (Hinv x Hclass Hact) as [H1 H2];
    (destruct (Nat.eq_dec x c) as [E|Hne];
     [rewrite E in *; rewrite hserial_with_hserial_same; simpl
     |rewrite hserial_with_hserial_other by exact Hne]; auto).
Qed.

End LockFlags.

Lemma plain_lock_discipline :
  lock_discipline Examples.plain_cfg
    (Examples.after_makeLockedActive Examples.plain_cfg 3).
Proof.
  unfold lock_discipline, lock_discipline_but.
  intros x Hclass Hact.
  destruct (Nat.eq_dec x 3) as [E3|E3].
  - exfalso. apply Hact. rewrite E3. vm_compute. reflexivity.
  - destruct (Nat.eq_dec x 4) as [E4|E4].
    + rewrite E4. split; [|intros _]; vm_compute; reflexivity.
    + apply Nat.eqb_neq in E3, E4. simpl in Hclass.
      rewrite E3, E4 in Hclass. discriminate Hclass.
Qed.

(** X17.  HSerial's design guarantee -- [isLocked] and [_isLockedActive]
    are false whenever the controller is not the active controller -- is
    kept by every access management request that returns, normally or
    with an exception: makeActive, makeInactive and removeFromAccess of
    any controller, and makeLockedActive and unlockActive; provided the
    overridden callbacks make no access management requests of their
    own. *)
Theorem lock_flags_only_while_active cfg fuel c w :
  passive_callbacks cfg ->
  lock_discipline cfg w ->
  (returns (fst (Run.controller_makeActive cfg fuel c w)) = true ->
   lock_discipline cfg (snd (Run.controller_makeActive cfg fuel c w))) /\
  (returns (fst (Run.controller_makeInactive cfg fuel c w)) = true ->
   lock_discipline cfg (snd (Run.controller_makeInactive cfg fuel c w))) /\
  (returns (fst (Run.controller_removeFromAccess cfg fuel c w)) = true ->
   lock_discipline cfg (snd (Run.controller_removeFromAccess cfg fuel c w))) /\
  (returns (fst (Run.HSerial_makeLockedActive cfg fuel c w)) = true ->
   lock_discipline cfg (snd (Run.HSerial_makeLockedActive cfg fuel c w))) /\
  (returns (fst (HSerial_unlockActive cfg c w)) = true ->
   lock_discipline cfg (snd (HSerial_unlockActive cfg c w))).
Proof.
  intros Hpass Hinv. split; [|split; [|split; [|split]]]; intros Hr.
  - exact (guards_controller_makeActive cfg fuel Hpass c w Hr Hinv).
  - exact (guards_controller_makeInactive cfg fuel Hpass c w Hr Hinv).
  - exact (guards_controller_removeFromAccess cfg fuel Hpass c w Hr Hinv).
  - exact (guards_makeLockedActive cfg fuel Hpass c w Hr Hinv).
  - exact (guards_unlockActive cfg c w Hr Hinv).
Qed.

Lemma lock_flags_only_while_active_witness :
  lock_discipline Examples.plain_cfg
    (snd (Run.controller_makeInactive Examples.plain_cfg 5 3
            (Examples.after_makeLockedActive Examples.plain_cfg 3))).
Proof.
  apply (proj1 (proj2 (lock_flags_only_while_active Examples.plain_cfg 5 3
                         (Examples.after_makeLockedActive Examples.plain_cfg 3)
                         plain_passive plain_lock_discipline))).
  vm_compute. reflexivity.
Defined.

(** X18.  When makeLockedActive returns normally the controller is locked
    active: it is the active controller and both [isLocked] and
    [_isLockedActive] are set -- provided the overridden callbacks make
    no access management requests of their own. *)
Theorem makeLockedActive_locks cfg fuel c w w' :
  passive_callbacks cfg ->
  Run.HSerial_makeLockedActive cfg fuel c w = (Ok tt, w') ->
  state_activeController (access w') = Some c /\
  isLocked (hserial w' c) = true /\
  _isLockedActive (hserial w' c) = true.
Proof.
  intros Hpass H.
  unfold Run.HSerial_makeLockedActive, HSerial_makeLockedActive,
    with_AccessManagementGuard in H.
  apply bind_Ok in H. destruct H as ([] & w0 & _ & H).
  apply scope_exit_Ok in H. destruct H as (w4 & H & Hd).
  apply AccessManagementGuard_dtor_Ok in Hd.
  destruct Hd as (-> & _ & -> & ->).
  apply bind_Ok in H. destruct H as ([] & w1 & H1 & H).
  unfold modify in H1. injection H1 as <-.
  apply bind_Ok in H. destruct H as ([] & w2 & H2 & H).
  rewrite with_isLockedMutex_modify in H2.
  destruct (isLockedMutex_locked _); [discriminate H2|]. injection H2 as <-.
  apply bind_Ok in H. destruct H as ([] & w3 & H3 & H).
  apply catch_rethrow_Ok in H3.
  destruct (makeActive_Ok_locks cfg fuel Hpass c _ w3 H3) as [Ha Hl].
  rewrite !hserial_with_hserial_same in Hl. specialize (Hl eq_refl eq_refl).
  rewrite with_isLockedMutex_modify in H.
  destruct (isLockedMutex_locked _); [discriminate H|]. injection H as <-.
  rewrite !hserial_with_hserial_same. simpl. auto.
Qed.

Lemma makeLockedActive_locks_witness :
  state_activeController
    (access (snd (Run.HSerial_makeLockedActive Examples.plain_cfg 5 3
                    Examples.initial_world))) = Some 3 /\
  isLocked
    (hserial (snd (Run.HSerial_makeLockedActive Examples.plain_cfg 5 3
                     Examples.initial_world)) 3) = true /\
  _isLockedActive
    (hserial (snd (Run.HSerial_makeLockedActive Examples.plain_cfg 5 3
                     Examples.initial_world)) 3) = true.
Proof.
  apply (makeLockedActive_locks Examples.plain_cfg 5 3 Examples.initial_world).
  - exact plain_passive.
  - apply with_snd. vm_compute. reflexivity.
Defined.

(** ** The ports registry *)

Section Registry.

Import Ports.

Lemma devices_at_app ds name n d :
  devices_at (ds ++ [(n, d)]) name
  = match devices_at ds name with
    | Some d' => Some d'
    | None => if String.eqb n name then Some d else None
    end.
Proof.
  induction ds as [|[n' d'] ds IH]; simpl.
  - reflexivity.
  - destruct (String.eqb n' name); [reflexivity|exact IH].
Qed.

Lemma getDeviceName_set_details h d desc hw d' :
  option_map deviceName (nth_error (set_details h d desc hw) d')
  = option_map deviceName (nth_error h d').
Proof.
  revert d d'. induction h as [|x h IH]; intros d d'; simpl.
  - reflexivity.
  - destruct d as [|d]; destruct d' as [|d']; simpl; auto.
Qed.

Lemma nth_error_set_details_other h d desc hw d' :
  d' <> d -> nth_error (set_details h d desc hw) d' = nth_error h d'.
Proof.
  revert d d'. induction h as [|x h IH]; intros d d' Hne; simpl.
  - reflexivity.
  - destruct d as [|d]; destruct d' as [|d']; simpl; auto; congruence.
Qed.

Lemma nth_error_set_details_same h d desc hw dev :
  nth_error h d = Some dev ->
  nth_error (set_details h d desc hw) d
  = Some {| deviceName := deviceName dev; device_description := desc;
            device_hardwareID := hw; device_access := device_access dev |}.
Proof.
  revert d. induction h as [|x h IH]; intros d; simpl.
  - destruct d; discriminate.
  - destruct d as [|d]; simpl; [intros [= ->]; reflexivity|apply IH].
Qed.

Lemma consistent_initial : consistent initial.
Proof.
  intros name d. unfold getDeviceName. simpl. destruct d; simpl; split; discriminate.
Qed.

(** Registering an unknown name. *)
Lemma consistent_create m name desc hw :
  consistent m ->
  devices_at (devices m) name = None ->
  consistent
    {| heap := heap (snd (createShared name desc hw m));
       devices := devices_insert (devices (snd (createShared name desc hw m)))
                    name (fst (createShared name desc hw m)) |}.
Proof.
  intros Hc Hnone name' d. unfold getDeviceName, devices_insert. simpl.
  rewrite Hnone, devices_at_app.
  pose proof (Hc name' d) as Hcd. unfold getDeviceName in Hcd.
  destruct (Nat.lt_trichotomy d (List.length (heap m))) as [Hlt|[->|Hgt]].
  - rewrite nth_error_app1 by exact Hlt. rewrite <- Hcd.
    destruct (devices_at (devices m) name') as [d0|] eqn:Hat; [reflexivity|].
    destruct (String.eqb_spec name name') as [->|_];
      split; try discriminate. intros [= <-]. lia.
  - rewrite nth_error_app2, Nat.sub_diag by lia. simpl.
    destruct (devices_at (devices m) name') as [d0|] eqn:Hat.
    + assert (Hd0 : option_map deviceName (nth_error (heap m) d0) = Some name')
        by (apply Hc; exact Hat).
      assert (d0 < List.length (heap m)).
      { apply nth_error_Some. intros E. rewrite E in Hd0. discriminate. }
      split.
      * intros [= ->]. lia.
      * intros [= ->]. congruence.
    + destruct (String.eqb_spec name name') as [->|Hne]; split; auto;
        try discriminate. intros [= E]. contradiction.
  - assert (Hn : nth_error (heap m ++ [{| deviceName := name;
                                          device_description := desc;
                                          device_hardwareID := hw;
                                          device_access := None |}]) d = None).
    { apply nth_error_None. rewrite length_app. simpl. lia. }
    rewrite Hn. simpl. split; [|discriminate].
    destruct (devices_at (devices m) name') as [d0|] eqn:Hat.
    + intros [= ->].
      assert (Hd0 : option_map deviceName (nth_error (heap m) d) = Some name')
        by (apply Hc; exact Hat).
      assert (d < List.length (heap m)); [|lia].
      apply nth_error_Some. intros E. rewrite E in Hd0. discriminate.
    + destruct (String.eqb name name'); [intros [= <-]; lia|discriminate].
Qed.

(** What a call of either [getDeviceInternal] does for a non-empty name:
    a known name gives its device and changes nothing, an unknown one
    gives a new device with the details passed to [createShared]. *)
Lemma lookup_or_create m name desc hw :
  consistent m ->
  let r := match devices_at (devices m) name with
           | Some d => (d, m)
           | None =>
               let (d, m1) := createShared name desc hw m in
               (d, {| heap := heap m1;
                      devices := devices_insert (devices m1) name d |})
           end in
  consistent (snd r) /\
  devices_at (devices (snd r)) name = Some (fst r) /\
  (forall n d, devices_at (devices m) n = Some d ->
               devices_at (devices (snd r)) n = Some d) /\
  (forall n, n <> name ->
             devices_at (devices (snd r)) n = devices_at (devices m) n) /\
  heap (snd r)
  = heap m ++ match devices_at (devices m) name with
              | Some _ => []
              | None => [{| deviceName := name; device_description := desc;
                            device_hardwareID := hw; device_access := None |}]
              end.
Proof.
  intros Hc. destruct (devices_at (devices m) name) as [d|] eqn:Hat; cbv zeta.
  - simpl. rewrite app_nil_r. repeat split; auto; apply Hc.
  - split; [exact (consistent_create m name desc hw Hc Hat)|].
    simpl. unfold devices_insert. rewrite Hat.
    split; [|split; [|split; [|reflexivity]]].
    + rewrite devices_at_app, Hat, String.eqb_refl. reflexivity.
    + intros n d Hnd. rewrite devices_at_app, Hnd. reflexivity.
    + intros n Hn. rewrite devices_at_app.
      destruct (devices_at (devices m) n); [reflexivity|].
      destruct (String.eqb_spec name n); [congruence|reflexivity].
Qed.

Lemma getDeviceInternal_known m name :
  consistent m -> empty name = false ->
  exists d m',
    getDeviceInternal name m = (Ok d, m') /\
    consistent m' /\
    devices_at (devices m') name = Some d /\
    (forall n d, devices_at (devices m) n = Some d ->
                 devices_at (devices m') n = Some d) /\
    (forall n, n <> name ->
               devices_at (devices m') n = devices_at (devices m) n) /\
    heap m'
    = heap m ++ match devices_at (devices m) name with
                | Some _ => []
                | None => [{| deviceName := name;
                              device_description := EmptyString;
                              device_hardwareID := EmptyString;
                              device_access := None |}]
                end.
Proof.
  intros Hc Hne.
  pose proof (lookup_or_create m name EmptyString EmptyString Hc) as H.
  cbv zeta in H. unfold getDeviceInternal. rewrite Hne.
  destruct (devices_at (devices m) name) as [d|] eqn:Hat.
  - exists d, m. split; [reflexivity|exact H].
  - unfold createShared in *. eexists _, _. split; [reflexivity|exact H].
Qed.

Lemma getDeviceInternal_info_known m info :
  consistent m ->
  consistent (snd (getDeviceInternal_info info m)) /\
  devices_at (devices (snd (getDeviceInternal_info info m))) (port info)
  = Some (fst (getDeviceInternal_info info m)) /\
  (forall n d, devices_at (devices m) n = Some d ->
               devices_at (devices (snd (getDeviceInternal_info info m))) n
               = Some d) /\
  (forall n, n <> port info ->
             devices_at (devices (snd (getDeviceInternal_info info m))) n
             = devices_at (devices m) n) /\
  heap (snd (getDeviceInternal_info info m))
  = heap m ++ match devices_at (devices m) (port info) with
              | Some _ => []
              | None => [{| deviceName := port info;
                            device_description := description info;
                            device_hardwareID := hardware_id info;
                            device_access := None |}]
              end.
Proof.
  intros Hc.
  pose proof (lookup_or_create m (port info) (description info)
                (hardware_id info) Hc) as H.
  cbv zeta in H. unfold getDeviceInternal_info.
  destruct (devices_at (devices m) (port info)) as [d|] eqn:Hat; exact H.
Qed.

Lemma grows_refl m : consistent m -> grows m m.
Proof. intros H. split; auto. Qed.

Lemma grows_trans m1 m2 m3 : grows m1 m2 -> grows m2 m3 -> grows m1 m3.
Proof. intros [_ H1] [H2 H3]. split; auto. Qed.

Lemma grows_getPorts_loop l : forall ports m,
  consistent m -> grows m (snd (getPorts_loop l ports m)).
Proof.
  induction l as [|info l IH]; intros ports m Hc; simpl.
  - now apply grows_refl.
  - destruct (empty (port info)); [now apply IH|].
    destruct (getDeviceInternal_info_known m info Hc) as (Hc1 & _ & Hk & _ & _).
    destruct (getDeviceInternal_info info m) as [d m1]. simpl in *.
    apply (grows_trans m m1); [split; assumption|now apply IH].
Qed.

Lemma grows_refreshDeviceDetails l d m :
  consistent m -> grows m (refreshDeviceDetails l d m).
Proof.
  intros Hc. unfold refreshDeviceDetails.
  destruct (nth_error (heap m) d) as [dev|]; [|now apply grows_refl].
  induction l as [|info l IH]; simpl; [now apply grows_refl|].
  destruct (String.eqb (port info) (deviceName dev)); [|exact IH].
  split; [|auto]. intros n d'.
  unfold getDeviceName, setDescriptionAndHardwareID. simpl.
  rewrite getDeviceName_set_details. apply Hc.
Qed.

Lemma grows_getDeviceInternal name m :
  consistent m -> grows m (snd (getDeviceInternal name m)).
Proof.
  intros Hc. destruct (empty name) eqn:He.
  - unfold getDeviceInternal. rewrite He. now apply grows_refl.
  - destruct (getDeviceInternal_known m name Hc He)
      as (d & m' & -> & Hc' & _ & Hk & _ & _).
    split; assumption.
Qed.

Lemma grows_serve r m : consistent m -> grows m (serve r m).
Proof.
  intros Hc. destruct r as [l|name|name|l d]; simpl.
  - now apply grows_getPorts_loop.
  - unfold portForDeviceName. destruct (empty name); [now apply grows_refl|].
    pose proof (grows_getDeviceInternal name m Hc) as H.
    destruct (getDeviceInternal name m) as [[d|e| | |] m1]; exact H.
  - now apply grows_getDeviceInternal.
  - now apply grows_refreshDeviceDetails.
Qed.

Lemma grows_serve_all rs : forall m, consistent m -> grows m (serve_all rs m).
Proof.
  induction rs as [|r rs IH]; intros m Hc; simpl.
  - now apply grows_refl.
  - pose proof (grows_serve r m Hc) as H.
    apply (grows_trans m (serve r m)); [exact H|apply IH, H].
Qed.

Lemma getDevice_Ok name m d m' :
  getDevice name m = (Ok d, m') -> empty name = false.
Proof.
  unfold getDevice, getDeviceInternal.
  destruct (empty name); [discriminate|reflexivity].
Qed.

Lemma empty_false name : empty name = false -> name <> EmptyString.
Proof. intros H ->. discriminate. Qed.

Lemma getPorts_loop_contents l : forall ports0 m,
  consistent m ->
  grows m (snd (getPorts_loop l ports0 m)) /\
  (exists more, heap (snd (getPorts_loop l ports0 m)) = heap m ++ more) /\
  (exists new,
     fst (getPorts_loop l ports0 m) = ports0 ++ new /\
     map (fun p => getDeviceName (device p) (snd (getPorts_loop l ports0 m)))
       new
     = map Some (filter (fun n => negb (empty n)) (map port l))) /\
  (forall name info,
     devices_at (devices m) name = None -> empty name = false ->
     listed l name = Some info ->
     exists d,
       devices_at (devices (snd (getPorts_loop l ports0 m))) name = Some d /\
       nth_error (heap (snd (getPorts_loop l ports0 m))) d
       = Some {| deviceName := name;
                 device_description := description info;
                 device_hardwareID := hardware_id info;
                 device_access := None |}).
Proof.
  induction l as [|info0 l IH]; intros ports0 m Hc.
  - simpl. split; [now apply grows_refl|split; [|split]].
    + exists []. now rewrite app_nil_r.
    + exists []. now rewrite app_nil_r.
    + intros name info _ _ H. discriminate.
  - cbn [getPorts_loop map filter]. destruct (empty (port info0)) eqn:He.
    + destruct (IH ports0 m Hc) as (Hk & Hh & Hn & Hl).
      cbn [negb]. split; [exact Hk|split; [exact Hh|split; [exact Hn|]]].
      intros name info Hnone Hne Hlist. apply Hl; auto.
      unfold listed in *. cbn [find] in Hlist.
      destruct (String.eqb_spec (port info0) name) as [E|_]; [|exact Hlist].
      rewrite E in He. congruence.
    + destruct (getDeviceInternal_info_known m info0 Hc)
        as (Hc1 & Hat1 & Hk1 & Ho1 & Hh1).
      destruct (getDeviceInternal_info info0 m) as [d1 m1]. cbn [fst snd] in *.
      destruct (IH (ports0 ++ [{| device := d1 |}]) m1 Hc1)
        as (Hk & (more & Hh) & (new & Hn & Hnames) & Hl).
      set (r := getPorts_loop l (ports0 ++ [{| device := d1 |}]) m1) in *.
      cbn [negb]. split; [|split; [|split]].
      * apply (grows_trans m m1); [split; assumption|exact Hk].
      * eexists. rewrite Hh, Hh1, <- app_assoc. reflexivity.
      * exists ({| device := d1 |} :: new). split.
        -- rewrite Hn, <- app_assoc. reflexivity.
        -- cbn [map device]. rewrite Hnames. f_equal.
           apply (proj1 Hk). apply (proj2 Hk). exact Hat1.
      * intros name info Hnone Hne Hlist.
        unfold listed in *. cbn [find] in Hlist.
        destruct (String.eqb_spec (port info0) name) as [E|Hdiff].
        -- injection Hlist as <-. subst name. exists d1.
           split; [apply (proj2 Hk); exact Hat1|].
           rewrite Hnone in Hh1.
           assert (Hd1 : nth_error (heap m1) d1
                         = Some {| deviceName := port info0;
                                   device_description := description info0;
                                   device_hardwareID := hardware_id info0;
                                   device_access := None |}).
           { pose proof (proj1 (Hc1 _ _) Hat1) as Hname.
             pose proof (proj2 (Hc (port info0) d1)) as Hback.
             unfold getDeviceName in *. rewrite Hh1 in Hname |- *.
             destruct (Nat.lt_ge_cases d1 (List.length (heap m))) as [Hlt|Hge].
             - rewrite nth_error_app1 in Hname by exact Hlt.
               rewrite (Hback Hname) in Hnone. discriminate.
             - rewrite nth_error_app2 in Hname |- * by exact Hge.
               destruct (d1 - List.length (heap m)) as [|k]; [reflexivity|].
               destruct k; discriminate. }
           rewrite Hh. rewrite nth_error_app1; [exact Hd1|].
           apply nth_error_Some. rewrite Hd1. discriminate.
        -- apply Hl; auto. rewrite Ho1 by congruence. exact Hnone.
Qed.

Lemma refreshDeviceDetails_loop_listed l d name m :
  refreshDeviceDetails_loop l d name m
  = match listed l name with
    | Some info =>
        setDescriptionAndHardwareID d (description info) (hardware_id info) m
    | None => m
    end.
Proof.
  unfold listed. induction l as [|info l IH]; simpl; [reflexivity|].
  destruct (String.eqb (port info) name); [reflexivity|exact IH].
Qed.

End Registry.

(** X13.  There is one device object per device name: however the manager
    has been used, two requests for a device give the same object exactly
    when they name the same device -- whatever was requested in between --
    and the object carries the name it was asked for. *)
Theorem one_device_per_name rs rs' name1 name2 d1 d2 m1 m2 :
  Ports.getDevice name1 (Ports.serve_all rs Ports.initial)
  = (Ok d1, m1) ->
  Ports.getDevice name2 (Ports.serve_all rs' m1) = (Ok d2, m2) ->
  (d1 = d2 <-> name1 = name2) /\
  Ports.getDeviceName d1 m2 = Some name1 /\
  Ports.getDeviceName d2 m2 = Some name2.
Proof.
  intros H1 H2.
  pose proof (grows_serve_all rs Ports.initial consistent_initial) as [Hc0 _].
  destruct (getDeviceInternal_known _ name1 Hc0 (getDevice_Ok _ _ _ _ H1))
    as (d & m' & E & Hc1 & Hat1 & _).
  unfold Ports.getDevice in H1. rewrite H1 in E.
  injection E as <- <-.
  pose proof (grows_serve_all rs' m1 Hc1) as [Hc1' Hk1].
  destruct (getDeviceInternal_known _ name2 Hc1' (getDevice_Ok _ _ _ _ H2))
    as (d & m' & E & Hc2 & Hat2 & Hk2 & _).
  unfold Ports.getDevice in H2. rewrite H2 in E.
  injection E as <- <-.
  assert (Hat1' : Ports.devices_at (Ports.devices m2) name1 = Some d1)
    by (apply Hk2, Hk1, Hat1).
  split; [|split; [now apply Hc2|now apply Hc2]].
  split.
  - intros <-. apply Hc2 in Hat1', Hat2. congruence.
  - intros <-. congruence.
Qed.

Lemma one_device_per_name_witness :
  (3 = 1 <-> "COM7" = "COM3") /\
  Ports.getDeviceName 3
    (snd (Ports.getDevice "COM3"
            (Ports.serve_all [Ports.req_portForDeviceName "COM9"]
               (snd (Ports.getDevice "COM7" Ports.used)))))
  = Some "COM7" /\
  Ports.getDeviceName 1
    (snd (Ports.getDevice "COM3"
            (Ports.serve_all [Ports.req_portForDeviceName "COM9"]
               (snd (Ports.getDevice "COM7" Ports.used)))))
  = Some "COM3".
Proof.
  apply (one_device_per_name
           [Ports.req_portForDeviceName "COM1";
            Ports.req_getPorts Ports.two_ports]
           [Ports.req_portForDeviceName "COM9"] "COM7" "COM3" 3 1
           (snd (Ports.getDevice "COM7" Ports.used))).
  - vm_compute. reflexivity.
  - vm_compute. reflexivity.
Defined.

(** X14.  [getPorts] returns one port for every listed port with a
    non-empty name, in the order of the list, and each represents the
    device of that name.  A device that was not known before gets the
    description and hardware id of its first entry in the list; the
    objects that existed before are left as they were, so a known
    device's details are not refreshed. *)
Theorem getPorts_represents_listed_ports rs list_ports ports m' :
  Ports.getPorts list_ports (Ports.serve_all rs Ports.initial) = (ports, m') ->
  map (fun p => Ports.getDeviceName (Ports.device p) m') ports
  = map Some (filter (fun n => negb (Ports.empty n))
                (map Ports.port list_ports)) /\
  (forall d dev,
     nth_error (Ports.heap (Ports.serve_all rs Ports.initial)) d = Some dev ->
     nth_error (Ports.heap m') d = Some dev) /\
  (forall name info,
     Ports.devices_at (Ports.devices (Ports.serve_all rs Ports.initial)) name
     = None ->
     Ports.empty name = false ->
     listed list_ports name = Some info ->
     exists d,
       Ports.devices_at (Ports.devices m') name = Some d /\
       nth_error (Ports.heap m') d
       = Some {| Ports.deviceName := name;
                 Ports.device_description := Ports.description info;
                 Ports.device_hardwareID := Ports.hardware_id info;
                 Ports.device_access := None |}).
Proof.
  intros H.
  pose proof (grows_serve_all rs Ports.initial consistent_initial) as [Hc _].
  destruct (getPorts_loop_contents list_ports [] _ Hc)
    as (_ & (more & Hh) & (new & Hn & Hnames) & Hl).
  unfold Ports.getPorts in H. rewrite H in *. cbn [fst snd app] in *.
  subst new. split; [exact Hnames|split; [|exact Hl]].
  intros d dev Hd. rewrite Hh. rewrite nth_error_app1; [exact Hd|].
  apply nth_error_Some. rewrite Hd. discriminate.
Qed.

Lemma getPorts_represents_listed_ports_witness :
  map (fun p => Ports.getDeviceName (Ports.device p)
                  (snd (Ports.getPorts Ports.two_ports
                          (Ports.serve_all [Ports.req_portForDeviceName "COM4"]
                             Ports.initial))))
    (fst (Ports.getPorts Ports.two_ports
            (Ports.serve_all [Ports.req_portForDeviceName "COM4"]
               Ports.initial)))
  = map Some (filter (fun n => negb (Ports.empty n))
                (map Ports.port Ports.two_ports)) /\
  (forall d dev,
     nth_error (Ports.heap (Ports.serve_all [Ports.req_portForDeviceName "COM4"]
                              Ports.initial)) d = Some dev ->
     nth_error
       (Ports.heap
          (snd (Ports.getPorts Ports.two_ports
                  (Ports.serve_all [Ports.req_portForDeviceName "COM4"]
                     Ports.initial)))) d = Some dev) /\
  (forall name info,
     Ports.devices_at
       (Ports.devices (Ports.serve_all [Ports.req_portForDeviceName "COM4"]
                         Ports.initial)) name = None ->
     Ports.empty name = false ->
     listed Ports.two_ports name = Some info ->
     exists d,
       Ports.devices_at
         (Ports.devices
            (snd (Ports.getPorts Ports.two_ports
                    (Ports.serve_all [Ports.req_portForDeviceName "COM4"]
                       Ports.initial)))) name = Some d /\
       nth_error
         (Ports.heap
            (snd (Ports.getPorts Ports.two_ports
                    (Ports.serve_all [Ports.req_portForDeviceName "COM4"]
                       Ports.initial)))) d
       = Some {| Ports.deviceName := name;
                 Ports.device_description := Ports.description info;
                 Ports.device_hardwareID := Ports.hardware_id info;
                 Ports.device_access := None |}).
Proof.
  apply (getPorts_represents_listed_ports
           [Ports.req_portForDeviceName "COM4"] Ports.two_ports).
  vm_compute. reflexivity.
Defined.

(** X15.  [portForDeviceName] throws std::invalid_argument for the empty
    name and leaves the manager as it was; for every other name it
    returns a port that represents the device of that name, whether or
    not such a port exists, creating the device object -- with empty
    description and hardware id -- only if the name was not known. *)
Theorem portForDeviceName_outcome rs name :
  if Ports.empty name then
    Ports.portForDeviceName name (Ports.serve_all rs Ports.initial)
    = (Throw (invalid_argument "Device name must not be empty."),
       Ports.serve_all rs Ports.initial)
  else
    exists d m',
      Ports.portForDeviceName name (Ports.serve_all rs Ports.initial)
      = (Ok {| Ports.device := d |}, m') /\
      Ports.getDeviceName d m' = Some name /\
      Ports.heap m'
      = Ports.heap (Ports.serve_all rs Ports.initial)
          ++ match Ports.devices_at
                     (Ports.devices (Ports.serve_all rs Ports.initial)) name with
             | Some _ => []
             | None => [{| Ports.deviceName := name;
                           Ports.device_description := EmptyString;
                           Ports.device_hardwareID := EmptyString;
                           Ports.device_access := None |}]
             end.
Proof.
  pose proof (grows_serve_all rs Ports.initial consistent_initial) as [Hc _].
  unfold Ports.portForDeviceName. destruct (Ports.empty name) eqn:He.
  - reflexivity.
  - destruct (getDeviceInternal_known _ name Hc He)
      as (d & m' & E & Hc' & Hat & _ & _ & Hh).
    exists d, m'. rewrite E. split; [reflexivity|].
    split; [now apply Hc'|exact Hh].
Qed.

(** X16.  [refreshDeviceDetails] gives the device the description and
    hardware id of the first listed port with the device's name and does
    nothing if no such port is listed; the device grows its name, no
    other device object changes and neither does the dictionary. *)
Theorem refreshDeviceDetails_updates_one_device list_ports d dev m :
  nth_error (Ports.heap m) d = Some dev ->
  Ports.devices (Ports.refreshDeviceDetails list_ports d m) = Ports.devices m /\
  (forall d', d' <> d ->
     nth_error (Ports.heap (Ports.refreshDeviceDetails list_ports d m)) d'
     = nth_error (Ports.heap m) d') /\
  nth_error (Ports.heap (Ports.refreshDeviceDetails list_ports d m)) d
  = Some match listed list_ports (Ports.deviceName dev) with
         | Some info =>
             {| Ports.deviceName := Ports.deviceName dev;
                Ports.device_description := Ports.description info;
                Ports.device_hardwareID := Ports.hardware_id info;
                Ports.device_access := Ports.device_access dev |}
         | None => dev
         end.
Proof.
  intros Hd. unfold Ports.refreshDeviceDetails. rewrite Hd.
  rewrite refreshDeviceDetails_loop_listed.
  destruct (listed list_ports (Ports.deviceName dev)) as [info|].
  - unfold Ports.setDescriptionAndHardwareID. cbn [Ports.heap Ports.devices].
    split; [reflexivity|split].
    + intros d' Hne. now apply nth_error_set_details_other.
    + now apply nth_error_set_details_same.
  - auto.
Qed.

Lemma refreshDeviceDetails_updates_one_device_witness :
  Ports.getDescription 0 (Ports.refreshDeviceDetails Ports.two_ports 0
                            (snd (Ports.getDevice "COM4" Ports.initial)))
  = Some "Modem".
Proof.
  unfold Ports.getDescription.
  rewrite (proj2 (proj2 (refreshDeviceDetails_updates_one_device
                           Ports.two_ports 0
                           {| Ports.deviceName := "COM4";
                              Ports.device_description := EmptyString;
                              Ports.device_hardwareID := EmptyString;
                              Ports.device_access := None |}
                           (snd (Ports.getDevice "COM4" Ports.initial))
                           eq_refl))).
  reflexivity.
Defined.

(** ** Controllers and the access object of their device *)

Section Sharing.

Import Ports.

Lemma weak_access_app h more ds ds' d :
  (forall dev, In dev more -> device_access dev = None) ->
  weak_access d {| heap := h ++ more; devices := ds' |}
  = weak_access d {| heap := h; devices := ds |}.
Proof.
  intros Hmore. unfold weak_access. cbn [heap].
  destruct (nth_error h d) as [dev|] eqn:Hd.
  - rewrite nth_error_app1, Hd; [reflexivity|].
    apply nth_error_Some. rewrite Hd. discriminate.
  - apply nth_error_None in Hd. rewrite nth_error_app2 by exact Hd.
    destruct (nth_error more (d - List.length h)) as [dev|] eqn:Hm;
      [|reflexivity].
    apply Hmore. eapply nth_error_In, Hm.
Qed.

Lemma weak_access_set_details h ds d desc hw d' :
  weak_access d' {| heap := set_details h d desc hw; devices := ds |}
  = weak_access d' {| heap := h; devices := ds |}.
Proof.
  unfold weak_access. cbn [heap].
  revert d d'. induction h as [|x h IH]; intros d d'; simpl.
  - reflexivity.
  - destruct d as [|d]; destruct d' as [|d']; simpl; auto.
Qed.

Lemma weak_access_getDeviceInternal name m d :
  weak_access d (snd (getDeviceInternal name m)) = weak_access d m.
Proof.
  unfold getDeviceInternal. destruct (empty name); [reflexivity|].
  destruct (devices_at (devices m) name); [reflexivity|].
  cbn [createShared fst snd heap devices]. destruct m as [h ds].
  cbn [heap devices]. apply weak_access_app.
  intros dev [<-|[]]. reflexivity.
Qed.

Lemma weak_access_getDeviceInternal_info info m d :
  weak_access d (snd (getDeviceInternal_info info m)) = weak_access d m.
Proof.
  unfold getDeviceInternal_info.
  destruct (devices_at (devices m) (port info)); [reflexivity|].
  cbn [createShared fst snd heap devices]. destruct m as [h ds].
  cbn [heap devices]. apply weak_access_app.
  intros dev [<-|[]]. reflexivity.
Qed.

Lemma weak_access_getPorts_loop l : forall ports m d,
  weak_access d (snd (getPorts_loop l ports m)) = weak_access d m.
Proof.
  induction l as [|info l IH]; intros ports m d; simpl.
  - reflexivity.
  - destruct (empty (port info)); [apply IH|].
    destruct (getDeviceInternal_info info m) as [d0 m1] eqn:E.
    rewrite IH. change m1 with (snd (d0, m1)). rewrite <- E.
    apply weak_access_getDeviceInternal_info.
Qed.

Lemma weak_access_portForDeviceName name m d :
  weak_access d (snd (portForDeviceName name m)) = weak_access d m.
Proof.
  unfold portForDeviceName. destruct (empty name); [reflexivity|].
  pose proof (weak_access_getDeviceInternal name m d) as H.
  destruct (getDeviceInternal name m) as [[d0|e| | |] m1]; exact H.
Qed.

Lemma weak_access_refreshDeviceDetails l d0 m d :
  weak_access d (refreshDeviceDetails l d0 m) = weak_access d m.
Proof.
  unfold refreshDeviceDetails.
  destruct (nth_error (heap m) d0) as [dev|]; [|reflexivity].
  induction l as [|info l IH]; simpl; [reflexivity|].
  destruct (String.eqb (port info) (deviceName dev)); [|exact IH].
  unfold setDescriptionAndHardwareID. destruct m as [h ds].
  apply weak_access_set_details.
Qed.

Lemma weak_access_serve r m d : weak_access d (serve r m) = weak_access d m.
Proof.
  destruct r as [l|name|name|l d0]; simpl.
  - apply weak_access_getPorts_loop.
  - apply weak_access_portForDeviceName.
  - apply weak_access_getDeviceInternal.
  - apply weak_access_refreshDeviceDetails.
Qed.

(** The port of a device name is the port of a device object. *)
Lemma portForDeviceName_valid name m port m1 :
  consistent m -> portForDeviceName name m = (Ok port, m1) ->
  consistent m1 /\ nth_error (heap m1) (device port) <> None.
Proof.
  intros Hc. unfold portForDeviceName.
  destruct (empty name) eqn:He; [discriminate|].
  destruct (getDeviceInternal_known m name Hc He)
    as (d & m' & -> & Hc' & Hat & _).
  intros [= <- <-]. split; [exact Hc'|]. cbn [device].
  apply Hc' in Hat. unfold getDeviceName in Hat.
  destruct (nth_error (heap m') d); [discriminate|discriminate].
Qed.

Lemma portForDeviceName_consistent name m :
  consistent m -> consistent (snd (portForDeviceName name m)).
Proof.
  intros Hc. exact (proj1 (grows_serve (req_portForDeviceName name) m Hc)).
Qed.

(** *** Use counts *)

Lemma nth_add_use counts a' a :
  a' < List.length counts ->
  nth a (add_use counts a') 0
  = nth a counts 0 + (if Nat.eqb a' a then 1 else 0).
Proof.
  revert a' a. induction counts as [|n counts IH]; intros a' a Hlt; simpl in *.
  - lia.
  - destruct a' as [|a']; destruct a as [|a]; simpl; try lia.
    apply IH. lia.
Qed.

Lemma length_add_use counts a :
  List.length (add_use counts a) = List.length counts.
Proof.
  revert a. induction counts as [|n counts IH]; intros a; simpl; auto.
  destruct a; simpl; auto.
Qed.

Lemma nth_drop_use counts a' a :
  nth a (drop_use counts a') 0
  = nth a counts 0 - (if Nat.eqb a' a then 1 else 0).
Proof.
  revert a' a. induction counts as [|n counts IH]; intros a' a; simpl.
  - destruct a; reflexivity.
  - destruct a' as [|a']; destruct a as [|a]; simpl; try lia.
    apply IH.
Qed.

Lemma length_drop_use counts a :
  List.length (drop_use counts a) = List.length counts.
Proof.
  revert a. induction counts as [|n counts IH]; intros a; simpl; auto.
  destruct a; simpl; auto.
Qed.

Lemma nth_new_use counts a :
  nth a (counts ++ [1]) 0
  = nth a counts 0 + (if Nat.eqb (List.length counts) a then 1 else 0).
Proof.
  destruct (Nat.lt_ge_cases a (List.length counts)) as [Hlt|Hge].
  - rewrite app_nth1 by exact Hlt.
    destruct (Nat.eqb_spec (List.length counts) a); lia.
  - rewrite app_nth2 by exact Hge. rewrite (nth_overflow counts) by exact Hge.
    destruct (Nat.eqb_spec (List.length counts) a) as [E|Hne].
    + rewrite <- E, Nat.sub_diag. reflexivity.
    + destruct (a - List.length counts) as [|[|k]] eqn:Ek; simpl; lia.
Qed.

Lemma holders_app a cs c :
  holders a (cs ++ [c])
  = holders a cs + (if Nat.eqb (access_of c) a then 1 else 0).
Proof.
  unfold holders. rewrite filter_app, length_app. simpl.
  destruct (Nat.eqb (access_of c) a); reflexivity.
Qed.

Lemma holders_remove_nth a : forall cs i c,
  nth_error cs i = Some c ->
  holders a (remove_nth i cs)
  = holders a cs - (if Nat.eqb (access_of c) a then 1 else 0).
Proof.
  unfold holders. induction cs as [|x cs IH]; intros i c Hi.
  - destruct i; discriminate.
  - destruct i as [|i]; simpl in *.
    + injection Hi as ->. destruct (Nat.eqb (access_of c) a); simpl; lia.
    + specialize (IH i c Hi).
      destruct (Nat.eqb (access_of x) a); simpl; [|exact IH].
      rewrite IH. destruct (Nat.eqb (access_of c) a) eqn:E; [|lia].
      assert (0 < List.length (filter (fun c0 => Nat.eqb (access_of c0) a) cs)).
      { apply nth_error_In in Hi.
        assert (Hin : In c (filter (fun c0 => Nat.eqb (access_of c0) a) cs))
          by (apply filter_In; auto).
        destruct (filter (fun c0 => Nat.eqb (access_of c0) a) cs);
          [destruct Hin|simpl; lia]. }
      lia.
Qed.

Lemma In_remove_nth {X} (x : X) : forall l i,
  In x (remove_nth i l) -> In x l.
Proof.
  induction l as [|y l IH]; intros i H; simpl in *.
  - destruct i; exact H.
  - destruct i as [|i]; simpl in *; [auto|].
    destruct H as [H|H]; [auto|right; eapply IH, H].
Qed.

Lemma holders_pos a cs c :
  In c cs -> access_of c = a -> 0 < holders a cs.
Proof.
  intros Hin E. unfold holders.
  assert (H : In c (filter (fun c0 => Nat.eqb (access_of c0) a) cs)).
  { apply filter_In. split; [exact Hin|]. now apply Nat.eqb_eq. }
  destruct (filter (fun c0 => Nat.eqb (access_of c0) a) cs);
    [destruct H|simpl; lia].
Qed.

(** *** The access member of one device *)

Lemma weak_access_assign h ds a d :
  nth_error h d <> None ->
  weak_access d {| heap := assign_access h d a; devices := ds |} = Some a.
Proof.
  unfold weak_access. cbn [heap].
  revert d. induction h as [|x h IH]; intros d Hd; simpl.
  - destruct d; simpl in Hd; congruence.
  - destruct d as [|d]; simpl; [reflexivity|]. apply IH. exact Hd.
Qed.

Lemma weak_access_assign_other h ds a d d' :
  d' <> d ->
  weak_access d' {| heap := assign_access h d a; devices := ds |}
  = weak_access d' {| heap := h; devices := ds |}.
Proof.
  unfold weak_access. cbn [heap].
  revert d d'. induction h as [|x h IH]; intros d d' Hne; simpl.
  - reflexivity.
  - destruct d as [|d]; destruct d' as [|d']; simpl; auto; congruence.
Qed.

Lemma getDeviceName_assign h ds a d d' :
  getDeviceName d' {| heap := assign_access h d a; devices := ds |}
  = getDeviceName d' {| heap := h; devices := ds |}.
Proof.
  unfold getDeviceName. cbn [heap].
  revert d d'. induction h as [|x h IH]; intros d d'; simpl.
  - reflexivity.
  - destruct d as [|d]; destruct d' as [|d']; simpl; auto.
Qed.

(** *** The invariant *)

Lemma sharing_start : sharing start.
Proof.
  unfold sharing, start. cbn [store manager use_count live].
  split; [exact consistent_initial|].
  split; [intros c []|].
  split; [intros a; destruct a; reflexivity|].
  split; intros d; unfold weak_access; simpl; destruct d; simpl; discriminate.
Qed.

(** A new controller of the device at [d]. *)
Lemma sharing_ctor m counts cs port :
  sharing {| store := {| manager := m; use_count := counts |}; live := cs |} ->
  nth_error (heap m) (device port) <> None ->
  sharing
    {| store := snd (HSerialController_ctor port
                       {| manager := m; use_count := counts |});
       live := cs ++ [fst (HSerialController_ctor port
                             {| manager := m; use_count := counts |})] |}.
Proof.
  intros (Hc & Hlive & Hcount & Hlt & Hinj) Hd.
  cbn [store manager use_count live] in *.
  unfold HSerialController_ctor, getAccess. cbn [manager use_count].
  destruct (lock_weak {| manager := m; use_count := counts |}
              (weak_access (device port) m)) as [a|] eqn:Hlock.
  - (* the device has an access object *)
    assert (Hweak : weak_access (device port) m = Some a
                    /\ 0 < nth a counts 0).
    { unfold lock_weak in Hlock. cbn [use_count] in Hlock.
      destruct (weak_access (device port) m) as [a0|]; [|discriminate].
      destruct (Nat.ltb_spec 0 (nth a0 counts 0)); [|discriminate].
      injection Hlock as <-. auto. }
    destruct Hweak as [Hweak Hpos].
    cbn [fst snd store manager use_count live port_of access_of].
    unfold sharing. cbn [store manager use_count live].
    split; [exact Hc|].
    split.
    { intros c Hin. apply in_app_or in Hin. destruct Hin as [Hin|[<-|[]]].
      - now apply Hlive.
      - exact Hweak. }
    split.
    { intros a'. rewrite nth_add_use by (eapply Hlt, Hweak).
      rewrite holders_app, Hcount. reflexivity. }
    split; [|exact Hinj].
    intros d a' Hda. rewrite length_add_use. eapply Hlt, Hda.
  - (* it has none: a new one is made *)
    assert (Hnone : forall c, In c cs -> device (port_of c) <> device port).
    { intros c Hin E. pose proof (Hlive c Hin) as Hw. rewrite E in Hw.
      unfold lock_weak in Hlock. rewrite Hw in Hlock. cbn [use_count] in Hlock.
      pose proof (holders_pos (access_of c) cs c Hin eq_refl) as Hpos.
      rewrite <- Hcount in Hpos.
      destruct (Nat.ltb_spec 0 (nth (access_of c) counts 0));
        [discriminate|lia]. }
    cbn [fst snd store manager use_count live port_of access_of].
    unfold sharing. cbn [store manager use_count live].
    destruct m as [h ds]. cbn [heap devices] in *.
    split.
    { intros name d. rewrite getDeviceName_assign. apply Hc. }
    split.
    { intros c Hin. apply in_app_or in Hin. destruct Hin as [Hin|[<-|[]]].
      - rewrite weak_access_assign_other by (now apply Hnone).
        now apply Hlive.
      - cbn [port_of access_of]. now apply weak_access_assign. }
    split.
    { intros a'. rewrite nth_new_use, holders_app, Hcount. reflexivity. }
    split.
    { intros d a' Hda. rewrite length_app. simpl.
      destruct (Nat.eq_dec d (device port)) as [->|Hne].
      - rewrite weak_access_assign in Hda by exact Hd.
        injection Hda as <-. lia.
      - rewrite weak_access_assign_other in Hda by exact Hne.
        apply Hlt in Hda. lia. }
    intros d1 d2 a' H1 H2.
    destruct (Nat.eq_dec d1 (device port)) as [E1|Hne1];
      destruct (Nat.eq_dec d2 (device port)) as [E2|Hne2].
    + congruence.
    + subst d1. rewrite weak_access_assign in H1 by exact Hd.
      rewrite weak_access_assign_other in H2 by exact Hne2.
      injection H1 as <-. apply Hlt in H2. lia.
    + subst d2. rewrite weak_access_assign in H2 by exact Hd.
      rewrite weak_access_assign_other in H1 by exact Hne1.
      injection H2 as <-. apply Hlt in H1. lia.
    + rewrite weak_access_assign_other in H1 by exact Hne1.
      rewrite weak_access_assign_other in H2 by exact Hne2.
      eapply Hinj; eauto.
Qed.

Lemma sharing_step p st : sharing p -> sharing (step p st).
Proof.
  intros Hs. destruct p as [[m counts] cs].
  destruct st as [name|i|r]; cbn [step store manager use_count live].
  - destruct (portForDeviceName name m) as [r m1] eqn:Hp.
    assert (Hs1 : sharing {| store := {| manager := m1; use_count := counts |};
                             live := cs |}).
    { destruct Hs as (Hc & Hlive & Hcount & Hlt & Hinj).
      cbn [store manager use_count live] in *.
      assert (Hw : forall d, weak_access d m1 = weak_access d m).
      { intros d. change m1 with (snd (r, m1)). rewrite <- Hp.
        apply weak_access_portForDeviceName. }
      unfold sharing. cbn [store manager use_count live].
      split.
      { change m1 with (snd (r, m1)). rewrite <- Hp.
        now apply portForDeviceName_consistent. }
      split; [intros c Hin; rewrite Hw; now apply Hlive|].
      split; [exact Hcount|].
      split; [intros d a; rewrite Hw; apply Hlt|].
      intros d1 d2 a. rewrite !Hw. apply Hinj. }
    destruct r as [port|e| | |]; try exact Hs1.
    destruct (portForDeviceName_valid name m port m1 (proj1 Hs) Hp)
      as [_ Hvalid].
    pose proof (sharing_ctor m1 counts cs port Hs1 Hvalid) as H.
    destruct (HSerialController_ctor port
                {| manager := m1; use_count := counts |}) as [c s1].
    exact H.
  - destruct (nth_error cs i) as [c|] eqn:Hi; [|exact Hs].
    destruct Hs as (Hc & Hlive & Hcount & Hlt & Hinj).
    cbn [store manager use_count live] in *.
    unfold sharing, HSerialController_dtor.
    cbn [store manager use_count live].
    split; [exact Hc|].
    split; [intros c' Hin; apply Hlive; eapply In_remove_nth, Hin|].
    split.
    { intros a. rewrite nth_drop_use, (holders_remove_nth a cs i c Hi), Hcount.
      reflexivity. }
    split; [|exact Hinj].
    intros d a Hda. rewrite length_drop_use. eapply Hlt, Hda.
  - destruct Hs as (Hc & Hlive & Hcount & Hlt & Hinj).
    cbn [store manager use_count live] in *.
    unfold sharing. cbn [store manager use_count live].
    split; [exact (proj1 (grows_serve r m Hc))|].
    split; [intros c Hin; rewrite weak_access_serve; now apply Hlive|].
    split; [exact Hcount|].
    split; [intros d a; rewrite weak_access_serve; apply Hlt|].
    intros d1 d2 a. rewrite !weak_access_serve. apply Hinj.
Qed.

Lemma sharing_steps sts : forall p, sharing p -> sharing (steps sts p).
Proof.
  induction sts as [|st sts IH]; intros p Hs; simpl.
  - exact Hs.
  - apply IH, sharing_step, Hs.
Qed.


Lemma holders_member a : forall cs,
  0 < holders a cs -> exists c, In c cs /\ access_of c = a.
Proof.
  unfold holders. induction cs as [|x cs IH]; simpl; intros H.
  - lia.
  - destruct (Nat.eqb_spec (access_of x) a) as [E|Hne].
    + exists x. auto.
    + destruct (IH H) as (c & Hin & E). exists c. auto.
Qed.

(** A device none of whose controllers is alive has no access object. *)
Lemma sharing_expired p d name :
  sharing p ->
  getDeviceName d (manager (store p)) = Some name ->
  (forall c, In c (live p) ->
     getDeviceName (device (port_of c)) (manager (store p)) <> Some name) ->
  lock_weak (store p) (weak_access d (manager (store p))) = None.
Proof.
  intros (Hc & Hlive & Hcount & Hlt & Hinj) Hname Hnone.
  unfold lock_weak.
  destruct (weak_access d (manager (store p))) as [a|] eqn:Hw; [|reflexivity].
  destruct (Nat.ltb_spec 0 (nth a (use_count (store p)) 0)) as [Hpos|];
    [|reflexivity].
  rewrite Hcount in Hpos. destruct (holders_member a _ Hpos) as (c & Hin & E).
  pose proof (Hlive c Hin) as Hwc. rewrite E in Hwc.
  exfalso. apply (Hnone c Hin). rewrite (Hinj _ _ _ Hwc Hw). exact Hname.
Qed.

End Sharing.



(** X25.  The access object of a device lives as long as its controllers:
    when no live controller is on the device named [name], a new controller
    for that name gets a new access object, none of those made before, and
    is its only holder. *)
Theorem last_controller_takes_access_along sts name :
  Ports.empty name = false ->
  (forall c, In c (Ports.live (Ports.steps sts Ports.start)) ->
     Ports.getDeviceName (Ports.device (Ports.port_of c))
       (Ports.manager (Ports.store (Ports.steps sts Ports.start)))
     <> Some name) ->
  exists c,
    Ports.live (Ports.step (Ports.steps sts Ports.start)
                  (Ports.new_controller name))
    = Ports.live (Ports.steps sts Ports.start) ++ [c] /\
    Ports.getDeviceName (Ports.device (Ports.port_of c))
      (Ports.manager (Ports.store
         (Ports.step (Ports.steps sts Ports.start)
            (Ports.new_controller name))))
    = Some name /\
    Ports.access_of c
    = List.length (Ports.use_count (Ports.store (Ports.steps sts Ports.start)))
    /\
    Ports.use_count (Ports.store
      (Ports.step (Ports.steps sts Ports.start) (Ports.new_controller name)))
    = Ports.use_count (Ports.store (Ports.steps sts Ports.start)) ++ [1].
Proof.
  intros Hne Hnone.
  pose proof (sharing_steps sts Ports.start sharing_start) as Hs.
  destruct (Ports.steps sts Ports.start) as [[m counts] cs].
  cbn [Ports.store Ports.manager Ports.use_count Ports.live] in *.
  pose proof (proj1 Hs) as Hc.
  cbn [Ports.store Ports.manager] in Hc.
  unfold Ports.step. cbn [Ports.store Ports.manager Ports.use_count Ports.live].
  unfold Ports.portForDeviceName. rewrite Hne.
  pose proof (weak_access_getDeviceInternal name m) as Hw1.
  destruct (getDeviceInternal_known m name Hc Hne)
    as (d & m1 & Hg & Hc1 & Hat & Hkeep & _ & _).
  rewrite Hg in *. cbn [snd] in Hw1.
  assert (Hexp : Ports.lock_weak {| Ports.manager := m1;
                                    Ports.use_count := counts |}
                   (Ports.weak_access d m1) = None).
  { rewrite Hw1.
    destruct (Ports.getDeviceName d m) as [n|] eqn:Hn.
    - apply (sharing_expired
               {| Ports.store := {| Ports.manager := m;
                                    Ports.use_count := counts |};
                  Ports.live := cs |} d name Hs); [|exact Hnone].
      cbn [Ports.store Ports.manager]. rewrite Hn. f_equal.
      apply Hc in Hn. apply Hkeep in Hn. apply Hc1 in Hn. apply Hc1 in Hat.
      congruence.
    - unfold Ports.weak_access. unfold Ports.getDeviceName in Hn.
      destruct (nth_error (Ports.heap m) d); [discriminate|reflexivity]. }
  unfold Ports.HSerialController_ctor, Ports.getAccess.
  cbn [Ports.manager Ports.use_count Ports.device]. rewrite Hexp.
  eexists. split; [reflexivity|].
  cbn [Ports.store Ports.manager Ports.use_count Ports.live Ports.port_of
       Ports.access_of Ports.device].
  split; [|split; reflexivity].
  destruct m1 as [h1 ds1]. rewrite getDeviceName_assign.
  now apply Hc1.
Qed.

Lemma last_controller_takes_access_along_witness :
  exists c,
    Ports.live (Ports.step (Ports.steps Ports.reopened Ports.start)
                  (Ports.new_controller "COM3")) = [c] /\
    Ports.access_of c = 1 /\
    Ports.use_count (Ports.store
      (Ports.step (Ports.steps Ports.reopened Ports.start)
         (Ports.new_controller "COM3"))) = [0; 1].
Proof.
  destruct (last_controller_takes_access_along Ports.reopened "COM3" eq_refl
              (fun c (H : False) => match H with end))
    as (c & H1 & _ & H2 & H3).
  exists c. split; [exact H1|split; [exact H2|exact H3]].
Defined.

(** ** HSerial's destructor *)

Lemma in_access_list_current cfg w w' c :
  state_currentController (access w') = state_currentController (access w) ->
  in_access_list cfg w c -> in_access_list cfg w' c.
Proof. intros E (cur & Hc & Hor). exists cur. rewrite E. auto. Qed.

(** [removeFromAccess] of a delegate; the fuel that suffices depends on
    the current controller only. *)
Lemma removeFromAccess_delegate cfg c w0 :
  Delegation.acyclic (delegates cfg) ->
  in_access_list cfg w0 c ->
  state_currentController (access w0) <> Some c ->
  exists fuel0, forall fuel, fuel0 <= fuel -> forall invoke w,
    state_currentController (access w) = state_currentController (access w0) ->
    tb_nextNumber (access w) = tb_readyNumber (access w) ->
    stateMutex_locked (access w) = false ->
    exists w',
      removeFromAccess cfg fuel invoke c w
      = (Throw (logic_error
                  ("Cannot remove controller from access if it is not the current controller. Controller: "
                     ++ getDescription cfg c ++ ".")), w') /\
      undisturbed [] w w' /\
      tb_nextNumber (access w') = tb_readyNumber (access w') /\
      state_transitionInProgress (access w') = false.
Proof.
  intros Hacyc Hin Hcur.
  destruct (isInAccessList_total cfg c w0 Hacyc) as [fuel0 Hf].
  exists fuel0. intros fuel Hle invoke w Hsame Hq Hl.
  destruct (Hf fuel Hle) as (b & Hb & Hi).
  destruct (TransitionBlocker_ctor_undisturbed cfg w Hq Hl)
    as (w1 & Hctor & Hu1).
  pose proof (TransitionBlocker_ctor_takes cfg _ _ _ Hctor)
    as (_ & N1 & R1 & _).
  pose proof Hu1 as (A1 & C1 & M1 & _).
  destruct (TransitionBlocker_dtor_undisturbed w1 ltac:(congruence))
    as (w2 & Hdtor & Hu2).
  pose proof (TransitionBlocker_dtor_gives _ _ _ Hdtor) as (R2 & N2 & T2 & _).
  specialize (Hi w1 ltac:(congruence)).
  exists w2. split; [|split; [|split]].
  - unfold removeFromAccess. rewrite (bind_eq_Ok _ _ _ _ _ Hctor).
    apply (scope_exit_eq _ _ _ _ w1 _); [|reflexivity|exact Hdtor].
    rewrite (bind_eq_Ok _ _ _ _ _ Hi). apply Hb in Hin. subst b.
    unfold bind, gets, throw. simpl. rewrite C1, Hsame.
    destruct (state_currentController (access w0)) as [cur|]; simpl; auto.
    destruct (Nat.eqb_spec c cur) as [->|Hne]; [congruence|reflexivity].
  - exact (undisturbed_trans [] [] _ _ _ Hu1 Hu2).
  - rewrite N2, R2, N1, R1, Hq. reflexivity.
  - exact T2.
Qed.

Lemma HSerial_removeFromAccess_delegate cfg c w0 :
  Delegation.acyclic (delegates cfg) ->
  in_access_list cfg w0 c ->
  state_currentController (access w0) <> Some c ->
  exists fuel0, forall fuel, fuel0 <= fuel -> forall invoke w,
    state_currentController (access w) = state_currentController (access w0) ->
    idle_delegate cfg c w ->
    exists w',
      HSerial_removeFromAccess cfg fuel invoke c w
      = (Throw (logic_error
                  ("Cannot remove controller from access if it is not the current controller. Controller: "
                     ++ getDescription cfg c ++ ".")), w') /\
      idle_delegate cfg c w' /\
      state_currentController (access w') = state_currentController (access w) /\
      state_activeController (access w') = state_activeController (access w) /\
      callback_log w' = callback_log w /\ store_log w' = store_log w.
Proof.
  intros Hacyc Hin0 Hcur0.
  destruct (removeFromAccess_delegate cfg c w0 Hacyc Hin0 Hcur0) as [fuel0 Hf].
  exists fuel0. intros fuel Hle invoke w Hsame (Hin & Hcur & Hq & Hp & Hl & Ham).
  set (w1 := with_hserial c (set_am_call true (this_thread cfg))
               (with_hserial c (set_am_serializingMutex_locked true) w)).
  destruct (Hf fuel Hle invoke w1 Hsame Hq Hl) as (w2 & Hr & Hu & Hq2 & Hp2).
  destruct Hu as (A2 & C2 & M2 & S2 & L2 & X2).
  rewrite app_nil_r in L2.
  eexists. split; [|split; [|split; [|split; [|split]]]].
  - unfold HSerial_removeFromAccess, with_AccessManagementGuard,
      AccessManagementGuard_ctor, AccessManagementGuard_dtor.
    unfold bind at 1. unfold bind at 1. rewrite Ham.
    unfold modify at 1. cbv beta iota. fold w1.
    apply (scope_exit_eq _ _ _ _ w2 _); [exact Hr|reflexivity|].
    unfold bind, modify. reflexivity.
  - unfold idle_delegate. cbn [access with_hserial].
    split; [apply (in_access_list_current cfg w); [exact C2|exact Hin]|].
    split; [rewrite C2; exact Hcur|]. split; [exact Hq2|]. split; [exact Hp2|].
    split; [rewrite M2; exact Hl|]. simpl. rewrite Nat.eqb_refl. reflexivity.
  - exact C2.
  - exact A2.
  - exact L2.
  - exact S2.
Qed.

(** An access call made while no transition is in progress returns, and
    leaves the access object as it was. *)
Lemma accessFunction_idle cfg c f w :
  stateMutex_locked (access w) = false ->
  state_transitionInProgress (access w) = false ->
  returns (fst (accessFunction cfg c f w)) = true /\
  state_currentController (access (snd (accessFunction cfg c f w)))
  = state_currentController (access w) /\
  state_activeController (access (snd (accessFunction cfg c f w)))
  = state_activeController (access w) /\
  tb_nextNumber (access (snd (accessFunction cfg c f w)))
  = tb_nextNumber (access w) /\
  tb_readyNumber (access (snd (accessFunction cfg c f w)))
  = tb_readyNumber (access w) /\
  state_transitionInProgress (access (snd (accessFunction cfg c f w))) = false /\
  stateMutex_locked (access (snd (accessFunction cfg c f w))) = false /\
  hserial (snd (accessFunction cfg c f w)) = hserial w /\
  callback_log (snd (accessFunction cfg c f w)) = callback_log w /\
  store_log (snd (accessFunction cfg c f w)) = store_log w.
Proof.
  intros Hl Hp. destruct w as [a hs clk sc cl sl].
  destruct a as [cur act num unb tip conc thr rdy nxt mtx].
  cbn in Hl, Hp. subst.
  unfold accessFunction, AccessGuard_ctor, AccessGuard_dtor, with_stateMutex,
    lock_stateMutex, unlock_stateMutex, throwIfNotActiveController,
    serial_call, accessCallMayProceed, scope_exit, bind, gets, modify, ret,
    throw, block.
  cbn.
  destruct act as [y|]; [destruct (Nat.eqb c y)|]; cbn;
    try (destruct (serial_throws cfg sc f); cbn); repeat split; auto.
Qed.

(** X19.  Destroying an HSerial controller that is on the access list as
    a delegate or subdelegate of the current controller terminates the
    program: removeFromAccess throws in the destructor's try block and
    again in its catch block -- or close() does there, if the controller
    is not active or the driver fails -- and the exception leaves the
    destructor. *)
Theorem destroying_a_delegate_terminates cfg c w :
  Delegation.acyclic (delegates cfg) ->
  class_of cfg c = HSerial ->
  idle_delegate cfg c w ->
  exists fuel0, forall fuel, fuel0 <= fuel ->
    fst (destroy_HSerial cfg fuel c w) = Terminate /\
    callback_log (snd (destroy_HSerial cfg fuel c w)) = callback_log w /\
    store_log (snd (destroy_HSerial cfg fuel c w)) = store_log w.
Proof.
  intros Hacyc _ Hidle. pose proof Hidle as (Hin & Hcur & _).
  destruct (HSerial_removeFromAccess_delegate cfg c w Hacyc Hin Hcur)
    as [fuel0 Hf].
  exists fuel0. intros fuel Hle.
  destruct (Hf fuel Hle (dispatch cfg fuel) w eq_refl Hidle)
    as (w1 & H1 & Hidle1 & C1 & A1 & L1 & S1).
  destruct (destroy_HSerial cfg fuel c w) as [r w'] eqn:E.
  cbn [fst snd]. revert E.
  unfold destroy_HSerial, HSerial_dtor. unfold bind at 1. rewrite H1.
  unfold noexcept. unfold bind at 1.
  pose proof Hidle1 as (_ & _ & Hq1 & Hp1 & Hl1 & _).
  destruct (accessFunction_idle cfg c f_close w1 Hl1 Hp1)
    as (Hret & Cc & Ac & Nc & Rc & Pc & Mc & Xc & Lc & Sc).
  destruct (accessFunction cfg c f_close w1) as [r2 w2].
  cbn [fst snd] in *.
  destruct r2 as [b|e| | |]; try discriminate Hret.
  - assert (Hidle2 : idle_delegate cfg c w2).
    { destruct Hidle1 as (Hin1 & Hcur1 & _ & _ & _ & Ham1).
      unfold idle_delegate. rewrite Cc, Nc, Rc, Pc, Mc, Xc.
      repeat split; auto.
      apply (in_access_list_current cfg w1); [exact Cc|exact Hin1]. }
    destruct (Hf fuel Hle (dispatch cfg fuel) w2 ltac:(congruence) Hidle2)
      as (w3 & H3 & _ & _ & _ & L3 & S3).
    rewrite H3. cbn [stop]. intros [= <- <-]. repeat split; congruence.
  - cbn [stop]. intros [= <- <-]. repeat split; congruence.
Qed.

Lemma destroying_a_delegate_terminates_witness :
  exists fuel0, forall fuel, fuel0 <= fuel ->
    fst (destroy_HSerial lent_cfg fuel 2 (Examples.after_makeActive lent_cfg 1))
    = Terminate /\
    callback_log
      (snd (destroy_HSerial lent_cfg fuel 2
              (Examples.after_makeActive lent_cfg 1)))
    = callback_log (Examples.after_makeActive lent_cfg 1) /\
    store_log
      (snd (destroy_HSerial lent_cfg fuel 2
              (Examples.after_makeActive lent_cfg 1)))
    = store_log (Examples.after_makeActive lent_cfg 1).
Proof.
  apply (destroying_a_delegate_terminates lent_cfg 2
           (Examples.after_makeActive lent_cfg 1)).
  - exact (registered_acyclic _ tree_registered).
  - reflexivity.
  - unfold idle_delegate. split; [|repeat split; try discriminate].
    exists 1. split; [reflexivity|]. right. constructor. simpl. auto.
Defined.

Lemma HSerial_removeFromAccess_Ok cfg fuel c w u w' :
  HSerial_removeFromAccess cfg fuel (dispatch cfg fuel) c w = (Ok u, w') ->
  ~ in_access_list cfg w' c.
Proof.
  intros H. unfold HSerial_removeFromAccess in H.
  apply with_AccessManagementGuard_Ok in H.
  destruct H as (w1 & w2 & E1 & H & E2).
  destruct (removeFromAccess_Ok cfg fuel _ (calm_dispatch cfg fuel)
              (holds_dispatch cfg fuel) c w1 u w2 H) as [Hn _].
  intros Hin. apply Hn. now apply (in_access_list_access cfg w').
Qed.

(** X20.  When HSerial's destructor returns, the controller is not on the
    access list -- whatever the callbacks of the other controllers did,
    and whether it was the first removeFromAccess that succeeded or the
    one made after close(). *)
Theorem destructor_leaves_access_list cfg fuel c w :
  fst (destroy_HSerial cfg fuel c w) = Ok tt ->
  ~ in_access_list cfg (snd (destroy_HSerial cfg fuel c w)) c.
Proof.
  destruct (destroy_HSerial cfg fuel c w) as [r w'] eqn:E.
  cbn [fst snd]. revert E.
  unfold destroy_HSerial, HSerial_dtor. unfold bind at 1.
  destruct (HSerial_removeFromAccess cfg fuel (dispatch cfg fuel) c w)
    as [r1 w1] eqn:E1.
  destruct r1 as [[]|e1| | |];
    try (cbn [stop]; intros [= <- <-]; discriminate).
  - unfold isActive, bind, gets, ret. intros [= <- <-] _.
    exact (HSerial_removeFromAccess_Ok cfg fuel c w tt w1 E1).
  - unfold noexcept.
    destruct ((accessFunction cfg c f_close ;;
               HSerial_removeFromAccess cfg fuel (dispatch cfg fuel) c) w1)
      as [r2 w2] eqn:E2.
    destruct r2 as [[]|e2| | |];
      try (cbn [stop]; intros [= <- <-]; discriminate).
    unfold isActive, bind, gets, ret. intros [= <- <-] _.
    apply bind_Ok in E2. destruct E2 as (b & w1' & _ & E2).
    exact (HSerial_removeFromAccess_Ok cfg fuel c w1' tt w2 E2).
Qed.

Lemma destructor_leaves_access_list_witness :
  ~ in_access_list Examples.plain_cfg
      (snd (destroy_HSerial Examples.plain_cfg 5 3
              (Examples.after_makeLockedActive Examples.plain_cfg 3))) 3.
Proof.
  apply (destructor_leaves_access_list Examples.plain_cfg 5 3
           (Examples.after_makeLockedActive Examples.plain_cfg 3)).
  vm_compute. reflexivity.
Defined.

(** ** Concurrent active controller changes *)

Lemma stateMutex_round_trip w :
  stateMutex_locked (access w) = false ->
  with_access (set_stateMutex_locked false)
    (with_access (set_stateMutex_locked true) w) = w.
Proof.
  destruct w as [a hs clk sc cl sl].
  destruct a as [cur act num unb tip conc thr rdy nxt mtx].
  simpl. intros ->. reflexivity.
Qed.

Lemma shouldPerform_in_window cfg fuel c w b :
  concurrent_window cfg w ->
  (forall w1,
     state_currentController (access w1) = state_currentController (access w) ->
     isInAccessList cfg fuel c w1 = (Ok b, w1)) ->
  shouldPerformConcurrentActiveControllerChange cfg fuel c w = (Ok b, w).
Proof.
  intros (Hp & Hc & Ht & Hl & _) Hi.
  unfold shouldPerformConcurrentActiveControllerChange, with_stateMutex,
    lock_stateMutex, unlock_stateMutex.
  unfold bind at 1. rewrite Hl.
  unfold scope_exit, bind at 1, gets.
  cbn [access with_access state_transitionInProgress
       state_concurrentActiveControllerChangeAllowed state_transitionThread
       set_stateMutex_locked].
  rewrite Hp, Hc, Ht, Nat.eqb_refl. cbn [andb].
  rewrite (Hi (with_access (set_stateMutex_locked true) w) eq_refl).
  unfold modify. now rewrite (stateMutex_round_trip w Hl).
Qed.

(** X21.  In the window in which concurrent active controller changes are
    allowed -- on the transition thread, inside willRemove or
    didCancelRemove -- makeActive and makeInactive of a controller on the
    access list are the bare active controller change, made at once
    without the transition queue (or nothing, if the controller already
    is, or is not, active); for a controller that is not on the access
    list they wait for the queue, which the transition in progress holds,
    and never return. *)
Theorem concurrent_active_controller_change cfg c w :
  Delegation.acyclic (delegates cfg) ->
  concurrent_window cfg w ->
  exists fuel0, forall fuel, fuel0 <= fuel -> forall invoke,
    (in_access_list cfg w c ->
     makeActive cfg fuel invoke c w
     = (if opt_eqb (Some c) (state_activeController (access w))
        then (Ok tt, w)
        else performActiveControllerChange cfg invoke (Some c) w) /\
     makeInactive cfg fuel invoke c w
     = (if opt_eqb (Some c) (state_activeController (access w))
        then performActiveControllerChange cfg invoke None w
        else (Ok tt, w))) /\
    (~ in_access_list cfg w c ->
     fst (makeActive cfg fuel invoke c w) = Blocked /\
     fst (makeInactive cfg fuel invoke c w) = Blocked).
Proof.
  intros Hacyc Hwin.
  destruct (isInAccessList_total cfg c w Hacyc) as [fuel0 Hf].
  exists fuel0. intros fuel Hle invoke.
  destruct (Hf fuel Hle) as (b & Hb & Hi).
  pose proof (shouldPerform_in_window cfg fuel c w b Hwin Hi) as Hs.
  split.
  - intros Hin. apply Hb in Hin. subst b.
    unfold makeActive, makeInactive.
    rewrite !(bind_eq_Ok _ _ _ _ _ Hs). cbv iota.
    unfold bind, gets. cbv beta iota.
    destruct (opt_eqb (Some c) (state_activeController (access w)));
      split; reflexivity.
  - intros Hn. destruct b; [destruct Hn; now apply Hb|].
    destruct Hwin as (_ & _ & _ & _ & Hq).
    destruct (TransitionBlocker_ctor_waits cfg w Hq) as (Hblk & _).
    unfold makeActive, makeInactive.
    rewrite !(bind_eq_Ok _ _ _ _ _ Hs). cbv iota.
    rewrite !(blocked_bind _ _ w Hblk). split; reflexivity.
Qed.

Lemma concurrent_active_controller_change_witness :
  exists fuel0, forall fuel, fuel0 <= fuel -> forall invoke,
    (in_access_list Examples.plain_cfg (in_willRemove Examples.plain_cfg 1) 2 ->
     makeActive Examples.plain_cfg fuel invoke 2
       (in_willRemove Examples.plain_cfg 1)
     = (if opt_eqb (Some 2)
             (state_activeController
                (access (in_willRemove Examples.plain_cfg 1)))
        then (Ok tt, in_willRemove Examples.plain_cfg 1)
        else performActiveControllerChange Examples.plain_cfg invoke (Some 2)
               (in_willRemove Examples.plain_cfg 1)) /\
     makeInactive Examples.plain_cfg fuel invoke 2
       (in_willRemove Examples.plain_cfg 1)
     = (if opt_eqb (Some 2)
             (state_activeController
                (access (in_willRemove Examples.plain_cfg 1)))
        then performActiveControllerChange Examples.plain_cfg invoke None
               (in_willRemove Examples.plain_cfg 1)
        else (Ok tt, in_willRemove Examples.plain_cfg 1))) /\
    (~ in_access_list Examples.plain_cfg (in_willRemove Examples.plain_cfg 1) 2 ->
     fst (makeActive Examples.plain_cfg fuel invoke 2
            (in_willRemove Examples.plain_cfg 1)) = Blocked /\
     fst (makeInactive Examples.plain_cfg fuel invoke 2
            (in_willRemove Examples.plain_cfg 1)) = Blocked).
Proof.
  apply (concurrent_active_controller_change Examples.plain_cfg 2
           (in_willRemove Examples.plain_cfg 1)).
  - exact (registered_acyclic _ tree_registered).
  - unfold concurrent_window. repeat split; try (vm_compute; reflexivity).
    vm_compute. discriminate.
Defined.

(** ** Blocking access calls *)

(** X22.  While a transition has access calls blocked, an access call of
    the active controller waits if it is made on another thread than the
    transition thread -- the counter of unreturned access calls and the
    driver are not touched -- and goes ahead to the driver if it is made
    on the transition thread, as from a transition callback. *)
Theorem access_calls_wait_while_blocked cfg c f w :
  stateMutex_locked (access w) = false ->
  state_transitionInProgress (access w) = true ->
  state_accessIsUnblocked (access w) = false ->
  state_activeController (access w) = Some c ->
  (state_transitionThread (access w) <> this_thread cfg ->
   accessFunction cfg c f w = (Blocked, with_access (set_stateMutex_locked true) w)) /\
  (state_transitionThread (access w) = this_thread cfg ->
   returns (fst (accessFunction cfg c f w)) = true /\
   serial_calls (snd (accessFunction cfg c f w)) = serial_calls w ++ [f] /\
   state_numUnreturnedAccessCalls (access (snd (accessFunction cfg c f w)))
   = state_numUnreturnedAccessCalls (access w) /\
   state_accessIsUnblocked (access (snd (accessFunction cfg c f w))) = false).
Proof.
  intros Hl Hp Hu Ha. destruct w as [a hs clk sc cl sl].
  destruct a as [cur act num unb tip conc thr rdy nxt mtx].
  cbn in Hl, Hp, Hu, Ha. subst.
  unfold accessFunction, AccessGuard_ctor, AccessGuard_dtor, with_stateMutex,
    lock_stateMutex, unlock_stateMutex, throwIfNotActiveController,
    serial_call, accessCallMayProceed, scope_exit, bind, gets, modify, ret,
    throw, block.
  cbn. split.
  - intros Ht. apply Nat.eqb_neq in Ht. rewrite Nat.eqb_sym in Ht.
    rewrite Ht. reflexivity.
  - intros ->. rewrite !Nat.eqb_refl. cbn. rewrite !Nat.eqb_refl. cbn.
    destruct (serial_throws cfg sc f); cbn; repeat split; auto; lia.
Qed.

Lemma access_calls_wait_while_blocked_witness :
  accessFunction Examples.plain_cfg 1 f_read
    (with_access (set_transitionThread 8)
       (with_access (set_accessIsUnblocked false)
          (Examples.at_queue_head Examples.plain_cfg 1)))
  = (Blocked,
     with_access (set_stateMutex_locked true)
       (with_access (set_transitionThread 8)
          (with_access (set_accessIsUnblocked false)
             (Examples.at_queue_head Examples.plain_cfg 1)))).
Proof.
  apply (access_calls_wait_while_blocked Examples.plain_cfg 1 f_read
           (with_access (set_transitionThread 8)
              (with_access (set_accessIsUnblocked false)
                 (Examples.at_queue_head Examples.plain_cfg 1))));
    try (vm_compute; reflexivity).
  vm_compute. discriminate.
Defined.

(** X23.  blockAccessCalls, unblockAccessCalls and
    waitForAllAccessCallsToReturn are for the transition callbacks of the
    active controller: called when no transition is in progress, or on
    another thread than the transition thread, they throw the
    std::logic_error about transition callbacks; called in a transition
    by a controller that is not active, the one about the active
    controller; in both cases nothing has changed.  Otherwise
    blockAccessCalls clears and unblockAccessCalls sets
    [state_accessIsUnblocked], and nothing else. *)
Theorem blocking_is_for_transition_callbacks cfg c w :
  stateMutex_locked (access w) = false ->
  (called_in_transition cfg c w ->
   blockAccessCalls cfg c w
   = (Ok tt, with_access (set_accessIsUnblocked false) w) /\
   unblockAccessCalls cfg c w
   = (Ok tt, with_access (set_accessIsUnblocked true) w)) /\
  (state_transitionInProgress (access w) = false \/
   state_transitionThread (access w) <> this_thread cfg ->
   blockAccessCalls cfg c w
   = (Throw (logic_error
               ("Calling blockAccessCalls is allowed only from a transition callback or subcall. Controller: "
                  ++ getDescription cfg c ++ ".")), w) /\
   unblockAccessCalls cfg c w
   = (Throw (logic_error
               ("Calling unblockAccessCalls is allowed only from a transition callback or subcall. Controller: "
                  ++ getDescription cfg c ++ ".")), w) /\
   forall timeout,
     waitForAllAccessCallsToReturn cfg c timeout w
     = (Throw (logic_error
                 ("Calling waitForAllAccessCallsToReturn is allowed only from a transition callback or subcall. Controller: "
                    ++ getDescription cfg c ++ ".")), w)) /\
  (state_transitionInProgress (access w) = true ->
   state_transitionThread (access w) = this_thread cfg ->
   state_activeController (access w) <> Some c ->
   blockAccessCalls cfg c w
   = (Throw (logic_error
               ("The controller must be active to call blockAccessCalls. Inactive controller: "
                  ++ getDescription cfg c ++ ".")), w) /\
   unblockAccessCalls cfg c w
   = (Throw (logic_error
               ("The controller must be active to call unblockAccessCalls. Inactive controller: "
                  ++ getDescription cfg c ++ ".")), w) /\
   forall timeout,
     waitForAllAccessCallsToReturn cfg c timeout w
     = (Throw (logic_error
                 ("The controller must be active to call waitForAllAccessCallsToReturn. Inactive controller: "
                    ++ getDescription cfg c ++ ".")), w)).
Proof.
  intros Hl. destruct w as [a hs clk sc cl sl].
  destruct a as [cur act num unb tip conc thr rdy nxt mtx].
  cbn in Hl. subst mtx.
  unfold called_in_transition, blockAccessCalls, unblockAccessCalls,
    waitForAllAccessCallsToReturn, with_stateMutex, lock_stateMutex,
    unlock_stateMutex, throwIfNotTransitionCorrect,
    throwIfNotActiveController, scope_exit, bind, gets, modify, ret, throw.
  cbn. split; [|split].
  - intros (_ & -> & -> & ->). rewrite !Nat.eqb_refl. cbn.
    rewrite !Nat.eqb_refl. cbn. split; reflexivity.
  - intros [->|Ht]; cbn; [repeat split; reflexivity|].
    apply Nat.eqb_neq in Ht. rewrite Nat.eqb_sym in Ht. rewrite Ht.
    destruct tip; cbn; repeat split; reflexivity.
  - intros -> -> Ha. rewrite !Nat.eqb_refl. cbn.
    assert (Hne : match act with Some y => c =? y | None => false end = false).
    { destruct act as [y|]; [|reflexivity]. apply Nat.eqb_neq. congruence. }
    rewrite !Hne. cbn. repeat split; reflexivity.
Qed.

Lemma blocking_is_for_transition_callbacks_witness :
  blockAccessCalls Examples.plain_cfg 1
    (Examples.at_queue_head Examples.plain_cfg 1)
  = (Ok tt,
     with_access (set_accessIsUnblocked false)
       (Examples.at_queue_head Examples.plain_cfg 1)) /\
  unblockAccessCalls Examples.plain_cfg 1
    (Examples.at_queue_head Examples.plain_cfg 1)
  = (Ok tt,
     with_access (set_accessIsUnblocked true)
       (Examples.at_queue_head Examples.plain_cfg 1)).
Proof.
  apply (proj1 (blocking_is_for_transition_callbacks Examples.plain_cfg 1
                  (Examples.at_queue_head Examples.plain_cfg 1) eq_refl)).
  unfold called_in_transition. repeat split; vm_compute; reflexivity.
Defined.
